(** * The array schema kernel of TileDB: a shallow embedding and its properties

    The development follows [core/src/array/array_schema.cc]: the schema
    object and its builder ([init] and the setters), the binary codec
    ([serialize], [deserialize], [compute_bin_size]), the derived fields
    and the geometry kernel (cell and tile positions, tile enumeration,
    overlap classification).

    Conventions.
    - A C++ integer is a [Z]; arithmetic that the source performs in a
      fixed width is wrapped explicitly ([to_int], [to_int64], [to_size_t]).
    - Raw memory ([void*] blobs, the serialized buffer) is a [list byte];
      the platform is little-endian with 4-byte [int], 8-byte [int64_t] and
      [size_t], and a signed [char].
    - A call either returns a value, returns [TILEDB_AS_ERR], stops at a
      failed [assert], or has no defined behaviour; see [res]. *)

From Stdlib Require Import ZArith String Ascii Bool Lia List.
From Stdlib Require Import Strings.Byte.
From Stdlib Require Floats.SpecFloat.
Import ListNotations.
Local Open Scope Z_scope.

(* ================================================================= *)
(** ** Outcomes of a call *)

Inductive res (A : Type) : Type :=
| Ok (a : A)   (* normal return; for [int]-returning members: TILEDB_AS_OK *)
| Err          (* the member returns TILEDB_AS_ERR *)
| Fail         (* an [assert] does not hold: the process aborts *)
| Undef.       (* undefined behaviour, or an exception nobody catches *)

Arguments Ok {A} a.
Arguments Err {A}.
Arguments Fail {A}.
Arguments Undef {A}.

Definition bind {A B : Type} (m : res A) (k : A -> res B) : res B :=
  match m with
  | Ok a => k a
  | Err => Err
  | Fail => Fail
  | Undef => Undef
  end.

Notation "x <- m ;; k" := (bind m (fun x => k))
  (at level 61, m at next level, right associativity).
Notation "' p <- m ;; k" := (bind m (fun p => k))
  (at level 61, p pattern, m at next level, right associativity).

Definition assert (b : bool) : res unit := if b then Ok tt else Fail.

(** [l[i]] on a C array or a [std::vector]: reading outside is undefined. *)
Definition at_ {A : Type} (l : list A) (i : Z) : res A :=
  if i <? 0 then Undef
  else match nth_error l (Z.to_nat i) with
       | Some a => Ok a
       | None => Undef
       end.

(** [l[i] = v]. *)
Fixpoint set_nth {A : Type} (l : list A) (n : nat) (v : A) : option (list A) :=
  match l, n with
  | [], _ => None
  | _ :: r, O => Some (v :: r)
  | a :: r, S k => option_map (cons a) (set_nth r k v)
  end.

Definition put_ {A : Type} (l : list A) (i : Z) (v : A) : res (list A) :=
  if i <? 0 then Undef
  else match set_nth l (Z.to_nat i) v with
       | Some l' => Ok l'
       | None => Undef
       end.

Definition len {A : Type} (l : list A) : Z := Z.of_nat (length l).

(** [for (i = 0; i < n; ++i) body(i, state)], threading the outcome. *)
Fixpoint for_loop_from {St : Type} (i : Z) (n : nat)
         (body : Z -> St -> res St) (st : St) : res St :=
  match n with
  | O => Ok st
  | S k => st' <- body i st ;; for_loop_from (i + 1) k body st'
  end.

Definition for_loop {St : Type} (n : Z) (body : Z -> St -> res St) (st : St)
  : res St :=
  for_loop_from 0 (Z.to_nat n) body st.

(* ================================================================= *)
(** ** Machine integers *)

Definition wrap_signed (w : Z) (z : Z) : Z :=
  (z + 2 ^ (w - 1)) mod 2 ^ w - 2 ^ (w - 1).

Definition wrap_unsigned (w : Z) (z : Z) : Z := z mod 2 ^ w.

Definition to_char (z : Z) : Z := wrap_signed 8 z.
Definition to_int (z : Z) : Z := wrap_signed 32 z.
Definition to_int64 (z : Z) : Z := wrap_signed 64 z.
Definition to_size_t (z : Z) : Z := wrap_unsigned 64 z.

Definition INT_MAX : Z := 2 ^ 31 - 1.

(* ================================================================= *)
(** ** Bytes and [memcpy] of scalars *)

Definition byte_of_Z (z : Z) : byte :=
  match Byte.of_N (Z.to_N (z mod 256)) with
  | Some b => b
  | None => x00
  end.

Definition Z_of_byte (b : byte) : Z := Z.of_N (Byte.to_N b).

(** The [n] bytes of the object representation of an integer. *)
Fixpoint le_bytes (n : nat) (z : Z) : list byte :=
  match n with
  | O => []
  | S k => byte_of_Z z :: le_bytes k (z / 256)
  end.

(** The unsigned value held by a run of bytes. *)
Fixpoint le_value (bs : list byte) : Z :=
  match bs with
  | [] => 0
  | b :: r => Z_of_byte b + 256 * le_value r
  end.

(** The byte of a [bool] object, which holds 0 or 1. *)
Definition bytes_of_bool (b : bool) : list byte :=
  [if b then x01 else x00].

(** Reading a [bool] object out of a copied byte: any non-zero byte counts
    as [true].  [deserialize] copies the byte as it is; a byte other than
    0 and 1 is no value of [bool], and the model reads it as [true]:
    writing the member back then gives 1, where the code writes the byte
    it has copied. *)
Definition bool_of_bytes (bs : list byte) : bool :=
  negb (le_value bs =? 0).

Definition bytes_of_string (s : string) : list byte := list_byte_of_string s.
Definition string_of_bytes (bs : list byte) : string := string_of_list_byte bs.
Definition size (s : string) : Z := Z.of_nat (String.length s).

(* ================================================================= *)
(** ** Types of cells and coordinates *)

(** The [std::type_info] objects the schema points to. *)
Inductive Datatype : Type :=
| T_char | T_int | T_int64_t | T_float | T_double.

Definition Datatype_eqb (a b : Datatype) : bool :=
  match a, b with
  | T_char, T_char | T_int, T_int | T_int64_t, T_int64_t
  | T_float, T_float | T_double, T_double => true
  | _, _ => false
  end.

Definition sizeof (t : Datatype) : Z :=
  match t with
  | T_char => 1
  | T_int => 4
  | T_int64_t => 8
  | T_float => 4
  | T_double => 8
  end.

Definition is_integral (t : Datatype) : bool :=
  match t with
  | T_int | T_int64_t => true
  | _ => false
  end.

(** A value of type [t] after arithmetic: integers wrap to their width.
    Floating-point values are carried as their bit pattern. *)
Definition wrapT (t : Datatype) (z : Z) : Z :=
  match t with
  | T_char => wrap_signed 8 z
  | T_int => wrap_signed 32 z
  | T_int64_t => wrap_signed 64 z
  | T_float => wrap_unsigned 32 z
  | T_double => wrap_unsigned 64 z
  end.

(** [static_cast<const T*>(blob)]: the elements of type [t] a blob holds.
    A null blob holds none, so that every read through it is undefined. *)
Fixpoint split_elems (w : nat) (n : nat) (bs : list byte) : list (list byte) :=
  match n with
  | O => []
  | S k => firstn w bs :: split_elems w k (skipn w bs)
  end.

Definition elems (t : Datatype) (bs : list byte) : list Z :=
  let w := Z.to_nat (sizeof t) in
  map (fun c => wrapT t (le_value c)) (split_elems w (length bs / w)%nat bs).

Definition cast (t : Datatype) (blob : option (list byte)) : list Z :=
  match blob with
  | Some bs => elems t bs
  | None => []
  end.

(** The bytes of an array of [t]. *)
Definition store (t : Datatype) (vs : list Z) : list byte :=
  flat_map (le_bytes (Z.to_nat (sizeof t))) vs.

(** [a > b] on IEEE-754 bit patterns of width [w]: false when either is a
    NaN; otherwise the order of sign and magnitude, with -0 = +0. *)
Definition fp_is_nan (w : Z) (bits : Z) : bool :=
  let mag := bits mod 2 ^ (w - 1) in
  if w =? 32 then 2139095040 <? mag else 9218868437227405312 <? mag.

Definition fp_key (w : Z) (bits : Z) : Z :=
  let mag := bits mod 2 ^ (w - 1) in
  if bits mod 2 ^ w <? 2 ^ (w - 1) then mag else - mag.

Definition fp_gt (w : Z) (a b : Z) : bool :=
  negb (fp_is_nan w a) && negb (fp_is_nan w b) && (fp_key w b <? fp_key w a).

Definition fp_eq (w : Z) (a b : Z) : bool :=
  negb (fp_is_nan w a) && negb (fp_is_nan w b) && (fp_key w a =? fp_key w b).

(** [a > b], [a < b], [a >= b], [a == b] and [a != b] at type [t]. *)
Definition gtT (t : Datatype) (a b : Z) : bool :=
  match t with
  | T_float => fp_gt 32 a b
  | T_double => fp_gt 64 a b
  | _ => b <? a
  end.

Definition ltT (t : Datatype) (a b : Z) : bool := gtT t b a.

Definition eqT (t : Datatype) (a b : Z) : bool :=
  match t with
  | T_float => fp_eq 32 a b
  | T_double => fp_eq 64 a b
  | _ => a =? b
  end.

Definition geT (t : Datatype) (a b : Z) : bool := gtT t a b || eqT t a b.

Definition neT (t : Datatype) (a b : Z) : bool := negb (eqT t a b).

(** [std::max(a, b)] and [std::min(a, b)]. *)
Definition maxT (t : Datatype) (a b : Z) : Z := if ltT t a b then b else a.
Definition minT (t : Datatype) (a b : Z) : Z := if ltT t b a then b else a.

(* ================================================================= *)
(** ** What the headers provide

    [array_schema.h], [constants.h], [utils.h] and the Hilbert curve are
    not part of the sources at hand.  Their constants and helpers are the
    fields of an environment, over which the whole model is parameterised.
    Enumerators ([TileOrder], [CellOrder], [Compression]) are their integer
    values.  The [fp_] fields stand for floating-point arithmetic: they
    are consulted only where the source computes in [float] or [double]
    and the result is not determined by integer arithmetic. *)

Record Env : Type := mkEnv {
  (* constants.h: type codes of the binary format *)
  TILEDB_CHAR : Z;
  TILEDB_INT32 : Z;
  TILEDB_INT64 : Z;
  TILEDB_FLOAT32 : Z;
  TILEDB_FLOAT64 : Z;
  (* constants.h: name of the coordinates pseudo-attribute, size of a
     variable-cell offset *)
  TILEDB_COORDS_NAME : string;
  TILEDB_CELL_VAR_OFFSET_SIZE : Z;
  (* array_schema.h: enumerators *)
  TILEDB_AS_TO_COLUMN_MAJOR : Z;
  TILEDB_AS_TO_HILBERT : Z;
  TILEDB_AS_TO_ROW_MAJOR : Z;
  TILEDB_AS_CO_COLUMN_MAJOR : Z;
  TILEDB_AS_CO_HILBERT : Z;
  TILEDB_AS_CO_ROW_MAJOR : Z;
  TILEDB_AS_CMP_NONE : Z;
  TILEDB_AS_CMP_GZIP : Z;
  (* array_schema.h: defaults and the variable-size mark *)
  TILEDB_AS_CAPACITY : Z;
  TILEDB_AS_CELL_ORDER : Z;
  TILEDB_AS_CONSOLIDATION_STEP : Z;
  TILEDB_AS_TILE_ORDER : Z;
  TILEDB_AS_VAR_SIZE : Z;
  (* utils.h *)
  real_dir : string -> string;
  has_duplicates : list string -> bool;
  intersect : list string -> list string -> bool;
  is_positive_integer : string -> bool;
  (* arithmetic and conversions of a floating-point T, on bit patterns:
     a + b, a - b, a * b, a / b, T(k) for an integer k, int64_t(a) *)
  fp_add : Datatype -> Z -> Z -> Z;
  fp_sub : Datatype -> Z -> Z -> Z;
  fp_mul : Datatype -> Z -> Z -> Z;
  fp_div : Datatype -> Z -> Z -> Z;
  fp_of_int : Datatype -> Z -> Z;
  fp_to_int64 : Datatype -> Z -> Z;
  (* T(ceil(double(range) / extent)) for an integral T, outside the range
     where the quotient is exact *)
  fp_ceil_quot : Datatype -> Z -> Z -> Z;
  (* the bits of [ceil(double(hi - lo + 1) / extent) - 1] for a
     floating-point T, from the bits of lo, hi and extent *)
  fp_tile_hi : Datatype -> Z -> Z -> Z -> Z;
  (* int(ceil(log2(int64_t(m + 0.5)))) for an integral m *)
  fp_ceil_log2 : Datatype -> Z -> Z;
  (* the same for a floating-point T, from dim_num and the domain bits *)
  fp_hilbert_bits : Datatype -> Z -> list Z -> Z
}.

(* ================================================================= *)
(** ** The C-level description handed to [init] *)

Module C_API.

(** A null pointer is [None].  The arrays of strings are taken with the
    strings they hold; [tile_extents_] and [domain_] are the bytes the
    pointers address. *)
Record ArraySchemaC : Type := mkArraySchemaC {
  array_name_ : string;
  attributes_ : option (list string);
  attribute_num_ : Z;
  capacity_ : Z;
  cell_order_ : option string;
  compression_ : option (list string);
  consolidation_step_ : Z;
  dense_ : Z;
  dimensions_ : option (list string);
  dim_num_ : Z;
  domain_ : option (list byte);
  tile_extents_ : option (list byte);
  tile_order_ : option string;
  types_ : option (list string)
}.

End C_API.

(* ================================================================= *)
(** ** The schema object *)

(** The data members of [ArraySchema].  A pointer member is an option;
    [hilbert_bits_] is [None] until it is first assigned.  [hilbert_curve_]
    records the arguments its constructor received, [coords_for_hilbert_]
    the length of the scratch array. *)
Record ArraySchema : Type := mkArraySchema {
  array_name_ : string;
  attributes_ : list string;
  attribute_num_ : Z;
  capacity_ : Z;
  cell_num_per_tile_ : Z;
  cell_order_ : Z;
  cell_sizes_ : list Z;
  compression_ : list Z;
  consolidation_step_ : Z;
  coords_for_hilbert_ : option Z;
  dense_ : bool;
  dim_num_ : Z;
  dimensions_ : list string;
  domain_ : option (list byte);
  hilbert_bits_ : option Z;
  hilbert_curve_ : option (Z * Z);
  key_value_ : bool;
  tile_domain_ : option (list byte);
  tile_extents_ : option (list byte);
  tile_order_ : Z;
  tile_sizes_ : list Z;
  type_sizes_ : list Z;
  types_ : list (option Datatype);
  val_num_ : list Z;
  var_attribute_num_ : Z
}.

(** Assignment to one member. *)
Definition with_array_name_ (v : string) (s : ArraySchema) : ArraySchema :=
  {| array_name_ := v; attributes_ := attributes_ s; attribute_num_ := attribute_num_ s;
     capacity_ := capacity_ s; cell_num_per_tile_ := cell_num_per_tile_ s;
     cell_order_ := cell_order_ s; cell_sizes_ := cell_sizes_ s;
     compression_ := compression_ s; consolidation_step_ := consolidation_step_ s;
     coords_for_hilbert_ := coords_for_hilbert_ s; dense_ := dense_ s;
     dim_num_ := dim_num_ s; dimensions_ := dimensions_ s; domain_ := domain_ s;
     hilbert_bits_ := hilbert_bits_ s; hilbert_curve_ := hilbert_curve_ s;
     key_value_ := key_value_ s; tile_domain_ := tile_domain_ s;
     tile_extents_ := tile_extents_ s; tile_order_ := tile_order_ s;
     tile_sizes_ := tile_sizes_ s; type_sizes_ := type_sizes_ s; types_ := types_ s;
     val_num_ := val_num_ s; var_attribute_num_ := var_attribute_num_ s |}.

Definition with_attributes_ (v : list string) (s : ArraySchema) : ArraySchema :=
  {| array_name_ := array_name_ s; attributes_ := v; attribute_num_ := attribute_num_ s;
     capacity_ := capacity_ s; cell_num_per_tile_ := cell_num_per_tile_ s;
     cell_order_ := cell_order_ s; cell_sizes_ := cell_sizes_ s;
     compression_ := compression_ s; consolidation_step_ := consolidation_step_ s;
     coords_for_hilbert_ := coords_for_hilbert_ s; dense_ := dense_ s;
     dim_num_ := dim_num_ s; dimensions_ := dimensions_ s; domain_ := domain_ s;
     hilbert_bits_ := hilbert_bits_ s; hilbert_curve_ := hilbert_curve_ s;
     key_value_ := key_value_ s; tile_domain_ := tile_domain_ s;
     tile_extents_ := tile_extents_ s; tile_order_ := tile_order_ s;
     tile_sizes_ := tile_sizes_ s; type_sizes_ := type_sizes_ s; types_ := types_ s;
     val_num_ := val_num_ s; var_attribute_num_ := var_attribute_num_ s |}.

Definition with_attribute_num_ (v : Z) (s : ArraySchema) : ArraySchema :=
  {| array_name_ := array_name_ s; attributes_ := attributes_ s; attribute_num_ := v;
     capacity_ := capacity_ s; cell_num_per_tile_ := cell_num_per_tile_ s;
     cell_order_ := cell_order_ s; cell_sizes_ := cell_sizes_ s;
     compression_ := compression_ s; consolidation_step_ := consolidation_step_ s;
     coords_for_hilbert_ := coords_for_hilbert_ s; dense_ := dense_ s;
     dim_num_ := dim_num_ s; dimensions_ := dimensions_ s; domain_ := domain_ s;
     hilbert_bits_ := hilbert_bits_ s; hilbert_curve_ := hilbert_curve_ s;
     key_value_ := key_value_ s; tile_domain_ := tile_domain_ s;
     tile_extents_ := tile_extents_ s; tile_order_ := tile_order_ s;
     tile_sizes_ := tile_sizes_ s; type_sizes_ := type_sizes_ s; types_ := types_ s;
     val_num_ := val_num_ s; var_attribute_num_ := var_attribute_num_ s |}.

Definition with_capacity_ (v : Z) (s : ArraySchema) : ArraySchema :=
  {| array_name_ := array_name_ s; attributes_ := attributes_ s;
     attribute_num_ := attribute_num_ s; capacity_ := v;
     cell_num_per_tile_ := cell_num_per_tile_ s; cell_order_ := cell_order_ s;
     cell_sizes_ := cell_sizes_ s; compression_ := compression_ s;
     consolidation_step_ := consolidation_step_ s;
     coords_for_hilbert_ := coords_for_hilbert_ s; dense_ := dense_ s;
     dim_num_ := dim_num_ s; dimensions_ := dimensions_ s; domain_ := domain_ s;
     hilbert_bits_ := hilbert_bits_ s; hilbert_curve_ := hilbert_curve_ s;
     key_value_ := key_value_ s; tile_domain_ := tile_domain_ s;
     tile_extents_ := tile_extents_ s; tile_order_ := tile_order_ s;
     tile_sizes_ := tile_sizes_ s; type_sizes_ := type_sizes_ s; types_ := types_ s;
     val_num_ := val_num_ s; var_attribute_num_ := var_attribute_num_ s |}.

Definition with_cell_num_per_tile_ (v : Z) (s : ArraySchema) : ArraySchema :=
  {| array_name_ := array_name_ s; attributes_ := attributes_ s;
     attribute_num_ := attribute_num_ s; capacity_ := capacity_ s;
     cell_num_per_tile_ := v; cell_order_ := cell_order_ s; cell_sizes_ := cell_sizes_ s;
     compression_ := compression_ s; consolidation_step_ := consolidation_step_ s;
     coords_for_hilbert_ := coords_for_hilbert_ s; dense_ := dense_ s;
     dim_num_ := dim_num_ s; dimensions_ := dimensions_ s; domain_ := domain_ s;
     hilbert_bits_ := hilbert_bits_ s; hilbert_curve_ := hilbert_curve_ s;
     key_value_ := key_value_ s; tile_domain_ := tile_domain_ s;
     tile_extents_ := tile_extents_ s; tile_order_ := tile_order_ s;
     tile_sizes_ := tile_sizes_ s; type_sizes_ := type_sizes_ s; types_ := types_ s;
     val_num_ := val_num_ s; var_attribute_num_ := var_attribute_num_ s |}.

Definition with_cell_order_ (v : Z) (s : ArraySchema) : ArraySchema :=
  {| array_name_ := array_name_ s; attributes_ := attributes_ s;
     attribute_num_ := attribute_num_ s; capacity_ := capacity_ s;
     cell_num_per_tile_ := cell_num_per_tile_ s; cell_order_ := v;
     cell_sizes_ := cell_sizes_ s; compression_ := compression_ s;
     consolidation_step_ := consolidation_step_ s;
     coords_for_hilbert_ := coords_for_hilbert_ s; dense_ := dense_ s;
     dim_num_ := dim_num_ s; dimensions_ := dimensions_ s; domain_ := domain_ s;
     hilbert_bits_ := hilbert_bits_ s; hilbert_curve_ := hilbert_curve_ s;
     key_value_ := key_value_ s; tile_domain_ := tile_domain_ s;
     tile_extents_ := tile_extents_ s; tile_order_ := tile_order_ s;
     tile_sizes_ := tile_sizes_ s; type_sizes_ := type_sizes_ s; types_ := types_ s;
     val_num_ := val_num_ s; var_attribute_num_ := var_attribute_num_ s |}.

Definition with_cell_sizes_ (v : list Z) (s : ArraySchema) : ArraySchema :=
  {| array_name_ := array_name_ s; attributes_ := attributes_ s;
     attribute_num_ := attribute_num_ s; capacity_ := capacity_ s;
     cell_num_per_tile_ := cell_num_per_tile_ s; cell_order_ := cell_order_ s;
     cell_sizes_ := v; compression_ := compression_ s;
     consolidation_step_ := consolidation_step_ s;
     coords_for_hilbert_ := coords_for_hilbert_ s; dense_ := dense_ s;
     dim_num_ := dim_num_ s; dimensions_ := dimensions_ s; domain_ := domain_ s;
     hilbert_bits_ := hilbert_bits_ s; hilbert_curve_ := hilbert_curve_ s;
     key_value_ := key_value_ s; tile_domain_ := tile_domain_ s;
     tile_extents_ := tile_extents_ s; tile_order_ := tile_order_ s;
     tile_sizes_ := tile_sizes_ s; type_sizes_ := type_sizes_ s; types_ := types_ s;
     val_num_ := val_num_ s; var_attribute_num_ := var_attribute_num_ s |}.

Definition with_compression_ (v : list Z) (s : ArraySchema) : ArraySchema :=
  {| array_name_ := array_name_ s; attributes_ := attributes_ s;
     attribute_num_ := attribute_num_ s; capacity_ := capacity_ s;
     cell_num_per_tile_ := cell_num_per_tile_ s; cell_order_ := cell_order_ s;
     cell_sizes_ := cell_sizes_ s; compression_ := v;
     consolidation_step_ := consolidation_step_ s;
     coords_for_hilbert_ := coords_for_hilbert_ s; dense_ := dense_ s;
     dim_num_ := dim_num_ s; dimensions_ := dimensions_ s; domain_ := domain_ s;
     hilbert_bits_ := hilbert_bits_ s; hilbert_curve_ := hilbert_curve_ s;
     key_value_ := key_value_ s; tile_domain_ := tile_domain_ s;
     tile_extents_ := tile_extents_ s; tile_order_ := tile_order_ s;
     tile_sizes_ := tile_sizes_ s; type_sizes_ := type_sizes_ s; types_ := types_ s;
     val_num_ := val_num_ s; var_attribute_num_ := var_attribute_num_ s |}.

Definition with_consolidation_step_ (v : Z) (s : ArraySchema) : ArraySchema :=
  {| array_name_ := array_name_ s; attributes_ := attributes_ s;
     attribute_num_ := attribute_num_ s; capacity_ := capacity_ s;
     cell_num_per_tile_ := cell_num_per_tile_ s; cell_order_ := cell_order_ s;
     cell_sizes_ := cell_sizes_ s; compression_ := compression_ s;
     consolidation_step_ := v; coords_for_hilbert_ := coords_for_hilbert_ s;
     dense_ := dense_ s; dim_num_ := dim_num_ s; dimensions_ := dimensions_ s;
     domain_ := domain_ s; hilbert_bits_ := hilbert_bits_ s;
     hilbert_curve_ := hilbert_curve_ s; key_value_ := key_value_ s;
     tile_domain_ := tile_domain_ s; tile_extents_ := tile_extents_ s;
     tile_order_ := tile_order_ s; tile_sizes_ := tile_sizes_ s;
     type_sizes_ := type_sizes_ s; types_ := types_ s; val_num_ := val_num_ s;
     var_attribute_num_ := var_attribute_num_ s |}.

Definition with_coords_for_hilbert_ (v : option Z) (s : ArraySchema) : ArraySchema :=
  {| array_name_ := array_name_ s; attributes_ := attributes_ s;
     attribute_num_ := attribute_num_ s; capacity_ := capacity_ s;
     cell_num_per_tile_ := cell_num_per_tile_ s; cell_order_ := cell_order_ s;
     cell_sizes_ := cell_sizes_ s; compression_ := compression_ s;
     consolidation_step_ := consolidation_step_ s; coords_for_hilbert_ := v;
     dense_ := dense_ s; dim_num_ := dim_num_ s; dimensions_ := dimensions_ s;
     domain_ := domain_ s; hilbert_bits_ := hilbert_bits_ s;
     hilbert_curve_ := hilbert_curve_ s; key_value_ := key_value_ s;
     tile_domain_ := tile_domain_ s; tile_extents_ := tile_extents_ s;
     tile_order_ := tile_order_ s; tile_sizes_ := tile_sizes_ s;
     type_sizes_ := type_sizes_ s; types_ := types_ s; val_num_ := val_num_ s;
     var_attribute_num_ := var_attribute_num_ s |}.

Definition with_dense_ (v : bool) (s : ArraySchema) : ArraySchema :=
  {| array_name_ := array_name_ s; attributes_ := attributes_ s;
     attribute_num_ := attribute_num_ s; capacity_ := capacity_ s;
     cell_num_per_tile_ := cell_num_per_tile_ s; cell_order_ := cell_order_ s;
     cell_sizes_ := cell_sizes_ s; compression_ := compression_ s;
     consolidation_step_ := consolidation_step_ s;
     coords_for_hilbert_ := coords_for_hilbert_ s; dense_ := v; dim_num_ := dim_num_ s;
     dimensions_ := dimensions_ s; domain_ := domain_ s;
     hilbert_bits_ := hilbert_bits_ s; hilbert_curve_ := hilbert_curve_ s;
     key_value_ := key_value_ s; tile_domain_ := tile_domain_ s;
     tile_extents_ := tile_extents_ s; tile_order_ := tile_order_ s;
     tile_sizes_ := tile_sizes_ s; type_sizes_ := type_sizes_ s; types_ := types_ s;
     val_num_ := val_num_ s; var_attribute_num_ := var_attribute_num_ s |}.

Definition with_dim_num_ (v : Z) (s : ArraySchema) : ArraySchema :=
  {| array_name_ := array_name_ s; attributes_ := attributes_ s;
     attribute_num_ := attribute_num_ s; capacity_ := capacity_ s;
     cell_num_per_tile_ := cell_num_per_tile_ s; cell_order_ := cell_order_ s;
     cell_sizes_ := cell_sizes_ s; compression_ := compression_ s;
     consolidation_step_ := consolidation_step_ s;
     coords_for_hilbert_ := coords_for_hilbert_ s; dense_ := dense_ s; dim_num_ := v;
     dimensions_ := dimensions_ s; domain_ := domain_ s;
     hilbert_bits_ := hilbert_bits_ s; hilbert_curve_ := hilbert_curve_ s;
     key_value_ := key_value_ s; tile_domain_ := tile_domain_ s;
     tile_extents_ := tile_extents_ s; tile_order_ := tile_order_ s;
     tile_sizes_ := tile_sizes_ s; type_sizes_ := type_sizes_ s; types_ := types_ s;
     val_num_ := val_num_ s; var_attribute_num_ := var_attribute_num_ s |}.

Definition with_dimensions_ (v : list string) (s : ArraySchema) : ArraySchema :=
  {| array_name_ := array_name_ s; attributes_ := attributes_ s;
     attribute_num_ := attribute_num_ s; capacity_ := capacity_ s;
     cell_num_per_tile_ := cell_num_per_tile_ s; cell_order_ := cell_order_ s;
     cell_sizes_ := cell_sizes_ s; compression_ := compression_ s;
     consolidation_step_ := consolidation_step_ s;
     coords_for_hilbert_ := coords_for_hilbert_ s; dense_ := dense_ s;
     dim_num_ := dim_num_ s; dimensions_ := v; domain_ := domain_ s;
     hilbert_bits_ := hilbert_bits_ s; hilbert_curve_ := hilbert_curve_ s;
     key_value_ := key_value_ s; tile_domain_ := tile_domain_ s;
     tile_extents_ := tile_extents_ s; tile_order_ := tile_order_ s;
     tile_sizes_ := tile_sizes_ s; type_sizes_ := type_sizes_ s; types_ := types_ s;
     val_num_ := val_num_ s; var_attribute_num_ := var_attribute_num_ s |}.

Definition with_domain_ (v : option (list byte)) (s : ArraySchema) : ArraySchema :=
  {| array_name_ := array_name_ s; attributes_ := attributes_ s;
     attribute_num_ := attribute_num_ s; capacity_ := capacity_ s;
     cell_num_per_tile_ := cell_num_per_tile_ s; cell_order_ := cell_order_ s;
     cell_sizes_ := cell_sizes_ s; compression_ := compression_ s;
     consolidation_step_ := consolidation_step_ s;
     coords_for_hilbert_ := coords_for_hilbert_ s; dense_ := dense_ s;
     dim_num_ := dim_num_ s; dimensions_ := dimensions_ s; domain_ := v;
     hilbert_bits_ := hilbert_bits_ s; hilbert_curve_ := hilbert_curve_ s;
     key_value_ := key_value_ s; tile_domain_ := tile_domain_ s;
     tile_extents_ := tile_extents_ s; tile_order_ := tile_order_ s;
     tile_sizes_ := tile_sizes_ s; type_sizes_ := type_sizes_ s; types_ := types_ s;
     val_num_ := val_num_ s; var_attribute_num_ := var_attribute_num_ s |}.

Definition with_hilbert_bits_ (v : option Z) (s : ArraySchema) : ArraySchema :=
  {| array_name_ := array_name_ s; attributes_ := attributes_ s;
     attribute_num_ := attribute_num_ s; capacity_ := capacity_ s;
     cell_num_per_tile_ := cell_num_per_tile_ s; cell_order_ := cell_order_ s;
     cell_sizes_ := cell_sizes_ s; compression_ := compression_ s;
     consolidation_step_ := consolidation_step_ s;
     coords_for_hilbert_ := coords_for_hilbert_ s; dense_ := dense_ s;
     dim_num_ := dim_num_ s; dimensions_ := dimensions_ s; domain_ := domain_ s;
     hilbert_bits_ := v; hilbert_curve_ := hilbert_curve_ s; key_value_ := key_value_ s;
     tile_domain_ := tile_domain_ s; tile_extents_ := tile_extents_ s;
     tile_order_ := tile_order_ s; tile_sizes_ := tile_sizes_ s;
     type_sizes_ := type_sizes_ s; types_ := types_ s; val_num_ := val_num_ s;
     var_attribute_num_ := var_attribute_num_ s |}.

Definition with_hilbert_curve_ (v : option (Z * Z)) (s : ArraySchema) : ArraySchema :=
  {| array_name_ := array_name_ s; attributes_ := attributes_ s;
     attribute_num_ := attribute_num_ s; capacity_ := capacity_ s;
     cell_num_per_tile_ := cell_num_per_tile_ s; cell_order_ := cell_order_ s;
     cell_sizes_ := cell_sizes_ s; compression_ := compression_ s;
     consolidation_step_ := consolidation_step_ s;
     coords_for_hilbert_ := coords_for_hilbert_ s; dense_ := dense_ s;
     dim_num_ := dim_num_ s; dimensions_ := dimensions_ s; domain_ := domain_ s;
     hilbert_bits_ := hilbert_bits_ s; hilbert_curve_ := v; key_value_ := key_value_ s;
     tile_domain_ := tile_domain_ s; tile_extents_ := tile_extents_ s;
     tile_order_ := tile_order_ s; tile_sizes_ := tile_sizes_ s;
     type_sizes_ := type_sizes_ s; types_ := types_ s; val_num_ := val_num_ s;
     var_attribute_num_ := var_attribute_num_ s |}.

Definition with_key_value_ (v : bool) (s : ArraySchema) : ArraySchema :=
  {| array_name_ := array_name_ s; attributes_ := attributes_ s;
     attribute_num_ := attribute_num_ s; capacity_ := capacity_ s;
     cell_num_per_tile_ := cell_num_per_tile_ s; cell_order_ := cell_order_ s;
     cell_sizes_ := cell_sizes_ s; compression_ := compression_ s;
     consolidation_step_ := consolidation_step_ s;
     coords_for_hilbert_ := coords_for_hilbert_ s; dense_ := dense_ s;
     dim_num_ := dim_num_ s; dimensions_ := dimensions_ s; domain_ := domain_ s;
     hilbert_bits_ := hilbert_bits_ s; hilbert_curve_ := hilbert_curve_ s;
     key_value_ := v; tile_domain_ := tile_domain_ s; tile_extents_ := tile_extents_ s;
     tile_order_ := tile_order_ s; tile_sizes_ := tile_sizes_ s;
     type_sizes_ := type_sizes_ s; types_ := types_ s; val_num_ := val_num_ s;
     var_attribute_num_ := var_attribute_num_ s |}.

Definition with_tile_domain_ (v : option (list byte)) (s : ArraySchema) : ArraySchema :=
  {| array_name_ := array_name_ s; attributes_ := attributes_ s;
     attribute_num_ := attribute_num_ s; capacity_ := capacity_ s;
     cell_num_per_tile_ := cell_num_per_tile_ s; cell_order_ := cell_order_ s;
     cell_sizes_ := cell_sizes_ s; compression_ := compression_ s;
     consolidation_step_ := consolidation_step_ s;
     coords_for_hilbert_ := coords_for_hilbert_ s; dense_ := dense_ s;
     dim_num_ := dim_num_ s; dimensions_ := dimensions_ s; domain_ := domain_ s;
     hilbert_bits_ := hilbert_bits_ s; hilbert_curve_ := hilbert_curve_ s;
     key_value_ := key_value_ s; tile_domain_ := v; tile_extents_ := tile_extents_ s;
     tile_order_ := tile_order_ s; tile_sizes_ := tile_sizes_ s;
     type_sizes_ := type_sizes_ s; types_ := types_ s; val_num_ := val_num_ s;
     var_attribute_num_ := var_attribute_num_ s |}.

Definition with_tile_extents_ (v : option (list byte)) (s : ArraySchema) : ArraySchema :=
  {| array_name_ := array_name_ s; attributes_ := attributes_ s;
     attribute_num_ := attribute_num_ s; capacity_ := capacity_ s;
     cell_num_per_tile_ := cell_num_per_tile_ s; cell_order_ := cell_order_ s;
     cell_sizes_ := cell_sizes_ s; compression_ := compression_ s;
     consolidation_step_ := consolidation_step_ s;
     coords_for_hilbert_ := coords_for_hilbert_ s; dense_ := dense_ s;
     dim_num_ := dim_num_ s; dimensions_ := dimensions_ s; domain_ := domain_ s;
     hilbert_bits_ := hilbert_bits_ s; hilbert_curve_ := hilbert_curve_ s;
     key_value_ := key_value_ s; tile_domain_ := tile_domain_ s; tile_extents_ := v;
     tile_order_ := tile_order_ s; tile_sizes_ := tile_sizes_ s;
     type_sizes_ := type_sizes_ s; types_ := types_ s; val_num_ := val_num_ s;
     var_attribute_num_ := var_attribute_num_ s |}.

Definition with_tile_order_ (v : Z) (s : ArraySchema) : ArraySchema :=
  {| array_name_ := array_name_ s; attributes_ := attributes_ s;
     attribute_num_ := attribute_num_ s; capacity_ := capacity_ s;
     cell_num_per_tile_ := cell_num_per_tile_ s; cell_order_ := cell_order_ s;
     cell_sizes_ := cell_sizes_ s; compression_ := compression_ s;
     consolidation_step_ := consolidation_step_ s;
     coords_for_hilbert_ := coords_for_hilbert_ s; dense_ := dense_ s;
     dim_num_ := dim_num_ s; dimensions_ := dimensions_ s; domain_ := domain_ s;
     hilbert_bits_ := hilbert_bits_ s; hilbert_curve_ := hilbert_curve_ s;
     key_value_ := key_value_ s; tile_domain_ := tile_domain_ s;
     tile_extents_ := tile_extents_ s; tile_order_ := v; tile_sizes_ := tile_sizes_ s;
     type_sizes_ := type_sizes_ s; types_ := types_ s; val_num_ := val_num_ s;
     var_attribute_num_ := var_attribute_num_ s |}.

Definition with_tile_sizes_ (v : list Z) (s : ArraySchema) : ArraySchema :=
  {| array_name_ := array_name_ s; attributes_ := attributes_ s;
     attribute_num_ := attribute_num_ s; capacity_ := capacity_ s;
     cell_num_per_tile_ := cell_num_per_tile_ s; cell_order_ := cell_order_ s;
     cell_sizes_ := cell_sizes_ s; compression_ := compression_ s;
     consolidation_step_ := consolidation_step_ s;
     coords_for_hilbert_ := coords_for_hilbert_ s; dense_ := dense_ s;
     dim_num_ := dim_num_ s; dimensions_ := dimensions_ s; domain_ := domain_ s;
     hilbert_bits_ := hilbert_bits_ s; hilbert_curve_ := hilbert_curve_ s;
     key_value_ := key_value_ s; tile_domain_ := tile_domain_ s;
     tile_extents_ := tile_extents_ s; tile_order_ := tile_order_ s; tile_sizes_ := v;
     type_sizes_ := type_sizes_ s; types_ := types_ s; val_num_ := val_num_ s;
     var_attribute_num_ := var_attribute_num_ s |}.

Definition with_type_sizes_ (v : list Z) (s : ArraySchema) : ArraySchema :=
  {| array_name_ := array_name_ s; attributes_ := attributes_ s;
     attribute_num_ := attribute_num_ s; capacity_ := capacity_ s;
     cell_num_per_tile_ := cell_num_per_tile_ s; cell_order_ := cell_order_ s;
     cell_sizes_ := cell_sizes_ s; compression_ := compression_ s;
     consolidation_step_ := consolidation_step_ s;
     coords_for_hilbert_ := coords_for_hilbert_ s; dense_ := dense_ s;
     dim_num_ := dim_num_ s; dimensions_ := dimensions_ s; domain_ := domain_ s;
     hilbert_bits_ := hilbert_bits_ s; hilbert_curve_ := hilbert_curve_ s;
     key_value_ := key_value_ s; tile_domain_ := tile_domain_ s;
     tile_extents_ := tile_extents_ s; tile_order_ := tile_order_ s;
     tile_sizes_ := tile_sizes_ s; type_sizes_ := v; types_ := types_ s;
     val_num_ := val_num_ s; var_attribute_num_ := var_attribute_num_ s |}.

Definition with_types_ (v : list (option Datatype)) (s : ArraySchema) : ArraySchema :=
  {| array_name_ := array_name_ s; attributes_ := attributes_ s;
     attribute_num_ := attribute_num_ s; capacity_ := capacity_ s;
     cell_num_per_tile_ := cell_num_per_tile_ s; cell_order_ := cell_order_ s;
     cell_sizes_ := cell_sizes_ s; compression_ := compression_ s;
     consolidation_step_ := consolidation_step_ s;
     coords_for_hilbert_ := coords_for_hilbert_ s; dense_ := dense_ s;
     dim_num_ := dim_num_ s; dimensions_ := dimensions_ s; domain_ := domain_ s;
     hilbert_bits_ := hilbert_bits_ s; hilbert_curve_ := hilbert_curve_ s;
     key_value_ := key_value_ s; tile_domain_ := tile_domain_ s;
     tile_extents_ := tile_extents_ s; tile_order_ := tile_order_ s;
     tile_sizes_ := tile_sizes_ s; type_sizes_ := type_sizes_ s; types_ := v;
     val_num_ := val_num_ s; var_attribute_num_ := var_attribute_num_ s |}.

Definition with_val_num_ (v : list Z) (s : ArraySchema) : ArraySchema :=
  {| array_name_ := array_name_ s; attributes_ := attributes_ s;
     attribute_num_ := attribute_num_ s; capacity_ := capacity_ s;
     cell_num_per_tile_ := cell_num_per_tile_ s; cell_order_ := cell_order_ s;
     cell_sizes_ := cell_sizes_ s; compression_ := compression_ s;
     consolidation_step_ := consolidation_step_ s;
     coords_for_hilbert_ := coords_for_hilbert_ s; dense_ := dense_ s;
     dim_num_ := dim_num_ s; dimensions_ := dimensions_ s; domain_ := domain_ s;
     hilbert_bits_ := hilbert_bits_ s; hilbert_curve_ := hilbert_curve_ s;
     key_value_ := key_value_ s; tile_domain_ := tile_domain_ s;
     tile_extents_ := tile_extents_ s; tile_order_ := tile_order_ s;
     tile_sizes_ := tile_sizes_ s; type_sizes_ := type_sizes_ s; types_ := types_ s;
     val_num_ := v; var_attribute_num_ := var_attribute_num_ s |}.

Definition with_var_attribute_num_ (v : Z) (s : ArraySchema) : ArraySchema :=
  {| array_name_ := array_name_ s; attributes_ := attributes_ s;
     attribute_num_ := attribute_num_ s; capacity_ := capacity_ s;
     cell_num_per_tile_ := cell_num_per_tile_ s; cell_order_ := cell_order_ s;
     cell_sizes_ := cell_sizes_ s; compression_ := compression_ s;
     consolidation_step_ := consolidation_step_ s;
     coords_for_hilbert_ := coords_for_hilbert_ s; dense_ := dense_ s;
     dim_num_ := dim_num_ s; dimensions_ := dimensions_ s; domain_ := domain_ s;
     hilbert_bits_ := hilbert_bits_ s; hilbert_curve_ := hilbert_curve_ s;
     key_value_ := key_value_ s; tile_domain_ := tile_domain_ s;
     tile_extents_ := tile_extents_ s; tile_order_ := tile_order_ s;
     tile_sizes_ := tile_sizes_ s; type_sizes_ := type_sizes_ s; types_ := types_ s;
     val_num_ := val_num_ s; var_attribute_num_ := v |}.

(** [ArraySchema::ArraySchema()].  The constructor assigns
    [cell_num_per_tile_] and the pointers; containers start empty.  The
    scalar members it leaves alone hold no meaningful value: each of them
    is assigned by [init] and by [deserialize] before it is read, except
    [hilbert_bits_], which therefore is an option. *)
Definition ArraySchema_new : ArraySchema :=
  {| array_name_ := EmptyString; attributes_ := []; attribute_num_ := 0;
     capacity_ := 0; cell_num_per_tile_ := -1; cell_order_ := 0;
     cell_sizes_ := []; compression_ := []; consolidation_step_ := 0;
     coords_for_hilbert_ := None; dense_ := false; dim_num_ := 0;
     dimensions_ := []; domain_ := None; hilbert_bits_ := None;
     hilbert_curve_ := None; key_value_ := false; tile_domain_ := None;
     tile_extents_ := None; tile_order_ := 0; tile_sizes_ := [];
     type_sizes_ := []; types_ := []; val_num_ := [];
     var_attribute_num_ := 0 |}.

(* ================================================================= *)
(** ** C library helpers used by the setters *)

(** The tokens successive [strtok(_, ":")] calls return. *)
Fixpoint strtok_from (s : string) (tok : string) : list string :=
  match s with
  | EmptyString => if (String.length tok =? 0)%nat then [] else [tok]
  | String c r =>
      if Ascii.eqb c ":"%char
      then (if (String.length tok =? 0)%nat then strtok_from r EmptyString
            else tok :: strtok_from r EmptyString)
      else strtok_from r (tok ++ String c EmptyString)
  end.

Definition strtok_all (s : string) : list string := strtok_from s EmptyString.

Definition is_space (c : ascii) : bool :=
  let n := nat_of_ascii c in
  ((n =? 32) || ((9 <=? n) && (n <=? 13)))%nat.

Definition digit_of (c : ascii) : option Z :=
  let n := Z.of_nat (nat_of_ascii c) in
  if (48 <=? n) && (n <=? 57) then Some (n - 48) else None.

Fixpoint skip_spaces (s : string) : string :=
  match s with
  | String c r => if is_space c then skip_spaces r else s
  | EmptyString => s
  end.

Fixpoint read_digits (s : string) (acc : option Z) : option Z :=
  match s with
  | String c r =>
      match digit_of c with
      | Some d =>
          read_digits r (Some (10 * match acc with Some a => a | None => 0 end + d))
      | None => acc
      end
  | EmptyString => acc
  end.

(** [sscanf(token, "%d", &num)] followed by a read of [num]: without a
    conversion [num] is indeterminate.  The digits are converted as by
    [strtol], which stops at the bounds of [long], and the [long] is
    stored into the [int]: of a number that does not fit an [int] the low
    32 bits remain (the C standard leaves that case open; this is what
    the C library does: the token [4294967295] gives [-1]). *)
Definition sscanf_d (s : string) : res Z :=
  let s := skip_spaces s in
  let '(neg, body) :=
    match s with
    | String c r =>
        if Ascii.eqb c "-"%char then (true, r)
        else if Ascii.eqb c "+"%char then (false, r)
        else (false, s)
    | EmptyString => (false, s)
    end in
  match read_digits body None with
  | None => Undef
  | Some v =>
      let v := if neg then - v else v in
      Ok (to_int (Z.max (- 2 ^ 63) (Z.min (2 ^ 63 - 1) v)))
  end.

(** [memcpy(dst, src, n)] out of a caller's block. *)
Definition memcpy_from (src : list byte) (n : Z) : res (list byte) :=
  if n <? 0 then Undef
  else if len src <? n then Undef
  else Ok (firstn (Z.to_nat n) src).

(** The values [f 0, ..., f (n-1)] of a vector filled front to back. *)
Fixpoint fill_from {A : Type} (i : Z) (n : nat) (f : Z -> res A) : res (list A) :=
  match n with
  | O => Ok []
  | S k => a <- f i ;; r <- fill_from (i + 1) k f ;; Ok (a :: r)
  end.

Definition fill {A : Type} (n : Z) (f : Z -> res A) : res (list A) :=
  fill_from 0 (Z.to_nat n) f.

(* ================================================================= *)
(** ** Accessors and derived fields *)

Section Model.

Variable E : Env.

Definition cell_num_per_tile (S : ArraySchema) : Z := cell_num_per_tile_ S.

Definition cell_size (S : ArraySchema) (attribute_id : Z) : res Z :=
  at_ (cell_sizes_ S) attribute_id.

Definition coords_size (S : ArraySchema) : res Z :=
  at_ (cell_sizes_ S) (attribute_num_ S).

Definition tile_domain (S : ArraySchema) : option (list byte) := tile_domain_ S.

Definition var_size (S : ArraySchema) (attribute_id : Z) : res bool :=
  c <- at_ (cell_sizes_ S) attribute_id ;;
  Ok (c =? to_size_t (TILEDB_AS_VAR_SIZE E)).

Definition tile_size (S : ArraySchema) (attribute_id : Z) : res Z :=
  _ <- assert (dense_ S || match tile_extents_ S with None => true | Some _ => false end) ;;
  at_ (tile_sizes_ S) attribute_id.

(** [type(i)]: a null pointer outside [0, attribute_num_]. *)
Definition type (S : ArraySchema) (i : Z) : res (option Datatype) :=
  if (i <? 0) || (attribute_num_ S <? i) then Ok None
  else at_ (types_ S) i.

Definition coords_type (S : ArraySchema) : res (option Datatype) :=
  type S (attribute_num_ S).

(** [compute_type_size]: control reaches the end of the function without a
    [return] when the pointer is none of the five. *)
Definition compute_type_size (S : ArraySchema) (i : Z) : res Z :=
  _ <- assert ((0 <=? i) && (i <=? attribute_num_ S)) ;;
  t <- at_ (types_ S) i ;;
  match t with
  | Some ty => Ok (sizeof ty)
  | None => Undef
  end.

(** [compute_cell_size]: [size] stays uninitialised when no branch
    assigns it. *)
Definition compute_cell_size (S : ArraySchema) (i : Z) : res Z :=
  _ <- assert ((0 <=? i) && (i <=? attribute_num_ S)) ;;
  is_var <- (if i <? attribute_num_ S
             then v <- at_ (val_num_ S) i ;; Ok (v =? TILEDB_AS_VAR_SIZE E)
             else Ok false) ;;
  if is_var then Ok (to_size_t (TILEDB_AS_VAR_SIZE E))
  else if i <? attribute_num_ S then
    t <- at_ (types_ S) i ;;
    match t with
    | Some ty => v <- at_ (val_num_ S) i ;; Ok (to_size_t (v * sizeof ty))
    | None => Undef
    end
  else
    t <- at_ (types_ S) i ;;
    match t with
    | Some T_int => Ok (to_size_t (dim_num_ S * sizeof T_int))
    | Some T_int64_t => Ok (to_size_t (dim_num_ S * sizeof T_int64_t))
    | Some T_float => Ok (to_size_t (dim_num_ S * sizeof T_float))
    | Some T_double => Ok (to_size_t (dim_num_ S * sizeof T_double))
    | _ => Undef
    end.

(** [compute_cell_num_per_tile<T>]. *)
Definition compute_cell_num_per_tile_T (T : Datatype) (S : ArraySchema)
  : res ArraySchema :=
  match tile_extents_ S with
  | None => Ok S
  | Some _ =>
      let tile_extents := cast T (tile_extents_ S) in
      for_loop (dim_num_ S)
        (fun i S' =>
           e <- at_ tile_extents i ;;
           Ok (with_cell_num_per_tile_ (to_int64 (cell_num_per_tile_ S' * e)) S'))
        (with_cell_num_per_tile_ 1 S)
  end.

Definition compute_cell_num_per_tile (S : ArraySchema) : res ArraySchema :=
  if dense_ S then
    coords_type <- at_ (types_ S) (attribute_num_ S) ;;
    match coords_type with
    | Some T_int => compute_cell_num_per_tile_T T_int S
    | Some T_int64_t => compute_cell_num_per_tile_T T_int64_t S
    | _ => Fail
    end
  else
    match tile_extents_ S with
    | Some _ => Ok S
    | None => Ok (with_cell_num_per_tile_ (capacity_ S) S)
    end.

Definition compute_tile_sizes (S : ArraySchema) : res ArraySchema :=
  sizes <- fill (attribute_num_ S + 1)
             (fun i =>
                v <- var_size S i ;;
                if v
                then Ok (to_size_t (cell_num_per_tile_ S * TILEDB_CELL_VAR_OFFSET_SIZE E))
                else c <- cell_size S i ;; Ok (to_size_t (cell_num_per_tile_ S * c))) ;;
  Ok (with_tile_sizes_ sizes S).

(** [T(ceil(double(range) / extent))] for an integral [T].  Both operands
    convert to [double] exactly below 2^53 in magnitude, and the rounded
    quotient of two such integers lies on the same side of every integer
    as the exact one; elsewhere the value is left to the environment. *)
Definition ceil_quot (T : Datatype) (range extent : Z) : Z :=
  if (0 <? extent) && (extent <? 2 ^ 53) && (- 2 ^ 53 <? range) && (range <? 2 ^ 53)
  then - ((- range) / extent)
  else fp_ceil_quot E T range extent.

(** [compute_tile_domain<T>]: the pairs [0, tile_num - 1]. *)
Definition compute_tile_domain_T (T : Datatype) (S : ArraySchema)
  : res ArraySchema :=
  match tile_extents_ S with
  | None => Ok S
  | Some _ =>
      let domain := cast T (domain_ S) in
      let tile_extents := cast T (tile_extents_ S) in
      _ <- assert (match tile_domain_ S with None => true | Some _ => false end) ;;
      tile_domain <-
        for_loop (dim_num_ S)
          (fun i td =>
             lo <- at_ domain (2 * i) ;;
             hi <- at_ domain (2 * i + 1) ;;
             e <- at_ tile_extents i ;;
             let top :=
               if is_integral T
               then wrapT T (ceil_quot T (wrapT T (wrapT T (hi - lo) + 1)) e - 1)
               else fp_tile_hi E T lo hi e in
             Ok (td ++ [0; top]))
          [] ;;
      Ok (with_tile_domain_ (Some (store T tile_domain)) S)
  end.

Definition compute_tile_domain (S : ArraySchema) : res ArraySchema :=
  coords_type <- at_ (types_ S) (attribute_num_ S) ;;
  match coords_type with
  | Some T_int => compute_tile_domain_T T_int S
  | Some T_int64_t => compute_tile_domain_T T_int64_t S
  | Some T_float => compute_tile_domain_T T_float S
  | Some T_double => compute_tile_domain_T T_double S
  | _ => Ok S
  end.

(** [compute_hilbert_bits<T>]. *)
Definition compute_hilbert_bits (T : Datatype) (S : ArraySchema)
  : res ArraySchema :=
  let domain := cast T (domain_ S) in
  if is_integral T then
    max_domain_range <-
      for_loop (dim_num_ S)
        (fun i m =>
           lo <- at_ domain (2 * i) ;;
           hi <- at_ domain (2 * i + 1) ;;
           let domain_range := wrapT T (wrapT T (hi - lo) + 1) in
           Ok (if m <? domain_range then domain_range else m))
        0 ;;
    Ok (with_hilbert_bits_ (Some (fp_ceil_log2 E T max_domain_range)) S)
  else
    _ <- for_loop (dim_num_ S)
           (fun i (u : unit) =>
              _ <- at_ domain (2 * i) ;; _ <- at_ domain (2 * i + 1) ;; Ok u)
           tt ;;
    Ok (with_hilbert_bits_ (Some (fp_hilbert_bits E T (dim_num_ S) domain)) S).

Definition init_hilbert_curve (S : ArraySchema) : res ArraySchema :=
  if negb (cell_order_ S =? TILEDB_AS_CO_HILBERT E) then Ok S
  else
    let S1 :=
      match coords_for_hilbert_ S with
      | None => with_coords_for_hilbert_ (Some (dim_num_ S)) S
      | Some _ => S
      end in
    coords_type <- at_ (types_ S1) (attribute_num_ S1) ;;
    S2 <- match coords_type with
          | Some T_int => compute_hilbert_bits T_int S1
          | Some T_int64_t => compute_hilbert_bits T_int64_t S1
          | Some T_float => compute_hilbert_bits T_float S1
          | Some T_double => compute_hilbert_bits T_double S1
          | _ => Ok S1
          end ;;
    match hilbert_bits_ S2 with
    | Some bits => Ok (with_hilbert_curve_ (Some (bits, dim_num_ S2)) S2)
    | None => Undef
    end.

(* ================================================================= *)
(** ** The setters and [init] *)

Definition set_array_name (array_name : string) (S : ArraySchema) : ArraySchema :=
  let array_name_real := real_dir E array_name in
  with_array_name_ array_name_real S.

Definition set_attributes (attributes : option (list string)) (attribute_num : Z)
           (S : ArraySchema) : res ArraySchema :=
  match attributes with
  | None => Err
  | Some attributes =>
      if attribute_num <=? 0 then Err
      else
        S1 <- for_loop attribute_num
                (fun i S' =>
                   a <- at_ attributes i ;;
                   Ok (with_attributes_ (attributes_ S' ++ [a]) S'))
                S ;;
        let S2 := with_attribute_num_ attribute_num S1 in
        let S3 := with_attributes_ (attributes_ S2 ++ [TILEDB_COORDS_NAME E]) S2 in
        if has_duplicates E (attributes_ S3) then Err
        else if intersect E (attributes_ S3) (dimensions_ S3) then Err
        else Ok S3
  end.

Definition set_capacity (capacity : Z) (S : ArraySchema) : ArraySchema :=
  if 0 <? capacity then with_capacity_ capacity S
  else with_capacity_ (TILEDB_AS_CAPACITY E) S.

Definition set_cell_order (cell_order : option string) (S : ArraySchema)
  : res ArraySchema :=
  match cell_order with
  | None => Ok (with_cell_order_ (TILEDB_AS_CELL_ORDER E) S)
  | Some cell_order =>
      if String.eqb cell_order "row-major" then
        Ok (with_cell_order_ (TILEDB_AS_CO_ROW_MAJOR E) S)
      else if String.eqb cell_order "column-major" then
        Ok (with_cell_order_ (TILEDB_AS_CO_COLUMN_MAJOR E) S)
      else if String.eqb cell_order "hilbert" then
        match tile_extents_ S with
        | Some _ => Err
        | None => Ok (with_cell_order_ (TILEDB_AS_CO_HILBERT E) S)
        end
      else Err
  end.

Definition set_compression (compression : option (list string)) (S : ArraySchema)
  : res ArraySchema :=
  match compression with
  | None =>
      for_loop (attribute_num_ S + 1)
        (fun _ S' =>
           Ok (with_compression_ (compression_ S' ++ [TILEDB_AS_CMP_NONE E]) S'))
        S
  | Some compression =>
      for_loop (attribute_num_ S + 1)
        (fun i S' =>
           c <- at_ compression i ;;
           if String.eqb c "NONE" then
             Ok (with_compression_ (compression_ S' ++ [TILEDB_AS_CMP_NONE E]) S')
           else if String.eqb c "GZIP" then
             Ok (with_compression_ (compression_ S' ++ [TILEDB_AS_CMP_GZIP E]) S')
           else Err)
        S
  end.

Definition set_consolidation_step (consolidation_step : Z) (S : ArraySchema)
  : ArraySchema :=
  if 0 <? consolidation_step then with_consolidation_step_ consolidation_step S
  else with_consolidation_step_ (TILEDB_AS_CONSOLIDATION_STEP E) S.

Definition set_dense (dense : Z) (S : ArraySchema) : ArraySchema :=
  with_dense_ (negb (dense =? 0)) S.

Definition set_dimensions (dimensions : option (list string)) (dim_num : Z)
           (S : ArraySchema) : res ArraySchema :=
  match dimensions with
  | None => Err
  | Some dimensions =>
      if dim_num <=? 0 then Err
      else
        S1 <- for_loop dim_num
                (fun i S' =>
                   d <- at_ dimensions i ;;
                   Ok (with_dimensions_ (dimensions_ S' ++ [d]) S'))
                S ;;
        let S2 := with_dim_num_ dim_num S1 in
        if has_duplicates E (dimensions_ S2) then Err
        else if intersect E (attributes_ S2) (dimensions_ S2) then Err
        else Ok S2
  end.

(** The domain check of [set_domain] for one coordinate type. *)
Definition check_domain (T : Datatype) (S : ArraySchema) : res ArraySchema :=
  let domain := cast T (domain_ S) in
  _ <- for_loop (dim_num_ S)
         (fun i (u : unit) =>
            lo <- at_ domain (2 * i) ;;
            hi <- at_ domain (2 * i + 1) ;;
            if gtT T lo hi then Err else Ok u)
         tt ;;
  Ok S.

Definition set_domain (domain : option (list byte)) (S : ArraySchema)
  : res ArraySchema :=
  match domain with
  | None => Err
  | Some domain =>
      c <- coords_size S ;;
      let domain_size := to_size_t (2 * c) in
      bs <- memcpy_from domain domain_size ;;
      let S1 := with_domain_ (Some bs) S in
      t <- at_ (types_ S1) (attribute_num_ S1) ;;
      match t with
      | Some T_int => check_domain T_int S1
      | Some T_int64_t => check_domain T_int64_t S1
      | Some T_float => check_domain T_float S1
      | Some T_double => check_domain T_double S1
      | _ => Err
      end
  end.

Definition set_tile_extents (tile_extents : option (list byte)) (S : ArraySchema)
  : res ArraySchema :=
  match tile_extents with
  | None =>
      if dense_ S then Err else Ok (with_tile_extents_ None S)
  | Some tile_extents =>
      tile_extents_size <- coords_size S ;;
      bs <- memcpy_from tile_extents tile_extents_size ;;
      Ok (with_tile_extents_ (Some bs) S)
  end.

Definition set_tile_order (tile_order : option string) (S : ArraySchema)
  : res ArraySchema :=
  match tile_order with
  | None => Ok (with_tile_order_ (TILEDB_AS_TILE_ORDER E) S)
  | Some tile_order =>
      if String.eqb tile_order "row-major" then
        Ok (with_tile_order_ (TILEDB_AS_TO_ROW_MAJOR E) S)
      else if String.eqb tile_order "column-major" then
        Ok (with_tile_order_ (TILEDB_AS_TO_COLUMN_MAJOR E) S)
      else if String.eqb tile_order "hilbert" then
        match tile_extents_ S with
        | Some _ => Err
        | None => Ok (with_tile_order_ (TILEDB_AS_TO_HILBERT E) S)
        end
      else Err
  end.

(** The type named by a token of [set_types]. *)
Definition type_of_name (name : string) : option Datatype :=
  if String.eqb name "char" then Some T_char
  else if String.eqb name "int32" then Some T_int
  else if String.eqb name "int64" then Some T_int64_t
  else if String.eqb name "float32" then Some T_float
  else if String.eqb name "float64" then Some T_double
  else None.

(** One turn of the attribute loop of [set_types]. *)
Definition set_types_attribute (types : list string) (i : Z) (S : ArraySchema)
  : res ArraySchema :=
  type_val_num <- at_ types i ;;
  match strtok_all type_val_num with
  | [] => Undef                  (* a std::string built from a null token *)
  | type :: rest =>
      S1 <- match rest with
            | [] => Ok (with_val_num_ (val_num_ S ++ [1]) S)
            | token :: rest' =>
                S' <- (if String.eqb token "var" then
                         Ok (with_var_attribute_num_
                               (to_int (var_attribute_num_ S + 1))
                               (with_val_num_ (val_num_ S ++ [TILEDB_AS_VAR_SIZE E]) S))
                       else if negb (is_positive_integer E token) then Err
                       else
                         num <- sscanf_d token ;;
                         Ok (with_val_num_ (val_num_ S ++ [num]) S)) ;;
                match rest' with
                | [] => Ok S'
                | _ :: _ => Err
                end
            end ;;
      match type_of_name type with
      | Some t => Ok (with_types_ (types_ S1 ++ [Some t]) S1)
      | None => Err
      end
  end.

(** [dimensions_.resize(4)] followed by the four assignments. *)
Definition key_value_dimensions (dimension : string) : list string :=
  [(dimension ++ "_1")%string; (dimension ++ "_2")%string;
   (dimension ++ "_3")%string; (dimension ++ "_4")%string].

Definition set_types (types : option (list string)) (S : ArraySchema)
  : res ArraySchema :=
  match types with
  | None => Err
  | Some types =>
      let S0 := with_var_attribute_num_ 0 S in
      S1 <- for_loop (attribute_num_ S0) (set_types_attribute types) S0 ;;
      type <- at_ types (attribute_num_ S1) ;;
      S2 <- (if String.eqb type "char:var" then
               dimension <- at_ (dimensions_ S1) 0 ;;
               Ok (with_dimensions_ (key_value_dimensions dimension)
                     (with_key_value_ true
                        (with_dim_num_ 4
                           (with_types_ (types_ S1 ++ [Some T_int]) S1))))
             else
               let S1' := with_key_value_ false S1 in
               if dense_ S1' && (String.eqb type "float32" || String.eqb type "float64")
               then Err
               else if String.eqb type "int32" then
                 Ok (with_types_ (types_ S1' ++ [Some T_int]) S1')
               else if String.eqb type "int64" then
                 Ok (with_types_ (types_ S1' ++ [Some T_int64_t]) S1')
               else if String.eqb type "float32" then
                 Ok (with_types_ (types_ S1' ++ [Some T_float]) S1')
               else if String.eqb type "float64" then
                 Ok (with_types_ (types_ S1' ++ [Some T_double]) S1')
               else Err) ;;
      type_sizes <- fill (attribute_num_ S2 + 1) (compute_type_size S2) ;;
      let S3 := with_type_sizes_ type_sizes S2 in
      cell_sizes <- fill (attribute_num_ S3 + 1) (compute_cell_size S3) ;;
      Ok (with_cell_sizes_ cell_sizes S3)
  end.

(** The four derived-field computations that end both [init] and
    [deserialize]. *)
Definition finalize (S : ArraySchema) : res ArraySchema :=
  S1 <- compute_cell_num_per_tile S ;;
  S2 <- compute_tile_sizes S1 ;;
  S3 <- compute_tile_domain S2 ;;
  init_hilbert_curve S3.

Definition init (array_schema_c : C_API.ArraySchemaC) (S : ArraySchema)
  : res ArraySchema :=
  let S := set_array_name (C_API.array_name_ array_schema_c) S in
  S <- set_attributes (C_API.attributes_ array_schema_c)
         (C_API.attribute_num_ array_schema_c) S ;;
  let S := set_capacity (to_int (C_API.capacity_ array_schema_c)) S in
  S <- set_dimensions (C_API.dimensions_ array_schema_c)
         (C_API.dim_num_ array_schema_c) S ;;
  S <- set_compression (C_API.compression_ array_schema_c) S ;;
  let S := set_consolidation_step (C_API.consolidation_step_ array_schema_c) S in
  let S := set_dense (C_API.dense_ array_schema_c) S in
  S <- set_types (C_API.types_ array_schema_c) S ;;
  S <- set_tile_extents (C_API.tile_extents_ array_schema_c) S ;;
  S <- set_cell_order (C_API.cell_order_ array_schema_c) S ;;
  S <- set_tile_order (C_API.tile_order_ array_schema_c) S ;;
  S <- set_domain (C_API.domain_ array_schema_c) S ;;
  finalize S.

(* ================================================================= *)
(** ** The binary codec *)

Definition compute_bin_size (S : ArraySchema) : res Z :=
  let bin_size := 0 in
  let bin_size := bin_size + (4 + size (array_name_ S)) in
  let bin_size := bin_size + 1 in
  let bin_size := bin_size + 1 in
  let bin_size := bin_size + 2 * 1 in
  let bin_size := bin_size + 8 in
  let bin_size := bin_size + 4 in
  let bin_size := bin_size + 4 in
  bin_size <- for_loop (attribute_num_ S)
                (fun i bin_size =>
                   a <- at_ (attributes_ S) i ;; Ok (bin_size + (4 + size a)))
                bin_size ;;
  let bin_size := bin_size + 4 in
  bin_size <- for_loop (dim_num_ S)
                (fun i bin_size =>
                   d <- at_ (dimensions_ S) i ;; Ok (bin_size + (4 + size d)))
                bin_size ;;
  c <- coords_size S ;;
  let bin_size := bin_size + (4 + 2 * c) in
  let bin_size :=
    bin_size + (4 + match tile_extents_ S with None => 0 | Some _ => c end) in
  let bin_size := bin_size + (attribute_num_ S + 1) * 1 in
  let bin_size := bin_size + attribute_num_ S * 4 in
  let bin_size := bin_size + (attribute_num_ S + 1) * 1 in
  Ok (to_size_t bin_size).

(** One [assert] / [memcpy] / [offset +=] group of [serialize].  The buffer
    is filled front to back, so the model keeps the part written so far and
    [offset] is its length.  [strict] tells [<] from [<=] in the assert. *)
Definition put (buffer_size : Z) (strict : bool) (src : list byte) (n : Z)
           (buffer : list byte) : res (list byte) :=
  let offset := len buffer in
  _ <- assert (if strict then to_size_t (offset + n) <? buffer_size
               else to_size_t (offset + n) <=? buffer_size) ;;
  bs <- memcpy_from src n ;;
  Ok (buffer ++ bs).

(** The code [serialize] writes for a type. *)
Definition type_code (t : Datatype) : Z :=
  match t with
  | T_char => TILEDB_CHAR E
  | T_int => TILEDB_INT32 E
  | T_int64_t => TILEDB_INT64 E
  | T_float => TILEDB_FLOAT32 E
  | T_double => TILEDB_FLOAT64 E
  end.

Definition serialize (S : ArraySchema) : res (list byte) :=
  array_schema_bin_size <- compute_bin_size S ;;
  let buffer_size := array_schema_bin_size in
  let buffer : list byte := [] in
  (* array_name_ *)
  let array_name_size := to_int (size (array_name_ S)) in
  buffer <- put buffer_size true (le_bytes 4 array_name_size) 4 buffer ;;
  buffer <- put buffer_size true (bytes_of_string (array_name_ S))
              array_name_size buffer ;;
  (* dense_, key_value_ *)
  buffer <- put buffer_size true (bytes_of_bool (dense_ S)) 1 buffer ;;
  buffer <- put buffer_size true (bytes_of_bool (key_value_ S)) 1 buffer ;;
  (* tile_order_, cell_order_ *)
  let tile_order := to_char (tile_order_ S) in
  buffer <- put buffer_size true (le_bytes 1 tile_order) 1 buffer ;;
  let cell_order := to_char (cell_order_ S) in
  buffer <- put buffer_size true (le_bytes 1 cell_order) 1 buffer ;;
  (* capacity_, consolidation_step_ *)
  buffer <- put buffer_size true (le_bytes 8 (capacity_ S)) 8 buffer ;;
  buffer <- put buffer_size true (le_bytes 4 (consolidation_step_ S)) 4 buffer ;;
  (* attributes_ *)
  buffer <- put buffer_size true (le_bytes 4 (attribute_num_ S)) 4 buffer ;;
  buffer <- for_loop (attribute_num_ S)
              (fun i buffer =>
                 a <- at_ (attributes_ S) i ;;
                 let attribute_size := to_int (size a) in
                 buffer <- put buffer_size true (le_bytes 4 attribute_size) 4 buffer ;;
                 put buffer_size true (bytes_of_string a) attribute_size buffer)
              buffer ;;
  (* dimensions_ *)
  buffer <- put buffer_size true (le_bytes 4 (dim_num_ S)) 4 buffer ;;
  buffer <- for_loop (dim_num_ S)
              (fun i buffer =>
                 d <- at_ (dimensions_ S) i ;;
                 let dimension_size := to_int (size d) in
                 buffer <- put buffer_size true (le_bytes 4 dimension_size) 4 buffer ;;
                 put buffer_size true (bytes_of_string d) dimension_size buffer)
              buffer ;;
  (* domain_ *)
  c <- coords_size S ;;
  let domain_size := to_int (2 * c) in
  buffer <- put buffer_size true (le_bytes 4 domain_size) 4 buffer ;;
  domain <- match domain_ S with Some bs => Ok bs | None => Undef end ;;
  buffer <- put buffer_size true domain domain_size buffer ;;
  (* offset advances by 2*coords_size(): were it another number than
     domain_size, the buffer would keep unwritten bytes *)
  _ <- (if domain_size =? to_size_t (2 * c) then Ok tt else Undef) ;;
  (* tile_extents_ *)
  let tile_extents_size :=
    match tile_extents_ S with None => 0 | Some _ => to_int c end in
  buffer <- put buffer_size true (le_bytes 4 tile_extents_size) 4 buffer ;;
  buffer <- match tile_extents_ S with
            | None => Ok buffer
            | Some tile_extents =>
                put buffer_size true tile_extents tile_extents_size buffer
            end ;;
  (* types_ *)
  buffer <- for_loop (attribute_num_ S + 1)
              (fun i buffer =>
                 t <- at_ (types_ S) i ;;
                 match t with
                 | None => Undef            (* typeid through a null pointer *)
                 | Some ty =>
                     let type := to_char (type_code ty) in
                     put buffer_size true (le_bytes 1 type) 1 buffer
                 end)
              buffer ;;
  (* val_num_ *)
  buffer <- for_loop (attribute_num_ S)
              (fun i buffer =>
                 v <- at_ (val_num_ S) i ;;
                 put buffer_size true (le_bytes 4 v) 4 buffer)
              buffer ;;
  (* compression_ *)
  buffer <- for_loop (attribute_num_ S + 1)
              (fun i buffer =>
                 c <- at_ (compression_ S) i ;;
                 let compression := to_char c in
                 put buffer_size false (le_bytes 1 compression) 1 buffer)
              buffer ;;
  _ <- assert (len buffer =? buffer_size) ;;
  Ok buffer.

(** One [assert] / [memcpy] / [offset +=] group of [deserialize]: the
    bytes read and the new offset. *)
Definition get (buffer : list byte) (strict : bool) (n : Z) (offset : Z)
  : res (list byte * Z) :=
  let buffer_size := len buffer in
  _ <- assert (if strict then to_size_t (offset + n) <? buffer_size
               else to_size_t (offset + n) <=? buffer_size) ;;
  if n <? 0 then Undef
  else Ok (firstn (Z.to_nat n) (skipn (Z.to_nat offset) buffer), offset + n).

(** A length-prefixed string: [resize] with a negative length throws
    before the assert is reached. *)
Definition get_string (buffer : list byte) (offset : Z) : res (string * Z) :=
  '(bs, offset) <- get buffer true 4 offset ;;
  let string_size := to_int (le_value bs) in
  if string_size <? 0 then Undef
  else
    '(bs, offset) <- get buffer true string_size offset ;;
    Ok (string_of_bytes bs, offset).

(** [v.resize(n)] on a vector. *)
Definition resize {A : Type} (l : list A) (n : Z) (d : A) : res (list A) :=
  if n <? 0 then Undef
  else Ok (firstn (Z.to_nat n) l ++ repeat d (Z.to_nat n - length l)).

(** The type a code of the binary format stands for. *)
Definition type_of_code (code : Z) : option Datatype :=
  if code =? TILEDB_CHAR E then Some T_char
  else if code =? TILEDB_INT32 E then Some T_int
  else if code =? TILEDB_INT64 E then Some T_int64_t
  else if code =? TILEDB_FLOAT32 E then Some T_float
  else if code =? TILEDB_FLOAT64 E then Some T_double
  else None.

Definition deserialize (array_schema_bin : list byte) (S : ArraySchema)
  : res ArraySchema :=
  let buffer := array_schema_bin in
  let offset := 0 in
  (* array_name_ *)
  '(array_name, offset) <- get_string buffer offset ;;
  let S := with_array_name_ array_name S in
  (* dense_, key_value_ *)
  '(bs, offset) <- get buffer true 1 offset ;;
  let S := with_dense_ (bool_of_bytes bs) S in
  '(bs, offset) <- get buffer true 1 offset ;;
  let S := with_key_value_ (bool_of_bytes bs) S in
  (* tile_order_, cell_order_ *)
  '(bs, offset) <- get buffer true 1 offset ;;
  let S := with_tile_order_ (to_char (le_value bs)) S in
  '(bs, offset) <- get buffer true 1 offset ;;
  let S := with_cell_order_ (to_char (le_value bs)) S in
  (* capacity_, consolidation_step_ *)
  '(bs, offset) <- get buffer true 8 offset ;;
  let S := with_capacity_ (to_int64 (le_value bs)) S in
  '(bs, offset) <- get buffer true 4 offset ;;
  let S := with_consolidation_step_ (to_int (le_value bs)) S in
  (* attributes_ *)
  '(bs, offset) <- get buffer true 4 offset ;;
  let S := with_attribute_num_ (to_int (le_value bs)) S in
  _ <- resize (attributes_ S) (attribute_num_ S) EmptyString ;;
  '(attributes, offset) <-
    for_loop (attribute_num_ S)
      (fun _ '(attributes, offset) =>
         '(a, offset) <- get_string buffer offset ;;
         Ok (attributes ++ [a], offset))
      ([], offset) ;;
  let S := with_attributes_ attributes S in
  (* dimensions_ *)
  '(bs, offset) <- get buffer true 4 offset ;;
  let S := with_dim_num_ (to_int (le_value bs)) S in
  _ <- resize (dimensions_ S) (dim_num_ S) EmptyString ;;
  '(dimensions, offset) <-
    for_loop (dim_num_ S)
      (fun _ '(dimensions, offset) =>
         '(d, offset) <- get_string buffer offset ;;
         Ok (dimensions ++ [d], offset))
      ([], offset) ;;
  let S := with_dimensions_ dimensions S in
  (* domain_ *)
  '(bs, offset) <- get buffer true 4 offset ;;
  let domain_size := to_int (le_value bs) in
  '(bs, offset) <- get buffer true domain_size offset ;;
  let S := with_domain_ (Some bs) S in
  (* tile_extents_ *)
  '(bs, offset) <- get buffer true 4 offset ;;
  let tile_extents_size := to_int (le_value bs) in
  '(S, offset) <-
    (if tile_extents_size =? 0 then Ok (with_tile_extents_ None S, offset)
     else
       '(bs, offset) <- get buffer true tile_extents_size offset ;;
       Ok (with_tile_extents_ (Some bs) S, offset)) ;;
  (* types_ and type_sizes_: an unknown code leaves both entries alone *)
  types <- resize (types_ S) (attribute_num_ S + 1) None ;;
  type_sizes <- resize (type_sizes_ S) (attribute_num_ S + 1) 0 ;;
  '(types, type_sizes, offset) <-
    for_loop (attribute_num_ S + 1)
      (fun i '(types, type_sizes, offset) =>
         '(bs, offset) <- get buffer true 1 offset ;;
         let type := to_char (le_value bs) in
         match type_of_code type with
         | Some t =>
             types <- put_ types i (Some t) ;;
             type_sizes <- put_ type_sizes i (sizeof t) ;;
             Ok (types, type_sizes, offset)
         | None => Ok (types, type_sizes, offset)
         end)
      (types, type_sizes, offset) ;;
  let S := with_type_sizes_ type_sizes (with_types_ types S) in
  (* val_num_ *)
  let S := with_var_attribute_num_ 0 S in
  val_num <- resize (val_num_ S) (attribute_num_ S) 0 ;;
  '(S, offset) <-
    for_loop (attribute_num_ S)
      (fun i '(S, offset) =>
         '(bs, offset) <- get buffer true 4 offset ;;
         let v := to_int (le_value bs) in
         val_num <- put_ (val_num_ S) i v ;;
         let S := with_val_num_ val_num S in
         let S := if v =? TILEDB_AS_VAR_SIZE E
                  then with_var_attribute_num_ (to_int (var_attribute_num_ S + 1)) S
                  else S in
         Ok (S, offset))
      (with_val_num_ val_num S, offset) ;;
  (* compression_ *)
  '(S, offset) <-
    for_loop (attribute_num_ S + 1)
      (fun _ '(S, offset) =>
         '(bs, offset) <- get buffer false 1 offset ;;
         let compression := to_char (le_value bs) in
         Ok (with_compression_ (compression_ S ++ [compression]) S, offset))
      (S, offset) ;;
  _ <- assert (offset =? len buffer) ;;
  (* the coordinates pseudo-attribute, then the derived fields *)
  let S := with_attributes_ (attributes_ S ++ [TILEDB_COORDS_NAME E]) S in
  cell_sizes <- fill (attribute_num_ S + 1) (compute_cell_size S) ;;
  let S := with_cell_sizes_ cell_sizes S in
  finalize S.

(* ================================================================= *)
(** ** The geometry kernel

    The member templates, for a coordinate type [T] among [int],
    [int64_t], [float] and [double].  Integer arithmetic wraps to the
    width of [T]; floating-point arithmetic is the environment's. *)

Section Geometry.

Variable T : Datatype.

Definition addT (a b : Z) : Z :=
  if is_integral T then wrapT T (a + b) else fp_add E T a b.
Definition subT (a b : Z) : Z :=
  if is_integral T then wrapT T (a - b) else fp_sub E T a b.
Definition mulT (a b : Z) : Z :=
  if is_integral T then wrapT T (a * b) else fp_mul E T a b.

(** Integer division truncates; by zero it is undefined, and so is a
    quotient that is no value of the type (the least value by [-1]). *)
Definition divT (a b : Z) : res Z :=
  if is_integral T then
    if b =? 0 then Undef
    else if wrapT T (Z.quot a b) =? Z.quot a b then Ok (Z.quot a b)
    else Undef
  else Ok (fp_div E T a b).

(** The [int] literal [k] at type [T]. *)
Definition litT (k : Z) : Z :=
  if is_integral T then wrapT T k else fp_of_int E T k.

(** A value of [T] assigned to an [int64_t]. *)
Definition int64_of_T (a : Z) : Z :=
  if is_integral T then a else fp_to_int64 E T a.

(** [pos += c * offset] with [pos], [offset] of type [int64_t] and [c] of
    type [T]. *)
Definition pos_add (pos c offset : Z) : Z :=
  if is_integral T then to_int64 (pos + to_int64 (c * offset))
  else fp_to_int64 E T
         (fp_add E T (fp_of_int E T pos) (fp_mul E T c (fp_of_int E T offset))).

(** [for (i = n-1; i >= 0; --i) body]. *)
Fixpoint for_down {St : Type} (n : nat) (body : Z -> St -> res St) (st : St)
  : res St :=
  match n with
  | O => Ok st
  | S k => st' <- body (Z.of_nat k) st ;; for_down k body st'
  end.

(** Loops left by [break]: the body tells whether it broke out. *)
Fixpoint for_break_from {St : Type} (i : Z) (n : nat)
         (body : Z -> St -> res (St * bool)) (st : St) : res St :=
  match n with
  | O => Ok st
  | S k =>
      '(st', broke) <- body i st ;;
      if broke then Ok st' else for_break_from (i + 1) k body st'
  end.

Fixpoint for_break_down {St : Type} (n : nat)
         (body : Z -> St -> res (St * bool)) (st : St) : res St :=
  match n with
  | O => Ok st
  | S k =>
      '(st', broke) <- body (Z.of_nat k) st ;;
      if broke then Ok st' else for_break_down k body st'
  end.

(** *** Slabs *)

Definition cell_num_in_range_slab_col (S : ArraySchema) (range : list Z) : res Z :=
  r1 <- at_ range 1 ;;
  r0 <- at_ range 0 ;;
  Ok (addT (subT r1 r0) (litT 1)).

Definition cell_num_in_range_slab_row (S : ArraySchema) (range : list Z) : res Z :=
  r1 <- at_ range (2 * (dim_num_ S - 1) + 1) ;;
  r0 <- at_ range (2 * (dim_num_ S - 1)) ;;
  Ok (addT (subT r1 r0) (litT 1)).

Definition cell_num_in_range_slab (S : ArraySchema) (range : list Z) : res Z :=
  if cell_order_ S =? TILEDB_AS_CO_ROW_MAJOR E then
    cell_num_in_range_slab_row S range
  else if cell_order_ S =? TILEDB_AS_CO_COLUMN_MAJOR E then
    cell_num_in_range_slab_col S range
  else Ok (litT (-1)).

Definition cell_num_in_tile_slab_col (S : ArraySchema) : res Z :=
  let tile_extents := cast T (tile_extents_ S) in
  at_ tile_extents 0.

Definition cell_num_in_tile_slab_row (S : ArraySchema) : res Z :=
  let tile_extents := cast T (tile_extents_ S) in
  at_ tile_extents (dim_num_ S - 1).

Definition cell_num_in_tile_slab (S : ArraySchema) : res Z :=
  if cell_order_ S =? TILEDB_AS_CO_ROW_MAJOR E then
    cell_num_in_tile_slab_row S
  else if cell_order_ S =? TILEDB_AS_CO_COLUMN_MAJOR E then
    cell_num_in_tile_slab_col S
  else Ok (litT (-1)).

(** *** Position of a cell in its tile *)

(** The position loop shared by the four position members:
    [pos += coords[i] * offsets[i]] for [i] from 0. *)
Definition position (S : ArraySchema) (coords offsets : list Z) : res Z :=
  for_loop (dim_num_ S)
    (fun i pos =>
       c <- at_ coords i ;;
       o <- at_ offsets i ;;
       Ok (pos_add pos c o))
    0.

Definition get_cell_pos_col (S : ArraySchema) (coords : list Z) : res Z :=
  let tile_extents := cast T (tile_extents_ S) in
  cell_offsets <-
    for_loop_from 1 (Z.to_nat (dim_num_ S - 1))
      (fun i cell_offsets =>
         e <- at_ tile_extents (i - 1) ;;
         let cell_num := int64_of_T e in
         Ok (cell_offsets ++ [to_int64 (last cell_offsets 0 * cell_num)]))
      [1] ;;
  position S coords cell_offsets.

Definition get_cell_pos_row (S : ArraySchema) (coords : list Z) : res Z :=
  let tile_extents := cast T (tile_extents_ S) in
  cell_offsets <-
    for_down (Z.to_nat (dim_num_ S - 1))
      (fun i cell_offsets =>
         e <- at_ tile_extents (i + 1) ;;
         let cell_num := int64_of_T e in
         Ok (cell_offsets ++ [to_int64 (last cell_offsets 0 * cell_num)]))
      [1] ;;
  let cell_offsets := rev cell_offsets in
  position S coords cell_offsets.

Definition get_cell_pos (S : ArraySchema) (coords : list Z) : res Z :=
  if cell_order_ S =? TILEDB_AS_CO_ROW_MAJOR E then get_cell_pos_row S coords
  else if cell_order_ S =? TILEDB_AS_CO_COLUMN_MAJOR E then get_cell_pos_col S coords
  else Ok (-1).

(** *** Enumeration of tile coordinates *)

(** The [while] loop of [get_next_tile_coords_col], entered with index [i];
    [n] bounds the turns left before [i] reaches [dim_num_ - 1]. *)
Fixpoint next_col_loop (domain : list Z) (n : nat) (i : Z) (tile_coords : list Z)
  : res (list Z) :=
  match n with
  | O => Ok tile_coords
  | S k =>
      c <- at_ tile_coords i ;;
      hi <- at_ domain (2 * i + 1) ;;
      if gtT T c hi then
        lo <- at_ domain (2 * i) ;;
        tile_coords <- put_ tile_coords i lo ;;
        c' <- at_ tile_coords (i + 1) ;;
        tile_coords <- put_ tile_coords (i + 1) (addT c' (litT 1)) ;;
        next_col_loop domain k (i + 1) tile_coords
      else Ok tile_coords
  end.

Definition get_next_tile_coords_col (S : ArraySchema) (domain tile_coords : list Z)
  : res (list Z) :=
  let i := 0 in
  c <- at_ tile_coords i ;;
  tile_coords <- put_ tile_coords i (addT c (litT 1)) ;;
  next_col_loop domain (Z.to_nat (dim_num_ S - 1 - i)) i tile_coords.

(** The [while] loop of [get_next_tile_coords_row], entered with index [i]. *)
Fixpoint next_row_loop (domain : list Z) (i : nat) (tile_coords : list Z)
  : res (list Z) :=
  match i with
  | O => Ok tile_coords
  | S j =>
      c <- at_ tile_coords (Z.of_nat i) ;;
      hi <- at_ domain (2 * Z.of_nat i + 1) ;;
      if gtT T c hi then
        lo <- at_ domain (2 * Z.of_nat i) ;;
        tile_coords <- put_ tile_coords (Z.of_nat i) lo ;;
        c' <- at_ tile_coords (Z.of_nat j) ;;
        tile_coords <- put_ tile_coords (Z.of_nat j) (addT c' (litT 1)) ;;
        next_row_loop domain j tile_coords
      else Ok tile_coords
  end.

Definition get_next_tile_coords_row (S : ArraySchema) (domain tile_coords : list Z)
  : res (list Z) :=
  let i := dim_num_ S - 1 in
  c <- at_ tile_coords i ;;
  tile_coords <- put_ tile_coords i (addT c (litT 1)) ;;
  next_row_loop domain (Z.to_nat i) tile_coords.

Definition get_next_tile_coords (S : ArraySchema) (domain tile_coords : list Z)
  : res (list Z) :=
  if tile_order_ S =? TILEDB_AS_TO_ROW_MAJOR E then
    get_next_tile_coords_row S domain tile_coords
  else if tile_order_ S =? TILEDB_AS_TO_COLUMN_MAJOR E then
    get_next_tile_coords_col S domain tile_coords
  else Ok tile_coords.

(** *** Position of a tile in the tile grid *)

(** Tiles along dimension [i]: [(domain[2i+1] - domain[2i] + 1) / tile_extents[i]]. *)
Definition tiles_along (domain tile_extents : list Z) (i : Z) : res Z :=
  hi <- at_ domain (2 * i + 1) ;;
  lo <- at_ domain (2 * i) ;;
  e <- at_ tile_extents i ;;
  divT (addT (subT hi lo) (litT 1)) e.

Definition get_tile_pos_col (S : ArraySchema) (tile_coords : list Z) : res Z :=
  let domain := cast T (domain_ S) in
  let tile_extents := cast T (tile_extents_ S) in
  tile_offsets <-
    for_loop_from 1 (Z.to_nat (dim_num_ S - 1))
      (fun i tile_offsets =>
         q <- tiles_along domain tile_extents (i - 1) ;;
         let tile_num := int64_of_T q in
         Ok (tile_offsets ++ [to_int64 (last tile_offsets 0 * tile_num)]))
      [1] ;;
  position S tile_coords tile_offsets.

Definition get_tile_pos_row (S : ArraySchema) (tile_coords : list Z) : res Z :=
  let domain := cast T (domain_ S) in
  let tile_extents := cast T (tile_extents_ S) in
  tile_offsets <-
    for_down (Z.to_nat (dim_num_ S - 1))
      (fun i tile_offsets =>
         q <- tiles_along domain tile_extents (i + 1) ;;
         let tile_num := int64_of_T q in
         Ok (tile_offsets ++ [to_int64 (last tile_offsets 0 * tile_num)]))
      [1] ;;
  let tile_offsets := rev tile_offsets in
  position S tile_coords tile_offsets.

(** [get_tile_pos] calls the row or the column member and drops what it
    returns; control then reaches the end of a function declared to return
    [int64_t], so no value is defined for the caller. *)
Definition get_tile_pos (S : ArraySchema) (tile_coords : list Z) : res Z :=
  if tile_order_ S =? TILEDB_AS_TO_ROW_MAJOR E then
    _ <- get_tile_pos_row S tile_coords ;; Undef
  else if tile_order_ S =? TILEDB_AS_TO_COLUMN_MAJOR E then
    _ <- get_tile_pos_col S tile_coords ;; Undef
  else Undef.

(** [tile_num<T>]. *)
Definition tile_num_T (S : ArraySchema) : res Z :=
  let domain := cast T (domain_ S) in
  let tile_extents := cast T (tile_extents_ S) in
  for_loop (dim_num_ S)
    (fun i ret =>
       q <- tiles_along domain tile_extents i ;;
       Ok (to_int64 (ret * int64_of_T q)))
    1.

End Geometry.

Definition tile_num (S : ArraySchema) : res Z :=
  t <- at_ (types_ S) (attribute_num_ S) ;;
  match t with
  | Some T_int => tile_num_T T_int S
  | Some T_int64_t => tile_num_T T_int64_t S
  | _ => Fail
  end.

(** *** Overlap classification *)

Section Overlap.

Variable T : Datatype.

(** The test repeated by the loops that reset the code to 2: along
    dimension [i] the overlap differs from the pair [(lo, hi)]. *)
Definition differs (overlap_range : list Z) (i : Z) (lo hi : Z) : res bool :=
  o0 <- at_ overlap_range (2 * i) ;;
  if neT T o0 lo then Ok true
  else o1 <- at_ overlap_range (2 * i + 1) ;; Ok (neT T o1 hi).

Definition compute_mbr_range_overlap (S : ArraySchema)
           (range mbr overlap_range : list Z) : res (list Z * Z) :=
  (* overlap range *)
  overlap_range <-
    for_loop (dim_num_ S)
      (fun i overlap_range =>
         m0 <- at_ mbr (2 * i) ;;
         r0 <- at_ range (2 * i) ;;
         overlap_range <- put_ overlap_range (2 * i) (maxT T m0 r0) ;;
         m1 <- at_ mbr (2 * i + 1) ;;
         r1 <- at_ range (2 * i + 1) ;;
         put_ overlap_range (2 * i + 1) (minT T m1 r1))
      overlap_range ;;
  (* overlap *)
  let overlap := 1 in
  overlap <-
    for_break_from 0 (Z.to_nat (dim_num_ S))
      (fun i overlap =>
         o0 <- at_ overlap_range (2 * i) ;;
         m1 <- at_ mbr (2 * i + 1) ;;
         if gtT T o0 m1 then Ok (0, true)
         else
           o1 <- at_ overlap_range (2 * i + 1) ;;
           m0 <- at_ mbr (2 * i) ;;
           if ltT T o1 m0 then Ok (0, true) else Ok (overlap, false))
      overlap ;;
  (* partial overlap *)
  overlap <-
    (if overlap =? 1 then
       for_break_from 0 (Z.to_nat (dim_num_ S))
         (fun i overlap =>
            m0 <- at_ mbr (2 * i) ;;
            m1 <- at_ mbr (2 * i + 1) ;;
            d <- differs overlap_range i m0 m1 ;;
            if d then Ok (2, true) else Ok (overlap, false))
         overlap
     else Ok overlap) ;;
  (* contiguous overlap (not applicable to Hilbert order) *)
  overlap <-
    (if (overlap =? 2) && negb (cell_order_ S =? TILEDB_AS_CO_HILBERT E) then
       let overlap := 3 in
       if cell_order_ S =? TILEDB_AS_CO_ROW_MAJOR E then
         for_break_from 1 (Z.to_nat (dim_num_ S - 1))
           (fun i overlap =>
              m0 <- at_ mbr (2 * i) ;;
              m1 <- at_ mbr (2 * i + 1) ;;
              d <- differs overlap_range i m0 m1 ;;
              if d then Ok (2, true) else Ok (overlap, false))
           overlap
       else if cell_order_ S =? TILEDB_AS_CO_COLUMN_MAJOR E then
         for_break_down (Z.to_nat (dim_num_ S - 1))
           (fun i overlap =>
              m0 <- at_ mbr (2 * i) ;;
              m1 <- at_ mbr (2 * i + 1) ;;
              d <- differs overlap_range i m0 m1 ;;
              if d then Ok (2, true) else Ok (overlap, false))
           overlap
       else Ok overlap
     else Ok overlap) ;;
  Ok (overlap_range, overlap).

(** The scratch array [tile_range] is released with [delete] rather than
    [delete[]]; the model takes the release to have no effect. *)
Definition compute_tile_range_overlap (S : ArraySchema)
           (range tile_coords overlap_range : list Z) : res (list Z * Z) :=
  let domain := cast T (domain_ S) in
  let tile_extents := cast T (tile_extents_ S) in
  (* tile range *)
  _ <- (if dim_num_ S <? 0 then Undef else Ok tt) ;;
  tile_range <-
    for_loop (dim_num_ S)
      (fun i tile_range =>
         lo <- at_ domain (2 * i) ;;
         c <- at_ tile_coords i ;;
         e <- at_ tile_extents i ;;
         let t0 := addT T lo (mulT T c e) in
         Ok (tile_range ++ [t0; subT T (addT T t0 e) (litT T 1)]))
      [] ;;
  (* overlap range *)
  overlap_range <-
    for_loop (dim_num_ S)
      (fun i overlap_range =>
         t0 <- at_ tile_range (2 * i) ;;
         r0 <- at_ range (2 * i) ;;
         overlap_range <- put_ overlap_range (2 * i) (subT T (maxT T t0 r0) t0) ;;
         t1 <- at_ tile_range (2 * i + 1) ;;
         r1 <- at_ range (2 * i + 1) ;;
         put_ overlap_range (2 * i + 1) (subT T (minT T t1 r1) t0))
      overlap_range ;;
  (* overlap *)
  let overlap := 1 in
  overlap <-
    for_break_from 0 (Z.to_nat (dim_num_ S))
      (fun i overlap =>
         o0 <- at_ overlap_range (2 * i) ;;
         e <- at_ tile_extents i ;;
         if geT T o0 e then Ok (0, true)
         else
           o1 <- at_ overlap_range (2 * i + 1) ;;
           if ltT T o1 (litT T 0) then Ok (0, true) else Ok (overlap, false))
      overlap ;;
  (* contiguous overlap *)
  overlap <-
    (if 0 <? overlap then
       for_break_from 0 (Z.to_nat (dim_num_ S))
         (fun i overlap =>
            e <- at_ tile_extents i ;;
            d <- differs overlap_range i (litT T 0) (subT T e (litT T 1)) ;;
            if d then Ok (2, true) else Ok (overlap, false))
         overlap
     else Ok overlap) ;;
  (* special overlap *)
  overlap <-
    (if overlap =? 2 then
       let overlap := 3 in
       if cell_order_ S =? TILEDB_AS_CO_ROW_MAJOR E then
         for_break_from 1 (Z.to_nat (dim_num_ S - 1))
           (fun i overlap =>
              e <- at_ tile_extents i ;;
              d <- differs overlap_range i (litT T 0) (subT T e (litT T 1)) ;;
              if d then Ok (2, true) else Ok (overlap, false))
           overlap
       else if cell_order_ S =? TILEDB_AS_CO_COLUMN_MAJOR E then
         for_break_down (Z.to_nat (dim_num_ S - 1))
           (fun i overlap =>
              e <- at_ tile_extents i ;;
              d <- differs overlap_range i (litT T 0) (subT T e (litT T 1)) ;;
              if d then Ok (2, true) else Ok (overlap, false))
           overlap
       else Ok overlap
     else Ok overlap) ;;
  Ok (overlap_range, overlap).

End Overlap.

End Model.

(* ================================================================= *)
(** ** A concrete environment and the scenarios of the specification *)

(** Modelled from the spec: [has_duplicates] of utils.h is missing; the
    specification asks for sequences of unique names. *)
Fixpoint has_duplicates_spec (l : list string) : bool :=
  match l with
  | [] => false
  | a :: r => existsb (String.eqb a) r || has_duplicates_spec r
  end.

(** Modelled from the spec: [intersect] of utils.h is missing; the
    specification forbids a name that is both an attribute and a
    dimension. *)
Definition intersect_spec (l1 l2 : list string) : bool :=
  existsb (fun a => existsb (String.eqb a) l2) l1.

(** Modelled from the spec: [is_positive_integer] of utils.h is missing;
    the specification asks for a positive integer after the colon. *)
Definition is_positive_integer_spec (s : string) : bool :=
  match read_digits s None with
  | Some v =>
      (0 <? v) && forallb (fun c => match digit_of c with Some _ => true | None => false end)
                          (list_ascii_of_string s)
  | None => false
  end.

(** Modelled from the spec: the constants of constants.h and
    array_schema.h are missing.  The type codes and the name of the
    coordinates attribute are the specification's; it fixes neither the
    codes of the orders and compressors nor the defaults, for which the
    values below are one admissible choice (a negative mark for
    variable-sized cells, row-major defaults).  The floating-point entries
    are stand-ins. *)
Definition spec_env : Env :=
  {| TILEDB_CHAR := 0; TILEDB_INT32 := 1; TILEDB_INT64 := 2;
     TILEDB_FLOAT32 := 3; TILEDB_FLOAT64 := 4;
     TILEDB_COORDS_NAME := "__coords";
     TILEDB_CELL_VAR_OFFSET_SIZE := 8;
     TILEDB_AS_TO_COLUMN_MAJOR := 0; TILEDB_AS_TO_HILBERT := 1;
     TILEDB_AS_TO_ROW_MAJOR := 2;
     TILEDB_AS_CO_COLUMN_MAJOR := 0; TILEDB_AS_CO_HILBERT := 1;
     TILEDB_AS_CO_ROW_MAJOR := 2;
     TILEDB_AS_CMP_NONE := 0; TILEDB_AS_CMP_GZIP := 1;
     TILEDB_AS_CAPACITY := 10000;
     TILEDB_AS_CELL_ORDER := 2;
     TILEDB_AS_CONSOLIDATION_STEP := 1;
     TILEDB_AS_TILE_ORDER := 2;
     TILEDB_AS_VAR_SIZE := -1;
     real_dir := fun s => s;
     has_duplicates := has_duplicates_spec;
     intersect := intersect_spec;
     is_positive_integer := is_positive_integer_spec;
     fp_add := fun _ _ _ => 0; fp_sub := fun _ _ _ => 0;
     fp_mul := fun _ _ _ => 0; fp_div := fun _ _ _ => 0;
     fp_of_int := fun _ _ => 0; fp_to_int64 := fun _ _ => 0;
     fp_ceil_quot := fun _ _ _ => 0;
     fp_tile_hi := fun _ _ _ _ => 0;
     fp_ceil_log2 := fun _ m => Z.log2_up m;
     fp_hilbert_bits := fun _ _ _ => 0 |}.

(** Scenario S1: a dense 2-D array over [0,9] x [0,9] with 5 x 5 tiles. *)
Definition S1_input : C_API.ArraySchemaC :=
  {| C_API.array_name_ := "A";
     C_API.attributes_ := Some ["v"%string];
     C_API.attribute_num_ := 1;
     C_API.capacity_ := 0;
     C_API.cell_order_ := Some "row-major"%string;
     C_API.compression_ := Some ["NONE"%string; "NONE"%string];
     C_API.consolidation_step_ := 0;
     C_API.dense_ := 1;
     C_API.dimensions_ := Some ["x"%string; "y"%string];
     C_API.dim_num_ := 2;
     C_API.domain_ := Some (store T_int64_t [0; 9; 0; 9]);
     C_API.tile_extents_ := Some (store T_int64_t [5; 5]);
     C_API.tile_order_ := Some "row-major"%string;
     C_API.types_ := Some ["int64"%string; "int64"%string] |}.

(** Scenario S4: a sparse 2-D array in Hilbert cell order. *)
Definition S4_input : C_API.ArraySchemaC :=
  {| C_API.array_name_ := "B";
     C_API.attributes_ := Some ["v"%string; "w"%string];
     C_API.attribute_num_ := 2;
     C_API.capacity_ := 10000;
     C_API.cell_order_ := Some "hilbert"%string;
     C_API.compression_ := None;
     C_API.consolidation_step_ := 0;
     C_API.dense_ := 0;
     C_API.dimensions_ := Some ["x"%string; "y"%string];
     C_API.dim_num_ := 2;
     C_API.domain_ := Some (store T_int [0; 1023; 0; 1023]);
     C_API.tile_extents_ := None;
     C_API.tile_order_ := None;
     C_API.types_ := Some ["char:var"%string; "int32"%string; "int32"%string] |}.

(* ================================================================= *)
(** ** Notions used by the statements *)

(** The enumerators of [CellOrder], and of [TileOrder], are three
    different values. *)
Definition distinct_cell_orders (E : Env) : Prop :=
  TILEDB_AS_CO_ROW_MAJOR E <> TILEDB_AS_CO_COLUMN_MAJOR E /\
  TILEDB_AS_CO_ROW_MAJOR E <> TILEDB_AS_CO_HILBERT E /\
  TILEDB_AS_CO_COLUMN_MAJOR E <> TILEDB_AS_CO_HILBERT E.

Definition distinct_tile_orders (E : Env) : Prop :=
  TILEDB_AS_TO_ROW_MAJOR E <> TILEDB_AS_TO_COLUMN_MAJOR E /\
  TILEDB_AS_TO_ROW_MAJOR E <> TILEDB_AS_TO_HILBERT E /\
  TILEDB_AS_TO_COLUMN_MAJOR E <> TILEDB_AS_TO_HILBERT E.

(** A schema in Hilbert cell order, for use as a sample. *)
Definition hilbert_sample : ArraySchema :=
  with_dim_num_ 2 (with_cell_order_ (TILEDB_AS_CO_HILBERT spec_env) ArraySchema_new).

(** [c1] comes before [c2] in the lexicographic order whose most
    significant position is the first one, respectively the last one. *)
Fixpoint lex_lt (c1 c2 : list Z) : Prop :=
  match c1, c2 with
  | a :: r1, b :: r2 => a < b \/ (a = b /\ lex_lt r1 r2)
  | _, _ => False
  end.

Definition lex_lt_first_major (c1 c2 : list Z) : Prop := lex_lt c1 c2.
Definition lex_lt_last_major (c1 c2 : list Z) : Prop := lex_lt (rev c1) (rev c2).

(** The serialized schema of scenario S1 (108 bytes; empty should [init]
    or [serialize] not succeed). *)
Definition S1_bytes : list byte :=
  Eval vm_compute in
    match (S <- init spec_env S1_input ArraySchema_new ;; serialize spec_env S) with
    | Ok b => b
    | _ => []
    end.

(** The same buffer with the tile order byte (offset 7) set to 9, which is
    the code of no order; and the buffer cut after 50 bytes. *)
Definition S1_bytes_bad_order : list byte :=
  firstn 7 S1_bytes ++ [x09] ++ skipn 8 S1_bytes.

Definition S1_bytes_truncated : list byte := firstn 50 S1_bytes.

(** Neither default order is the Hilbert order. *)
Definition defaults_not_hilbert (E : Env) : Prop :=
  TILEDB_AS_CELL_ORDER E <> TILEDB_AS_CO_HILBERT E /\
  TILEDB_AS_TILE_ORDER E <> TILEDB_AS_TO_HILBERT E.

(** The schemas [init] builds for the scenarios S1 and S4. *)
Definition S1_schema : ArraySchema :=
  Eval vm_compute in
    match init spec_env S1_input ArraySchema_new with
    | Ok schema => schema
    | _ => ArraySchema_new
    end.

Definition S4_schema : ArraySchema :=
  Eval vm_compute in
    match init spec_env S4_input ArraySchema_new with
    | Ok schema => schema
    | _ => ArraySchema_new
    end.

(** The values of a signed integer type of [w] bits. *)
Definition in_range (w : Z) (z : Z) : Prop := - 2 ^ (w - 1) <= z < 2 ^ (w - 1).

Definition in_char (z : Z) : Prop := in_range 8 z.
Definition in_int (z : Z) : Prop := in_range 32 z.
Definition in_int64 (z : Z) : Prop := in_range 64 z.

(** What the codec needs of the environment: the codes and enumerators
    fit a [char], the type codes are pairwise different, and the mark of
    variable-sized cells is negative. *)
Record Env_ok (E : Env) : Prop := {
  type_code_char : forall t, in_char (type_code E t);
  type_code_inj : forall t t', type_code E t = type_code E t' -> t = t';
  tile_orders_char :
    in_char (TILEDB_AS_TO_ROW_MAJOR E) /\ in_char (TILEDB_AS_TO_COLUMN_MAJOR E) /\
    in_char (TILEDB_AS_TO_HILBERT E) /\ in_char (TILEDB_AS_TILE_ORDER E);
  cell_orders_char :
    in_char (TILEDB_AS_CO_ROW_MAJOR E) /\ in_char (TILEDB_AS_CO_COLUMN_MAJOR E) /\
    in_char (TILEDB_AS_CO_HILBERT E) /\ in_char (TILEDB_AS_CELL_ORDER E);
  compressions_char :
    in_char (TILEDB_AS_CMP_NONE E) /\ in_char (TILEDB_AS_CMP_GZIP E);
  var_size_negative : TILEDB_AS_VAR_SIZE E < 0
}.

Arguments type_code_char {E}.
Arguments type_code_inj {E}.
Arguments tile_orders_char {E}.
Arguments cell_orders_char {E}.
Arguments compressions_char {E}.
Arguments var_size_negative {E}.

(** The members of integer type hold values of their type. *)
Definition typed (S : ArraySchema) : Prop :=
  in_int (attribute_num_ S) /\ in_int (dim_num_ S) /\
  in_int (consolidation_step_ S) /\ in_int64 (capacity_ S) /\
  Forall in_int (val_num_ S).

(** The sizes [serialize] stores in an [int] fit an [int]: the lengths of
    the names and the size of the domain blob (at most 16 bytes per
    dimension). *)
Definition sizes_fit (S : ArraySchema) : Prop :=
  size (array_name_ S) <= INT_MAX /\
  Forall (fun s => size s <= INT_MAX) (attributes_ S) /\
  Forall (fun s => size s <= INT_MAX) (dimensions_ S) /\
  16 * dim_num_ S <= INT_MAX.

(** The number of variable-sized attributes as [deserialize] counts it. *)
Definition count_var (E : Env) (val_num : list Z) : Z :=
  fold_left (fun k v => if v =? TILEDB_AS_VAR_SIZE E then to_int (k + 1) else k)
            val_num 0.

(** A type token of [set_types] that declares variable-sized cells: its
    second part is [var]. *)
Definition declares_var (type_val_num : string) : bool :=
  match strtok_all type_val_num with
  | _ :: token :: _ => String.eqb token "var"
  | _ => false
  end.

(** The binary format, field by field. *)
Definition layout_string (s : string) : list byte :=
  le_bytes 4 (to_int (size s)) ++ bytes_of_string s.

Definition blob (b : option (list byte)) : list byte :=
  match b with
  | Some bs => bs
  | None => []
  end.

Definition layout_type (E : Env) (t : option Datatype) : list byte :=
  match t with
  | Some ty => le_bytes 1 (to_char (type_code E ty))
  | None => []
  end.

Definition layout (E : Env) (S : ArraySchema) : list byte :=
  let n := Z.to_nat (attribute_num_ S) in
  let c := nth n (cell_sizes_ S) 0 in
  layout_string (array_name_ S)
  ++ bytes_of_bool (dense_ S)
  ++ bytes_of_bool (key_value_ S)
  ++ le_bytes 1 (to_char (tile_order_ S))
  ++ le_bytes 1 (to_char (cell_order_ S))
  ++ le_bytes 8 (capacity_ S)
  ++ le_bytes 4 (consolidation_step_ S)
  ++ le_bytes 4 (attribute_num_ S)
  ++ flat_map layout_string (firstn n (attributes_ S))
  ++ le_bytes 4 (dim_num_ S)
  ++ flat_map layout_string (firstn (Z.to_nat (dim_num_ S)) (dimensions_ S))
  ++ le_bytes 4 (to_int (2 * c))
  ++ blob (domain_ S)
  ++ le_bytes 4 (match tile_extents_ S with None => 0 | Some _ => to_int c end)
  ++ blob (tile_extents_ S)
  ++ flat_map (layout_type E) (firstn (n + 1) (types_ S))
  ++ flat_map (le_bytes 4) (firstn n (val_num_ S))
  ++ flat_map (fun v => le_bytes 1 (to_char v)) (firstn (n + 1) (compression_ S)).

(** The state of the object when [init] and [deserialize] reach the
    computation of the derived fields.  The count of the variable-sized
    attributes is left out: [set_types] counts the tokens [var],
    [deserialize] counts the entries of [val_num_] that hold the mark. *)
Record prefinal (E : Env) (S : ArraySchema) : Prop := {
  pf_attribute_num : 0 < attribute_num_ S;
  pf_attributes :
    exists names,
      attributes_ S = names ++ [TILEDB_COORDS_NAME E] /\ len names = attribute_num_ S;
  pf_dim_num : 0 < dim_num_ S;
  pf_dimensions : len (dimensions_ S) = dim_num_ S;
  pf_types :
    exists ts ct,
      types_ S = map Some (ts ++ [ct]) /\ len ts = attribute_num_ S /\
      ct <> T_char /\
      type_sizes_ S = map sizeof (ts ++ [ct]) /\
      (exists d, domain_ S = Some d /\ len d = 2 * (dim_num_ S * sizeof ct)) /\
      (tile_extents_ S = None \/
       exists e, tile_extents_ S = Some e /\ len e = dim_num_ S * sizeof ct);
  pf_val_num : len (val_num_ S) = attribute_num_ S;
  pf_compression :
    len (compression_ S) = attribute_num_ S + 1 /\ Forall in_char (compression_ S);
  pf_orders : in_char (tile_order_ S) /\ in_char (cell_order_ S);
  pf_cell_sizes :
    fill (attribute_num_ S + 1) (compute_cell_size E S) = Ok (cell_sizes_ S);
  pf_fresh :
    cell_num_per_tile_ S = -1 /\ coords_for_hilbert_ S = None /\
    hilbert_bits_ S = None /\ hilbert_curve_ S = None /\
    tile_domain_ S = None /\ tile_sizes_ S = []
}.

(** A [for] loop whose turn [i] handles the [i]-th element of a list. *)
Fixpoint fold_res {A St : Type} (step : A -> St -> res St) (l : list A) (st : St)
  : res St :=
  match l with
  | [] => Ok st
  | a :: r => st' <- step a st ;; fold_res step r st'
  end.

(** The read position [offset] of a buffer, with what lies ahead. *)
Definition cursor (buffer : list byte) (offset : Z) (rest : list byte) : Prop :=
  0 <= offset /\ offset + len rest = len buffer /\
  skipn (Z.to_nat offset) buffer = rest.

(** Two outcomes of the same kind, with related results. *)
Definition res_rel {A : Type} (R : A -> A -> Prop) (r r' : res A) : Prop :=
  match r, r' with
  | Ok a, Ok a' => R a a'
  | Err, Err => True
  | Fail, Fail => True
  | Undef, Undef => True
  | _, _ => False
  end.

(** Two runs of an overlap member agree: same outcome and, when they
    return, the same code and the same [2 * n] entries of [overlap_range]. *)
Definition same_overlap (n : Z) : res (list Z * Z) -> res (list Z * Z) -> Prop :=
  res_rel (fun x y =>
             snd x = snd y /\
             firstn (Z.to_nat (2 * n)) (fst x) = firstn (Z.to_nat (2 * n)) (fst y)).

(** *** Cells of a tile

    The coordinates [cs] lie inside a tile of extents [es] (zero-based);
    the number of cells of such a tile; the sum [pos] that the position
    loop computes when nothing wraps; and the offsets of the row-major
    layout for the extents after the first: each is the product of the
    extents that follow. *)
Definition inside (es cs : list Z) : Prop :=
  Forall2 (fun e c => 0 <= c < e) es cs.

Definition cells (es : list Z) : Z := fold_right Z.mul 1 es.

Fixpoint dot (cs os : list Z) : Z :=
  match cs, os with
  | c :: cs', o :: os' => c * o + dot cs' os'
  | _, _ => 0
  end.

Fixpoint suffix_products (l : list Z) : list Z :=
  match l with
  | [] => [1]
  | x :: r => (hd 0 (suffix_products r) * x) :: suffix_products r
  end.

(** One turn of the loops that compute the offsets:
    [offsets.push_back(offsets.back() * num)]. *)
Definition push_offset (num : Z) (offsets : list Z) : res (list Z) :=
  Ok (offsets ++ [to_int64 (last offsets 0 * num)]).

(** *** Walking the tile grid

    A domain given as pairs of bounds, as the flat array the members
    read; the coordinates inside it; the number of its tiles; and the
    coordinates that repeated calls of a [next] member go through, from a
    start: the start, then the [k] results. *)
Definition domain_of (box : list (Z * Z)) : list Z :=
  flat_map (fun b => [fst b; snd b]) box.

Definition in_box (box : list (Z * Z)) (c : list Z) : Prop :=
  Forall2 (fun b x => fst b <= x <= snd b) box c.

Definition tiles (box : list (Z * Z)) : Z :=
  cells (map (fun b => snd b - fst b + 1) box).

Fixpoint walk (next : list Z -> res (list Z)) (k : nat) (tile_coords : list Z)
  : res (list (list Z)) :=
  match k with
  | O => Ok [tile_coords]
  | Datatypes.S k' =>
      c <- next tile_coords ;;
      rest <- walk next k' c ;;
      Ok (tile_coords :: rest)
  end.

Definition tile_walk (E : Env) (T : Datatype) (schema : ArraySchema)
           (domain : list Z) : nat -> list Z -> res (list (list Z)) :=
  walk (get_next_tile_coords E T schema domain).

(** A value the type [T] holds as it is. *)
Definition fits (T : Datatype) (z : Z) : Prop := wrapT T z = z.

(** Bounds in order, with the lower bound and the successor of the upper
    bound values of [T]. *)
Definition good_box (T : Datatype) (box : list (Z * Z)) : Prop :=
  box <> [] /\
  Forall (fun b => fst b <= snd b /\ fits T (fst b) /\ fits T (snd b + 1)) box.

(** What the two [while] loops do, on coordinates listed from the least
    significant one: [bump] is the increment before the loop, [settle] the
    loop, which carries into the next coordinate while the current one
    has passed its upper bound and is not the last. *)
Definition bump (E : Env) (T : Datatype) (tile_coords : list Z) : list Z :=
  match tile_coords with
  | x :: c => addT E T x (litT E T 1) :: c
  | [] => []
  end.

Fixpoint settle (E : Env) (T : Datatype) (box : list (Z * Z)) (tile_coords : list Z)
  : list Z :=
  match box, tile_coords with
  | b :: ((_ :: _) as r), x :: y :: c =>
      if gtT T x (snd b)
      then fst b :: settle E T r (addT E T y (litT E T 1) :: c)
      else tile_coords
  | _, _ => tile_coords
  end.

(** The number of a coordinate vector in the walk, and the vectors the
    walk goes through: inside the bounds, but for the last coordinate,
    which may be one above its upper bound. *)
Fixpoint rank (box : list (Z * Z)) (c : list Z) : Z :=
  match box, c with
  | b :: r, x :: c' => (x - fst b) + (snd b - fst b + 1) * rank r c'
  | _, _ => 0
  end.

Fixpoint semi_box (box : list (Z * Z)) (c : list Z) : Prop :=
  match box, c with
  | b :: r, x :: c' =>
      match r with
      | [] => c' = [] /\ fst b <= x <= snd b + 1
      | _ :: _ => fst b <= x <= snd b /\ semi_box r c'
      end
  | _, _ => False
  end.

(* ================================================================= *)
(** ** Lookup of attributes

    The accessors by attribute id and the lookup of an id by name.
    [TILEDB_AS_ERR] is a constant of [array_schema.h], which is not part
    of the sources at hand; [attribute_id] returns it as a value, so it
    is a parameter of the two lookup members. *)

Section Lookup.

Variable E : Env.
Variable TILEDB_AS_ERR : Z.

Definition attribute (S : ArraySchema) (attribute_id : Z) : res string :=
  _ <- assert ((0 <=? attribute_id) && (attribute_id <=? attribute_num_ S)) ;;
  at_ (attributes_ S) attribute_id.

Definition compression (S : ArraySchema) (attribute_id : Z) : res Z :=
  _ <- assert ((0 <=? attribute_id) && (attribute_id <=? attribute_num_ S)) ;;
  at_ (compression_ S) attribute_id.

(** The loop returns from inside at the first match. *)
Definition attribute_id (S : ArraySchema) (attribute : string) : res Z :=
  if String.eqb attribute (TILEDB_COORDS_NAME E) then Ok (attribute_num_ S)
  else
    found <-
      for_break_from 0 (Z.to_nat (attribute_num_ S))
        (fun i (found : option Z) =>
           a <- at_ (attributes_ S) i ;;
           if String.eqb a attribute then Ok (Some i, true) else Ok (found, false))
        None ;;
    match found with
    | Some i => Ok i
    | None => Ok TILEDB_AS_ERR
    end.

(** [attribute_ids] is an output vector: cleared, then filled. *)
Definition get_attribute_ids (S : ArraySchema) (attributes : list string)
  : res (list Z) :=
  let attribute_ids : list Z := [] in
  let attribute_num := to_int (len attributes) in
  for_loop attribute_num
    (fun i attribute_ids =>
       a <- at_ attributes i ;;
       id <- attribute_id S a ;;
       if id =? TILEDB_AS_ERR then Err
       else Ok (attribute_ids ++ [id]))
    attribute_ids.

End Lookup.

(* ================================================================= *)
(** ** Notions used by the further properties *)

(** The call [m'] follows the call [m]: where [m] returns, [m'] stops at
    an assertion or returns the same, and then [P] holds of the result. *)
Definition follows {A : Type} (P : A -> Prop) (m' m : res A) : Prop :=
  forall a, m = Ok a -> m' = Fail \/ (m' = Ok a /\ P a).

(** *** Whole tiles

    The number of whole tiles along each dimension of a domain [box] cut
    by the extents [es]: the quotient of the length of the range by the
    extent.  The extents [cut] the domain when each range holds at least
    one whole tile and its length is a value of [T]. *)
Definition tile_counts (box : list (Z * Z)) (es : list Z) : list Z :=
  map (fun be => Z.quot (snd (fst be) - fst (fst be) + 1) (snd be))
      (combine box es).

Definition cut (T : Datatype) (box : list (Z * Z)) (es : list Z) : Prop :=
  Forall2 (fun b e => fits T (snd b - fst b) /\ fits T (snd b - fst b + 1) /\
                      0 < e <= snd b - fst b + 1)
          box es.

(** A member [pos] numbers the coordinates inside a grid of sizes [qs]
    from 0 to [n], excluded: it returns a number in that range, no two
    coordinates get the same one, and every one is taken. *)
Definition numbers (pos : list Z -> res Z) (qs : list Z) (n : Z) : Prop :=
  (forall c, inside qs c -> exists p, pos c = Ok p /\ 0 <= p < n) /\
  (forall c1 c2 p,
      inside qs c1 -> inside qs c2 -> pos c1 = Ok p -> pos c2 = Ok p -> c1 = c2) /\
  (forall p, 0 <= p < n -> exists c, inside qs c /\ pos c = Ok p).

(** The grid [compute_tile_domain] keeps for an integer type: along each
    dimension the tiles are numbered from 0, and their number is the
    length of the range over the extent, rounded up. *)
Definition tile_grid (box : list (Z * Z)) (es : list Z) : list (Z * Z) :=
  map (fun be => (0, - (- (snd (fst be) - fst (fst be) + 1) / snd be) - 1))
      (combine box es).

(** *** A range against a bounding rectangle

    Both are given as pairs of bounds, one pair per dimension: [m] the
    rectangle and [q] the range.  The part they share; whether they share
    a value along every dimension; and whether the rectangle lies within
    the range. *)
Definition shared (m q : list (Z * Z)) : list (Z * Z) :=
  map (fun bq => (Z.max (fst (fst bq)) (fst (snd bq)),
                  Z.min (snd (fst bq)) (snd (snd bq))))
      (combine m q).

Definition touch (m q : list (Z * Z)) : Prop :=
  Forall2 (fun b r => fst r <= snd b /\ fst b <= snd r) m q.

Definition within (m q : list (Z * Z)) : Prop :=
  Forall2 (fun b r => fst r <= fst b /\ snd b <= snd r) m q.

(** A loop left by [break] whose turn [i] handles the [i]-th element of a
    list. *)
Fixpoint fold_break {A St : Type} (step : A -> St -> res (St * bool))
         (l : list A) (st : St) : res St :=
  match l with
  | [] => Ok st
  | a :: r =>
      '(st', broke) <- step a st ;;
      if broke then Ok st' else fold_break step r st'
  end.

(** The two tests of the loops of [compute_mbr_range_overlap] at one
    dimension, for an integer type: the shared part lies outside the
    rectangle, and the shared part is not the rectangle. *)
Definition apart_at (bq : (Z * Z) * (Z * Z)) : bool :=
  (snd (fst bq) <? Z.max (fst (fst bq)) (fst (snd bq)))
  || (Z.min (snd (fst bq)) (snd (snd bq)) <? fst (fst bq)).

Definition differ_at (bq : (Z * Z) * (Z * Z)) : bool :=
  negb (Z.max (fst (fst bq)) (fst (snd bq)) =? fst (fst bq))
  || negb (Z.min (snd (fst bq)) (snd (snd bq)) =? snd (fst bq)).

(** [has_duplicates] of utils.h answers yes for every list in which a name
    comes twice. *)
Definition finds_duplicates (E : Env) : Prop :=
  forall l, ~ NoDup l -> has_duplicates E l = true.

(** *** A key-value description

    One attribute and keys of type "char:var", with the domain of the
    four [int] coordinates the keys are hashed to; and the schema [init]
    builds for it. *)
Definition KV_input : C_API.ArraySchemaC :=
  {| C_API.array_name_ := "K";
     C_API.attributes_ := Some ["v"%string];
     C_API.attribute_num_ := 1;
     C_API.capacity_ := 0;
     C_API.cell_order_ := None;
     C_API.compression_ := None;
     C_API.consolidation_step_ := 0;
     C_API.dense_ := 0;
     C_API.dimensions_ := Some ["key"%string];
     C_API.dim_num_ := 1;
     C_API.domain_ := Some (store T_int [0; 99; 0; 99; 0; 99; 0; 99]);
     C_API.tile_extents_ := None;
     C_API.tile_order_ := None;
     C_API.types_ := Some ["int32"%string; "char:var"%string] |}.

Definition KV_schema : ArraySchema :=
  Eval vm_compute in
    match init spec_env KV_input ArraySchema_new with
    | Ok schema => schema
    | _ => ArraySchema_new
    end.

(** The greatest length of a range of the domain, as the loop of
    [compute_hilbert_bits] finds it from 0. *)
Definition longest_range (box : list (Z * Z)) : Z :=
  fold_left (fun m b => Z.max m (snd b - fst b + 1)) box 0.

(** *** A range against a tile

    What [compute_tile_range_overlap] reads along one dimension: the
    bounds of the domain, the tile extent, the coordinate of the tile and
    the bounds of the range.  The tile is the rectangle of [ext] values
    that starts [tcoord] extents above the lower bound of the domain;
    [inner] is the part it shares with the range, counted from the start
    of the tile; and [exact_along] says that no step of the computation
    leaves the type [T]. *)
Record along : Type := mkAlong {
  dom : Z * Z;
  ext : Z;
  tcoord : Z;
  rng : Z * Z
}.

Definition tile_along (a : along) : Z * Z :=
  (fst (dom a) + tcoord a * ext a, fst (dom a) + tcoord a * ext a + ext a - 1).

Definition inner (a : along) : Z * Z :=
  (Z.max (fst (tile_along a)) (fst (rng a)) - fst (tile_along a),
   Z.min (snd (tile_along a)) (snd (rng a)) - fst (tile_along a)).

Definition exact_along (T : Datatype) (a : along) : Prop :=
  0 < ext a /\
  fits T (tcoord a * ext a) /\
  fits T (fst (tile_along a)) /\
  fits T (fst (tile_along a) + ext a) /\
  fits T (snd (tile_along a)) /\
  fits T (ext a - 1) /\
  fits T (fst (inner a)) /\
  fits T (snd (inner a)).

(** The tile (1, 0) of scenario S1 against the range [3, 7] x [0, 9]. *)
Definition S1_query : list along :=
  [mkAlong (0, 9) 5 1 (3, 7); mkAlong (0, 9) 5 0 (0, 9)].

(** An object with two members replaced on which no derived field
    depends: the tile order and the count of variable-sized attributes. *)
Definition retouch (tile_order var_attribute_num : Z) (S : ArraySchema)
  : ArraySchema :=
  with_tile_order_ tile_order (with_var_attribute_num_ var_attribute_num S).

(** Scenario S1 with 4294967295 values in a cell of its attribute: a
    number of values that [is_positive_integer] accepts and that is no
    value of [int]. *)
Definition wrapped_input : C_API.ArraySchemaC :=
  {| C_API.array_name_ := "A";
     C_API.attributes_ := Some ["v"%string];
     C_API.attribute_num_ := 1;
     C_API.capacity_ := 0;
     C_API.cell_order_ := Some "row-major"%string;
     C_API.compression_ := Some ["NONE"%string; "NONE"%string];
     C_API.consolidation_step_ := 0;
     C_API.dense_ := 1;
     C_API.dimensions_ := Some ["x"%string; "y"%string];
     C_API.dim_num_ := 2;
     C_API.domain_ := Some (store T_int64_t [0; 9; 0; 9]);
     C_API.tile_extents_ := Some (store T_int64_t [5; 5]);
     C_API.tile_order_ := Some "row-major"%string;
     C_API.types_ := Some ["int32:4294967295"%string; "int64"%string] |}.

Definition wrapped_schema : ArraySchema :=
  Eval vm_compute in
    match init spec_env wrapped_input ArraySchema_new with
    | Ok schema => schema
    | _ => ArraySchema_new
    end.

(* ================================================================= *)
(** ** Floating-point coordinates

    IEEE 754 arithmetic on bit patterns, rounding to nearest even: what
    the [float] (32 bits, 24 of precision) and [double] (64 bits, 53 of
    precision) instantiations of the member templates compute with. *)

Definition fp_width (T : Datatype) : Z :=
  match T with
  | T_float => 32
  | _ => 64
  end.

Definition fp_prec (w : Z) : Z := if w =? 32 then 24 else 53.
Definition fp_emax (w : Z) : Z := if w =? 32 then 128 else 1024.

(** The number a bit pattern of width [w] stands for: sign, biased
    exponent, fraction. *)
Definition sf_of_bits (w : Z) (bits : Z) : SpecFloat.spec_float :=
  let p := fp_prec w in
  let sign := Z.testbit bits (w - 1) in
  let e := (bits / 2 ^ (p - 1)) mod 2 ^ (w - p) in
  let m := bits mod 2 ^ (p - 1) in
  if e =? 0 then
    match m with
    | Zpos q => SpecFloat.S754_finite sign q (3 - fp_emax w - p)
    | _ => SpecFloat.S754_zero sign
    end
  else if e =? 2 ^ (w - p) - 1 then
    if m =? 0 then SpecFloat.S754_infinity sign else SpecFloat.S754_nan
  else
    match m + 2 ^ (p - 1) with
    | Zpos q => SpecFloat.S754_finite sign q (e - fp_emax w - p + 2)
    | _ => SpecFloat.S754_nan
    end.

(** The bit pattern of a number of the format of width [w]. *)
Definition bits_of_sf (w : Z) (x : SpecFloat.spec_float) : Z :=
  let p := fp_prec w in
  let top (s : bool) := if s then 2 ^ (w - 1) else 0 in
  match x with
  | SpecFloat.S754_zero s => top s
  | SpecFloat.S754_infinity s => top s + (2 ^ (w - p) - 1) * 2 ^ (p - 1)
  | SpecFloat.S754_nan => (2 ^ (w - p) - 1) * 2 ^ (p - 1) + 2 ^ (p - 2)
  | SpecFloat.S754_finite s m e =>
      if Zpos m <? 2 ^ (p - 1) then top s + Zpos m
      else top s + (e + fp_emax w + p - 2) * 2 ^ (p - 1) + (Zpos m - 2 ^ (p - 1))
  end.

(** A number rounded to the format of width [w]. *)
Definition sf_round (w : Z) (x : SpecFloat.spec_float) : SpecFloat.spec_float :=
  match x with
  | SpecFloat.S754_finite s m e =>
      SpecFloat.binary_normalize (fp_prec w) (fp_emax w)
        (if s then Zneg m else Zpos m) e s
  | _ => x
  end.

Definition sf_of_int (w : Z) (k : Z) : SpecFloat.spec_float :=
  SpecFloat.binary_normalize (fp_prec w) (fp_emax w) k 0 false.

(** [ceil] of a [double]. *)
Definition sf_ceil (x : SpecFloat.spec_float) : SpecFloat.spec_float :=
  match x with
  | SpecFloat.S754_finite s m e =>
      if 0 <=? e then x
      else
        SpecFloat.binary_normalize 53 1024
          (- ((- (if s then Zneg m else Zpos m)) / 2 ^ (- e))) 0 s
  | _ => x
  end.

Definition ieee_of_int (w : Z) (k : Z) : Z := bits_of_sf w (sf_of_int w k).

Definition ieee_add (w : Z) (a b : Z) : Z :=
  bits_of_sf w (SpecFloat.SFadd (fp_prec w) (fp_emax w) (sf_of_bits w a) (sf_of_bits w b)).

Definition ieee_sub (w : Z) (a b : Z) : Z :=
  bits_of_sf w (SpecFloat.SFsub (fp_prec w) (fp_emax w) (sf_of_bits w a) (sf_of_bits w b)).

Definition ieee_mul (w : Z) (a b : Z) : Z :=
  bits_of_sf w (SpecFloat.SFmul (fp_prec w) (fp_emax w) (sf_of_bits w a) (sf_of_bits w b)).

Definition ieee_div (w : Z) (a b : Z) : Z :=
  bits_of_sf w (SpecFloat.SFdiv (fp_prec w) (fp_emax w) (sf_of_bits w a) (sf_of_bits w b)).

(** [tile_num - 1] of [compute_tile_domain<T>] for a floating-point [T]:
    [hi - lo + 1] is computed in [T], the quotient by the extent and its
    [ceil] in [double], [tile_num] is the result converted to [T], and
    the subtraction is in [T] again. *)
Definition ieee_tile_hi (w : Z) (lo hi extent : Z) : Z :=
  let p := fp_prec w in
  let range :=
    SpecFloat.SFadd p (fp_emax w)
      (SpecFloat.SFsub p (fp_emax w) (sf_of_bits w hi) (sf_of_bits w lo))
      (sf_of_int w 1) in
  let quotient :=
    SpecFloat.SFdiv 53 1024 (sf_round 64 range) (sf_round 64 (sf_of_bits w extent)) in
  let tile_num := sf_round w (sf_ceil quotient) in
  bits_of_sf w (SpecFloat.SFsub p (fp_emax w) tile_num (sf_of_int w 1)).

(** The environment of the scenarios with IEEE 754 arithmetic for the
    operations of [float] and [double] coordinates that the tile domain
    and the walk over the tiles go through; the other entries are those
    of [spec_env]. *)
Definition float_env : Env :=
  {| TILEDB_CHAR := TILEDB_CHAR spec_env; TILEDB_INT32 := TILEDB_INT32 spec_env;
     TILEDB_INT64 := TILEDB_INT64 spec_env;
     TILEDB_FLOAT32 := TILEDB_FLOAT32 spec_env;
     TILEDB_FLOAT64 := TILEDB_FLOAT64 spec_env;
     TILEDB_COORDS_NAME := TILEDB_COORDS_NAME spec_env;
     TILEDB_CELL_VAR_OFFSET_SIZE := TILEDB_CELL_VAR_OFFSET_SIZE spec_env;
     TILEDB_AS_TO_COLUMN_MAJOR := TILEDB_AS_TO_COLUMN_MAJOR spec_env;
     TILEDB_AS_TO_HILBERT := TILEDB_AS_TO_HILBERT spec_env;
     TILEDB_AS_TO_ROW_MAJOR := TILEDB_AS_TO_ROW_MAJOR spec_env;
     TILEDB_AS_CO_COLUMN_MAJOR := TILEDB_AS_CO_COLUMN_MAJOR spec_env;
     TILEDB_AS_CO_HILBERT := TILEDB_AS_CO_HILBERT spec_env;
     TILEDB_AS_CO_ROW_MAJOR := TILEDB_AS_CO_ROW_MAJOR spec_env;
     TILEDB_AS_CMP_NONE := TILEDB_AS_CMP_NONE spec_env;
     TILEDB_AS_CMP_GZIP := TILEDB_AS_CMP_GZIP spec_env;
     TILEDB_AS_CAPACITY := TILEDB_AS_CAPACITY spec_env;
     TILEDB_AS_CELL_ORDER := TILEDB_AS_CELL_ORDER spec_env;
     TILEDB_AS_CONSOLIDATION_STEP := TILEDB_AS_CONSOLIDATION_STEP spec_env;
     TILEDB_AS_TILE_ORDER := TILEDB_AS_TILE_ORDER spec_env;
     TILEDB_AS_VAR_SIZE := TILEDB_AS_VAR_SIZE spec_env;
     real_dir := real_dir spec_env;
     has_duplicates := has_duplicates spec_env;
     intersect := intersect spec_env;
     is_positive_integer := is_positive_integer spec_env;
     fp_add := fun T => ieee_add (fp_width T);
     fp_sub := fun T => ieee_sub (fp_width T);
     fp_mul := fun T => ieee_mul (fp_width T);
     fp_div := fun T => ieee_div (fp_width T);
     fp_of_int := fun T => ieee_of_int (fp_width T);
     fp_to_int64 := fp_to_int64 spec_env;
     fp_ceil_quot := fp_ceil_quot spec_env;
     fp_tile_hi := fun T => ieee_tile_hi (fp_width T);
     fp_ceil_log2 := fp_ceil_log2 spec_env;
     fp_hilbert_bits := fp_hilbert_bits spec_env |}.

(** A sparse array over the [float] range [0, 33554432] with tiles of
    extent 1, in row-major order. *)
Definition F_input : C_API.ArraySchemaC :=
  {| C_API.array_name_ := "F";
     C_API.attributes_ := Some ["v"%string];
     C_API.attribute_num_ := 1;
     C_API.capacity_ := 0;
     C_API.cell_order_ := Some "row-major"%string;
     C_API.compression_ := None;
     C_API.consolidation_step_ := 0;
     C_API.dense_ := 0;
     C_API.dimensions_ := Some ["x"%string];
     C_API.dim_num_ := 1;
     C_API.domain_ := Some (store T_float (map (ieee_of_int 32) [0; 33554432]));
     C_API.tile_extents_ := Some (store T_float (map (ieee_of_int 32) [1]));
     C_API.tile_order_ := Some "row-major"%string;
     C_API.types_ := Some ["int32"%string; "float32"%string] |}.

Definition F_schema : ArraySchema :=
  Eval vm_compute in
    match init float_env F_input ArraySchema_new with
    | Ok schema => schema
    | _ => ArraySchema_new
    end.

(** Scenario S1 with tiles of 4 x 5: along the first dimension the range
    of 10 values holds two whole tiles and a partial one. *)
Definition P_input : C_API.ArraySchemaC :=
  {| C_API.array_name_ := "A";
     C_API.attributes_ := Some ["v"%string];
     C_API.attribute_num_ := 1;
     C_API.capacity_ := 0;
     C_API.cell_order_ := Some "row-major"%string;
     C_API.compression_ := Some ["NONE"%string; "NONE"%string];
     C_API.consolidation_step_ := 0;
     C_API.dense_ := 1;
     C_API.dimensions_ := Some ["x"%string; "y"%string];
     C_API.dim_num_ := 2;
     C_API.domain_ := Some (store T_int64_t [0; 9; 0; 9]);
     C_API.tile_extents_ := Some (store T_int64_t [4; 5]);
     C_API.tile_order_ := Some "row-major"%string;
     C_API.types_ := Some ["int64"%string; "int64"%string] |}.

Definition P_schema : ArraySchema :=
  Eval vm_compute in
    match init spec_env P_input ArraySchema_new with
    | Ok schema => schema
    | _ => ArraySchema_new
    end.

(* ================================================================= *)
(** * Properties *)

(** ** Dispatch on the cell order *)

(** C10: under Hilbert cell order [get_cell_pos], [cell_num_in_tile_slab]
    and [cell_num_in_range_slab] compute nothing and return -1 (converted
    to the coordinate type for the two slab members), whatever the
    arguments are. *)
Theorem hilbert_cell_order_returns_minus_one
        (E : Env) (T : Datatype) (S : ArraySchema) (coords range : list Z) :
  distinct_cell_orders E ->
  cell_order_ S = TILEDB_AS_CO_HILBERT E ->
  get_cell_pos E T S coords = Ok (-1) /\
  cell_num_in_tile_slab E T S = Ok (litT E T (-1)) /\
  cell_num_in_range_slab E T S range = Ok (litT E T (-1)) /\
  (is_integral T = true -> litT E T (-1) = -1).
Proof.
  intros (Hrc & Hrh & Hch) Hco.
  assert (Hr : (cell_order_ S =? TILEDB_AS_CO_ROW_MAJOR E) = false)
    by (apply Z.eqb_neq; congruence).
  assert (Hc : (cell_order_ S =? TILEDB_AS_CO_COLUMN_MAJOR E) = false)
    by (apply Z.eqb_neq; congruence).
  unfold get_cell_pos, cell_num_in_tile_slab, cell_num_in_range_slab.
  rewrite Hr, Hc.
  repeat split.
  unfold litT. intros HT. destruct T; try discriminate HT; reflexivity.
Qed.

Lemma hilbert_cell_order_returns_minus_one_witness :
  get_cell_pos spec_env T_int hilbert_sample [3; 4] = Ok (-1) /\
  cell_num_in_tile_slab spec_env T_int hilbert_sample = Ok (litT spec_env T_int (-1)) /\
  cell_num_in_range_slab spec_env T_int hilbert_sample [0; 1; 0; 1]
    = Ok (litT spec_env T_int (-1)) /\
  (is_integral T_int = true -> litT spec_env T_int (-1) = -1).
Proof.
  apply (@hilbert_cell_order_returns_minus_one
           spec_env T_int hilbert_sample [3; 4] [0; 1; 0; 1]).
  - repeat split; discriminate.
  - reflexivity.
Defined.

(** ** The tile position dispatcher *)

(** C2: [get_tile_pos] never hands a position to its caller.  On the
    schema of scenario S1, for the tile (1,1), [get_tile_pos_row] computes
    position 3 and [get_tile_pos] leaves the result undefined. *)
Theorem get_tile_pos_drops_the_position :
  (forall E T S tile_coords v, get_tile_pos E T S tile_coords <> Ok v) /\
  exists S,
    init spec_env S1_input ArraySchema_new = Ok S /\
    tile_order_ S = TILEDB_AS_TO_ROW_MAJOR spec_env /\
    get_tile_pos_row spec_env T_int64_t S [1; 1] = Ok 3 /\
    get_tile_pos spec_env T_int64_t S [1; 1] = Undef.
Proof.
  split.
  - intros E T S tc v. unfold get_tile_pos.
    destruct (tile_order_ S =? TILEDB_AS_TO_ROW_MAJOR E).
    + destruct (get_tile_pos_row E T S tc); discriminate.
    + destruct (tile_order_ S =? TILEDB_AS_TO_COLUMN_MAJOR E).
      * destruct (get_tile_pos_col E T S tc); discriminate.
      * discriminate.
  - eexists. split; [vm_compute; reflexivity|].
    repeat split; vm_compute; reflexivity.
Qed.

(** ** Scenario S1 *)

(** C7: the schema of scenario S1 has a coordinates cell of 16 bytes, an
    attribute cell of 8 bytes, 25 cells per tile, 4 tiles, tile domain
    [0,1] x [0,1] and tile sizes 200 and 400. *)
Theorem scenario_S1_derived_fields :
  exists S,
    init spec_env S1_input ArraySchema_new = Ok S /\
    coords_size S = Ok 16 /\
    cell_size S 0 = Ok 8 /\
    cell_size S 1 = Ok 16 /\
    cell_num_per_tile S = 25 /\
    tile_num spec_env S = Ok 4 /\
    cast T_int64_t (tile_domain S) = [0; 1; 0; 1] /\
    tile_size S 0 = Ok 200 /\
    tile_size S 1 = Ok 400.
Proof.
  eexists. split; [vm_compute; reflexivity|].
  repeat split; vm_compute; reflexivity.
Qed.

(** ** Order of the cells of a tile: what fails *)

(** Against C3 as stated: in the row-major schema of scenario S1 the cell
    (0,1) lies before the cell (1,0), although (0,1) does not precede
    (1,0) when the last coordinate is the most significant one. *)
Lemma row_major_is_not_last_major :
  exists S p1 p2,
    init spec_env S1_input ArraySchema_new = Ok S /\
    cell_order_ S = TILEDB_AS_CO_ROW_MAJOR spec_env /\
    get_cell_pos spec_env T_int64_t S [0; 1] = Ok p1 /\
    get_cell_pos spec_env T_int64_t S [1; 0] = Ok p2 /\
    ~ (p1 < p2 <-> lex_lt_last_major [0; 1] [1; 0]).
Proof.
  eexists. exists 1, 5.
  split; [vm_compute; reflexivity|].
  repeat split; try (vm_compute; reflexivity).
  intros [H _]. specialize (H ltac:(lia)).
  unfold lex_lt_last_major in H. simpl in H. lia.
Qed.

(** ** Malformed buffers: what fails *)

(** Against C5 as stated: a buffer whose tile order byte is the code of no
    order is deserialized with success, and the byte is kept as the order. *)
Lemma unknown_order_code_is_accepted :
  exists S,
    deserialize spec_env S1_bytes_bad_order ArraySchema_new = Ok S /\
    tile_order_ S = 9 /\
    9 <> TILEDB_AS_TO_ROW_MAJOR spec_env /\
    9 <> TILEDB_AS_TO_COLUMN_MAJOR spec_env /\
    9 <> TILEDB_AS_TO_HILBERT spec_env.
Proof.
  eexists. split; [vm_compute; reflexivity|].
  repeat split; vm_compute; discriminate.
Qed.

(** ** Walking the tile grid: what fails *)


(* ================================================================= *)
(** ** Outcomes: basic facts *)

Lemma bind_Ok_inv {A B : Type} (m : res A) (k : A -> res B) (b : B) :
  bind m k = Ok b -> exists a, m = Ok a /\ k a = Ok b.
Proof.
  destruct m; simpl; try discriminate. intros H. eauto.
Qed.

Lemma bind_not_Err {A B : Type} (m : res A) (k : A -> res B) :
  m <> Err -> (forall a, k a <> Err) -> bind m k <> Err.
Proof.
  intros Hm Hk. destruct m; simpl; auto; discriminate.
Qed.

Lemma for_loop_from_not_Err {St : Type} (body : Z -> St -> res St) :
  (forall i st, body i st <> Err) ->
  forall n i st, for_loop_from i n body st <> Err.
Proof.
  intros Hb n. induction n as [|n IH]; intros i st; simpl.
  - discriminate.
  - apply bind_not_Err; auto.
Qed.

Lemma for_loop_not_Err {St : Type} (body : Z -> St -> res St) n st :
  (forall i st, body i st <> Err) -> for_loop n body st <> Err.
Proof.
  intros Hb. apply for_loop_from_not_Err, Hb.
Qed.

Lemma fill_from_not_Err {A : Type} (f : Z -> res A) :
  (forall i, f i <> Err) -> forall n i, fill_from i n f <> Err.
Proof.
  intros Hf n. induction n as [|n IH]; intros i; simpl.
  - discriminate.
  - apply bind_not_Err; auto. intros a.
    apply bind_not_Err; auto. discriminate.
Qed.

Lemma fill_not_Err {A : Type} (f : Z -> res A) n :
  (forall i, f i <> Err) -> fill n f <> Err.
Proof.
  intros Hf. apply fill_from_not_Err, Hf.
Qed.

(** Breaks a goal [m <> Err] along the structure of [m]. *)
Ltac not_Err :=
  repeat first
    [ discriminate
    | apply bind_not_Err; [ | intros ]
    | apply for_loop_not_Err; intros
    | apply fill_not_Err; intros
    | match goal with
      | |- (let '(_, _) := ?p in _) <> Err => destruct p
      | |- (match ?x with _ => _ end) <> Err => destruct x
      | |- (if ?b then _ else _) <> Err => destruct b
      end
    | progress cbv beta iota zeta ].

Lemma at_not_Err {A : Type} (l : list A) i : at_ l i <> Err.
Proof. unfold at_. not_Err. Qed.

Lemma put_not_Err {A : Type} (l : list A) i v : put_ l i v <> Err.
Proof. unfold put_. not_Err. Qed.

Lemma resize_not_Err {A : Type} (l : list A) n d : resize l n d <> Err.
Proof. unfold resize. not_Err. Qed.

Lemma assert_not_Err b : assert b <> Err.
Proof. destruct b; discriminate. Qed.

Lemma get_not_Err buffer strict n offset : get buffer strict n offset <> Err.
Proof. unfold get. apply bind_not_Err; [apply assert_not_Err|]. intros. not_Err. Qed.

Lemma get_string_not_Err buffer offset : get_string buffer offset <> Err.
Proof.
  unfold get_string. apply bind_not_Err; [apply get_not_Err|].
  intros [bs o]. destruct (_ <? 0); [discriminate|].
  apply bind_not_Err; [apply get_not_Err|]. intros [? ?]. discriminate.
Qed.

Lemma compute_cell_size_not_Err E S i : compute_cell_size E S i <> Err.
Proof.
  unfold compute_cell_size.
  apply bind_not_Err; [apply assert_not_Err|]. intros _.
  apply bind_not_Err.
  - destruct (_ <? _); [|discriminate].
    apply bind_not_Err; [apply at_not_Err|]. discriminate.
  - intros [|]; [discriminate|].
    destruct (_ <? _);
      (apply bind_not_Err; [apply at_not_Err|]); intros [t|]; try discriminate.
    + apply bind_not_Err; [apply at_not_Err|]. discriminate.
    + destruct t; discriminate.
Qed.

Lemma compute_cell_num_per_tile_not_Err S : compute_cell_num_per_tile S <> Err.
Proof.
  assert (HT : forall T, compute_cell_num_per_tile_T T S <> Err).
  { intros T. unfold compute_cell_num_per_tile_T.
    destruct (tile_extents_ S); [|discriminate].
    apply for_loop_not_Err. intros.
    apply bind_not_Err; [apply at_not_Err|]. discriminate. }
  unfold compute_cell_num_per_tile.
  destruct (dense_ S).
  - apply bind_not_Err; [apply at_not_Err|].
    intros [[| | | |]|]; try discriminate; apply HT.
  - destruct (tile_extents_ S); discriminate.
Qed.

Lemma compute_tile_sizes_not_Err E S : compute_tile_sizes E S <> Err.
Proof.
  unfold compute_tile_sizes, var_size, cell_size.
  apply bind_not_Err; [|discriminate].
  apply fill_not_Err. intros i.
  apply bind_not_Err.
  - apply bind_not_Err; [apply at_not_Err|]. discriminate.
  - intros [|]; [discriminate|].
    apply bind_not_Err; [apply at_not_Err|]. discriminate.
Qed.

Lemma compute_tile_domain_not_Err E S : compute_tile_domain E S <> Err.
Proof.
  assert (HT : forall T, compute_tile_domain_T E T S <> Err).
  { intros T. unfold compute_tile_domain_T.
    destruct (tile_extents_ S); [|discriminate].
    apply bind_not_Err; [apply assert_not_Err|]. intros _.
    apply bind_not_Err; [|discriminate].
    apply for_loop_not_Err. intros.
    repeat (apply bind_not_Err; [apply at_not_Err|]; intros).
    discriminate. }
  unfold compute_tile_domain.
  apply bind_not_Err; [apply at_not_Err|].
  intros [[| | | |]|]; try discriminate; apply HT.
Qed.

Lemma init_hilbert_curve_not_Err E S : init_hilbert_curve E S <> Err.
Proof.
  assert (HT : forall T S', compute_hilbert_bits E T S' <> Err).
  { intros T S'. unfold compute_hilbert_bits.
    destruct (is_integral T).
    - apply bind_not_Err; [|discriminate].
      apply for_loop_not_Err. intros.
      repeat (apply bind_not_Err; [apply at_not_Err|]; intros).
      discriminate.
    - apply bind_not_Err; [|discriminate].
      apply for_loop_not_Err. intros.
      repeat (apply bind_not_Err; [apply at_not_Err|]; intros).
      discriminate. }
  unfold init_hilbert_curve.
  destruct (negb _); [discriminate|].
  apply bind_not_Err; [apply at_not_Err|]. intros t.
  apply bind_not_Err.
  - destruct t as [[| | | |]|]; try discriminate; apply HT.
  - intros S2. destruct (hilbert_bits_ S2); discriminate.
Qed.

Lemma finalize_not_Err E S : finalize E S <> Err.
Proof.
  unfold finalize.
  apply bind_not_Err; [apply compute_cell_num_per_tile_not_Err|]. intros.
  apply bind_not_Err; [apply compute_tile_sizes_not_Err|]. intros.
  apply bind_not_Err; [apply compute_tile_domain_not_Err|]. intros.
  apply init_hilbert_curve_not_Err.
Qed.

(** [deserialize] has no error return: whatever the buffer and the state
    of the object, it does not return TILEDB_AS_ERR. *)
Lemma deserialize_not_Err (E : Env) (array_schema_bin : list byte) (S : ArraySchema) :
  deserialize E array_schema_bin S <> Err.
Proof.
  unfold deserialize.
  repeat first
    [ apply finalize_not_Err
    | apply compute_cell_size_not_Err
    | apply at_not_Err
    | apply bind_not_Err;
      [ first [ apply get_not_Err | apply get_string_not_Err
              | apply resize_not_Err | apply assert_not_Err
              | apply put_not_Err | idtac ]
      | intros ]
    | apply for_loop_not_Err; intros
    | apply fill_not_Err; intros
    | apply compute_cell_size_not_Err
    | match goal with
      | |- (let '(_, _) := ?p in _) <> Err => destruct p
      | |- (match ?x with _ => _ end) <> Err => destruct x
      | |- (if ?b then _ else _) <> Err => destruct b
      | |- Ok _ <> Err => discriminate
      end
    | progress cbv beta iota zeta ].
Qed.
(* ================================================================= *)
(** ** Loops and member updates *)

Lemma for_loop_from_inv {St : Type} (P : Z -> St -> Prop)
      (body : Z -> St -> res St) :
  forall n i st st',
    (forall j s s', i <= j < i + Z.of_nat n ->
                    P j s -> body j s = Ok s' -> P (j + 1) s') ->
    P i st -> for_loop_from i n body st = Ok st' -> P (i + Z.of_nat n) st'.
Proof.
  induction n as [|n IH]; intros i st st' Hstep HP H; simpl in H.
  - inversion H; subst. rewrite Z.add_0_r. exact HP.
  - apply bind_Ok_inv in H as (s1 & Hb & H).
    replace (i + Z.of_nat (S n)) with ((i + 1) + Z.of_nat n) by lia.
    eapply IH; [| |exact H].
    + intros j s s' Hj. apply Hstep. lia.
    + eapply Hstep; [|exact HP|exact Hb]. lia.
Qed.

Lemma for_loop_inv {St : Type} (P : Z -> St -> Prop)
      (body : Z -> St -> res St) n st st' :
  (forall j s s', 0 <= j < Z.of_nat (Z.to_nat n) ->
                  P j s -> body j s = Ok s' -> P (j + 1) s') ->
  P 0 st -> for_loop n body st = Ok st' -> P (Z.of_nat (Z.to_nat n)) st'.
Proof.
  intros Hstep HP H.
  apply (for_loop_from_inv P body (Z.to_nat n) 0 st st'); auto.
Qed.

(** An invariant that does not mention the index. *)
Lemma for_loop_preserves {St : Type} (P : St -> Prop)
      (body : Z -> St -> res St) n st st' :
  (forall j s s', P s -> body j s = Ok s' -> P s') ->
  P st -> for_loop n body st = Ok st' -> P st'.
Proof.
  intros Hstep HP H.
  apply (for_loop_inv (fun _ => P) body n st st'); eauto.
Qed.

Lemma with_cell_num_per_tile_same S :
  with_cell_num_per_tile_ (cell_num_per_tile_ S) S = S.
Proof. destruct S; reflexivity. Qed.

Lemma with_tile_domain_same S : with_tile_domain_ (tile_domain_ S) S = S.
Proof. destruct S; reflexivity. Qed.

Lemma with_coords_for_hilbert_same S :
  with_coords_for_hilbert_ (coords_for_hilbert_ S) S = S.
Proof. destruct S; reflexivity. Qed.

Lemma with_hilbert_bits_same S : with_hilbert_bits_ (hilbert_bits_ S) S = S.
Proof. destruct S; reflexivity. Qed.

Lemma with_hilbert_curve_same S : with_hilbert_curve_ (hilbert_curve_ S) S = S.
Proof. destruct S; reflexivity. Qed.

Lemma with_attributes_same S : with_attributes_ (attributes_ S) S = S.
Proof. destruct S; reflexivity. Qed.

Lemma with_dimensions_same S : with_dimensions_ (dimensions_ S) S = S.
Proof. destruct S; reflexivity. Qed.

Lemma with_compression_same S : with_compression_ (compression_ S) S = S.
Proof. destruct S; reflexivity. Qed.

(* ================================================================= *)
(** ** The derived fields touch nothing else *)

Lemma compute_cell_num_per_tile_T_shape T S S' :
  compute_cell_num_per_tile_T T S = Ok S' ->
  S' = with_cell_num_per_tile_ (cell_num_per_tile_ S') S.
Proof.
  unfold compute_cell_num_per_tile_T. intros H.
  destruct (tile_extents_ S).
  - revert H.
    apply (for_loop_preserves
             (fun s => s = with_cell_num_per_tile_ (cell_num_per_tile_ s) S)).
    + intros j s s' Hs Hb.
      apply bind_Ok_inv in Hb as (e & _ & Hb). inversion Hb; subst s'.
      rewrite Hs. reflexivity.
    + reflexivity.
  - inversion H; subst. symmetry. apply with_cell_num_per_tile_same.
Qed.

Lemma compute_cell_num_per_tile_shape S S' :
  compute_cell_num_per_tile S = Ok S' ->
  S' = with_cell_num_per_tile_ (cell_num_per_tile_ S') S.
Proof.
  unfold compute_cell_num_per_tile. intros H.
  destruct (dense_ S).
  - apply bind_Ok_inv in H as (t & _ & H).
    destruct t as [[| | | |]|]; try discriminate;
      eapply compute_cell_num_per_tile_T_shape; eauto.
  - destruct (tile_extents_ S); inversion H; subst.
    + symmetry. apply with_cell_num_per_tile_same.
    + reflexivity.
Qed.

Lemma compute_tile_sizes_shape E S S' :
  compute_tile_sizes E S = Ok S' -> S' = with_tile_sizes_ (tile_sizes_ S') S.
Proof.
  unfold compute_tile_sizes. intros H.
  apply bind_Ok_inv in H as (sizes & _ & H). inversion H; subst. reflexivity.
Qed.

Lemma compute_tile_domain_shape E S S' :
  compute_tile_domain E S = Ok S' -> S' = with_tile_domain_ (tile_domain_ S') S.
Proof.
  assert (HT : forall T, compute_tile_domain_T E T S = Ok S' ->
                         S' = with_tile_domain_ (tile_domain_ S') S).
  { intros T. unfold compute_tile_domain_T. intros H.
    destruct (tile_extents_ S).
    - apply bind_Ok_inv in H as (? & _ & H).
      apply bind_Ok_inv in H as (td & _ & H). inversion H; subst. reflexivity.
    - inversion H; subst. symmetry. apply with_tile_domain_same. }
  unfold compute_tile_domain. intros H.
  apply bind_Ok_inv in H as (t & _ & H).
  destruct t as [[| | | |]|]; eauto;
    inversion H; subst; symmetry; apply with_tile_domain_same.
Qed.

Lemma compute_hilbert_bits_shape E T S S' :
  compute_hilbert_bits E T S = Ok S' -> S' = with_hilbert_bits_ (hilbert_bits_ S') S.
Proof.
  unfold compute_hilbert_bits. intros H.
  destruct (is_integral T);
    apply bind_Ok_inv in H as (? & _ & H); inversion H; subst; reflexivity.
Qed.

Lemma init_hilbert_curve_shape E S S' :
  init_hilbert_curve E S = Ok S' ->
  S' = with_hilbert_curve_ (hilbert_curve_ S')
         (with_hilbert_bits_ (hilbert_bits_ S')
            (with_coords_for_hilbert_ (coords_for_hilbert_ S') S)).
Proof.
  unfold init_hilbert_curve. intros H.
  destruct (negb _).
  { inversion H; subst. destruct S'; reflexivity. }
  apply bind_Ok_inv in H as (t & _ & H).
  apply bind_Ok_inv in H as (S2 & H2 & H).
  destruct (hilbert_bits_ S2) as [bits|] eqn:Hbits; [|discriminate].
  inversion H; subst S'; clear H.
  assert (HS2 : S2 = with_hilbert_bits_ (hilbert_bits_ S2)
                       (match coords_for_hilbert_ S with
                        | Some _ => S
                        | None => with_coords_for_hilbert_ (Some (dim_num_ S)) S
                        end)).
  { destruct t as [[| | | |]|];
      try (eapply compute_hilbert_bits_shape; eassumption);
      inversion H2; subst; symmetry; apply with_hilbert_bits_same. }
  rewrite HS2. destruct (coords_for_hilbert_ S) eqn:Hc.
  - destruct S; simpl in *; subst; reflexivity.
  - reflexivity.
Qed.

Lemma finalize_shape E S S' :
  finalize E S = Ok S' ->
  S' = with_hilbert_curve_ (hilbert_curve_ S')
         (with_hilbert_bits_ (hilbert_bits_ S')
            (with_coords_for_hilbert_ (coords_for_hilbert_ S')
               (with_tile_domain_ (tile_domain_ S')
                  (with_tile_sizes_ (tile_sizes_ S')
                     (with_cell_num_per_tile_ (cell_num_per_tile_ S') S))))).
Proof.
  unfold finalize. intros H.
  apply bind_Ok_inv in H as (S1 & H1 & H).
  apply bind_Ok_inv in H as (S2 & H2 & H).
  apply bind_Ok_inv in H as (S3 & H3 & H).
  apply compute_cell_num_per_tile_shape in H1.
  apply compute_tile_sizes_shape in H2.
  apply compute_tile_domain_shape in H3.
  apply init_hilbert_curve_shape in H.
  rewrite H, H3, H2, H1. reflexivity.
Qed.
(* ================================================================= *)
(** ** What the setters change *)

Lemma set_tile_extents_shape tile_extents S S' :
  set_tile_extents tile_extents S = Ok S' ->
  S' = with_tile_extents_ (tile_extents_ S') S.
Proof.
  unfold set_tile_extents. intros H.
  destruct tile_extents as [bs|].
  - apply bind_Ok_inv in H as (c & _ & H).
    apply bind_Ok_inv in H as (b & _ & H). inversion H; subst. reflexivity.
  - destruct (dense_ S); inversion H; subst. reflexivity.
Qed.

Lemma set_cell_order_shape E cell_order S S' :
  set_cell_order E cell_order S = Ok S' ->
  S' = with_cell_order_ (cell_order_ S') S.
Proof.
  unfold set_cell_order. intros H.
  destruct cell_order as [o|]; [|inversion H; subst; reflexivity].
  repeat (destruct (String.eqb o _); [inversion H; subst; reflexivity|]);
    try discriminate.
  destruct (String.eqb o _); [|discriminate].
  destruct (tile_extents_ S); inversion H; subst; reflexivity.
Qed.

Lemma set_cell_order_hilbert E cell_order S S' :
  distinct_cell_orders E ->
  TILEDB_AS_CELL_ORDER E <> TILEDB_AS_CO_HILBERT E ->
  set_cell_order E cell_order S = Ok S' ->
  cell_order_ S' = TILEDB_AS_CO_HILBERT E ->
  tile_extents_ S = None.
Proof.
  intros (Hrc & Hrh & Hch) Hdef. unfold set_cell_order. intros H Hh.
  destruct cell_order as [o|].
  - destruct (String.eqb o "row-major").
    { inversion H; subst; simpl in Hh. congruence. }
    destruct (String.eqb o "column-major").
    { inversion H; subst; simpl in Hh. congruence. }
    destruct (String.eqb o "hilbert"); [|discriminate].
    destruct (tile_extents_ S); [discriminate|reflexivity].
  - inversion H; subst; simpl in Hh. congruence.
Qed.

Lemma set_tile_order_shape E tile_order S S' :
  set_tile_order E tile_order S = Ok S' ->
  S' = with_tile_order_ (tile_order_ S') S.
Proof.
  unfold set_tile_order. intros H.
  destruct tile_order as [o|]; [|inversion H; subst; reflexivity].
  repeat (destruct (String.eqb o _); [inversion H; subst; reflexivity|]);
    try discriminate.
  destruct (String.eqb o _); [|discriminate].
  destruct (tile_extents_ S); inversion H; subst; reflexivity.
Qed.

Lemma set_tile_order_hilbert E tile_order S S' :
  distinct_tile_orders E ->
  TILEDB_AS_TILE_ORDER E <> TILEDB_AS_TO_HILBERT E ->
  set_tile_order E tile_order S = Ok S' ->
  tile_order_ S' = TILEDB_AS_TO_HILBERT E ->
  tile_extents_ S = None.
Proof.
  intros (Hrc & Hrh & Hch) Hdef. unfold set_tile_order. intros H Hh.
  destruct tile_order as [o|].
  - destruct (String.eqb o "row-major").
    { inversion H; subst; simpl in Hh. congruence. }
    destruct (String.eqb o "column-major").
    { inversion H; subst; simpl in Hh. congruence. }
    destruct (String.eqb o "hilbert"); [|discriminate].
    destruct (tile_extents_ S); [discriminate|reflexivity].
  - inversion H; subst; simpl in Hh. congruence.
Qed.

Lemma check_domain_shape T S S' : check_domain T S = Ok S' -> S' = S.
Proof.
  unfold check_domain. intros H.
  apply bind_Ok_inv in H as (? & _ & H). inversion H; reflexivity.
Qed.

Lemma set_domain_shape domain S S' :
  set_domain domain S = Ok S' -> S' = with_domain_ (domain_ S') S.
Proof.
  unfold set_domain. intros H.
  destruct domain as [d|]; [|discriminate].
  apply bind_Ok_inv in H as (c & _ & H).
  apply bind_Ok_inv in H as (bs & _ & H).
  apply bind_Ok_inv in H as (t & _ & H).
  destruct t as [[| | | |]|]; try discriminate;
    apply check_domain_shape in H; subst; reflexivity.
Qed.

(** The steps of [init], with the states between them. *)
Lemma init_steps E c S0 S :
  init E c S0 = Ok S ->
  exists S2 S4 S5 S8 S9 S10 S11 S12,
    set_attributes E (C_API.attributes_ c) (C_API.attribute_num_ c)
      (set_array_name E (C_API.array_name_ c) S0) = Ok S2 /\
    set_dimensions E (C_API.dimensions_ c) (C_API.dim_num_ c)
      (set_capacity E (to_int (C_API.capacity_ c)) S2) = Ok S4 /\
    set_compression E (C_API.compression_ c) S4 = Ok S5 /\
    set_types E (C_API.types_ c)
      (set_dense (C_API.dense_ c)
         (set_consolidation_step E (C_API.consolidation_step_ c) S5)) = Ok S8 /\
    set_tile_extents (C_API.tile_extents_ c) S8 = Ok S9 /\
    set_cell_order E (C_API.cell_order_ c) S9 = Ok S10 /\
    set_tile_order E (C_API.tile_order_ c) S10 = Ok S11 /\
    set_domain (C_API.domain_ c) S11 = Ok S12 /\
    finalize E S12 = Ok S.
Proof.
  unfold init. intros H.
  apply bind_Ok_inv in H as (S2 & H2 & H).
  apply bind_Ok_inv in H as (S4 & H4 & H).
  apply bind_Ok_inv in H as (S5 & H5 & H).
  apply bind_Ok_inv in H as (S8 & H8 & H).
  apply bind_Ok_inv in H as (S9 & H9 & H).
  apply bind_Ok_inv in H as (S10 & H10 & H).
  apply bind_Ok_inv in H as (S11 & H11 & H).
  apply bind_Ok_inv in H as (S12 & H12 & H).
  exists S2, S4, S5, S8, S9, S10, S11, S12. auto 10.
Qed.

(** Shared by the statements on Hilbert order. *)
Lemma init_hilbert_exclusive E c S0 S :
  distinct_cell_orders E -> distinct_tile_orders E -> defaults_not_hilbert E ->
  init E c S0 = Ok S ->
  cell_order_ S = TILEDB_AS_CO_HILBERT E \/ tile_order_ S = TILEDB_AS_TO_HILBERT E ->
  tile_extents_ S = None.
Proof.
  intros Hco Hto (Hdc & Hdt) H Hh.
  apply init_steps in H
    as (S2 & S4 & S5 & S8 & S9 & S10 & S11 & S12 & _ & _ & _ & _ & H9 & H10 & H11 & H12 & H).
  pose proof (set_cell_order_hilbert _ _ _ _ Hco Hdc H10) as Hc.
  pose proof (set_tile_order_hilbert _ _ _ _ Hto Hdt H11) as Ht.
  apply set_cell_order_shape in H10. apply set_tile_order_shape in H11.
  apply set_domain_shape in H12. apply finalize_shape in H.
  assert (Hte : tile_extents_ S = tile_extents_ S9).
  { rewrite H, H12, H11, H10. reflexivity. }
  assert (Hte10 : tile_extents_ S10 = tile_extents_ S9).
  { rewrite H10. reflexivity. }
  assert (Hcell : cell_order_ S = cell_order_ S10).
  { rewrite H, H12, H11. reflexivity. }
  assert (Htile : tile_order_ S = tile_order_ S11).
  { rewrite H, H12. reflexivity. }
  rewrite Hte. destruct Hh as [Hh|Hh].
  - apply Hc. congruence.
  - rewrite <- Hte10. apply Ht. congruence.
Qed.

(** ** Hilbert order and tile extents *)

(** C9: a schema that [init] accepts and that has Hilbert cell order or
    Hilbert tile order has no tile extents; and the two order setters
    refuse the token "hilbert" on an object that has tile extents. *)
Theorem hilbert_order_excludes_tile_extents
        (E : Env) (c : C_API.ArraySchemaC) (S0 S : ArraySchema) :
  distinct_cell_orders E -> distinct_tile_orders E -> defaults_not_hilbert E ->
  init E c S0 = Ok S ->
  (cell_order_ S = TILEDB_AS_CO_HILBERT E \/
   tile_order_ S = TILEDB_AS_TO_HILBERT E ->
   tile_extents_ S = None) /\
  (forall S' extents,
      tile_extents_ S' = Some extents ->
      set_cell_order E (Some "hilbert"%string) S' = Err /\
      set_tile_order E (Some "hilbert"%string) S' = Err).
Proof.
  intros Hco Hto Hd H. split.
  - eapply init_hilbert_exclusive; eassumption.
  - intros S' extents Hx. unfold set_cell_order, set_tile_order.
    simpl. rewrite Hx. split; reflexivity.
Qed.

Lemma hilbert_order_excludes_tile_extents_witness :
  (cell_order_ S4_schema = TILEDB_AS_CO_HILBERT spec_env \/
   tile_order_ S4_schema = TILEDB_AS_TO_HILBERT spec_env ->
   tile_extents_ S4_schema = None) /\
  (forall S' extents,
      tile_extents_ S' = Some extents ->
      set_cell_order spec_env (Some "hilbert"%string) S' = Err /\
      set_tile_order spec_env (Some "hilbert"%string) S' = Err).
Proof.
  apply (@hilbert_order_excludes_tile_extents
           spec_env S4_input ArraySchema_new S4_schema).
  - repeat split; discriminate.
  - repeat split; discriminate.
  - split; discriminate.
  - vm_compute. reflexivity.
Defined.
(* ================================================================= *)
(** ** Bytes *)

Lemma Z_of_byte_range b : 0 <= Z_of_byte b < 256.
Proof.
  unfold Z_of_byte. pose proof (Byte.to_N_bounded b). lia.
Qed.

Lemma Z_of_byte_of_Z z : Z_of_byte (byte_of_Z z) = z mod 256.
Proof.
  unfold byte_of_Z, Z_of_byte.
  pose proof (Z.mod_pos_bound z 256 ltac:(lia)) as Hm.
  destruct (Byte.of_N (Z.to_N (z mod 256))) as [b|] eqn:Hb.
  - apply Byte.to_of_N in Hb. rewrite Hb. lia.
  - apply Byte.of_N_None_iff in Hb. lia.
Qed.

Lemma le_bytes_length n z : length (le_bytes n z) = n.
Proof.
  revert z. induction n as [|n IH]; intros z; simpl; auto.
Qed.

Lemma le_value_le_bytes n z : le_value (le_bytes n z) = z mod 256 ^ Z.of_nat n.
Proof.
  revert z. induction n as [|n IH]; intros z.
  - simpl. rewrite Z.mod_1_r. reflexivity.
  - cbn [le_bytes le_value]. rewrite IH, Z_of_byte_of_Z.
    rewrite Nat2Z.inj_succ, Z.pow_succ_r by lia.
    rewrite Z.rem_mul_r by lia. reflexivity.
Qed.

Lemma wrap_signed_mod w z :
  0 < w -> in_range w z -> wrap_signed w (z mod 2 ^ w) = z.
Proof.
  intros Hw [Hlo Hhi]. unfold wrap_signed.
  assert (H2 : 2 ^ w = 2 * 2 ^ (w - 1)).
  { replace w with (Z.succ (w - 1)) at 1 by lia. apply Z.pow_succ_r. lia. }
  rewrite Zplus_mod_idemp_l.
  rewrite Z.mod_small by lia. lia.
Qed.

Lemma wrap_signed_id w z : 0 < w -> in_range w z -> wrap_signed w z = z.
Proof.
  intros Hw [Hlo Hhi]. unfold wrap_signed.
  assert (H2 : 2 ^ w = 2 * 2 ^ (w - 1)).
  { replace w with (Z.succ (w - 1)) at 1 by lia. apply Z.pow_succ_r. lia. }
  rewrite Z.mod_small by lia. lia.
Qed.

Lemma to_int_le z : in_range 32 z -> to_int (le_value (le_bytes 4 z)) = z.
Proof.
  intros H. rewrite le_value_le_bytes. apply (wrap_signed_mod 32 z); [lia|exact H].
Qed.

Lemma to_int64_le z : in_range 64 z -> to_int64 (le_value (le_bytes 8 z)) = z.
Proof.
  intros H. rewrite le_value_le_bytes. apply (wrap_signed_mod 64 z); [lia|exact H].
Qed.

Lemma to_char_le z : in_range 8 z -> to_char (le_value (le_bytes 1 (to_char z))) = z.
Proof.
  intros H. unfold to_char at 2. rewrite (wrap_signed_id 8 z) by (lia || exact H).
  rewrite le_value_le_bytes. apply (wrap_signed_mod 8 z); [lia|exact H].
Qed.

Lemma bool_of_bytes_of_bool b : bool_of_bytes (bytes_of_bool b) = b.
Proof. destruct b; reflexivity. Qed.

Lemma string_of_bytes_of_string s : string_of_bytes (bytes_of_string s) = s.
Proof. apply string_of_list_byte_of_string. Qed.

Lemma bytes_of_string_length s : len (bytes_of_string s) = size s.
Proof.
  unfold len, size, bytes_of_string, list_byte_of_string.
  rewrite length_map. f_equal.
  induction s as [|c s IH]; simpl; auto.
Qed.

Lemma len_app {A : Type} (l1 l2 : list A) : len (l1 ++ l2) = len l1 + len l2.
Proof. unfold len. rewrite length_app. lia. Qed.

Lemma len_nonneg {A : Type} (l : list A) : 0 <= len l.
Proof. unfold len. lia. Qed.

Lemma len_le_bytes n z : len (le_bytes n z) = Z.of_nat n.
Proof. unfold len. rewrite le_bytes_length. reflexivity. Qed.

Lemma len_cons {A : Type} (a : A) l : len (a :: l) = 1 + len l.
Proof. unfold len. simpl length. lia. Qed.

Lemma len_nil {A : Type} : len (@nil A) = 0.
Proof. reflexivity. Qed.

Lemma len_bytes_of_bool b : len (bytes_of_bool b) = 1.
Proof. reflexivity. Qed.
(* ================================================================= *)
(** ** Loops over the elements of a list *)

Lemma at_nth {A : Type} (l : list A) i a :
  nth_error l i = Some a -> at_ l (Z.of_nat i) = Ok a.
Proof.
  intros H. unfold at_.
  destruct (Z.ltb_spec (Z.of_nat i) 0); [lia|].
  rewrite Nat2Z.id, H. reflexivity.
Qed.

Lemma at_Ok_inv {A : Type} (l : list A) i a :
  at_ l i = Ok a -> 0 <= i < len l /\ nth_error l (Z.to_nat i) = Some a.
Proof.
  unfold at_. destruct (Z.ltb_spec i 0); [discriminate|].
  destruct (nth_error l (Z.to_nat i)) eqn:Hn; [|discriminate].
  intros Heq; inversion Heq; subst. split; [|reflexivity].
  assert (Z.to_nat i < length l)%nat by (apply nth_error_Some; congruence).
  unfold len. lia.
Qed.

Lemma skipn_nth_error {A : Type} (l : list A) i a :
  nth_error l i = Some a -> skipn i l = a :: skipn (Datatypes.S i) l.
Proof.
  revert l. induction i as [|i IH]; intros [|b l] H; simpl in *; try discriminate.
  - inversion H; reflexivity.
  - apply IH, H.
Qed.

Lemma for_loop_from_fold {A St : Type} (l : list A)
      (body : Z -> St -> res St) (step : A -> St -> res St) :
  (forall i a st, nth_error l i = Some a -> body (Z.of_nat i) st = step a st) ->
  forall k i st,
    (i + k <= length l)%nat ->
    for_loop_from (Z.of_nat i) k body st = fold_res step (firstn k (skipn i l)) st.
Proof.
  intros Hb k. induction k as [|k IH]; intros i st Hk.
  - reflexivity.
  - destruct (nth_error l i) as [a|] eqn:Ha.
    2:{ apply nth_error_None in Ha. lia. }
    rewrite (skipn_nth_error _ _ _ Ha).
    cbn [for_loop_from firstn fold_res].
    rewrite (Hb _ _ _ Ha).
    destruct (step a st); simpl; try reflexivity.
    replace (Z.of_nat i + 1) with (Z.of_nat (Datatypes.S i)) by lia.
    apply IH. lia.
Qed.

Lemma for_loop_fold {A St : Type} (l : list A)
      (body : Z -> St -> res St) (step : A -> St -> res St) n st :
  (forall i a st, nth_error l i = Some a -> body (Z.of_nat i) st = step a st) ->
  0 <= n <= len l ->
  for_loop n body st = fold_res step (firstn (Z.to_nat n) l) st.
Proof.
  intros Hb Hn. unfold for_loop.
  apply (for_loop_from_fold l body step Hb (Z.to_nat n) 0 st).
  unfold len in Hn. lia.
Qed.

(** A loop whose body ignores the index. *)
Lemma for_loop_from_const {St : Type} (f : St -> res St) n :
  forall i st,
    for_loop_from i n (fun _ => f) st = fold_res (fun _ : unit => f) (repeat tt n) st.
Proof.
  induction n as [|n IH]; intros i st; simpl; [reflexivity|].
  destruct (f st); simpl; auto.
Qed.

(* ================================================================= *)
(** ** Writing the buffer *)

Lemma to_size_t_small z : 0 <= z < 2 ^ 64 -> to_size_t z = z.
Proof. intros H. unfold to_size_t, wrap_unsigned. apply Z.mod_small, H. Qed.

Lemma to_int_small z : in_int z -> to_int z = z.
Proof. intros H. apply (wrap_signed_id 32); [lia|exact H]. Qed.

Lemma firstn_len {A : Type} (l : list A) : firstn (Z.to_nat (len l)) l = l.
Proof. unfold len. rewrite Nat2Z.id. apply firstn_all. Qed.

Lemma memcpy_from_all src : memcpy_from src (len src) = Ok src.
Proof.
  unfold memcpy_from. pose proof (len_nonneg src).
  destruct (Z.ltb_spec (len src) 0); [lia|].
  rewrite Z.ltb_irrefl. rewrite firstn_len. reflexivity.
Qed.

Lemma put_ok buffer_size (strict : bool) src n buffer :
  buffer_size < 2 ^ 64 -> n = len src ->
  (if strict then len buffer + n < buffer_size else len buffer + n <= buffer_size) ->
  put buffer_size strict src n buffer = Ok (buffer ++ src).
Proof.
  intros Hbs -> Hlt. unfold put.
  pose proof (len_nonneg src). pose proof (len_nonneg buffer).
  rewrite to_size_t_small by (destruct strict; lia).
  replace (if strict then _ <? _ else _ <=? _) with true
    by (destruct strict; symmetry; [apply Z.ltb_lt|apply Z.leb_le]; lia).
  simpl. rewrite memcpy_from_all. reflexivity.
Qed.

Lemma len_layout_string s : len (layout_string s) = 4 + size s.
Proof.
  unfold layout_string. rewrite len_app, len_le_bytes, bytes_of_string_length. lia.
Qed.

Lemma len_flat_map_cons {A : Type} (f : A -> list byte) a l :
  len (flat_map f (a :: l)) = len (f a) + len (flat_map f l).
Proof. simpl. apply len_app. Qed.

Lemma size_nonneg s : 0 <= size s.
Proof. unfold size. lia. Qed.

Lemma size_in_int s : size s <= INT_MAX -> in_int (size s).
Proof.
  intros H. pose proof (size_nonneg s). unfold in_int, in_range, INT_MAX in *. lia.
Qed.

(** The strings of a name list, as [serialize] writes them. *)
Lemma put_strings buffer_size l :
  buffer_size < 2 ^ 64 ->
  Forall (fun s => size s <= INT_MAX) l ->
  forall buffer,
    len buffer + len (flat_map layout_string l) < buffer_size ->
    fold_res
      (fun a buffer =>
         buffer <- put buffer_size true (le_bytes 4 (to_int (size a))) 4 buffer ;;
         put buffer_size true (bytes_of_string a) (to_int (size a)) buffer)
      l buffer
    = Ok (buffer ++ flat_map layout_string l).
Proof.
  intros Hbs Hl. induction Hl as [|a l Ha Hl IH]; intros buffer Hlen.
  - simpl. rewrite app_nil_r. reflexivity.
  - rewrite len_flat_map_cons, len_layout_string in Hlen.
    pose proof (size_nonneg a). pose proof (len_nonneg (flat_map layout_string l)).
    cbn [fold_res].
    rewrite put_ok; [|assumption|rewrite len_le_bytes; reflexivity|lia].
    cbn [bind].
    rewrite (to_int_small _ (size_in_int _ Ha)).
    rewrite put_ok;
      [|assumption|rewrite bytes_of_string_length; reflexivity
       |rewrite len_app, len_le_bytes; lia].
    cbn [bind]. rewrite IH.
    + assert (Hls : layout_string a = le_bytes 4 (size a) ++ bytes_of_string a).
      { unfold layout_string. rewrite (to_int_small _ (size_in_int _ Ha)). reflexivity. }
      cbn [flat_map]. rewrite Hls, <- !app_assoc. reflexivity.
    + rewrite !len_app, len_le_bytes, bytes_of_string_length. lia.
Qed.

(** Sizes of the names, as [compute_bin_size] adds them up. *)
Lemma sum_strings l :
  forall bin_size,
    fold_res (fun a bin_size => Ok (bin_size + (4 + size a))) l bin_size
    = Ok (bin_size + len (flat_map layout_string l)).
Proof.
  induction l as [|a l IH]; intros b.
  - simpl. f_equal. unfold len. simpl. lia.
  - cbn [fold_res bind]. rewrite IH, len_flat_map_cons, len_layout_string.
    f_equal. lia.
Qed.

Lemma put_types E buffer_size l :
  buffer_size < 2 ^ 64 ->
  forall buffer,
    len buffer + len l < buffer_size ->
    fold_res
      (fun (t : option Datatype) buffer =>
         match t with
         | None => Undef
         | Some ty => put buffer_size true (le_bytes 1 (to_char (type_code E ty))) 1 buffer
         end)
      (map Some l) buffer
    = Ok (buffer ++ flat_map (layout_type E) (map Some l)).
Proof.
  intros Hbs. induction l as [|a l IH]; intros buffer Hlen.
  - simpl. rewrite app_nil_r. reflexivity.
  - rewrite len_cons in Hlen. pose proof (len_nonneg l).
    cbn [map fold_res].
    rewrite put_ok; [|assumption|reflexivity|lia].
    cbn [bind]. rewrite IH.
    + cbn [flat_map layout_type]. rewrite <- !app_assoc. reflexivity.
    + rewrite len_app, len_le_bytes. lia.
Qed.

Lemma put_ints buffer_size l :
  buffer_size < 2 ^ 64 ->
  forall buffer,
    len buffer + 4 * len l < buffer_size ->
    fold_res (fun v buffer => put buffer_size true (le_bytes 4 v) 4 buffer) l buffer
    = Ok (buffer ++ flat_map (le_bytes 4) l).
Proof.
  intros Hbs. induction l as [|a l IH]; intros buffer Hlen.
  - simpl. rewrite app_nil_r. reflexivity.
  - rewrite len_cons in Hlen. pose proof (len_nonneg l).
    cbn [fold_res].
    rewrite put_ok; [|assumption|reflexivity|lia].
    cbn [bind]. rewrite IH.
    + cbn [flat_map]. rewrite <- !app_assoc. reflexivity.
    + rewrite len_app, len_le_bytes. lia.
Qed.

Lemma put_chars buffer_size l :
  buffer_size < 2 ^ 64 ->
  forall buffer,
    len buffer + len l <= buffer_size ->
    fold_res
      (fun c buffer => put buffer_size false (le_bytes 1 (to_char c)) 1 buffer)
      l buffer
    = Ok (buffer ++ flat_map (fun v => le_bytes 1 (to_char v)) l).
Proof.
  intros Hbs. induction l as [|a l IH]; intros buffer Hlen.
  - simpl. rewrite app_nil_r. reflexivity.
  - rewrite len_cons in Hlen. pose proof (len_nonneg l).
    cbn [fold_res].
    rewrite put_ok; [|assumption|reflexivity|lia].
    cbn [bind]. rewrite IH.
    + cbn [flat_map]. rewrite <- !app_assoc. reflexivity.
    + rewrite len_app, len_le_bytes. lia.
Qed.

Lemma len_flat_map_const {A : Type} (f : A -> list byte) k l :
  (forall a, len (f a) = k) -> len (flat_map f l) = k * len l.
Proof.
  intros Hf. induction l as [|a l IH].
  - unfold len. simpl. lia.
  - rewrite len_flat_map_cons, Hf, IH, len_cons. lia.
Qed.

Lemma len_flat_map_strings l :
  Forall (fun s => size s <= INT_MAX) l ->
  0 <= len (flat_map layout_string l) <= (4 + INT_MAX) * len l.
Proof.
  induction 1 as [|a l Ha Hl IH].
  - unfold len. simpl. lia.
  - rewrite len_flat_map_cons, len_layout_string, len_cons.
    pose proof (size_nonneg a). lia.
Qed.
(* ================================================================= *)
(** ** The size of a coordinates cell *)

Lemma fill_from_spec {A : Type} (f : Z -> res A) n :
  forall i l,
    fill_from i n f = Ok l ->
    length l = n /\
    forall k a, nth_error l k = Some a -> f (i + Z.of_nat k) = Ok a.
Proof.
  induction n as [|n IH]; intros i l H; simpl in H.
  - inversion H; subst. split; [reflexivity|]. intros [|k] a Hk; discriminate.
  - apply bind_Ok_inv in H as (a0 & Ha0 & H).
    apply bind_Ok_inv in H as (r & Hr & H). inversion H; subst.
    apply IH in Hr as [Hlen Hnth]. split; [simpl; congruence|].
    intros [|k] a Hk; simpl in Hk.
    + inversion Hk; subst. rewrite Z.add_0_r. exact Ha0.
    + apply Hnth in Hk. rewrite <- Hk. f_equal. lia.
Qed.

Lemma fill_spec {A : Type} (f : Z -> res A) n l :
  0 <= n -> fill n f = Ok l ->
  len l = n /\ forall i a, at_ l i = Ok a -> f i = Ok a.
Proof.
  intros Hn H. apply fill_from_spec in H as [Hlen Hnth].
  split; [unfold len; lia|].
  intros i a Ha. apply at_Ok_inv in Ha as [Hi Ha].
  apply Hnth in Ha. rewrite <- Ha. f_equal. lia.
Qed.

Lemma at_app_last {A : Type} (l : list A) a : at_ (l ++ [a]) (len l) = Ok a.
Proof.
  unfold len. apply at_nth. rewrite nth_error_app2 by lia.
  rewrite Nat.sub_diag. reflexivity.
Qed.

Lemma at_in_range {A : Type} (l : list A) i :
  0 <= i < len l -> exists a, at_ l i = Ok a.
Proof.
  intros Hi. unfold at_. destruct (Z.ltb_spec i 0); [lia|].
  destruct (nth_error l (Z.to_nat i)) eqn:Hn; eauto.
  apply nth_error_None in Hn. unfold len in Hi. lia.
Qed.

Lemma at_nth_default {A : Type} (l : list A) i a d :
  at_ l i = Ok a -> nth (Z.to_nat i) l d = a.
Proof.
  intros H. apply at_Ok_inv in H as [_ H]. apply nth_error_nth, H.
Qed.

Lemma sizeof_bounds t : 1 <= sizeof t <= 8.
Proof. destruct t; simpl; lia. Qed.

(** In a state that [init] or [deserialize] has filled in, the cell of the
    coordinates has [dim_num_] values of the coordinates type. *)
Lemma prefinal_coords_size E S :
  prefinal E S -> sizes_fit S ->
  exists ts ct d,
    types_ S = map Some (ts ++ [ct]) /\ len ts = attribute_num_ S /\
    ct <> T_char /\
    type_sizes_ S = map sizeof (ts ++ [ct]) /\
    domain_ S = Some d /\ len d = 2 * (dim_num_ S * sizeof ct) /\
    (tile_extents_ S = None \/
     exists e, tile_extents_ S = Some e /\ len e = dim_num_ S * sizeof ct) /\
    coords_size S = Ok (dim_num_ S * sizeof ct) /\
    nth (Z.to_nat (attribute_num_ S)) (cell_sizes_ S) 0 = dim_num_ S * sizeof ct.
Proof.
  intros P (_ & _ & _ & Hdim).
  destruct P as [Hn _ Hdn _ (ts & ct & Hty & Hts & Hct & Htsz & (d & Hd & Hdl) & He)
                 _ _ _ Hcs _].
  exists ts, ct, d. repeat (split; [assumption|]).
  assert (Hc : coords_size S = Ok (dim_num_ S * sizeof ct)).
  { unfold coords_size.
    assert (H0 : 0 <= attribute_num_ S + 1) by lia.
    destruct (fill_spec _ _ _ H0 Hcs) as [Hlen Hat].
    assert (H1 : 0 <= attribute_num_ S < len (cell_sizes_ S)) by lia.
    destruct (at_in_range (cell_sizes_ S) (attribute_num_ S) H1) as (c & Hc).
    rewrite Hc. f_equal. apply Hat in Hc. revert Hc.
    unfold compute_cell_size.
    replace ((0 <=? attribute_num_ S) && (attribute_num_ S <=? attribute_num_ S))
      with true by (symmetry; apply andb_true_iff; split; apply Z.leb_le; lia).
    rewrite Z.ltb_irrefl. cbn [assert bind].
    rewrite Hty, map_app, <- Hts.
    replace (len ts) with (len (map Some ts)) by (unfold len; rewrite length_map; reflexivity).
    cbn [map]. rewrite at_app_last. cbn [bind].
    pose proof (sizeof_bounds ct). unfold INT_MAX in Hdim.
    destruct ct; try congruence; intros Hc; inversion Hc;
      apply to_size_t_small; cbn [sizeof] in *; lia. }
  split; [exact Hc|]. apply at_nth_default. exact Hc.
Qed.

Arguments prefinal_coords_size {E S}.
(* ================================================================= *)
(** ** The bytes of a schema *)

Lemma firstn_exact {A : Type} (l : list A) n : n = len l -> firstn (Z.to_nat n) l = l.
Proof. intros ->. apply firstn_len. Qed.

Lemma firstn_app_exact {A : Type} (l r : list A) n :
  n = len l -> firstn (Z.to_nat n) (l ++ r) = l.
Proof.
  intros ->. unfold len. rewrite Nat2Z.id.
  rewrite firstn_app, Nat.sub_diag, firstn_all. simpl. apply app_nil_r.
Qed.

Lemma len_map {A B : Type} (f : A -> B) l : len (map f l) = len l.
Proof. unfold len. rewrite length_map. reflexivity. Qed.

(** The layout of a filled-in state, with its parts named. *)
Lemma layout_prefinal E S :
  prefinal E S -> typed S -> sizes_fit S ->
  exists names ts ct d,
    attributes_ S = names ++ [TILEDB_COORDS_NAME E] /\
    len names = attribute_num_ S /\
    types_ S = map Some (ts ++ [ct]) /\ len ts = attribute_num_ S /\
    ct <> T_char /\
    type_sizes_ S = map sizeof (ts ++ [ct]) /\
    domain_ S = Some d /\ len d = 2 * (dim_num_ S * sizeof ct) /\
    (tile_extents_ S = None \/
     exists e, tile_extents_ S = Some e /\ len e = dim_num_ S * sizeof ct) /\
    coords_size S = Ok (dim_num_ S * sizeof ct) /\
    layout E S =
      layout_string (array_name_ S)
      ++ bytes_of_bool (dense_ S)
      ++ bytes_of_bool (key_value_ S)
      ++ le_bytes 1 (to_char (tile_order_ S))
      ++ le_bytes 1 (to_char (cell_order_ S))
      ++ le_bytes 8 (capacity_ S)
      ++ le_bytes 4 (consolidation_step_ S)
      ++ le_bytes 4 (attribute_num_ S)
      ++ flat_map layout_string names
      ++ le_bytes 4 (dim_num_ S)
      ++ flat_map layout_string (dimensions_ S)
      ++ le_bytes 4 (2 * (dim_num_ S * sizeof ct))
      ++ d
      ++ le_bytes 4 (match tile_extents_ S with
                     | None => 0
                     | Some _ => dim_num_ S * sizeof ct
                     end)
      ++ blob (tile_extents_ S)
      ++ flat_map (layout_type E) (map Some (ts ++ [ct]))
      ++ flat_map (le_bytes 4) (val_num_ S)
      ++ flat_map (fun v => le_bytes 1 (to_char v)) (compression_ S).
Proof.
  intros P HT HF.
  destruct (prefinal_coords_size P HF)
    as (ts & ct & d & Hty & Hts & Hct & Htsz & Hd & Hdl & He & Hc & Hnth).
  destruct P as [Hn (names & Hattr & Hnames) Hdn Hdims _ Hvn (Hcl & _) _ _ _].
  destruct HF as (_ & _ & _ & Hdim).
  exists names, ts, ct, d. repeat (split; [assumption|]).
  unfold layout. rewrite Hnth.
  pose proof (sizeof_bounds ct) as Hsz. unfold INT_MAX in Hdim.
  assert (Hc1 : in_int (dim_num_ S * sizeof ct)) by (unfold in_int, in_range; nia).
  assert (Hc2 : in_int (2 * (dim_num_ S * sizeof ct))) by (unfold in_int, in_range; nia).
  rewrite (to_int_small _ Hc1), (to_int_small _ Hc2).
  rewrite Hattr, (firstn_app_exact names _ _ (eq_sym Hnames)).
  rewrite (firstn_exact (dimensions_ S) _ (eq_sym Hdims)).
  rewrite (firstn_exact (val_num_ S) _ (eq_sym Hvn)).
  replace (Z.to_nat (attribute_num_ S) + 1)%nat
    with (Z.to_nat (attribute_num_ S + 1)) by lia.
  rewrite (firstn_exact (compression_ S) _ (eq_sym Hcl)).
  rewrite Hty, firstn_exact
    by (rewrite len_map, len_app, len_cons, len_nil; lia).
  rewrite Hd. reflexivity.
Qed.

Arguments layout_prefinal {E S}.
Ltac len_simpl :=
  repeat first
    [ rewrite len_app | rewrite len_le_bytes | rewrite len_layout_string
    | rewrite len_bytes_of_bool | rewrite bytes_of_string_length
    | rewrite @len_nil | rewrite len_cons | rewrite len_map ].

Lemma len_layout_types E l : len (flat_map (layout_type E) (map Some l)) = len l.
Proof.
  induction l as [|a l IH]; [reflexivity|].
  cbn [map]. rewrite len_flat_map_cons, IH, len_cons.
  cbn [layout_type]. rewrite len_le_bytes. lia.
Qed.

Lemma len_flat_map_ints l : len (flat_map (le_bytes 4) l) = 4 * len l.
Proof. apply len_flat_map_const. intros. apply len_le_bytes. Qed.

Lemma len_flat_map_chars l :
  len (flat_map (fun v => le_bytes 1 (to_char v)) l) = len l.
Proof.
  rewrite (len_flat_map_const (fun v => le_bytes 1 (to_char v)) 1).
  - lia.
  - intros. apply len_le_bytes.
Qed.

Ltac len_all :=
  len_simpl;
  rewrite ?len_layout_types, ?len_flat_map_ints, ?len_flat_map_chars;
  len_simpl.

(** One write of [serialize]: the assertion holds by the total [Htot]. *)
Ltac put_step Hbound Htot :=
  rewrite put_ok;
  [ cbn [bind]
  | exact Hbound
  | len_all; try reflexivity; lia
  | len_all; rewrite Htot; lia ].

Lemma serialize_prefinal E S :
  prefinal E S -> typed S -> sizes_fit S ->
  serialize E S = Ok (layout E S) /\
  compute_bin_size S = Ok (len (layout E S)).
Proof.
  intros P HT HF.
  destruct (layout_prefinal P HT HF)
    as (names & ts & ct & d & Hattr & Hnames & Hty & Hts & Hct & Htsz & Hd & Hdl
        & He & Hc & Hlay).
  destruct P as [Hn _ Hdn Hdims _ Hvn (Hcl & _) _ _ _].
  destruct HT as (Han & Hdni & _).
  destruct HF as (Hname & Hfa & Hfd & Hdim).
  pose proof (sizeof_bounds ct) as Hsz. unfold INT_MAX in Hdim.
  assert (Hfn : Forall (fun s => size s <= INT_MAX) names).
  { rewrite Hattr in Hfa. apply Forall_app in Hfa. tauto. }
  pose proof (len_flat_map_strings _ Hfn) as HA.
  pose proof (len_flat_map_strings _ Hfd) as HD.
  pose proof (size_nonneg (array_name_ S)) as Hsn.
  assert (HX : len (blob (tile_extents_ S))
               = match tile_extents_ S with
                 | None => 0
                 | Some _ => dim_num_ S * sizeof ct
                 end).
  { destruct He as [He|(e & He & Hel)]; rewrite He; [reflexivity|exact Hel]. }
  assert (HX0 : 0 <= len (blob (tile_extents_ S)) <= dim_num_ S * sizeof ct).
  { rewrite HX. destruct (tile_extents_ S); nia. }
  assert (Htot : len (layout E S)
                 = 4 + size (array_name_ S) + 1 + 1 + 1 + 1 + 8 + 4 + 4
                   + len (flat_map layout_string names) + 4
                   + len (flat_map layout_string (dimensions_ S))
                   + 4 + 2 * (dim_num_ S * sizeof ct) + 4
                   + len (blob (tile_extents_ S)) + (attribute_num_ S + 1)
                   + 4 * attribute_num_ S + (attribute_num_ S + 1)).
  { rewrite Hlay. len_all. rewrite Hdl, Hts, Hvn, Hcl. simpl Z.of_nat. lia. }
  assert (Hbound : len (layout E S) < 2 ^ 64).
  { rewrite Htot. unfold in_int, in_range, INT_MAX in *. nia. }
  assert (Hbin : compute_bin_size S = Ok (len (layout E S))).
  { unfold compute_bin_size.
    rewrite (for_loop_fold (attributes_ S) _ (fun a b => Ok (b + (4 + size a))));
      [| intros i a st Hi; cbv beta; rewrite (at_nth _ _ _ Hi); reflexivity
       | rewrite Hattr; len_simpl; lia ].
    rewrite Hattr, (firstn_app_exact names _ _ (eq_sym Hnames)), sum_strings.
    cbn [bind].
    rewrite (for_loop_fold (dimensions_ S) _ (fun a b => Ok (b + (4 + size a))));
      [| intros i a st Hi; cbv beta; rewrite (at_nth _ _ _ Hi); reflexivity | lia ].
    rewrite (firstn_exact (dimensions_ S) _ (eq_sym Hdims)), sum_strings.
    cbn [bind]. rewrite Hc. cbn [bind]. f_equal.
    rewrite to_size_t_small.
    - rewrite Htot, HX. destruct (tile_extents_ S); lia.
    - rewrite HX in HX0. destruct (tile_extents_ S); lia. }
  split; [|exact Hbin].
  unfold serialize. rewrite Hbin. cbn [bind]. cbv zeta.
  assert (Hc1 : in_int (dim_num_ S * sizeof ct)) by (unfold in_int, in_range; nia).
  assert (Hc2 : in_int (2 * (dim_num_ S * sizeof ct))) by (unfold in_int, in_range; nia).
  rewrite (to_int_small _ (size_in_int _ Hname)).
  rewrite Hc. cbn [bind].
  rewrite (to_int_small _ Hc1), (to_int_small _ Hc2).
  rewrite (to_size_t_small (2 * (dim_num_ S * sizeof ct))) by lia.
  rewrite Z.eqb_refl. rewrite Hd.
  do 9 put_step Hbound Htot.
  (* attributes *)
  rewrite (for_loop_fold (attributes_ S) _
             (fun a buffer =>
                buffer <- put (len (layout E S)) true
                            (le_bytes 4 (to_int (size a))) 4 buffer ;;
                put (len (layout E S)) true (bytes_of_string a)
                    (to_int (size a)) buffer));
    [| intros i a st Hi; cbv beta; rewrite (at_nth _ _ _ Hi); reflexivity
     | rewrite Hattr; len_simpl; lia ].
  rewrite Hattr, (firstn_app_exact names _ _ (eq_sym Hnames)).
  rewrite put_strings;
    [cbn [bind] | exact Hbound | exact Hfn | len_all; rewrite Htot; lia].
  put_step Hbound Htot.
  (* dimensions *)
  rewrite (for_loop_fold (dimensions_ S) _
             (fun a buffer =>
                buffer <- put (len (layout E S)) true
                            (le_bytes 4 (to_int (size a))) 4 buffer ;;
                put (len (layout E S)) true (bytes_of_string a)
                    (to_int (size a)) buffer));
    [| intros i a st Hi; cbv beta; rewrite (at_nth _ _ _ Hi); reflexivity | lia ].
  rewrite (firstn_exact (dimensions_ S) _ (eq_sym Hdims)).
  rewrite put_strings;
    [cbn [bind] | exact Hbound | exact Hfd | len_all; rewrite Htot; lia].
  (* domain, tile extents *)
  do 3 put_step Hbound Htot.
  assert (Hext :
            forall buffer4,
              len buffer4 + len (blob (tile_extents_ S))
                + (attribute_num_ S + 1) < len (layout E S) ->
              match tile_extents_ S with
              | Some tile_extents =>
                  put (len (layout E S)) true tile_extents
                      match tile_extents_ S with
                      | Some _ => dim_num_ S * sizeof ct
                      | None => 0
                      end buffer4
              | None => Ok buffer4
              end = Ok (buffer4 ++ blob (tile_extents_ S))).
  { intros buffer4 Hb4.
    destruct He as [He|(e & He & Hel)]; rewrite He in *; cbn [blob] in *.
    - rewrite app_nil_r. reflexivity.
    - apply put_ok; [exact Hbound|congruence|lia]. }
  rewrite Hext by (len_all; rewrite Htot; lia).
  cbn [bind]. clear Hext.
  (* types *)
  rewrite (for_loop_fold (types_ S) _
             (fun (t : option Datatype) buffer =>
                match t with
                | None => Undef
                | Some ty =>
                    put (len (layout E S)) true
                        (le_bytes 1 (to_char (type_code E ty))) 1 buffer
                end));
    [| intros i a st Hi; cbv beta; rewrite (at_nth _ _ _ Hi); reflexivity
     | rewrite Hty; len_all; lia ].
  rewrite Hty, firstn_exact by (len_all; lia).
  rewrite put_types; [cbn [bind] | exact Hbound | len_all; rewrite Htot; lia].
  (* val_num *)
  rewrite (for_loop_fold (val_num_ S) _
             (fun v buffer => put (len (layout E S)) true (le_bytes 4 v) 4 buffer));
    [| intros i a st Hi; cbv beta; rewrite (at_nth _ _ _ Hi); reflexivity | lia ].
  rewrite (firstn_exact (val_num_ S) _ (eq_sym Hvn)).
  rewrite put_ints; [cbn [bind] | exact Hbound | len_all; rewrite Htot; lia].
  (* compression *)
  rewrite (for_loop_fold (compression_ S) _
             (fun c buffer =>
                put (len (layout E S)) false (le_bytes 1 (to_char c)) 1 buffer));
    [| intros i a st Hi; cbv beta; rewrite (at_nth _ _ _ Hi); reflexivity | lia ].
  rewrite (firstn_exact (compression_ S) _ (eq_sym Hcl)).
  rewrite put_chars; [cbn [bind] | exact Hbound | len_all; rewrite Htot; lia].
  match goal with
  | |- bind (assert (len ?b =? _)) _ = _ =>
      assert (Hfin : b = layout E S)
  end.
  { rewrite Hlay. unfold layout_string.
    rewrite (to_int_small _ (size_in_int _ Hname)).
    destruct (tile_extents_ S); rewrite <- !app_assoc; reflexivity. }
  rewrite Hfin, Z.eqb_refl. reflexivity.
Qed.

Arguments serialize_prefinal {E S}.
(* ================================================================= *)
(** ** Reading the buffer *)

Lemma cursor_start buffer : cursor buffer 0 buffer.
Proof. unfold cursor. simpl. repeat split; lia. Qed.

Lemma get_cursor buffer (strict : bool) x post offset :
  cursor buffer offset (x ++ post) ->
  len buffer < 2 ^ 64 ->
  (strict = true -> 0 < len post) ->
  get buffer strict (len x) offset = Ok (x, offset + len x) /\
  cursor buffer (offset + len x) post.
Proof.
  intros (Ho & Hl & Hs) Hb Hp.
  pose proof (len_nonneg x). pose proof (len_nonneg post).
  rewrite len_app in Hl.
  split.
  - unfold get.
    rewrite to_size_t_small by lia.
    replace (if strict then _ <? _ else _ <=? _) with true.
    2:{ destruct strict; symmetry; [apply Z.ltb_lt|apply Z.leb_le];
          [specialize (Hp eq_refl)|]; lia. }
    cbn [assert bind].
    destruct (Z.ltb_spec (len x) 0); [lia|].
    rewrite Hs. unfold len at 1. rewrite Nat2Z.id.
    rewrite firstn_app, Nat.sub_diag, firstn_all. simpl. rewrite app_nil_r.
    reflexivity.
  - unfold cursor. repeat split; try lia.
    replace (Z.to_nat (offset + len x))
      with (length x + Z.to_nat offset)%nat by (unfold len; lia).
    rewrite <- skipn_skipn, Hs.
    rewrite skipn_app, Nat.sub_diag, skipn_all. reflexivity.
Qed.

Arguments get_cursor {buffer} strict {x post offset}.

Lemma get_string_cursor buffer s post offset :
  cursor buffer offset (layout_string s ++ post) ->
  len buffer < 2 ^ 64 ->
  size s <= INT_MAX ->
  0 < len post ->
  exists offset',
    get_string buffer offset = Ok (s, offset') /\ cursor buffer offset' post.
Proof.
  intros Hc Hb Hs Hp. unfold layout_string in Hc.
  rewrite (to_int_small _ (size_in_int _ Hs)) in Hc.
  rewrite <- app_assoc in Hc.
  pose proof (size_nonneg s).
  destruct (get_cursor true Hc Hb) as [Hg Hc'].
  { intros _. rewrite len_app, bytes_of_string_length. lia. }
  rewrite len_le_bytes in Hg, Hc'. simpl Z.of_nat in Hg, Hc'.
  destruct (get_cursor true Hc' Hb) as [Hg' Hc''].
  { intros _. exact Hp. }
  rewrite bytes_of_string_length in Hg', Hc''.
  exists (offset + 4 + size s). split; [|exact Hc''].
  unfold get_string. rewrite Hg. cbn [bind].
  rewrite (to_int_le _ (size_in_int _ Hs)).
  destruct (Z.ltb_spec (size s) 0); [lia|].
  rewrite Hg'. cbn [bind]. rewrite string_of_bytes_of_string. reflexivity.
Qed.

Arguments get_string_cursor {buffer s post offset}.

(** The names of a list, as [deserialize] reads them. *)
Lemma get_strings buffer post :
  len buffer < 2 ^ 64 -> 0 < len post ->
  forall names acc offset i,
    Forall (fun s => size s <= INT_MAX) names ->
    cursor buffer offset (flat_map layout_string names ++ post) ->
    exists offset',
      for_loop_from i (length names)
        (fun (_ : Z) '(strings, offset) =>
           '(a, offset) <- get_string buffer offset ;;
           Ok (strings ++ [a], offset))
        (acc, offset)
      = Ok (acc ++ names, offset') /\
      cursor buffer offset' post.
Proof.
  intros Hb Hp names.
  induction names as [|s names IH]; intros acc offset i Hf Hc.
  - exists offset. simpl. rewrite app_nil_r. split; [reflexivity|exact Hc].
  - inversion Hf as [|? ? Hs Hf']; subst.
    cbn [flat_map] in Hc. rewrite <- app_assoc in Hc.
    destruct (get_string_cursor Hc Hb Hs) as (o1 & Hg & Hc1).
    { pose proof (len_flat_map_strings _ Hf'). rewrite len_app. lia. }
    destruct (IH (acc ++ [s]) o1 (i + 1) Hf' Hc1) as (o2 & Hl & Hc2).
    exists o2. split; [|exact Hc2].
    cbn [length for_loop_from]. rewrite Hg. cbn [bind].
    rewrite Hl, <- app_assoc. reflexivity.
Qed.

Lemma type_of_code_code E t :
  Env_ok E -> type_of_code E (type_code E t) = Some t.
Proof.
  intros HE. pose proof (type_code_inj HE) as Hinj.
  unfold type_of_code.
  destruct (Z.eqb_spec (type_code E t) (TILEDB_CHAR E)) as [H|N0].
  { f_equal. symmetry. apply Hinj. exact H. }
  destruct (Z.eqb_spec (type_code E t) (TILEDB_INT32 E)) as [H|N1].
  { f_equal. symmetry. apply (Hinj t T_int). exact H. }
  destruct (Z.eqb_spec (type_code E t) (TILEDB_INT64 E)) as [H|N2].
  { f_equal. symmetry. apply (Hinj t T_int64_t). exact H. }
  destruct (Z.eqb_spec (type_code E t) (TILEDB_FLOAT32 E)) as [H|N3].
  { f_equal. symmetry. apply (Hinj t T_float). exact H. }
  destruct (Z.eqb_spec (type_code E t) (TILEDB_FLOAT64 E)) as [H|N4].
  { f_equal. symmetry. apply (Hinj t T_double). exact H. }
  destruct t; simpl in *; congruence.
Qed.

Lemma set_nth_middle {A : Type} (l1 : list A) a l2 v :
  set_nth (l1 ++ a :: l2) (length l1) v = Some (l1 ++ v :: l2).
Proof.
  induction l1 as [|b l1 IH]; simpl; [reflexivity|].
  rewrite IH. reflexivity.
Qed.

Lemma put_middle {A : Type} (l1 : list A) a l2 v :
  put_ (l1 ++ a :: l2) (len l1) v = Ok (l1 ++ v :: l2).
Proof.
  unfold put_, len. destruct (Z.ltb_spec (Z.of_nat (length l1)) 0); [lia|].
  rewrite Nat2Z.id, set_nth_middle. reflexivity.
Qed.
Lemma put_at {A : Type} (l1 : list A) a l2 v i :
  i = len l1 -> put_ (l1 ++ a :: l2) i v = Ok (l1 ++ v :: l2).
Proof. intros ->. apply put_middle. Qed.

(** The type codes, as [deserialize] reads them. *)
Lemma get_types E buffer post :
  Env_ok E -> len buffer < 2 ^ 64 -> 0 < len post ->
  forall todo done offset,
    cursor buffer offset (flat_map (layout_type E) (map Some todo) ++ post) ->
    exists offset',
      for_loop_from (len done) (length todo)
        (fun i '(types, type_sizes, offset) =>
           '(bs, offset) <- get buffer true 1 offset ;;
           let type := to_char (le_value bs) in
           match type_of_code E type with
           | Some t =>
               types <- put_ types i (Some t) ;;
               type_sizes <- put_ type_sizes i (sizeof t) ;;
               Ok (types, type_sizes, offset)
           | None => Ok (types, type_sizes, offset)
           end)
        (map Some done ++ repeat None (length todo),
         map sizeof done ++ repeat 0 (length todo), offset)
      = Ok (map Some (done ++ todo), map sizeof (done ++ todo), offset') /\
      cursor buffer offset' post.
Proof.
  intros HE Hb Hp todo.
  induction todo as [|t todo IH]; intros done offset Hc.
  - exists offset. simpl. rewrite !app_nil_r. split; [reflexivity|exact Hc].
  - cbn [map flat_map layout_type] in Hc. rewrite <- app_assoc in Hc.
    destruct (get_cursor true Hc Hb) as [Hg Hc1].
    { intros _. rewrite len_app. pose proof (len_nonneg (flat_map (layout_type E) (map Some todo))). lia. }
    rewrite len_le_bytes in Hg, Hc1. simpl Z.of_nat in Hg, Hc1.
    destruct (IH (done ++ [t]) (offset + 1) Hc1) as (o2 & Hl & Hc2).
    exists o2. split; [|exact Hc2].
    cbn [length for_loop_from repeat]. rewrite Hg. cbn [bind]. cbv zeta.
    rewrite (to_char_le _ (type_code_char HE t)), (type_of_code_code E t HE).
    rewrite (put_at (map Some done) None _ (Some t)) by (rewrite len_map; reflexivity).
    cbn [bind].
    rewrite (put_at (map sizeof done) 0 _ (sizeof t)) by (rewrite len_map; reflexivity).
    cbn [bind].
    rewrite len_app, len_cons, len_nil, !map_app in Hl. cbn [map] in Hl.
    rewrite <- !app_assoc in Hl. cbn [app] in Hl.
    replace (len done + (1 + 0)) with (len done + 1) in Hl by lia.
    rewrite Hl, !map_app. reflexivity.
Qed.

(** The value counts, as [deserialize] reads them. *)
Lemma get_val_nums E buffer post :
  len buffer < 2 ^ 64 -> 0 < len post ->
  forall todo done S offset,
    Forall in_int todo ->
    val_num_ S = done ++ repeat 0 (length todo) ->
    cursor buffer offset (flat_map (le_bytes 4) todo ++ post) ->
    exists offset',
      for_loop_from (len done) (length todo)
        (fun i '(S, offset) =>
           '(bs, offset) <- get buffer true 4 offset ;;
           let v := to_int (le_value bs) in
           val_num <- put_ (val_num_ S) i v ;;
           let S := with_val_num_ val_num S in
           let S := if v =? TILEDB_AS_VAR_SIZE E
                    then with_var_attribute_num_ (to_int (var_attribute_num_ S + 1)) S
                    else S in
           Ok (S, offset))
        (S, offset)
      = Ok (with_var_attribute_num_
              (fold_left
                 (fun k v => if v =? TILEDB_AS_VAR_SIZE E then to_int (k + 1) else k)
                 todo (var_attribute_num_ S))
              (with_val_num_ (done ++ todo) S), offset') /\
      cursor buffer offset' post.
Proof.
  intros Hb Hp todo.
  induction todo as [|v todo IH]; intros done S offset Hf Hv Hc.
  - exists offset. simpl in *. rewrite app_nil_r in *. split; [|exact Hc].
    rewrite <- Hv. destruct S; reflexivity.
  - inversion Hf as [|? ? Hvi Hf']; subst.
    cbn [flat_map] in Hc. rewrite <- app_assoc in Hc.
    destruct (get_cursor true Hc Hb) as [Hg Hc1].
    { intros _. rewrite len_app. pose proof (len_nonneg (flat_map (le_bytes 4) todo)). lia. }
    rewrite len_le_bytes in Hg, Hc1. simpl Z.of_nat in Hg, Hc1.
    cbn [length for_loop_from repeat]. rewrite Hg. cbn [bind]. cbv zeta.
    rewrite (to_int_le _ Hvi). cbn [length repeat] in Hv.
    rewrite Hv, (put_at done 0 _ v) by reflexivity. cbn [bind].
    set (S1 := if v =? TILEDB_AS_VAR_SIZE E then _ else _).
    destruct (IH (done ++ [v]) S1 (offset + 4) Hf') as (o2 & Hl & Hc2).
    { unfold S1. rewrite <- app_assoc.
      destruct (v =? TILEDB_AS_VAR_SIZE E); reflexivity. }
    { exact Hc1. }
    exists o2. split; [|exact Hc2].
    rewrite len_app, len_cons, len_nil in Hl.
    replace (len done + (1 + 0)) with (len done + 1) in Hl by lia.
    cbv zeta in Hl.
    rewrite Hl. f_equal. f_equal. unfold S1. rewrite <- app_assoc.
    cbn [fold_left app].
    destruct (v =? TILEDB_AS_VAR_SIZE E); reflexivity.
Qed.

(** The compressor codes, as [deserialize] reads them. *)
Lemma get_compressions buffer post :
  len buffer < 2 ^ 64 ->
  forall todo S offset i,
    Forall in_char todo ->
    cursor buffer offset (flat_map (fun v => le_bytes 1 (to_char v)) todo ++ post) ->
    exists offset',
      for_loop_from i (length todo)
        (fun (_ : Z) '(S, offset) =>
           '(bs, offset) <- get buffer false 1 offset ;;
           let compression := to_char (le_value bs) in
           Ok (with_compression_ (compression_ S ++ [compression]) S, offset))
        (S, offset)
      = Ok (with_compression_ (compression_ S ++ todo) S, offset') /\
      cursor buffer offset' post.
Proof.
  intros Hb todo.
  induction todo as [|v todo IH]; intros S offset i Hf Hc.
  - exists offset. simpl. rewrite app_nil_r. split; [|exact Hc].
    rewrite with_compression_same. reflexivity.
  - inversion Hf as [|? ? Hvi Hf']; subst.
    cbn [flat_map] in Hc. rewrite <- app_assoc in Hc.
    destruct (get_cursor false Hc Hb) as [Hg Hc1]; [discriminate|].
    rewrite len_le_bytes in Hg, Hc1. simpl Z.of_nat in Hg, Hc1.
    cbn [length for_loop_from]. rewrite Hg. cbn [bind]. cbv zeta.
    rewrite (to_char_le _ Hvi).
    destruct (IH (with_compression_ (compression_ S ++ [v]) S) (offset + 1) (i + 1) Hf' Hc1)
      as (o2 & Hl & Hc2).
    exists o2. split; [|exact Hc2].
    cbv zeta in Hl.
    rewrite Hl. cbn [compression_ with_compression_]. rewrite <- app_assoc. reflexivity.
Qed.
(** Reads of a member through the member updates. *)
Ltac members :=
  cbn [array_name_ attributes_ attribute_num_ capacity_ cell_num_per_tile_
       cell_order_ cell_sizes_ compression_ consolidation_step_ coords_for_hilbert_
       dense_ dim_num_ dimensions_ domain_ hilbert_bits_ hilbert_curve_ key_value_
       tile_domain_ tile_extents_ tile_order_ tile_sizes_ type_sizes_ types_
       val_num_ var_attribute_num_ with_array_name_ with_attributes_
       with_attribute_num_ with_capacity_ with_cell_num_per_tile_ with_cell_order_
       with_cell_sizes_ with_compression_ with_consolidation_step_
       with_coords_for_hilbert_ with_dense_ with_dim_num_ with_dimensions_
       with_domain_ with_hilbert_bits_ with_hilbert_curve_ with_key_value_
       with_tile_domain_ with_tile_extents_ with_tile_order_ with_tile_sizes_
       with_type_sizes_ with_types_ with_val_num_ with_var_attribute_num_].

Ltac members_in H :=
  cbn [array_name_ attributes_ attribute_num_ capacity_ cell_num_per_tile_
       cell_order_ cell_sizes_ compression_ consolidation_step_ coords_for_hilbert_
       dense_ dim_num_ dimensions_ domain_ hilbert_bits_ hilbert_curve_ key_value_
       tile_domain_ tile_extents_ tile_order_ tile_sizes_ type_sizes_ types_
       val_num_ var_attribute_num_ with_array_name_ with_attributes_
       with_attribute_num_ with_capacity_ with_cell_num_per_tile_ with_cell_order_
       with_cell_sizes_ with_compression_ with_consolidation_step_
       with_coords_for_hilbert_ with_dense_ with_dim_num_ with_dimensions_
       with_domain_ with_hilbert_bits_ with_hilbert_curve_ with_key_value_
       with_tile_domain_ with_tile_extents_ with_tile_order_ with_tile_sizes_
       with_type_sizes_ with_types_ with_val_num_ with_var_attribute_num_] in H.

Lemma resize_nil {A : Type} n (d : A) :
  0 <= n -> resize [] n d = Ok (repeat d (Z.to_nat n)).
Proof.
  intros Hn. unfold resize. destruct (Z.ltb_spec n 0); [lia|].
  rewrite firstn_nil, Nat.sub_0_r. reflexivity.
Qed.

Lemma layout_bound E S :
  prefinal E S -> typed S -> sizes_fit S -> len (layout E S) < 2 ^ 64.
Proof.
  intros P HT HF. destruct (serialize_prefinal P HT HF) as [_ H].
  unfold compute_bin_size in H.
  repeat (apply bind_Ok_inv in H as (? & _ & H)).
  inversion H as [H1]. unfold to_size_t, wrap_unsigned.
  apply Z.mod_pos_bound. lia.
Qed.

Arguments layout_bound {E S}.
Arguments get_strings {buffer post}.
Arguments get_types {E buffer post}.
Arguments get_val_nums E {buffer post}.
Arguments get_compressions {buffer post}.

(** One read of a scalar: the cursor [Hc] moves past it. *)
Ltac get_step Hc Hb strict :=
  let Hg := fresh "Hg" in
  let Hc' := fresh "Hc" in
  destruct (get_cursor strict Hc Hb) as [Hg Hc']; [intros _; len_all; lia|];
  rewrite ?len_le_bytes, ?len_bytes_of_bool in Hg, Hc';
  simpl Z.of_nat in Hg, Hc';
  rewrite Hg; cbn [bind]; clear Hg Hc; rename Hc' into Hc.

Lemma deserialize_prefinal E S :
  Env_ok E -> prefinal E S -> typed S -> sizes_fit S ->
  deserialize E (layout E S) ArraySchema_new
  = finalize E (with_var_attribute_num_ (count_var E (val_num_ S)) S).
Proof.
  intros HE P HT HF.
  pose proof (layout_bound P HT HF) as Hb.
  destruct (layout_prefinal P HT HF)
    as (names & ts & ct & d & Hattr & Hnames & Hty & Hts & Hct & Htsz & Hd & Hdl
        & He & Hcs & Hlay).
  assert (Hc : cursor (layout E S) 0 (layout E S)) by apply cursor_start.
  rewrite Hlay in Hc at 2.
  remember (layout E S) as buffer eqn:Hbuf. clear Hbuf Hlay.
  destruct P as [Hn _ Hdn Hdims _ Hvn (Hcl & Hcc) (Hto & Hco) Hcell Hfresh].
  destruct HT as (Han & Hdni & Hcsi & Hcap & Hvi).
  destruct HF as (Hname & Hfa & Hfd & Hdim).
  pose proof (sizeof_bounds ct) as Hsz. unfold INT_MAX in Hdim.
  assert (Hfn : Forall (fun s => size s <= INT_MAX) names).
  { rewrite Hattr in Hfa. apply Forall_app in Hfa. tauto. }
  pose proof (len_flat_map_strings _ Hfn) as HA.
  pose proof (len_flat_map_strings _ Hfd) as HD.
  pose proof (len_nonneg (blob (tile_extents_ S))) as HX0.
  pose proof (len_nonneg d) as Hd0.
  unfold deserialize. cbv zeta.
  (* array_name_ *)
  destruct (get_string_cursor Hc Hb Hname) as (o1 & Hg1 & Hc1);
    [len_all; lia|].
  rewrite Hg1. cbn [bind]. clear Hg1 Hc.
  get_step Hc1 Hb true.
  get_step Hc1 Hb true.
  get_step Hc1 Hb true.
  get_step Hc1 Hb true.
  get_step Hc1 Hb true.
  get_step Hc1 Hb true.
  get_step Hc1 Hb true.
  members.
  rewrite !(to_int_le _ Han), (to_int_le _ Hcsi), (to_int64_le _ Hcap),
    (to_char_le _ Hto), (to_char_le _ Hco), !bool_of_bytes_of_bool.
  (* attributes_ *)
  change (attributes_ ArraySchema_new) with (@nil string).
  rewrite resize_nil by lia. cbn [bind].
  unfold for_loop at 1.
  replace (Z.to_nat (attribute_num_ S)) with (length names)
    by (unfold len in Hnames; lia).
  match type of Hc1 with
  | cursor _ _ (_ ++ ?post) => assert (Hp : 0 < len post) by (len_all; lia)
  end.
  destruct (get_strings Hb Hp names [] _ 0 Hfn Hc1) as (o2 & Hl & Hc2).
  cbn [app] in Hl. rewrite Hl. cbn [bind]. clear Hl Hc1 Hp.
  (* dimensions_ *)
  get_step Hc2 Hb true.
  rewrite !(to_int_le _ Hdni).
  change (dimensions_ ArraySchema_new) with (@nil string).
  rewrite resize_nil by lia. cbn [bind].
  unfold for_loop at 1.
  replace (Z.to_nat (dim_num_ S)) with (length (dimensions_ S))
    by (unfold len in Hdims; lia).
  match type of Hc2 with
  | cursor _ _ (_ ++ ?post) => assert (Hp : 0 < len post) by (len_all; lia)
  end.
  destruct (get_strings Hb Hp (dimensions_ S) [] _ 0 Hfd Hc2) as (o3 & Hl & Hc3).
  cbn [app] in Hl. rewrite Hl. cbn [bind]. clear Hl Hc2 Hp.
  (* domain_ *)
  assert (Hc1 : in_int (dim_num_ S * sizeof ct)) by (unfold in_int, in_range; nia).
  assert (Hc2 : in_int (2 * (dim_num_ S * sizeof ct))) by (unfold in_int, in_range; nia).
  get_step Hc3 Hb true.
  rewrite (to_int_le _ Hc2).
  destruct (get_cursor true Hc3 Hb) as [Hg Hc4]; [intros _; len_all; lia|].
  rewrite Hdl in Hg, Hc4. rewrite Hg. cbn [bind]. clear Hg Hc3.
  (* tile_extents_ *)
  get_step Hc4 Hb true.
  match goal with
  | |- bind (if _ then Ok (with_tile_extents_ None ?Sp, _) else _) _ = _ =>
      set (Spre := Sp)
  end.
  match goal with
  | |- bind ?m _ = _ =>
      assert (Hif : exists o4,
                 m = Ok (with_tile_extents_ (tile_extents_ S) Spre, o4) /\
                 cursor buffer o4
                   (flat_map (layout_type E) (map Some (ts ++ [ct])) ++
                    flat_map (le_bytes 4) (val_num_ S) ++
                    flat_map (fun v => le_bytes 1 (to_char v)) (compression_ S)))
  end.
  { destruct He as [He|(e & He & Hel)]; rewrite He in *; cbn [blob app] in Hc4.
    - eexists. split; [|exact Hc4]. reflexivity.
    - rewrite (to_int_le _ Hc1).
      destruct (Z.eqb_spec (dim_num_ S * sizeof ct) 0) as [H0|_]; [nia|].
      destruct (get_cursor true Hc4 Hb) as [Hg Hc5]; [intros _; len_all; lia|].
      rewrite Hel in Hg, Hc5. rewrite Hg. cbn [bind].
      eexists. split; [reflexivity|exact Hc5]. }
  destruct Hif as (o4 & Hif & Hc5). rewrite Hif. cbn [bind]. clear Hif Hc4.
  (* types_ *)
  unfold Spre. members.
  change (types_ ArraySchema_new) with (@nil (option Datatype)).
  change (type_sizes_ ArraySchema_new) with (@nil Z).
  rewrite !resize_nil by lia. cbn [bind].
  unfold for_loop at 1.
  replace (Z.to_nat (attribute_num_ S + 1)) with (length (ts ++ [ct]))
    by (rewrite length_app; unfold len in Hts; simpl; lia).
  match type of Hc5 with
  | cursor _ _ (_ ++ ?post) => assert (Hp : 0 < len post) by (len_all; lia)
  end.
  destruct (get_types HE Hb Hp (ts ++ [ct]) [] _ Hc5) as (o5 & Hl & Hc6).
  cbn [app map] in Hl. cbv zeta in Hl. change (len (@nil Datatype)) with 0 in Hl.
  rewrite Hl. cbn [bind]. clear Hl Hc5 Hp.
  (* val_num_ *)
  members.
  change (val_num_ ArraySchema_new) with (@nil Z).
  rewrite resize_nil by lia. cbn [bind].
  unfold for_loop at 1.
  replace (Z.to_nat (attribute_num_ S)) with (length (val_num_ S))
    by (unfold len in Hvn; lia).
  match type of Hc6 with
  | cursor _ _ (_ ++ ?post) => assert (Hp : 0 < len post) by (len_all; lia)
  end.
  match goal with
  | |- bind (for_loop_from _ _ _ (?S0, _)) _ = _ =>
      destruct (get_val_nums E Hb Hp (val_num_ S) [] S0 _ Hvi eq_refl Hc6)
        as (o6 & Hl & Hc7)
  end.
  cbn [app] in Hl. cbv zeta in Hl. change (len (@nil Z)) with 0 in Hl.
  members_in Hl.
  rewrite Hl. cbn [bind]. clear Hl Hc6 Hp.
  (* compression_ *)
  members.
  unfold for_loop at 1.
  replace (Z.to_nat (attribute_num_ S + 1)) with (length (compression_ S))
    by (unfold len in Hcl; lia).
  rewrite <- (app_nil_r (flat_map _ (compression_ S))) in Hc7.
  match goal with
  | |- bind (for_loop_from _ _ _ (?S0, _)) _ = _ =>
      destruct (get_compressions Hb (compression_ S) S0 _ 0 Hcc Hc7)
        as (o7 & Hl & Hc8)
  end.
  cbv zeta in Hl. members_in Hl. rewrite Hl. cbn [bind]. clear Hl Hc7.
  destruct Hc8 as (_ & Hend & _). rewrite len_nil, Z.add_0_r in Hend.
  rewrite Hend, Z.eqb_refl. cbn [assert bind].
  members.
  match goal with
  | |- bind (fill _ (compute_cell_size E ?Sd)) _ = _ =>
      assert (HSd : Sd = with_cell_sizes_ []
                           (with_var_attribute_num_ (count_var E (val_num_ S)) S))
  end.
  { destruct Hfresh as (F1 & F2 & F3 & F4 & F5 & F6).
    fold (count_var E (val_num_ S)).
    rewrite <- Hattr, <- Hty, <- Htsz, <- Hd.
    generalize (count_var E (val_num_ S)). intros k.
    clear - F1 F2 F3 F4 F5 F6.
    destruct S; simpl in *; subst; reflexivity. }
  rewrite HSd.
  change (compute_cell_size E
            (with_cell_sizes_ []
               (with_var_attribute_num_ (count_var E (val_num_ S)) S)))
    with (compute_cell_size E S).
  rewrite Hcell. cbn [bind].
  f_equal; destruct S; reflexivity.
Qed.

Arguments deserialize_prefinal {E S}.
(* ================================================================= *)
(** ** What [init] builds *)

Lemma firstn_succ_nth {A : Type} (l : list A) i a :
  nth_error l i = Some a -> firstn (Datatypes.S i) l = firstn i l ++ [a].
Proof.
  revert l. induction i as [|i IH]; intros [|b l] H; simpl in *; try discriminate.
  - inversion H; reflexivity.
  - f_equal. apply IH, H.
Qed.

(** A loop that appends [l[i]] to a member at turn [i]. *)
Lemma collect_loop {A : Type} (l : list A) (get : ArraySchema -> list A)
      (set : list A -> ArraySchema -> ArraySchema) n S S' :
  (forall v s, get (set v s) = v) ->
  (forall v w s, set v (set w s) = set v s) ->
  (forall s, set (get s) s = s) ->
  for_loop n (fun i s => a <- at_ l i ;; Ok (set (get s ++ [a]) s)) S = Ok S' ->
  exists names,
    S' = set (get S ++ names) S /\ length names = Z.to_nat n /\
    names = firstn (Z.to_nat n) l.
Proof.
  intros Hgs Hss Hid H.
  apply (for_loop_inv
           (fun i s => s = set (get S ++ firstn (Z.to_nat i) l) S /\
                       length (firstn (Z.to_nat i) l) = Z.to_nat i)) in H.
  - rewrite Nat2Z.id in H. destruct H as [H1 H2]. eauto.
  - intros j s s' Hj [Hs Hl] Hb.
    apply bind_Ok_inv in Hb as (a & Ha & Hb). inversion Hb; subst s'; clear Hb.
    apply at_Ok_inv in Ha as [_ Ha]. cbv beta.
    replace (Z.to_nat (j + 1)) with (Datatypes.S (Z.to_nat j)) by lia.
    rewrite (firstn_succ_nth _ _ _ Ha). split.
    + rewrite Hs at 2. rewrite Hs at 1. rewrite Hgs, Hss, app_assoc. reflexivity.
    + rewrite length_app, Hl. simpl. lia.
  - simpl. rewrite app_nil_r, Hid. auto.
Qed.

Lemma set_attributes_shape E attributes attribute_num S S' :
  set_attributes E attributes attribute_num S = Ok S' ->
  0 < attribute_num /\
  exists names,
    S' = with_attributes_ (attributes_ S ++ names ++ [TILEDB_COORDS_NAME E])
           (with_attribute_num_ attribute_num S) /\
    len names = attribute_num.
Proof.
  unfold set_attributes. intros H.
  destruct attributes as [l|]; [|discriminate].
  destruct (Z.leb_spec attribute_num 0); [discriminate|].
  apply bind_Ok_inv in H as (S1 & H1 & H).
  destruct (has_duplicates E _); [discriminate|].
  destruct (intersect E _ _); [discriminate|].
  inversion H; subst S'; clear H.
  apply (collect_loop l attributes_ with_attributes_) in H1;
    [| reflexivity | reflexivity | apply with_attributes_same ].
  destruct H1 as (names & -> & Hlen & _).
  split; [assumption|]. exists names. split.
  - members. rewrite <- app_assoc. reflexivity.
  - unfold len. lia.
Qed.

Lemma set_dimensions_shape E dimensions dim_num S S' :
  set_dimensions E dimensions dim_num S = Ok S' ->
  0 < dim_num /\
  exists names,
    S' = with_dim_num_ dim_num (with_dimensions_ (dimensions_ S ++ names) S) /\
    len names = dim_num.
Proof.
  unfold set_dimensions. intros H.
  destruct dimensions as [l|]; [|discriminate].
  destruct (Z.leb_spec dim_num 0); [discriminate|].
  apply bind_Ok_inv in H as (S1 & H1 & H).
  destruct (has_duplicates E _); [discriminate|].
  destruct (intersect E _ _); [discriminate|].
  inversion H; subst S'; clear H.
  apply (collect_loop l dimensions_ with_dimensions_) in H1;
    [| reflexivity | reflexivity | apply with_dimensions_same ].
  destruct H1 as (names & -> & Hlen & _).
  split; [assumption|]. exists names. split; [reflexivity|].
  unfold len. lia.
Qed.

Lemma set_compression_shape E compression S S' :
  0 <= attribute_num_ S ->
  set_compression E compression S = Ok S' ->
  exists cs,
    S' = with_compression_ (compression_ S ++ cs) S /\
    len cs = attribute_num_ S + 1 /\
    Forall (fun v => v = TILEDB_AS_CMP_NONE E \/ v = TILEDB_AS_CMP_GZIP E) cs.
Proof.
  intros Hn H.
  set (P := fun (i : Z) (s : ArraySchema) =>
              exists cs,
                s = with_compression_ (compression_ S ++ cs) S /\
                len cs = i /\
                Forall (fun v => v = TILEDB_AS_CMP_NONE E \/
                                 v = TILEDB_AS_CMP_GZIP E) cs).
  assert (Hpush : forall j s v,
             P j s -> (v = TILEDB_AS_CMP_NONE E \/ v = TILEDB_AS_CMP_GZIP E) ->
             P (j + 1) (with_compression_ (compression_ s ++ [v]) s)).
  { intros j s v (cs & -> & Hl & Hf) Hv. exists (cs ++ [v]). split; [|split].
    - members. rewrite app_assoc. reflexivity.
    - rewrite len_app, len_cons, len_nil. lia.
    - apply Forall_app. auto. }
  assert (HP0 : P 0 S).
  { exists []. rewrite app_nil_r, with_compression_same. auto. }
  assert (HP : P (Z.of_nat (Z.to_nat (attribute_num_ S + 1))) S').
  { unfold set_compression in H. destruct compression as [l|].
    - revert H. apply for_loop_inv; [|exact HP0].
      intros j s s' _ Hs Hb.
      apply bind_Ok_inv in Hb as (c & _ & Hb).
      destruct (String.eqb c "NONE").
      { inversion Hb; subst. apply Hpush; auto. }
      destruct (String.eqb c "GZIP"); [|discriminate].
      inversion Hb; subst. apply Hpush; auto.
    - revert H. apply for_loop_inv; [|exact HP0].
      intros j s s' _ Hs Hb. inversion Hb; subst. apply Hpush; auto. }
  rewrite Z2Nat.id in HP by lia. exact HP.
Qed.
Lemma with_var_attribute_num_same S :
  with_var_attribute_num_ (var_attribute_num_ S) S = S.
Proof. destruct S; reflexivity. Qed.

(** One turn of the attribute loop of [set_types] adds a type and a value
    count, and counts the attribute when its token says [var]. *)
Lemma set_types_attribute_shape E types j S S' :
  Env_ok E ->
  set_types_attribute E types j S = Ok S' ->
  exists tv t v,
    at_ types j = Ok tv /\
    S' = with_types_ (types_ S ++ [Some t])
           (with_val_num_ (val_num_ S ++ [v])
              (with_var_attribute_num_
                 (if declares_var tv
                  then to_int (var_attribute_num_ S + 1)
                  else var_attribute_num_ S) S)) /\
    (declares_var tv = true -> v = TILEDB_AS_VAR_SIZE E).
Proof.
  intros _ H.
  unfold set_types_attribute in H.
  apply bind_Ok_inv in H as (tv & Htv & H).
  exists tv. unfold declares_var.
  destruct (strtok_all tv) as [|type rest]; [discriminate|].
  apply bind_Ok_inv in H as (S1 & H1 & H).
  destruct (type_of_name type) as [t|]; [|discriminate].
  inversion H; subst S'; clear H. exists t.
  destruct rest as [|token rest'].
  - inversion H1; subst S1. exists 1. split; [exact Htv|].
    split; [|discriminate].
    rewrite with_var_attribute_num_same. reflexivity.
  - apply bind_Ok_inv in H1 as (S2 & H2 & H1).
    destruct rest'; [|discriminate]. inversion H1; subst S2; clear H1.
    destruct (String.eqb token "var").
    + inversion H2; subst S1. exists (TILEDB_AS_VAR_SIZE E).
      split; [exact Htv|]. split; reflexivity.
    + destruct (is_positive_integer E token) eqn:Hpos; [|discriminate].
      cbn [negb] in H2.
      apply bind_Ok_inv in H2 as (num & Hnum & H2). inversion H2; subst S1.
      exists num. split; [exact Htv|]. split; [|discriminate].
      rewrite with_var_attribute_num_same. reflexivity.
Qed.

Lemma set_types_loop_shape E types n S S' :
  Env_ok E ->
  for_loop n (set_types_attribute E types) S = Ok S' ->
  exists ts vs,
    S' = with_types_ (types_ S ++ map Some ts)
           (with_val_num_ (val_num_ S ++ vs)
              (with_var_attribute_num_
                 (fold_left
                    (fun k t => if declares_var t then to_int (k + 1) else k)
                    (firstn (Z.to_nat n) types) (var_attribute_num_ S)) S)) /\
    length ts = Z.to_nat n /\ length vs = Z.to_nat n /\
    Forall2 (fun t v => declares_var t = true -> v = TILEDB_AS_VAR_SIZE E)
            (firstn (Z.to_nat n) types) vs.
Proof.
  intros HE H.
  apply (for_loop_inv
           (fun i s =>
              exists ts vs,
                s = with_types_ (types_ S ++ map Some ts)
                      (with_val_num_ (val_num_ S ++ vs)
                         (with_var_attribute_num_
                            (fold_left
                               (fun k t =>
                                  if declares_var t then to_int (k + 1) else k)
                               (firstn (Z.to_nat i) types)
                               (var_attribute_num_ S)) S)) /\
                length ts = Z.to_nat i /\ length vs = Z.to_nat i /\
                Forall2 (fun t v => declares_var t = true ->
                                    v = TILEDB_AS_VAR_SIZE E)
                        (firstn (Z.to_nat i) types) vs)) in H.
  - rewrite Nat2Z.id in H. exact H.
  - intros j s s' Hj (ts & vs & -> & Hts & Hvs & Hlink) Hb.
    apply (set_types_attribute_shape _ _ _ _ _ HE) in Hb
      as (tv & t & v & Htv & -> & Hv).
    apply at_Ok_inv in Htv as [_ Htv].
    replace (Z.to_nat (j + 1)) with (Datatypes.S (Z.to_nat j)) by lia.
    rewrite (firstn_succ_nth _ _ _ Htv).
    exists (ts ++ [t]), (vs ++ [v]). split; [|split; [|split]].
    + members. rewrite map_app, fold_left_app, !app_assoc. reflexivity.
    + rewrite length_app. simpl. lia.
    + rewrite length_app. simpl. lia.
    + apply Forall2_app; [exact Hlink|]. constructor; [exact Hv|constructor].
  - exists [], []. simpl. rewrite !app_nil_r. split; [|auto].
    destruct S; reflexivity.
Qed.

Lemma fill_from_map {A B : Type} (l : list A) (f : Z -> res B) (g : A -> B) :
  (forall j a, nth_error l j = Some a -> f (Z.of_nat j) = Ok (g a)) ->
  forall k i,
    (i + k <= length l)%nat ->
    fill_from (Z.of_nat i) k f = Ok (map g (firstn k (skipn i l))).
Proof.
  intros Hf k. induction k as [|k IH]; intros i Hk.
  - reflexivity.
  - destruct (nth_error l i) as [a|] eqn:Ha.
    2:{ apply nth_error_None in Ha. lia. }
    rewrite (skipn_nth_error _ _ _ Ha).
    cbn [fill_from firstn map]. rewrite (Hf _ _ Ha). cbn [bind].
    replace (Z.of_nat i + 1) with (Z.of_nat (Datatypes.S i)) by lia.
    rewrite IH by lia. reflexivity.
Qed.

Lemma fill_map {A B : Type} (l : list A) (f : Z -> res B) (g : A -> B) n :
  (forall j a, nth_error l j = Some a -> f (Z.of_nat j) = Ok (g a)) ->
  n = len l ->
  fill n f = Ok (map g l).
Proof.
  intros Hf ->. unfold fill, len. rewrite Nat2Z.id.
  change 0 with (Z.of_nat 0).
  rewrite (fill_from_map l f g Hf (length l) 0) by lia.
  simpl skipn. rewrite firstn_all. reflexivity.
Qed.

Lemma compute_type_size_types S tl :
  types_ S = map Some tl -> len tl = attribute_num_ S + 1 ->
  fill (attribute_num_ S + 1) (compute_type_size S) = Ok (map sizeof tl).
Proof.
  intros Hty Hlen. apply fill_map; [|congruence].
  intros j a Hj. unfold compute_type_size.
  assert (Hr : (j < length tl)%nat) by (apply nth_error_Some; congruence).
  replace ((0 <=? Z.of_nat j) && (Z.of_nat j <=? attribute_num_ S)) with true
    by (symmetry; apply andb_true_iff; split; apply Z.leb_le; unfold len in Hlen; lia).
  cbn [assert bind]. rewrite Hty.
  rewrite (at_nth (map Some tl) j (Some a)) by (rewrite nth_error_map, Hj; reflexivity).
  reflexivity.
Qed.
Lemma coords_size_value E S ts ct :
  types_ S = map Some (ts ++ [ct]) -> len ts = attribute_num_ S ->
  0 < attribute_num_ S -> ct <> T_char ->
  fill (attribute_num_ S + 1) (compute_cell_size E S) = Ok (cell_sizes_ S) ->
  coords_size S = Ok (to_size_t (dim_num_ S * sizeof ct)).
Proof.
  intros Hty Hts Hn Hct Hcs. unfold coords_size.
  assert (H0 : 0 <= attribute_num_ S + 1) by lia.
  destruct (fill_spec _ _ _ H0 Hcs) as [Hlen Hat].
  assert (H1 : 0 <= attribute_num_ S < len (cell_sizes_ S)) by lia.
  destruct (at_in_range (cell_sizes_ S) (attribute_num_ S) H1) as (c & Hc).
  rewrite Hc. f_equal. apply Hat in Hc. revert Hc.
  unfold compute_cell_size.
  replace ((0 <=? attribute_num_ S) && (attribute_num_ S <=? attribute_num_ S))
    with true by (symmetry; apply andb_true_iff; split; apply Z.leb_le; lia).
  rewrite Z.ltb_irrefl. cbn [assert bind].
  rewrite Hty, map_app, <- Hts.
  replace (len ts) with (len (map Some ts)) by apply len_map.
  cbn [map]. rewrite at_app_last. cbn [bind].
  destruct ct; try congruence; intros Hc; inversion Hc; reflexivity.
Qed.

Lemma memcpy_from_length src n bs : memcpy_from src n = Ok bs -> len bs = n.
Proof.
  unfold memcpy_from. destruct (Z.ltb_spec n 0); [discriminate|].
  destruct (Z.ltb_spec (len src) n); [discriminate|].
  intros H1; inversion H1; subst. unfold len in *. rewrite length_firstn. lia.
Qed.

Lemma set_capacity_shape E capacity S :
  set_capacity E capacity S
  = with_capacity_ (capacity_ (set_capacity E capacity S)) S.
Proof. unfold set_capacity. destruct (0 <? capacity); reflexivity. Qed.

Lemma set_consolidation_step_shape E step S :
  set_consolidation_step E step S
  = with_consolidation_step_
      (consolidation_step_ (set_consolidation_step E step S)) S.
Proof. unfold set_consolidation_step. destruct (0 <? step); reflexivity. Qed.

Lemma set_tile_extents_value tile_extents S S' :
  set_tile_extents tile_extents S = Ok S' ->
  tile_extents_ S' = None \/
  exists e c, tile_extents_ S' = Some e /\ coords_size S = Ok c /\ len e = c.
Proof.
  unfold set_tile_extents. intros H. destruct tile_extents as [bs|].
  - apply bind_Ok_inv in H as (c & Hc & H).
    apply bind_Ok_inv in H as (b & Hb & H). inversion H; subst.
    right. exists b, c. repeat split; auto. eapply memcpy_from_length; eauto.
  - destruct (dense_ S); inversion H; subst. left. reflexivity.
Qed.

Lemma set_domain_value domain S S' :
  set_domain domain S = Ok S' ->
  exists d c,
    domain_ S' = Some d /\ coords_size S = Ok c /\ len d = to_size_t (2 * c).
Proof.
  unfold set_domain. intros H. destruct domain as [dom|]; [|discriminate].
  apply bind_Ok_inv in H as (c & Hc & H).
  apply bind_Ok_inv in H as (bs & Hbs & H).
  apply bind_Ok_inv in H as (t & _ & H).
  exists bs, c.
  assert (HS : S' = with_domain_ (Some bs) S).
  { destruct t as [[| | | |]|]; try discriminate;
      apply check_domain_shape in H; exact H. }
  subst S'. repeat split; auto. eapply memcpy_from_length; eauto.
Qed.

Lemma set_cell_order_value E cell_order S S' :
  Env_ok E -> set_cell_order E cell_order S = Ok S' -> in_char (cell_order_ S').
Proof.
  intros HE. destruct (cell_orders_char HE) as (Hr & Hc & Hh & Hd).
  unfold set_cell_order. intros H.
  destruct cell_order as [o|]; [|inversion H; subst; exact Hd].
  destruct (String.eqb o "row-major"); [inversion H; subst; exact Hr|].
  destruct (String.eqb o "column-major"); [inversion H; subst; exact Hc|].
  destruct (String.eqb o "hilbert"); [|discriminate].
  destruct (tile_extents_ S); inversion H; subst; exact Hh.
Qed.

Lemma set_tile_order_value E tile_order S S' :
  Env_ok E -> set_tile_order E tile_order S = Ok S' -> in_char (tile_order_ S').
Proof.
  intros HE. destruct (tile_orders_char HE) as (Hr & Hc & Hh & Hd).
  unfold set_tile_order. intros H.
  destruct tile_order as [o|]; [|inversion H; subst; exact Hd].
  destruct (String.eqb o "row-major"); [inversion H; subst; exact Hr|].
  destruct (String.eqb o "column-major"); [inversion H; subst; exact Hc|].
  destruct (String.eqb o "hilbert"); [|discriminate].
  destruct (tile_extents_ S); inversion H; subst; exact Hh.
Qed.

(** What [set_types] leaves in an object that had no types yet. *)
Lemma set_types_shape E types S S' :
  Env_ok E -> 0 < attribute_num_ S -> types_ S = [] -> val_num_ S = [] ->
  set_types E types S = Ok S' ->
  exists ts vs ct dn dims kv cs va,
    S' = with_cell_sizes_ cs
           (with_type_sizes_ (map sizeof (ts ++ [ct]))
              (with_dimensions_ dims
                 (with_key_value_ kv
                    (with_dim_num_ dn
                       (with_types_ (map Some (ts ++ [ct]))
                          (with_val_num_ vs
                             (with_var_attribute_num_ va S))))))) /\
    len ts = attribute_num_ S /\ len vs = attribute_num_ S /\ ct <> T_char /\
    ((dn = 4 /\ len dims = 4) \/ (dn = dim_num_ S /\ dims = dimensions_ S)) /\
    fill (attribute_num_ S + 1) (compute_cell_size E S') = Ok cs.
Proof.
  intros HE Hn Hty Hvn H. unfold set_types in H.
  destruct types as [l|]; [|discriminate].
  apply bind_Ok_inv in H as (S1 & H1 & H).
  apply (set_types_loop_shape _ _ _ _ _ HE) in H1 as (ts & vs & HS1 & Hts & Hvs & _).
  members_in Hts. members_in Hvs.
  revert HS1. members. rewrite Hty, Hvn. cbn [app]. intros HS1.
  apply bind_Ok_inv in H as (type & _ & H).
  apply bind_Ok_inv in H as (S2 & H2 & H).
  apply bind_Ok_inv in H as (tsz & Htsz & H).
  apply bind_Ok_inv in H as (cs & Hcs & H).
  inversion H; subst S'; clear H.
  assert (exists ct dn dims kv,
             S2 = with_dimensions_ dims
                    (with_key_value_ kv
                       (with_dim_num_ dn
                          (with_types_ (map Some (ts ++ [ct])) S1))) /\
             ct <> T_char /\
             ((dn = 4 /\ len dims = 4) \/ (dn = dim_num_ S /\ dims = dimensions_ S)))
    as (ct & dn & dims & kv & HS2 & Hct & Hdn).
  { assert (Hpush : forall t, types_ S1 ++ [Some t] = map Some (ts ++ [t])).
    { intros t. rewrite HS1. members. rewrite map_app. reflexivity. }
    assert (Hd1 : dim_num_ S1 = dim_num_ S) by (rewrite HS1; reflexivity).
    assert (Hd2 : dimensions_ S1 = dimensions_ S) by (rewrite HS1; reflexivity).
    destruct (String.eqb type "char:var").
    - apply bind_Ok_inv in H2 as (dimension & _ & H2). inversion H2; subst S2.
      exists T_int, 4, (key_value_dimensions dimension), true.
      rewrite Hpush. split; [reflexivity|]. split; [discriminate|]. left. auto.
    - cbv zeta in H2. members_in H2.
      destruct (dense_ S1 && _); [discriminate|].
      destruct (String.eqb type "int32").
      { inversion H2; subst S2. exists T_int, (dim_num_ S), (dimensions_ S), false.
        rewrite Hpush, <- Hd1, <- Hd2. split; [destruct S1; reflexivity|].
        split; [discriminate|]. right. auto. }
      destruct (String.eqb type "int64").
      { inversion H2; subst S2. exists T_int64_t, (dim_num_ S), (dimensions_ S), false.
        rewrite Hpush, <- Hd1, <- Hd2. split; [destruct S1; reflexivity|].
        split; [discriminate|]. right. auto. }
      destruct (String.eqb type "float32").
      { inversion H2; subst S2. exists T_float, (dim_num_ S), (dimensions_ S), false.
        rewrite Hpush, <- Hd1, <- Hd2. split; [destruct S1; reflexivity|].
        split; [discriminate|]. right. auto. }
      destruct (String.eqb type "float64"); [|discriminate].
      inversion H2; subst S2. exists T_double, (dim_num_ S), (dimensions_ S), false.
      rewrite Hpush, <- Hd1, <- Hd2. split; [destruct S1; reflexivity|].
      split; [discriminate|]. right. auto. }
  assert (Han : attribute_num_ S2 = attribute_num_ S)
    by (rewrite HS2, HS1; reflexivity).
  rewrite Han in Htsz. members_in Hcs. rewrite Han in Hcs.
  assert (Hlen : len (ts ++ [ct]) = attribute_num_ S + 1).
  { rewrite len_app, len_cons, len_nil. unfold len. lia. }
  rewrite <- Han in Htsz, Hlen.
  rewrite (compute_type_size_types S2 (ts ++ [ct])) in Htsz;
    [| rewrite HS2; reflexivity | exact Hlen ].
  inversion Htsz; subst tsz; clear Htsz.
  eexists ts, vs, ct, dn, dims, kv, cs, _.
  split; [rewrite HS2, HS1; reflexivity|].
  split; [unfold len; lia|]. split; [unfold len; lia|].
  split; [exact Hct|]. split; [exact Hdn|].
  exact Hcs.
Qed.
(** [init] on a new object reaches the derived fields in a filled-in
    state. *)
Lemma init_prefinal E c S :
  Env_ok E -> init E c ArraySchema_new = Ok S -> typed S ->
  exists S0,
    prefinal E S0 /\ finalize E S0 = Ok S /\ typed S0 /\
    (sizes_fit S -> sizes_fit S0).
Proof.
  intros HE H HT.
  apply init_steps in H
    as (S2 & S4 & S5 & S8 & S9 & S10 & S11 & S12
        & H2 & H4 & H5 & H8 & H9 & H10 & H11 & H12 & Hfin).
  exists S12.
  pose proof (finalize_shape _ _ _ Hfin) as HS.
  assert (HT12 : typed S12) by (rewrite HS in HT; exact HT).
  assert (HF12 : sizes_fit S -> sizes_fit S12) by (rewrite HS; exact (fun x => x)).
  split; [|auto]. clear Hfin HS HF12 HT.
  (* the setters, one after the other *)
  apply set_attributes_shape in H2 as (Hn & names & HS2 & Hnames).
  unfold set_array_name in HS2.
  apply set_dimensions_shape in H4 as (Hdn & dnames & HS4 & Hdnames).
  rewrite set_capacity_shape in HS4.
  apply set_compression_shape in H5 as (cmp & HS5 & Hcmp & Hcmpv);
    [|rewrite HS4, HS2; members; lia].
  unfold set_dense in H8. rewrite set_consolidation_step_shape in H8.
  apply (set_types_shape _ _ _ _ HE) in H8
    as (ts & vs & ct & dn & dims & kv & cs & va & HS8 & Hts & Hvs & Hct & Hdims & Hcs);
    [| rewrite HS5, HS4, HS2; members; lia
     | rewrite HS5, HS4, HS2; reflexivity
     | rewrite HS5, HS4, HS2; reflexivity ].
  pose proof (set_tile_extents_value _ _ _ H9) as Hext.
  apply set_tile_extents_shape in H9.
  pose proof (set_cell_order_value _ _ _ _ HE H10) as Hco.
  apply set_cell_order_shape in H10.
  pose proof (set_tile_order_value _ _ _ _ HE H11) as Hto.
  apply set_tile_order_shape in H11.
  pose proof (set_domain_value _ _ _ H12) as (d & c12 & Hd & Hc12 & Hdl).
  apply set_domain_shape in H12.
  (* the members of the state reached *)
  assert (HS12 : S12 = with_domain_ (domain_ S12)
                         (with_tile_order_ (tile_order_ S11)
                            (with_cell_order_ (cell_order_ S10)
                               (with_tile_extents_ (tile_extents_ S9) S8)))).
  { rewrite H12 at 1. rewrite H11 at 1. rewrite H10 at 1. rewrite H9 at 1.
    reflexivity. }
  assert (Hbase : attribute_num_ S5 = C_API.attribute_num_ c /\
                  dim_num_ S5 = C_API.dim_num_ c /\
                  dimensions_ S5 = dnames /\
                  attributes_ S5 = names ++ [TILEDB_COORDS_NAME E] /\
                  compression_ S5 = cmp /\
                  cell_num_per_tile_ S5 = -1 /\ coords_for_hilbert_ S5 = None /\
                  hilbert_bits_ S5 = None /\ hilbert_curve_ S5 = None /\
                  tile_domain_ S5 = None /\ tile_sizes_ S5 = []).
  { rewrite HS5, HS4, HS2. repeat split. }
  destruct Hbase as (B1 & B2 & B3 & B4 & B5 & B6 & B7 & B8 & B9 & B10 & B11).
  members_in Hts. members_in Hvs. members_in Hdims. members_in Hcs.
  rewrite B1 in Hts, Hvs, Hcs. rewrite B2, B3 in Hdims.
  assert (Hattr_num : attribute_num_ S4 = C_API.attribute_num_ c)
    by (rewrite HS4, HS2; reflexivity).
  rewrite Hattr_num in Hcmp.
  assert (Hcs12 : fill (attribute_num_ S12 + 1) (compute_cell_size E S12)
                  = Ok (cell_sizes_ S12)).
  { rewrite HS12. rewrite HS8 at 1 3. members. rewrite B1. exact Hcs. }
  assert (Hty12 : types_ S12 = map Some (ts ++ [ct]))
    by (rewrite HS12, HS8; reflexivity).
  assert (Han12 : attribute_num_ S12 = C_API.attribute_num_ c)
    by (rewrite HS12, HS8; members; exact B1).
  assert (Hdn12 : dim_num_ S12 = dn) by (rewrite HS12, HS8; reflexivity).
  assert (Hdims12 : dimensions_ S12 = dims) by (rewrite HS12, HS8; reflexivity).
  assert (Hdnpos : 0 < dn /\ len dims = dn).
  { destruct Hdims as [[-> ->]|[-> ->]]; [lia|]. split; assumption. }
  destruct Hdnpos as [Hdnpos Hdimslen].
  assert (Hc : coords_size S12 = Ok (dn * sizeof ct)).
  { rewrite (coords_size_value E S12 ts ct Hty12) by (try assumption; rewrite Han12; assumption).
    rewrite Hdn12. f_equal. apply to_size_t_small.
    destruct HT12 as (_ & Hdi & _). rewrite Hdn12 in Hdi.
    pose proof (sizeof_bounds ct). unfold in_int, in_range in Hdi. nia. }
  assert (Hc8 : coords_size S8 = Ok (dn * sizeof ct)).
  { rewrite <- Hc. rewrite HS12. reflexivity. }
  assert (Hc11 : coords_size S11 = Ok (dn * sizeof ct)).
  { rewrite <- Hc. rewrite H12. reflexivity. }
  rewrite Hc11 in Hc12. inversion Hc12; subst c12; clear Hc12.
  rewrite to_size_t_small in Hdl.
  2:{ destruct HT12 as (_ & Hdi & _). rewrite Hdn12 in Hdi.
      pose proof (sizeof_bounds ct). unfold in_int, in_range in Hdi. nia. }
  constructor.
  - rewrite Han12. exact Hn.
  - exists names. rewrite Han12. split; [|exact Hnames].
    rewrite HS12, HS8. members. exact B4.
  - rewrite Hdn12. exact Hdnpos.
  - rewrite Hdims12, Hdn12. exact Hdimslen.
  - exists ts, ct. rewrite Han12, Hdn12.
    split; [exact Hty12|]. split; [exact Hts|]. split; [exact Hct|].
    split; [rewrite HS12, HS8; reflexivity|].
    split; [exists d; split; [exact Hd|exact Hdl]|].
    assert (Hte : tile_extents_ S12 = tile_extents_ S9) by (rewrite HS12; reflexivity).
    rewrite Hte. destruct Hext as [Hx|(e & c8 & Hx & Hcx & Hel)]; [left; exact Hx|].
    right. exists e. split; [exact Hx|]. rewrite Hc8 in Hcx. congruence.
  - rewrite Han12. rewrite HS12, HS8. members. exact Hvs.
  - rewrite Han12. rewrite HS12, HS8. members. rewrite B5.
    split; [exact Hcmp|].
    destruct (compressions_char HE) as [Hnone Hgzip].
    eapply Forall_impl; [|exact Hcmpv]. intros a [->| ->]; assumption.
  - split.
    + replace (tile_order_ S12) with (tile_order_ S11) by (rewrite HS12; reflexivity).
      exact Hto.
    + replace (cell_order_ S12) with (cell_order_ S10) by (rewrite HS12; reflexivity).
      exact Hco.
  - exact Hcs12.
  - rewrite HS12, HS8. members. repeat split; assumption.
Qed.

Arguments init_prefinal {E c S}.
(* ================================================================= *)
(** ** The round trip *)

Lemma spec_env_ok : Env_ok spec_env.
Proof.
  constructor.
  - intros []; unfold in_char, in_range; cbn; lia.
  - intros [] []; vm_compute; intros H; try reflexivity; discriminate H.
  - unfold in_char, in_range; cbn; lia.
  - unfold in_char, in_range; cbn; lia.
  - unfold in_char, in_range; cbn; lia.
  - reflexivity.
Qed.

(** What [init] leaves behind is the byte layout of the state it had
    reached before the derived fields; [deserialize] reads that state
    back, counts the variable-sized attributes anew, and computes the
    derived fields. *)
Lemma init_codec E c S :
  Env_ok E -> init E c ArraySchema_new = Ok S -> typed S -> sizes_fit S ->
  exists S0,
    finalize E S0 = Ok S /\
    prefinal E S0 /\ typed S0 /\ sizes_fit S0 /\
    serialize E S = Ok (layout E S0) /\
    compute_bin_size S = Ok (len (layout E S0)) /\
    deserialize E (layout E S0) ArraySchema_new
    = finalize E (with_var_attribute_num_ (count_var E (val_num_ S)) S0).
Proof.
  intros HE Hi HT HF.
  destruct (init_prefinal HE Hi HT) as (S0 & P & Hfin & HT0 & HF0).
  specialize (HF0 HF).
  exists S0. split; [exact Hfin|].
  split; [exact P|]. split; [exact HT0|]. split; [exact HF0|].
  destruct (serialize_prefinal P HT0 HF0) as [Hs Hb].
  pose proof (finalize_shape _ _ _ Hfin) as HS.
  split; [|split].
  - rewrite <- Hs. rewrite HS. reflexivity.
  - rewrite <- Hb. rewrite HS. reflexivity.
  - rewrite (deserialize_prefinal HE P HT0 HF0).
    replace (val_num_ S) with (val_num_ S0) by (rewrite HS; reflexivity).
    reflexivity.
Qed.


(* ================================================================= *)
(** ** Overlap classification *)

Lemma res_rel_bind {A B : Type} (R : A -> A -> Prop) (Q : B -> B -> Prop)
      (m m' : res A) (k k' : A -> res B) :
  res_rel R m m' -> (forall a a', R a a' -> res_rel Q (k a) (k' a')) ->
  res_rel Q (bind m k) (bind m' k').
Proof.
  intros Hm Hk. destruct m, m'; simpl in *; try contradiction; auto.
Qed.

Lemma res_rel_bind_same {A B : Type} (Q : B -> B -> Prop)
      (m m' : res A) (k k' : A -> res B) :
  m = m' -> (forall a, res_rel Q (k a) (k' a)) ->
  res_rel Q (bind m k) (bind m' k').
Proof.
  intros <- Hk. destruct m; simpl; auto.
Qed.

Lemma for_loop_from_rel {St : Type} (R : Z -> St -> St -> Prop)
      (body body' : Z -> St -> res St) :
  forall n i st st',
    (forall j s s', i <= j < i + Z.of_nat n -> R j s s' ->
                    res_rel (R (j + 1)) (body j s) (body' j s')) ->
    R i st st' ->
    res_rel (R (i + Z.of_nat n))
            (for_loop_from i n body st) (for_loop_from i n body' st').
Proof.
  induction n as [|n IH]; intros i st st' Hstep HR.
  - simpl. rewrite Z.add_0_r. exact HR.
  - cbn [for_loop_from].
    replace (i + Z.of_nat (Datatypes.S n)) with ((i + 1) + Z.of_nat n) by lia.
    eapply res_rel_bind.
    + apply Hstep; [lia|exact HR].
    + intros a a' Ha. apply IH; [|exact Ha].
      intros j s s' Hj. apply Hstep. lia.
Qed.

Lemma for_break_from_ext {St : Type} (body body' : Z -> St -> res (St * bool)) :
  forall n i st,
    (forall j s, i <= j < i + Z.of_nat n -> body j s = body' j s) ->
    for_break_from i n body st = for_break_from i n body' st.
Proof.
  induction n as [|n IH]; intros i st H; [reflexivity|].
  cbn [for_break_from]. rewrite H by lia.
  destruct (body' i st) as [[s b]| | |]; simpl; try reflexivity.
  destruct b; [reflexivity|]. apply IH. intros j s0 Hj. apply H. lia.
Qed.

Lemma for_break_down_ext {St : Type} (body body' : Z -> St -> res (St * bool)) :
  forall n st,
    (forall j s, 0 <= j < Z.of_nat n -> body j s = body' j s) ->
    for_break_down n body st = for_break_down n body' st.
Proof.
  induction n as [|n IH]; intros st H; [reflexivity|].
  cbn [for_break_down]. rewrite H by lia.
  destruct (body' (Z.of_nat n) st) as [[s b]| | |]; simpl; try reflexivity.
  destruct b; [reflexivity|]. apply IH. intros j s0 Hj. apply H. lia.
Qed.

(** A loop whose body either breaks with [brk] or leaves the state as it
    is: it ends with [brk], or with the state it began with after every
    turn has passed. *)
Lemma for_break_from_inv {St : Type} (P : Z -> Prop) (brk : St)
      (body : Z -> St -> res (St * bool)) :
  (forall i st st' b, body i st = Ok (st', b) ->
                      if b then st' = brk else st' = st /\ P i) ->
  forall n i st r,
    for_break_from i n body st = Ok r ->
    r = brk \/ (r = st /\ forall j, i <= j < i + Z.of_nat n -> P j).
Proof.
  intros Hbody. induction n as [|n IH]; intros i st r H.
  - inversion H; subst. right. split; [reflexivity|]. intros j Hj. lia.
  - cbn [for_break_from] in H. apply bind_Ok_inv in H as ([s b] & Hb & H).
    apply Hbody in Hb. destruct b.
    + inversion H; subst. left. reflexivity.
    + destruct Hb as [-> HP]. apply IH in H as [H|[H Hall]]; [left; exact H|].
      right. split; [exact H|]. intros j Hj.
      destruct (Z.eq_dec j i) as [->|Hne]; [exact HP|]. apply Hall. lia.
Qed.

Lemma for_break_down_inv {St : Type} (P : Z -> Prop) (brk : St)
      (body : Z -> St -> res (St * bool)) :
  (forall i st st' b, body i st = Ok (st', b) ->
                      if b then st' = brk else st' = st /\ P i) ->
  forall n st r,
    for_break_down n body st = Ok r ->
    r = brk \/ (r = st /\ forall j, 0 <= j < Z.of_nat n -> P j).
Proof.
  intros Hbody. induction n as [|n IH]; intros st r H.
  - inversion H; subst. right. split; [reflexivity|]. intros j Hj. lia.
  - cbn [for_break_down] in H. apply bind_Ok_inv in H as ([s b] & Hb & H).
    apply Hbody in Hb. destruct b.
    + inversion H; subst. left. reflexivity.
    + destruct Hb as [-> HP]. apply IH in H as [H|[H Hall]]; [left; exact H|].
      right. split; [exact H|]. intros j Hj.
      destruct (Z.eq_dec j (Z.of_nat n)) as [->|Hne]; [exact HP|]. apply Hall. lia.
Qed.

Lemma at_firstn_eq {A : Type} (l l' : list A) k j :
  firstn k l = firstn k l' -> j < Z.of_nat k -> at_ l j = at_ l' j.
Proof.
  intros H Hj. unfold at_. destruct (Z.ltb_spec j 0); [reflexivity|].
  assert (Hn : (Z.to_nat j <? k)%nat = true) by (apply Nat.ltb_lt; lia).
  pose proof (nth_error_firstn k l (Z.to_nat j)) as H1.
  pose proof (nth_error_firstn k l' (Z.to_nat j)) as H2.
  rewrite Hn in H1, H2. rewrite <- H1, <- H2, H. reflexivity.
Qed.

Lemma set_nth_Some {A : Type} (l : list A) :
  forall n v l',
    set_nth l n v = Some l' ->
    (n < length l)%nat /\ length l' = length l /\
    firstn (Datatypes.S n) l' = firstn n l ++ [v].
Proof.
  induction l as [|a l IH]; intros n v l' Hs; [discriminate Hs|].
  destruct n as [|n]; simpl in Hs.
  - inversion Hs; subst. simpl. repeat split; lia.
  - destruct (set_nth l n v) as [r|] eqn:Hr; [|discriminate Hs].
    simpl in Hs. inversion Hs; subst l'.
    destruct (IH n v r Hr) as (Hi & Hl & Hf).
    cbn [length firstn app]. rewrite <- Hf. repeat split; simpl; lia.
Qed.

Lemma put_Ok_inv {A : Type} (l : list A) i v l' :
  put_ l i v = Ok l' ->
  0 <= i < len l /\ len l' = len l /\
  firstn (Z.to_nat (i + 1)) l' = firstn (Z.to_nat i) l ++ [v].
Proof.
  unfold put_. destruct (Z.ltb_spec i 0); [discriminate|].
  destruct (set_nth l (Z.to_nat i) v) as [r|] eqn:Hs; [|discriminate].
  intros Heq; inversion Heq; subst r; clear Heq.
  apply set_nth_Some in Hs as (Hi & Hl & Hf).
  replace (Z.to_nat (i + 1)) with (Datatypes.S (Z.to_nat i)) by lia.
  unfold len. repeat split; try lia. exact Hf.
Qed.

Lemma put_in_range {A : Type} (l : list A) i v :
  0 <= i < len l -> exists l', put_ l i v = Ok l'.
Proof.
  intros Hi. unfold put_. destruct (Z.ltb_spec i 0); [lia|].
  assert (Hn : (Z.to_nat i < length l)%nat) by (unfold len in Hi; lia).
  generalize dependent (Z.to_nat i). clear. intros n.
  revert n. induction l as [|a l IH]; intros n Hn; simpl in Hn; [lia|].
  destruct n as [|n]; simpl; [eauto|].
  destruct (IH n ltac:(lia)) as (l' & Hl).
  destruct (set_nth l n v); [simpl; eauto|discriminate Hl].
Qed.

Lemma put_outside {A : Type} (l : list A) i v :
  ~ 0 <= i < len l -> put_ l i v = Undef.
Proof.
  intros Hi. destruct (put_ l i v) as [l'| | |] eqn:Hp; try reflexivity.
  - apply put_Ok_inv in Hp. tauto.
  - unfold put_ in Hp. destruct (i <? 0); [discriminate|].
    destruct (set_nth l (Z.to_nat i) v); discriminate.
  - unfold put_ in Hp. destruct (i <? 0); [discriminate|].
    destruct (set_nth l (Z.to_nat i) v); discriminate.
Qed.

(** Two writes at the same index of two arrays that agree before it. *)
Lemma put_rel {A : Type} (l l' : list A) i v :
  len l = len l' -> firstn (Z.to_nat i) l = firstn (Z.to_nat i) l' ->
  res_rel (fun a a' => len a = len a' /\
                       firstn (Z.to_nat (i + 1)) a = firstn (Z.to_nat (i + 1)) a')
          (put_ l i v) (put_ l' i v).
Proof.
  intros Hl Hf.
  destruct (Z_lt_dec i 0) as [Hneg|Hpos];
    [rewrite !put_outside by lia; exact I|].
  destruct (Z_lt_dec i (len l)) as [Hin|Hout];
    [|rewrite !put_outside by lia; exact I].
  destruct (put_in_range l i v ltac:(lia)) as (a & Ha).
  destruct (put_in_range l' i v ltac:(lia)) as (a' & Ha').
  rewrite Ha, Ha'. simpl.
  apply put_Ok_inv in Ha as (_ & H1 & H2).
  apply put_Ok_inv in Ha' as (_ & H1' & H2').
  split; [lia|]. rewrite H2, H2', Hf. reflexivity.
Qed.

Lemma differs_false T o i lo hi :
  differs T o i lo hi = Ok false ->
  exists a b, at_ o (2 * i) = Ok a /\ at_ o (2 * i + 1) = Ok b /\
              eqT T a lo = true /\ eqT T b hi = true.
Proof.
  unfold differs. intros H.
  apply bind_Ok_inv in H as (a & Ha & H).
  unfold neT in H. destruct (eqT T a lo) eqn:Ea; simpl in H; [|discriminate H].
  apply bind_Ok_inv in H as (b & Hb & H).
  inversion H as [Hb']. exists a, b. repeat split; auto.
  destruct (eqT T b hi); [reflexivity|discriminate Hb'].
Qed.

Lemma differs_ext T o o' i lo hi k :
  firstn k o = firstn k o' -> 2 * i + 1 < Z.of_nat k ->
  differs T o i lo hi = differs T o' i lo hi.
Proof.
  intros H Hi. unfold differs.
  rewrite (at_firstn_eq o o' k (2 * i) H) by lia.
  rewrite (at_firstn_eq o o' k (2 * i + 1) H) by lia.
  reflexivity.
Qed.

Lemma eqT_integral T a b :
  is_integral T = true -> eqT T a b = true -> a = b.
Proof.
  intros HT H. destruct T; try discriminate HT; simpl in H; lia.
Qed.
Lemma res_rel_impl {A : Type} (R R' : A -> A -> Prop) (m m' : res A) :
  (forall a a', R a a' -> R' a a') -> res_rel R m m' -> res_rel R' m m'.
Proof.
  intros H. destruct m, m'; simpl; auto.
Qed.

(** A loop that writes the entries [2 * i] and [2 * i + 1] of
    [overlap_range] in its turn [i] overwrites the first [2 * n] entries,
    whatever they held. *)
Lemma overlap_range_loop_rel (body : Z -> list Z -> res (list Z)) n o o' :
  (forall j s s',
      len s = len s' ->
      firstn (Z.to_nat (2 * j)) s = firstn (Z.to_nat (2 * j)) s' ->
      res_rel (fun a a' => len a = len a' /\
                           firstn (Z.to_nat (2 * j + 1 + 1)) a
                           = firstn (Z.to_nat (2 * j + 1 + 1)) a')
              (body j s) (body j s')) ->
  len o = len o' ->
  res_rel (fun a a' => len a = len a' /\
                       firstn (Z.to_nat (2 * n)) a = firstn (Z.to_nat (2 * n)) a')
    (for_loop n body o) (for_loop n body o').
Proof.
  intros Hbody Hl. unfold for_loop.
  eapply res_rel_impl;
    [|apply (for_loop_from_rel
               (fun j a a' => len a = len a' /\
                              firstn (Z.to_nat (2 * j)) a = firstn (Z.to_nat (2 * j)) a'))].
  - cbv beta. intros a a' [H1 H2]. split; [exact H1|].
    replace (Z.to_nat (2 * n)) with (Z.to_nat (2 * (0 + Z.of_nat (Z.to_nat n))))
      by lia.
    exact H2.
  - intros j s s' Hj [H1 H2]. cbv beta.
    eapply res_rel_impl; [|apply Hbody; assumption].
    cbv beta. intros b b' [Hb1 Hb2]. split; [exact Hb1|].
    replace (Z.to_nat (2 * (j + 1))) with (Z.to_nat (2 * j + 1 + 1)) by lia.
    exact Hb2.
  - split; [exact Hl|reflexivity].
Qed.

Ltac same_reads :=
  repeat (apply res_rel_bind_same; [reflexivity|]; intro).

(** [compute_mbr_range_overlap] does not depend on what [overlap_range]
    held. *)
Lemma compute_mbr_range_overlap_rel E T S range mbr o o' :
  len o = len o' ->
  same_overlap (dim_num_ S)
    (compute_mbr_range_overlap E T S range mbr o)
    (compute_mbr_range_overlap E T S range mbr o').
Proof.
  intros Hl. unfold compute_mbr_range_overlap, same_overlap.
  eapply res_rel_bind.
  - apply (overlap_range_loop_rel _ (dim_num_ S) o o'); [|exact Hl].
    intros j s s' H1 H2. cbv beta.
    same_reads.
    eapply res_rel_bind; [apply put_rel; assumption|].
    cbv beta. intros p p' [Ha1 Ha2].
    same_reads.
    apply put_rel; assumption.
  - cbv beta. intros o1 o1' [Hl1 Hf1].
    apply res_rel_bind_same.
    { apply for_break_from_ext. intros j s Hj.
      rewrite (at_firstn_eq o1 o1' _ (2 * j) Hf1) by lia.
      rewrite (at_firstn_eq o1 o1' _ (2 * j + 1) Hf1) by lia.
      reflexivity. }
    intros c2. apply res_rel_bind_same.
    { destruct (c2 =? 1); [|reflexivity].
      apply for_break_from_ext. intros j s Hj.
      destruct (at_ mbr (2 * j)); try reflexivity.
      destruct (at_ mbr (2 * j + 1)); try reflexivity. cbn [bind].
      rewrite (differs_ext T o1 o1' j _ _ _ Hf1) by lia. reflexivity. }
    intros c3. apply res_rel_bind_same.
    { destruct ((c3 =? 2) && negb (cell_order_ S =? TILEDB_AS_CO_HILBERT E));
        [|reflexivity].
      destruct (cell_order_ S =? TILEDB_AS_CO_ROW_MAJOR E).
      - apply for_break_from_ext. intros j s Hj.
        destruct (at_ mbr (2 * j)); try reflexivity.
        destruct (at_ mbr (2 * j + 1)); try reflexivity. cbn [bind].
        rewrite (differs_ext T o1 o1' j _ _ _ Hf1) by lia. reflexivity.
      - destruct (cell_order_ S =? TILEDB_AS_CO_COLUMN_MAJOR E); [|reflexivity].
        apply for_break_down_ext. intros j s Hj.
        destruct (at_ mbr (2 * j)); try reflexivity.
        destruct (at_ mbr (2 * j + 1)); try reflexivity. cbn [bind].
        rewrite (differs_ext T o1 o1' j _ _ _ Hf1) by lia. reflexivity. }
    intros c4. simpl. split; [reflexivity|exact Hf1].
Qed.

(** [compute_tile_range_overlap] does not depend on what [overlap_range]
    held. *)
Lemma compute_tile_range_overlap_rel E T S range tile_coords o o' :
  len o = len o' ->
  same_overlap (dim_num_ S)
    (compute_tile_range_overlap E T S range tile_coords o)
    (compute_tile_range_overlap E T S range tile_coords o').
Proof.
  intros Hl. unfold compute_tile_range_overlap, same_overlap.
  apply res_rel_bind_same; [reflexivity|]. intros _.
  apply res_rel_bind_same; [reflexivity|]. intros tile_range.
  eapply res_rel_bind.
  - apply (overlap_range_loop_rel _ (dim_num_ S) o o'); [|exact Hl].
    intros j s s' H1 H2. cbv beta.
    same_reads.
    eapply res_rel_bind; [apply put_rel; assumption|].
    cbv beta. intros p p' [Ha1 Ha2].
    same_reads.
    apply put_rel; assumption.
  - cbv beta. intros o1 o1' [Hl1 Hf1].
    apply res_rel_bind_same.
    { apply for_break_from_ext. intros j s Hj.
      rewrite (at_firstn_eq o1 o1' _ (2 * j) Hf1) by lia.
      rewrite (at_firstn_eq o1 o1' _ (2 * j + 1) Hf1) by lia.
      reflexivity. }
    intros c2. apply res_rel_bind_same.
    { destruct (0 <? c2); [|reflexivity].
      apply for_break_from_ext. intros j s Hj.
      destruct (at_ (cast T (tile_extents_ S)) j); try reflexivity. cbn [bind].
      rewrite (differs_ext T o1 o1' j _ _ _ Hf1) by lia. reflexivity. }
    intros c3. apply res_rel_bind_same.
    { destruct (c3 =? 2); [|reflexivity].
      destruct (cell_order_ S =? TILEDB_AS_CO_ROW_MAJOR E).
      - apply for_break_from_ext. intros j s Hj.
        destruct (at_ (cast T (tile_extents_ S)) j); try reflexivity. cbn [bind].
        rewrite (differs_ext T o1 o1' j _ _ _ Hf1) by lia. reflexivity.
      - destruct (cell_order_ S =? TILEDB_AS_CO_COLUMN_MAJOR E); [|reflexivity].
        apply for_break_down_ext. intros j s Hj.
        destruct (at_ (cast T (tile_extents_ S)) j); try reflexivity. cbn [bind].
        rewrite (differs_ext T o1 o1' j _ _ _ Hf1) by lia. reflexivity. }
    intros c4. simpl. split; [reflexivity|exact Hf1].
Qed.
Lemma at_nil {A : Type} i : at_ (@nil A) i = Undef.
Proof.
  unfold at_. destruct (i <? 0); [reflexivity|].
  destruct (Z.to_nat i); reflexivity.
Qed.

Lemma half_cases j : j = 2 * (j / 2) \/ j = 2 * (j / 2) + 1.
Proof.
  pose proof (Z.div_mod j 2 ltac:(lia)).
  pose proof (Z.mod_pos_bound j 2 ltac:(lia)). lia.
Qed.

(** The turn of the loops that reset the code to 2. *)
Ltac differs_turn :=
  let i := fresh "i" in let st := fresh "st" in let st' := fresh "st'" in
  let b := fresh "b" in let Hb := fresh "Hb" in
  intros i st st' b Hb;
  repeat (let x := fresh "x" in let Hx := fresh "Hx" in
          apply bind_Ok_inv in Hb as (x & Hx & Hb));
  match type of Hb with
  | (if ?d then _ else _) = _ =>
      destruct d; inversion Hb; subst; [reflexivity|]
  end.

(** What the code returned by [compute_mbr_range_overlap] tells. *)
Lemma compute_mbr_range_overlap_codes E T S range mbr o r c :
  compute_mbr_range_overlap E T S range mbr o = Ok (r, c) ->
  (c = 1 ->
   forall i, 0 <= i < dim_num_ S ->
     exists m0 m1 a b,
       at_ mbr (2 * i) = Ok m0 /\ at_ mbr (2 * i + 1) = Ok m1 /\
       at_ r (2 * i) = Ok a /\ at_ r (2 * i + 1) = Ok b /\
       eqT T a m0 = true /\ eqT T b m1 = true) /\
  (c = 3 -> cell_order_ S <> TILEDB_AS_CO_HILBERT E).
Proof.
  unfold compute_mbr_range_overlap. intros H.
  apply bind_Ok_inv in H as (o1 & _ & H).
  apply bind_Ok_inv in H as (c2 & H2 & H).
  apply bind_Ok_inv in H as (c3 & H3 & H).
  apply bind_Ok_inv in H as (c4 & H4 & H).
  inversion H; subst r c4; clear H.
  (* the overlap test *)
  apply (for_break_from_inv (fun _ => True) 0) in H2.
  2:{ intros i st st' b Hb.
      apply bind_Ok_inv in Hb as (x0 & _ & Hb).
      apply bind_Ok_inv in Hb as (x1 & _ & Hb).
      destruct (gtT T x0 x1); [inversion Hb; reflexivity|].
      apply bind_Ok_inv in Hb as (x2 & _ & Hb).
      apply bind_Ok_inv in Hb as (x3 & _ & Hb).
      destruct (ltT T x2 x3); inversion Hb; subst; auto. }
  (* the loops that reset the code to 2 after 3 *)
  assert (H4' : (c3 =? 2) && negb (cell_order_ S =? TILEDB_AS_CO_HILBERT E) = true ->
                c = 2 \/ c = 3).
  { intros Hg. rewrite Hg in H4.
    destruct (cell_order_ S =? TILEDB_AS_CO_ROW_MAJOR E).
    - apply (for_break_from_inv (fun _ => True) 2) in H4; [tauto|].
      differs_turn. auto.
    - destruct (cell_order_ S =? TILEDB_AS_CO_COLUMN_MAJOR E).
      + apply (for_break_down_inv (fun _ => True) 2) in H4; [tauto|].
        differs_turn. auto.
      + inversion H4; subst; auto. }
  assert (H3' : c3 = 0 \/ c3 = 2 \/
                (c3 = 1 /\
                 forall i, 0 <= i < dim_num_ S ->
                   exists m0 m1 a b,
                     at_ mbr (2 * i) = Ok m0 /\ at_ mbr (2 * i + 1) = Ok m1 /\
                     at_ o1 (2 * i) = Ok a /\ at_ o1 (2 * i + 1) = Ok b /\
                     eqT T a m0 = true /\ eqT T b m1 = true)).
  { destruct H2 as [-> | [-> _]].
    - simpl in H3. left. congruence.
    - simpl in H3.
      apply (for_break_from_inv
               (fun i => exists m0 m1 a b,
                    at_ mbr (2 * i) = Ok m0 /\ at_ mbr (2 * i + 1) = Ok m1 /\
                    at_ o1 (2 * i) = Ok a /\ at_ o1 (2 * i + 1) = Ok b /\
                    eqT T a m0 = true /\ eqT T b m1 = true) 2) in H3.
      + destruct H3 as [->|[-> Hall]]; [auto|].
        right. right. split; [reflexivity|]. intros i Hi. apply Hall. lia.
      + intros i st st' b Hb.
        apply bind_Ok_inv in Hb as (m0 & Hm0 & Hb).
        apply bind_Ok_inv in Hb as (m1 & Hm1 & Hb).
        apply bind_Ok_inv in Hb as (d & Hd & Hb).
        destruct d; inversion Hb; subst; [reflexivity|].
        split; [reflexivity|].
        apply differs_false in Hd as (a & b0 & Ha & Hb0 & Ea & Eb).
        exists m0, m1, a, b0. repeat split; assumption. }
  destruct ((c3 =? 2) && negb (cell_order_ S =? TILEDB_AS_CO_HILBERT E)) eqn:Hg.
  - specialize (H4' eq_refl). split.
    + intros ->. lia.
    + intros _ Hh. apply andb_true_iff in Hg as [_ Hg].
      rewrite Hh, Z.eqb_refl in Hg. discriminate Hg.
  - inversion H4; subst c. split.
    + intros ->. destruct H3' as [H|[H|[_ H]]]; [lia|lia|exact H].
    + intros ->. destruct H3' as [H|[H|[H _]]]; lia.
Qed.

(** What the code returned by [compute_tile_range_overlap] tells. *)
Lemma compute_tile_range_overlap_codes E T S range tile_coords o r c :
  compute_tile_range_overlap E T S range tile_coords o = Ok (r, c) ->
  (c = 1 ->
   forall i, 0 <= i < dim_num_ S ->
     exists e a b,
       at_ (cast T (tile_extents_ S)) i = Ok e /\
       at_ r (2 * i) = Ok a /\ at_ r (2 * i + 1) = Ok b /\
       eqT T a (litT E T 0) = true /\
       eqT T b (subT E T e (litT E T 1)) = true) /\
  (c = 3 -> tile_extents_ S <> None).
Proof.
  unfold compute_tile_range_overlap. intros H.
  apply bind_Ok_inv in H as (u & _ & H).
  apply bind_Ok_inv in H as (tile_range & _ & H).
  apply bind_Ok_inv in H as (o1 & _ & H).
  apply bind_Ok_inv in H as (c2 & H2 & H).
  apply bind_Ok_inv in H as (c3 & H3 & H).
  apply bind_Ok_inv in H as (c4 & H4 & H).
  inversion H; subst r c4; clear H.
  assert (Hnone : tile_extents_ S = None -> c2 = 1 /\ dim_num_ S <= 0).
  { intros Hx. rewrite Hx in H2. cbn [cast] in H2.
    destruct (Z.to_nat (dim_num_ S)) as [|k] eqn:Hk.
    - inversion H2. split; [reflexivity|lia].
    - cbn [for_break_from] in H2.
      apply bind_Ok_inv in H2 as ([s b] & Hb & _).
      apply bind_Ok_inv in Hb as (x0 & _ & Hb).
      rewrite at_nil in Hb. discriminate Hb. }
  apply (for_break_from_inv (fun _ => True) 0) in H2.
  2:{ intros i st st' b Hb.
      apply bind_Ok_inv in Hb as (x0 & _ & Hb).
      apply bind_Ok_inv in Hb as (x1 & _ & Hb).
      destruct (geT T x0 x1); [inversion Hb; reflexivity|].
      apply bind_Ok_inv in Hb as (x2 & _ & Hb).
      destruct (ltT T x2 (litT E T 0)); inversion Hb; subst; auto. }
  assert (H4' : c3 = 2 -> c = 2 \/ c = 3).
  { intros ->. simpl in H4.
    destruct (cell_order_ S =? TILEDB_AS_CO_ROW_MAJOR E).
    - apply (for_break_from_inv (fun _ => True) 2) in H4; [tauto|].
      differs_turn. auto.
    - destruct (cell_order_ S =? TILEDB_AS_CO_COLUMN_MAJOR E).
      + apply (for_break_down_inv (fun _ => True) 2) in H4; [tauto|].
        differs_turn. auto.
      + inversion H4; subst; auto. }
  assert (H3' : c3 = 0 \/ c3 = 2 \/
                (c3 = 1 /\
                 forall i, 0 <= i < dim_num_ S ->
                   exists e a b,
                     at_ (cast T (tile_extents_ S)) i = Ok e /\
                     at_ o1 (2 * i) = Ok a /\ at_ o1 (2 * i + 1) = Ok b /\
                     eqT T a (litT E T 0) = true /\
                     eqT T b (subT E T e (litT E T 1)) = true)).
  { destruct H2 as [-> | [-> _]].
    - simpl in H3. left. congruence.
    - simpl in H3.
      apply (for_break_from_inv
               (fun i => exists e a b,
                    at_ (cast T (tile_extents_ S)) i = Ok e /\
                    at_ o1 (2 * i) = Ok a /\ at_ o1 (2 * i + 1) = Ok b /\
                    eqT T a (litT E T 0) = true /\
                    eqT T b (subT E T e (litT E T 1)) = true) 2) in H3.
      + destruct H3 as [->|[-> Hall]]; [auto|].
        right. right. split; [reflexivity|]. intros i Hi. apply Hall. lia.
      + intros i st st' b Hb.
        apply bind_Ok_inv in Hb as (e & He & Hb).
        apply bind_Ok_inv in Hb as (d & Hd & Hb).
        destruct d; inversion Hb; subst; [reflexivity|].
        split; [reflexivity|].
        apply differs_false in Hd as (a & b0 & Ha & Hb0 & Ea & Eb).
        exists e, a, b0. repeat split; assumption. }
  split.
  - intros ->. destruct H3' as [H|[H|[_ H]]].
    + subst c3. simpl in H4. inversion H4.
    + specialize (H4' H). lia.
    + exact H.
  - intros -> Hx. destruct (Hnone Hx) as [Hc2 Hd].
    destruct H2 as [H2|[_ _]]; [lia|]. subst c2. simpl in H3.
    replace (Z.to_nat (dim_num_ S)) with 0%nat in H3 by lia.
    inversion H3; subst c3. simpl in H4. inversion H4.
Qed.
(** C6: for a schema built by [init], the two overlap members return the
    same outcome, code and overlap range whatever the output array held
    before the call; when [compute_mbr_range_overlap] returns code 1 the
    overlap range equals the mbr entry by entry; when
    [compute_tile_range_overlap] returns code 1 the overlap range is
    [0, extent - 1] along every dimension; and neither returns code 3 for
    a schema in Hilbert cell order. *)
Theorem overlap_codes_are_determined
        (E : Env) (T : Datatype) (c : C_API.ArraySchemaC) (S0 S : ArraySchema)
        (range mbr tile_coords o o' : list Z) :
  distinct_cell_orders E -> distinct_tile_orders E -> defaults_not_hilbert E ->
  init E c S0 = Ok S ->
  len o = len o' ->
  same_overlap (dim_num_ S)
    (compute_mbr_range_overlap E T S range mbr o)
    (compute_mbr_range_overlap E T S range mbr o') /\
  same_overlap (dim_num_ S)
    (compute_tile_range_overlap E T S range tile_coords o)
    (compute_tile_range_overlap E T S range tile_coords o') /\
  (forall r,
      compute_mbr_range_overlap E T S range mbr o = Ok (r, 1) ->
      forall j, 0 <= j < 2 * dim_num_ S ->
        exists a b,
          at_ r j = Ok a /\ at_ mbr j = Ok b /\ eqT T a b = true /\
          (is_integral T = true -> a = b)) /\
  (forall r,
      compute_tile_range_overlap E T S range tile_coords o = Ok (r, 1) ->
      forall i, 0 <= i < dim_num_ S ->
        exists e a b,
          at_ (cast T (tile_extents_ S)) i = Ok e /\
          at_ r (2 * i) = Ok a /\ at_ r (2 * i + 1) = Ok b /\
          eqT T a (litT E T 0) = true /\
          eqT T b (subT E T e (litT E T 1)) = true /\
          (is_integral T = true -> a = 0 /\ b = wrapT T (e - 1))) /\
  (forall r,
      compute_mbr_range_overlap E T S range mbr o = Ok (r, 3) ->
      cell_order_ S <> TILEDB_AS_CO_HILBERT E) /\
  (forall r,
      compute_tile_range_overlap E T S range tile_coords o = Ok (r, 3) ->
      cell_order_ S <> TILEDB_AS_CO_HILBERT E).
Proof.
  intros Hco Hto Hdef Hinit Hl.
  split; [apply compute_mbr_range_overlap_rel; exact Hl|].
  split; [apply compute_tile_range_overlap_rel; exact Hl|].
  split; [|split; [|split]].
  - intros r H j Hj.
    apply compute_mbr_range_overlap_codes in H as [H _].
    specialize (H eq_refl (j / 2)).
    destruct H as (m0 & m1 & a & b & Hm0 & Hm1 & Ha & Hb & Ea & Eb).
    { pose proof (Z.div_mod j 2 ltac:(lia)).
      pose proof (Z.mod_pos_bound j 2 ltac:(lia)). lia. }
    destruct (half_cases j) as [Hj2|Hj2]; rewrite Hj2.
    + exists a, m0. repeat split; try assumption.
      intros HT. apply (eqT_integral T); assumption.
    + exists b, m1. repeat split; try assumption.
      intros HT. apply (eqT_integral T); assumption.
  - intros r H i Hi.
    apply compute_tile_range_overlap_codes in H as [H _].
    destruct (H eq_refl i Hi) as (e & a & b & He & Ha & Hb & Ea & Eb).
    exists e, a, b. repeat split; try assumption.
    + apply (eqT_integral T) in Ea; [|assumption].
      rewrite Ea. unfold litT. rewrite H0. destruct T; try discriminate H0; reflexivity.
    + apply (eqT_integral T) in Eb; [|assumption].
      rewrite Eb. unfold subT, litT. rewrite H0.
      destruct T; try discriminate H0; reflexivity.
  - intros r H. apply compute_mbr_range_overlap_codes in H as [_ H].
    exact (H eq_refl).
  - intros r H Hh. apply compute_tile_range_overlap_codes in H as [_ H].
    apply (H eq_refl).
    eapply init_hilbert_exclusive; try eassumption. left. exact Hh.
Qed.

Lemma overlap_codes_are_determined_witness :
  compute_mbr_range_overlap spec_env T_int64_t S1_schema
    [0; 9; 0; 9] [2; 3; 2; 3] [0; 0; 0; 0] = Ok ([2; 3; 2; 3], 1) /\
  compute_tile_range_overlap spec_env T_int64_t S1_schema
    [0; 9; 0; 9] [0; 0] [0; 0; 0; 0] = Ok ([0; 4; 0; 4], 1) /\
  same_overlap (dim_num_ S1_schema)
    (compute_mbr_range_overlap spec_env T_int64_t S1_schema
       [0; 9; 0; 9] [2; 3; 2; 3] [0; 0; 0; 0])
    (compute_mbr_range_overlap spec_env T_int64_t S1_schema
       [0; 9; 0; 9] [2; 3; 2; 3] [7; 7; 7; 7]) /\
  same_overlap (dim_num_ S1_schema)
    (compute_tile_range_overlap spec_env T_int64_t S1_schema
       [0; 9; 0; 9] [0; 0] [0; 0; 0; 0])
    (compute_tile_range_overlap spec_env T_int64_t S1_schema
       [0; 9; 0; 9] [0; 0] [7; 7; 7; 7]) /\
  (forall r,
      compute_mbr_range_overlap spec_env T_int64_t S1_schema
        [0; 9; 0; 9] [2; 3; 2; 3] [0; 0; 0; 0] = Ok (r, 1) ->
      forall j, 0 <= j < 2 * dim_num_ S1_schema ->
        exists a b,
          at_ r j = Ok a /\ at_ [2; 3; 2; 3] j = Ok b /\
          eqT T_int64_t a b = true /\
          (is_integral T_int64_t = true -> a = b)) /\
  (forall r,
      compute_tile_range_overlap spec_env T_int64_t S1_schema
        [0; 9; 0; 9] [0; 0] [0; 0; 0; 0] = Ok (r, 1) ->
      forall i, 0 <= i < dim_num_ S1_schema ->
        exists e a b,
          at_ (cast T_int64_t (tile_extents_ S1_schema)) i = Ok e /\
          at_ r (2 * i) = Ok a /\ at_ r (2 * i + 1) = Ok b /\
          eqT T_int64_t a (litT spec_env T_int64_t 0) = true /\
          eqT T_int64_t b (subT spec_env T_int64_t e (litT spec_env T_int64_t 1)) = true /\
          (is_integral T_int64_t = true -> a = 0 /\ b = wrapT T_int64_t (e - 1))) /\
  (forall r,
      compute_mbr_range_overlap spec_env T_int64_t S1_schema
        [0; 9; 0; 9] [2; 3; 2; 3] [0; 0; 0; 0] = Ok (r, 3) ->
      cell_order_ S1_schema <> TILEDB_AS_CO_HILBERT spec_env) /\
  (forall r,
      compute_tile_range_overlap spec_env T_int64_t S1_schema
        [0; 9; 0; 9] [0; 0] [0; 0; 0; 0] = Ok (r, 3) ->
      cell_order_ S1_schema <> TILEDB_AS_CO_HILBERT spec_env).
Proof.
  split; [vm_compute; reflexivity|].
  split; [vm_compute; reflexivity|].
  apply (@overlap_codes_are_determined
           spec_env T_int64_t S1_input ArraySchema_new S1_schema
           [0; 9; 0; 9] [2; 3; 2; 3] [0; 0] [0; 0; 0; 0] [7; 7; 7; 7]).
  - repeat split; discriminate.
  - repeat split; discriminate.
  - split; discriminate.
  - vm_compute. reflexivity.
  - reflexivity.
Defined.
(* ================================================================= *)
(** ** Order of the cells of a tile *)

Lemma fold_res_app {A St : Type} (step : A -> St -> res St) l1 l2 st :
  fold_res step (l1 ++ l2) st = (st' <- fold_res step l1 st ;; fold_res step l2 st').
Proof.
  revert st. induction l1 as [|a l1 IH]; intros st; simpl; [reflexivity|].
  destruct (step a st); simpl; auto.
Qed.

Lemma for_down_fold {A St : Type} (l : list A)
      (body : Z -> St -> res St) (step : A -> St -> res St) :
  (forall i a st, nth_error l i = Some a -> body (Z.of_nat i) st = step a st) ->
  forall k st,
    (k <= length l)%nat ->
    for_down k body st = fold_res step (rev (firstn k l)) st.
Proof.
  intros Hb k. induction k as [|k IH]; intros st Hk; [reflexivity|].
  destruct (nth_error l k) as [a|] eqn:Ha.
  2:{ apply nth_error_None in Ha. lia. }
  rewrite (firstn_succ_nth _ _ _ Ha), rev_app_distr.
  cbn [for_down rev app fold_res]. rewrite (Hb _ _ _ Ha).
  destruct (step a st); simpl; try reflexivity. apply IH. lia.
Qed.

Lemma for_loop_from_shift {St : Type} (body : Z -> St -> res St) d :
  forall k i st,
    for_loop_from (i + d) k body st = for_loop_from i k (fun j => body (j + d)) st.
Proof.
  induction k as [|k IH]; intros i st; [reflexivity|].
  cbn [for_loop_from]. destruct (body (i + d) st); simpl; try reflexivity.
  replace (i + d + 1) with (i + 1 + d) by lia. apply IH.
Qed.

Lemma last_rev_hd {A : Type} (l : list A) d : last (rev l) d = hd d l.
Proof.
  destruct l as [|a l]; [reflexivity|]. simpl. apply last_last.
Qed.

Lemma suffix_products_hd l : hd 0 (suffix_products l) = cells l.
Proof.
  induction l as [|x r IH]; [reflexivity|].
  cbn [suffix_products hd]. rewrite IH. unfold cells. cbn [fold_right]. lia.
Qed.

Lemma cells_pos l : Forall (fun e => 0 < e) l -> 0 < cells l.
Proof.
  induction 1 as [|x r Hx _ IH]; unfold cells in *; cbn [fold_right]; nia.
Qed.

Lemma cells_app l1 l2 : cells (l1 ++ l2) = cells l1 * cells l2.
Proof.
  induction l1 as [|x r IH]; unfold cells in *; cbn [fold_right app]; [lia|].
  rewrite IH. lia.
Qed.

Lemma cells_rev l : cells (rev l) = cells l.
Proof.
  induction l as [|x r IH]; [reflexivity|].
  cbn [rev]. rewrite cells_app, IH. unfold cells. cbn [fold_right]. lia.
Qed.

Lemma suffix_products_length l : length (suffix_products l) = Datatypes.S (length l).
Proof. induction l; simpl; auto. Qed.

(** Every offset is positive and at most the number of cells. *)
Lemma suffix_products_bound l :
  Forall (fun e => 0 < e) l ->
  Forall (fun o => 0 < o <= cells l) (suffix_products l).
Proof.
  induction 1 as [|x r Hx Hr IH].
  - constructor; [unfold cells; simpl; lia|constructor].
  - cbn [suffix_products]. rewrite suffix_products_hd.
    pose proof (cells_pos r Hr) as Hp.
    assert (Hc : cells (x :: r) = x * cells r) by reflexivity.
    constructor; [nia|].
    eapply Forall_impl; [|exact IH]. cbv beta. intros o Ho. nia.
Qed.

(** The offsets loops, when no product leaves [int64_t]. *)
Lemma push_offsets l :
  Forall (fun e => 0 < e) l -> cells l < 2 ^ 63 ->
  fold_res push_offset (rev l) [1] = Ok (rev (suffix_products l)).
Proof.
  induction 1 as [|x r Hx Hr IH]; intros Hc; [reflexivity|].
  pose proof (cells_pos r Hr) as Hp.
  assert (Hxr : cells (x :: r) = x * cells r) by reflexivity.
  cbn [rev]. rewrite fold_res_app, IH by nia. cbn [bind fold_res].
  unfold push_offset. rewrite last_rev_hd, suffix_products_hd.
  cbn [suffix_products rev]. rewrite suffix_products_hd.
  unfold to_int64. rewrite wrap_signed_id; [reflexivity|lia|].
  unfold in_range. nia.
Qed.

Lemma at_combine {A B : Type} (l1 : list A) (l2 : list B) i a b :
  nth_error (combine l1 l2) i = Some (a, b) ->
  at_ l1 (Z.of_nat i) = Ok a /\ at_ l2 (Z.of_nat i) = Ok b.
Proof.
  revert l2 i. induction l1 as [|x l1 IH]; intros [|y l2] [|i] H;
    simpl in H; try discriminate.
  - inversion H; subst. split; reflexivity.
  - apply IH in H as [H1 H2]. split; apply at_nth.
    + apply at_Ok_inv in H1 as [_ H1]. rewrite Nat2Z.id in H1. exact H1.
    + apply at_Ok_inv in H2 as [_ H2]. rewrite Nat2Z.id in H2. exact H2.
Qed.

Lemma dot_nonneg cs os :
  Forall (fun c => 0 <= c) cs -> Forall (fun o => 0 <= o) os -> 0 <= dot cs os.
Proof.
  intros Hc. revert os. induction Hc as [|c cs Hc0 _ IH]; intros os Ho; [simpl; lia|].
  destruct Ho as [|o os Ho0 Ho]; simpl; [lia|]. specialize (IH os Ho). nia.
Qed.

(** The position loop, when nothing leaves [int64_t]. *)
Lemma position_dot E T S cs os :
  is_integral T = true ->
  len cs = dim_num_ S -> len cs <= len os ->
  Forall (fun c => 0 <= c) cs -> Forall (fun o => 0 <= o) os ->
  dot cs os < 2 ^ 63 ->
  position E T S cs os = Ok (dot cs os).
Proof.
  intros HT Hn Hlen Hc Ho Hd. unfold position.
  rewrite (for_loop_fold (combine cs os) _
             (fun '(c, o) pos => Ok (pos_add E T pos c o))).
  2:{ intros i [c o] st Hi. apply at_combine in Hi as [H1 H2].
      rewrite H1, H2. reflexivity. }
  2:{ unfold len in *. rewrite length_combine. lia. }
  rewrite firstn_all2 by (unfold len in *; rewrite length_combine; lia).
  clear Hn Hlen.
  assert (G : forall pos, 0 <= pos -> pos + dot cs os < 2 ^ 63 ->
              fold_res (fun '(c, o) pos => Ok (pos_add E T pos c o))
                       (combine cs os) pos = Ok (pos + dot cs os)).
  { revert os Ho Hd. induction Hc as [|c cs Hc0 Hc IH]; intros os Ho Hd pos Hp Hb.
    - simpl. f_equal. lia.
    - destruct Ho as [|o os Ho0 Ho]; [simpl; f_equal; lia|].
      cbn [combine fold_res bind dot] in *.
      pose proof (dot_nonneg cs os Hc Ho) as Hdn.
      assert (Hco : 0 <= c * o) by nia.
      assert (Hpa : pos_add E T pos c o = pos + c * o).
      { unfold pos_add. rewrite HT. unfold to_int64.
        rewrite (wrap_signed_id 64 (c * o)) by (unfold in_range; lia).
        apply wrap_signed_id; [lia|]. unfold in_range; lia. }
      rewrite Hpa.
      rewrite IH; [f_equal; lia|exact Ho|lia|lia|lia]. }
  rewrite G; [f_equal; lia|lia|lia].
Qed.
Lemma cells_cons x r : cells (x :: r) = x * cells r.
Proof. reflexivity. Qed.

Lemma cells_tl_le es : Forall (fun e => 0 < e) es -> cells (tl es) <= cells es.
Proof.
  intros H. destruct H as [|x r Hx Hr]; [simpl; lia|].
  cbn [tl]. rewrite cells_cons. pose proof (cells_pos r Hr). nia.
Qed.

Lemma Forall_tl {A : Type} (P : A -> Prop) l : Forall P l -> Forall P (tl l).
Proof. intros H. destruct H; simpl; auto. Qed.

Lemma inside_length es cs : inside es cs -> length cs = length es.
Proof. intros H. symmetry. eapply Forall2_length, H. Qed.

Lemma inside_nonneg es cs : inside es cs -> Forall (fun c => 0 <= c) cs.
Proof.
  induction 1 as [|e c es cs H _ IH]; constructor; [lia|exact IH].
Qed.

Lemma inside_rev es cs : inside es cs -> inside (rev es) (rev cs).
Proof.
  induction 1 as [|e c es cs H _ IH]; [constructor|].
  simpl. apply Forall2_app; [exact IH|]. repeat constructor; lia.
Qed.

Lemma dot_step c cs es :
  inside es cs ->
  dot (c :: cs) (suffix_products es)
  = c * cells es + dot cs (suffix_products (tl es)).
Proof.
  intros H. destruct H as [|e c' r cs' Hc Hr].
  - simpl. unfold cells. simpl. lia.
  - cbn [suffix_products dot tl]. rewrite suffix_products_hd, cells_cons. lia.
Qed.

Lemma dot_suffix_bound es cs :
  Forall (fun e => 0 < e) es -> inside es cs ->
  0 <= dot cs (suffix_products (tl es)) < cells es.
Proof.
  intros Hp H. induction H as [|e c es cs Hc Hr IH].
  - simpl. unfold cells. simpl. lia.
  - inversion Hp as [|? ? He Hes]; subst.
    cbn [tl]. rewrite (dot_step c cs es Hr), cells_cons.
    specialize (IH Hes). pose proof (cells_pos es Hes). nia.
Qed.

(** In the row-major layout the first coordinate weighs most. *)
Lemma row_order es :
  Forall (fun e => 0 < e) es ->
  forall c1 c2,
    inside es c1 -> inside es c2 ->
    (dot c1 (suffix_products (tl es)) < dot c2 (suffix_products (tl es))
     <-> lex_lt c1 c2).
Proof.
  induction 1 as [|e es He Hes IH]; intros c1 c2 H1 H2.
  - inversion H1; inversion H2; subst. simpl. lia.
  - inversion H1 as [|? a ? r1 Ha Hr1]; inversion H2 as [|? b ? r2 Hb Hr2]; subst.
    cbn [tl lex_lt]. rewrite (dot_step a r1 es Hr1), (dot_step b r2 es Hr2).
    pose proof (dot_suffix_bound es r1 Hes Hr1) as B1.
    pose proof (dot_suffix_bound es r2 Hes Hr2) as B2.
    specialize (IH r1 r2 Hr1 Hr2).
    destruct (Z.lt_trichotomy a b) as [Hab|[Hab|Hab]].
    + split; [auto|]. intros _. nia.
    + subst b. split.
      * intros H. right. split; [reflexivity|]. apply IH. lia.
      * intros [H|[_ H]]; [lia|]. apply IH in H. lia.
    + split.
      * intros H. exfalso. nia.
      * intros [H|[H _]]; lia.
Qed.

Lemma dot_app c1 c2 o1 o2 :
  length c1 = length o1 -> dot (c1 ++ c2) (o1 ++ o2) = dot c1 o1 + dot c2 o2.
Proof.
  revert o1. induction c1 as [|c c1 IH]; intros [|o o1] H; simpl in H;
    try discriminate; [reflexivity|].
  cbn [app dot]. rewrite IH by lia. lia.
Qed.

Lemma dot_rev cs os :
  length cs = length os -> dot (rev cs) (rev os) = dot cs os.
Proof.
  revert os. induction cs as [|c cs IH]; intros [|o os] H; simpl in H;
    try discriminate; [reflexivity|].
  cbn [rev]. rewrite dot_app by (rewrite !length_rev; lia).
  rewrite IH by lia. cbn [dot]. lia.
Qed.

Lemma removelast_rev_tl {A : Type} (l : list A) : removelast l = rev (tl (rev l)).
Proof.
  induction l as [|a l IH] using rev_ind; [reflexivity|].
  rewrite removelast_last, rev_app_distr. simpl. rewrite rev_involutive.
  reflexivity.
Qed.

Lemma Forall_nonneg_of_bound l b :
  Forall (fun o => 0 < o <= b) l -> Forall (fun o => 0 <= o) l.
Proof. apply Forall_impl. intros; lia. Qed.

(** The value of [get_cell_pos_row]. *)
Lemma get_cell_pos_row_value E T S es cs :
  is_integral T = true ->
  cast T (tile_extents_ S) = es -> len es = dim_num_ S ->
  Forall (fun e => 0 < e) es -> cells es < 2 ^ 63 -> inside es cs ->
  get_cell_pos_row E T S cs = Ok (dot cs (suffix_products (tl es))).
Proof.
  intros HT Hes Hn Hp Hc Hin. unfold get_cell_pos_row. rewrite Hes.
  rewrite (for_down_fold (tl es) _ push_offset).
  2:{ intros i a st Hi. unfold push_offset.
      assert (Ha : at_ es (Z.of_nat i + 1) = Ok a).
      { replace (Z.of_nat i + 1) with (Z.of_nat (Datatypes.S i)) by lia.
        apply at_nth. destruct es; [destruct i; discriminate Hi|exact Hi]. }
      rewrite Ha. cbn [bind]. unfold int64_of_T. rewrite HT. reflexivity. }
  2:{ unfold len in Hn. destruct es; simpl in *; lia. }
  replace (Z.to_nat (dim_num_ S - 1)) with (length (tl es))
    by (unfold len in Hn; destruct es; simpl in *; lia).
  rewrite firstn_all.
  pose proof (cells_tl_le es Hp) as Hle.
  rewrite (push_offsets (tl es) (Forall_tl _ _ Hp)) by lia.
  cbn [bind]. rewrite rev_involutive.
  pose proof (dot_suffix_bound es cs Hp Hin) as B.
  apply position_dot; try assumption.
  - unfold len. rewrite (inside_length es cs Hin). exact Hn.
  - unfold len. rewrite suffix_products_length, (inside_length es cs Hin).
    destruct es; simpl; lia.
  - apply (inside_nonneg es), Hin.
  - eapply Forall_nonneg_of_bound, suffix_products_bound, Forall_tl, Hp.
  - lia.
Qed.

(** The value of [get_cell_pos_col]: that of the row-major layout of the
    reversed coordinates in the reversed extents. *)
Lemma get_cell_pos_col_value E T S es cs :
  is_integral T = true ->
  cast T (tile_extents_ S) = es -> len es = dim_num_ S ->
  Forall (fun e => 0 < e) es -> cells es < 2 ^ 63 -> inside es cs ->
  get_cell_pos_col E T S cs
  = Ok (dot (rev cs) (suffix_products (tl (rev es)))).
Proof.
  intros HT Hes Hn Hp Hc Hin. unfold get_cell_pos_col. rewrite Hes.
  change 1 with (0 + 1) at 1. rewrite for_loop_from_shift.
  rewrite for_loop_from_fold with (l := es) (step := push_offset) (i := 0%nat).
  3:{ unfold len in Hn. lia. }
  2:{ intros i a st Hi. unfold push_offset.
      replace (Z.of_nat i + 1 - 1) with (Z.of_nat i) by lia.
      rewrite (at_nth _ _ _ Hi). cbn [bind].
      unfold int64_of_T. rewrite HT. reflexivity. }
  cbn [skipn].
  replace (Z.to_nat (dim_num_ S - 1)) with (pred (length es))
    by (unfold len in Hn; lia).
  rewrite <- removelast_firstn_len, removelast_rev_tl.
  assert (Hpr : Forall (fun e => 0 < e) (rev es)) by (apply Forall_rev, Hp).
  pose proof (cells_tl_le (rev es) Hpr) as Hle. rewrite cells_rev in Hle.
  rewrite (push_offsets (tl (rev es)) (Forall_tl _ _ Hpr)) by lia.
  cbn [bind].
  pose proof (dot_suffix_bound (rev es) (rev cs) Hpr (inside_rev _ _ Hin)) as B.
  rewrite cells_rev in B.
  assert (Hd : dot cs (rev (suffix_products (tl (rev es))))
               = dot (rev cs) (suffix_products (tl (rev es)))).
  { destruct Hin as [|e c es cs Hc0 Hin]; [reflexivity|].
    rewrite <- (rev_involutive (c :: cs)) at 1. apply dot_rev.
    rewrite suffix_products_length, length_rev.
    pose proof (inside_length es cs Hin) as Hl.
    cbn [rev]. destruct (rev es ++ [e]) eqn:Hr.
    - apply (f_equal (@length Z)) in Hr. rewrite length_app in Hr. simpl in Hr. lia.
    - apply (f_equal (@length Z)) in Hr.
      rewrite length_app, length_rev in Hr. simpl in *. lia. }
  rewrite <- Hd.
  apply position_dot; try assumption.
  - unfold len. rewrite (inside_length es cs Hin). exact Hn.
  - unfold len. rewrite length_rev, suffix_products_length, (inside_length es cs Hin).
    destruct (rev es) eqn:Hr.
    + apply (f_equal (@length Z)) in Hr. rewrite length_rev in Hr. simpl in *. lia.
    + apply (f_equal (@length Z)) in Hr. rewrite length_rev in Hr. simpl in *. lia.
  - apply (inside_nonneg es), Hin.
  - apply Forall_rev.
    eapply Forall_nonneg_of_bound, suffix_products_bound, Forall_tl, Hpr.
  - rewrite Hd. lia.
Qed.
(** C3 (amended): with positive tile extents of an integer type whose
    product fits [int64_t], and two coordinate vectors inside one tile
    (zero-based), [get_cell_pos] returns two positions; under row-major
    cell order the first is smaller exactly when the first vector
    precedes the second in the lexicographic order whose most
    significant dimension is the first one, and under column-major cell
    order exactly when it precedes it in the order whose most significant
    dimension is the last one. *)
Theorem cell_positions_follow_the_cell_order
        (E : Env) (T : Datatype) (S : ArraySchema) (es c1 c2 : list Z) :
  distinct_cell_orders E ->
  is_integral T = true ->
  cast T (tile_extents_ S) = es -> len es = dim_num_ S ->
  Forall (fun e => 0 < e) es -> cells es < 2 ^ 63 ->
  inside es c1 -> inside es c2 ->
  exists p1 p2,
    get_cell_pos E T S c1 = Ok p1 /\ get_cell_pos E T S c2 = Ok p2 /\
    (cell_order_ S = TILEDB_AS_CO_ROW_MAJOR E ->
     (p1 < p2 <-> lex_lt_first_major c1 c2)) /\
    (cell_order_ S = TILEDB_AS_CO_COLUMN_MAJOR E ->
     (p1 < p2 <-> lex_lt_last_major c1 c2)).
Proof.
  intros (Hrc & _ & _) HT Hes Hn Hp Hc H1 H2. unfold get_cell_pos.
  destruct (Z.eqb_spec (cell_order_ S) (TILEDB_AS_CO_ROW_MAJOR E)) as [Hr|Hr].
  - rewrite (get_cell_pos_row_value E T S es c1), (get_cell_pos_row_value E T S es c2)
      by assumption.
    eexists; eexists. split; [reflexivity|]. split; [reflexivity|]. split.
    + intros _. apply row_order; assumption.
    + intros Hcol. congruence.
  - destruct (Z.eqb_spec (cell_order_ S) (TILEDB_AS_CO_COLUMN_MAJOR E)) as [Hcol|Hcol].
    + rewrite (get_cell_pos_col_value E T S es c1),
        (get_cell_pos_col_value E T S es c2) by assumption.
      eexists; eexists. split; [reflexivity|]. split; [reflexivity|]. split.
      * intros Hrow. contradiction.
      * intros _. unfold lex_lt_last_major.
        apply row_order; [apply Forall_rev; assumption| |]; apply inside_rev; assumption.
    + exists (-1), (-1). repeat split; try reflexivity; intros; contradiction.
Qed.

Lemma cell_positions_follow_the_cell_order_witness :
  exists p1 p2,
    get_cell_pos spec_env T_int64_t S1_schema [0; 1] = Ok p1 /\
    get_cell_pos spec_env T_int64_t S1_schema [1; 0] = Ok p2 /\
    (cell_order_ S1_schema = TILEDB_AS_CO_ROW_MAJOR spec_env ->
     (p1 < p2 <-> lex_lt_first_major [0; 1] [1; 0])) /\
    (cell_order_ S1_schema = TILEDB_AS_CO_COLUMN_MAJOR spec_env ->
     (p1 < p2 <-> lex_lt_last_major [0; 1] [1; 0])).
Proof.
  apply (@cell_positions_follow_the_cell_order
           spec_env T_int64_t S1_schema [5; 5] [0; 1] [1; 0]).
  - repeat split; discriminate.
  - reflexivity.
  - vm_compute. reflexivity.
  - reflexivity.
  - repeat constructor.
  - vm_compute. reflexivity.
  - repeat constructor; lia.
  - repeat constructor; lia.
Defined.
(* ================================================================= *)
(** ** Walking the tile grid *)

Lemma at_middle {A : Type} (l1 : list A) a l2 : at_ (l1 ++ a :: l2) (len l1) = Ok a.
Proof.
  unfold len. apply at_nth. rewrite nth_error_app2 by lia.
  rewrite Nat.sub_diag. reflexivity.
Qed.

Lemma nth_error_domain_of box i b :
  nth_error box i = Some b ->
  nth_error (domain_of box) (2 * i) = Some (fst b) /\
  nth_error (domain_of box) (2 * i + 1) = Some (snd b).
Proof.
  revert i. induction box as [|b0 box IH]; intros [|i] H; simpl in H;
    try discriminate.
  - inversion H; subst. split; reflexivity.
  - apply IH in H as [H1 H2].
    replace (2 * Datatypes.S i)%nat with (Datatypes.S (Datatypes.S (2 * i))) by lia.
    split; [exact H1|exact H2].
Qed.

Lemma at_domain_of box i b :
  nth_error box i = Some b ->
  at_ (domain_of box) (2 * Z.of_nat i) = Ok (fst b) /\
  at_ (domain_of box) (2 * Z.of_nat i + 1) = Ok (snd b).
Proof.
  intros H. apply nth_error_domain_of in H as [H1 H2].
  replace (2 * Z.of_nat i) with (Z.of_nat (2 * i)) by lia.
  replace (Z.of_nat (2 * i) + 1) with (Z.of_nat (2 * i + 1)) by lia.
  split; apply at_nth; assumption.
Qed.

Lemma nth_error_middle {A : Type} (l1 : list A) a l2 :
  nth_error (l1 ++ a :: l2) (length l1) = Some a.
Proof.
  rewrite nth_error_app2 by lia. rewrite Nat.sub_diag. reflexivity.
Qed.

(** The loop of [get_next_tile_coords_col], entered at index [len pre]. *)
Lemma next_col_loop_settle E T :
  forall k boxpre pre boxcur cur,
    length pre = length boxpre ->
    length cur = Datatypes.S k -> length boxcur = Datatypes.S k ->
    next_col_loop E T (domain_of (boxpre ++ boxcur)) k (len pre) (pre ++ cur)
    = Ok (pre ++ settle E T boxcur cur).
Proof.
  induction k as [|k IH]; intros boxpre pre boxcur cur Hp Hc Hb.
  - destruct cur as [|x [|? ?]]; try discriminate Hc.
    destruct boxcur as [|b [|? ?]]; try discriminate Hb.
    reflexivity.
  - destruct cur as [|x [|y c]]; try discriminate Hc.
    destruct boxcur as [|b [|b' r]]; try discriminate Hb.
    cbn [next_col_loop settle].
    rewrite at_middle. cbn [bind].
    destruct (at_domain_of (boxpre ++ b :: b' :: r) (length pre) b) as [Hlo Hhi].
    { rewrite Hp. apply nth_error_middle. }
    fold (len pre) in Hlo, Hhi. rewrite Hhi. cbn [bind].
    destruct (gtT T x (snd b)); [|reflexivity].
    rewrite Hlo. cbn [bind]. rewrite put_middle. cbn [bind].
    assert (Hl : len pre + 1 = len (pre ++ [fst b])).
    { rewrite len_app. reflexivity. }
    rewrite Hl.
    replace (pre ++ fst b :: y :: c) with ((pre ++ [fst b]) ++ y :: c)
      by (rewrite <- app_assoc; reflexivity).
    rewrite at_middle. cbn [bind]. rewrite put_middle. cbn [bind].
    replace (boxpre ++ b :: b' :: r) with ((boxpre ++ [b]) ++ b' :: r)
      by (rewrite <- app_assoc; reflexivity).
    rewrite IH.
    + rewrite <- app_assoc. reflexivity.
    + rewrite !length_app. simpl. lia.
    + simpl in *. lia.
    + simpl in *. lia.
Qed.

(** The loop of [get_next_tile_coords_row], entered at index [length pre]:
    the same carry, seen from the last coordinate. *)
Lemma next_row_loop_settle E T :
  forall i boxh boxt pre x suf,
    length pre = i -> length boxh = Datatypes.S i ->
    next_row_loop E T (domain_of (boxh ++ boxt)) i (pre ++ x :: suf)
    = Ok (rev (settle E T (rev boxh) (x :: rev pre)) ++ suf).
Proof.
  induction i as [|j IH]; intros boxh boxt pre x suf Hp Hb.
  - destruct pre; [|discriminate Hp].
    destruct boxh as [|b [|? ?]]; try discriminate Hb. reflexivity.
  - destruct (exists_last (l := pre)) as (pre' & y & ->);
      [intros ->; discriminate Hp|].
    destruct (exists_last (l := boxh)) as (boxh' & b & ->);
      [intros ->; discriminate Hb|].
    rewrite length_app in Hp, Hb. simpl in Hp, Hb.
    destruct (exists_last (l := boxh')) as (boxh'' & b' & Hh');
      [intros ->; simpl in Hb; lia|].
    cbn [next_row_loop].
    assert (Hi : Z.of_nat (Datatypes.S j) = len (pre' ++ [y])).
    { unfold len. rewrite length_app. simpl. lia. }
    rewrite Hi, at_middle. cbn [bind].
    destruct (at_domain_of ((boxh' ++ [b]) ++ boxt) (Datatypes.S j) b) as [Hlo Hhi].
    { rewrite <- app_assoc.
      replace (Datatypes.S j) with (length boxh') by lia. apply nth_error_middle. }
    rewrite Hi in Hlo, Hhi. rewrite Hhi. cbn [bind].
    rewrite !rev_app_distr. cbn [rev app].
    rewrite Hh' at 2. rewrite rev_app_distr. cbn [rev app settle].
    destruct (gtT T x (snd b)).
    + rewrite Hlo. cbn [bind]. rewrite put_middle. cbn [bind].
      assert (Hj : Z.of_nat j = len pre') by (unfold len; lia).
      rewrite Hj. rewrite <- !app_assoc. cbn [app].
      rewrite at_middle. cbn [bind]. rewrite put_middle. cbn [bind].
      rewrite (IH boxh' (b :: boxt) pre' _ (fst b :: suf)) by lia.
      rewrite Hh', rev_app_distr. cbn [rev app].
      rewrite <- app_assoc. reflexivity.
    + cbn [rev]. rewrite rev_involutive, <- !app_assoc. reflexivity.
Qed.
(** [get_next_tile_coords_col] on [dim_num_] coordinates. *)
Lemma get_next_tile_coords_col_value E T S box tc :
  box <> [] -> len box = dim_num_ S -> length tc = length box ->
  get_next_tile_coords_col E T S (domain_of box) tc
  = Ok (settle E T box (bump E T tc)).
Proof.
  intros Hne Hn Hl. unfold get_next_tile_coords_col.
  destruct tc as [|x c]; [destruct box; [contradiction|discriminate Hl]|].
  cbn [bump]. change (at_ (x :: c) 0) with (at_ ([] ++ x :: c) (len (@nil Z))).
  rewrite at_middle. cbn [bind].
  change (put_ (x :: c) 0 (addT E T x (litT E T 1)))
    with (put_ ([] ++ x :: c) (len (@nil Z)) (addT E T x (litT E T 1))).
  rewrite put_middle. cbn [bind].
  apply (next_col_loop_settle E T (Z.to_nat (dim_num_ S - 1 - 0)) [] [] box
           (addT E T x (litT E T 1) :: c)).
  - reflexivity.
  - unfold len in Hn. simpl in *. lia.
  - unfold len in Hn. destruct box; [contradiction|]. simpl in *. lia.
Qed.

(** [get_next_tile_coords_row] on [dim_num_] coordinates: the same step on
    the reversed coordinates and bounds. *)
Lemma get_next_tile_coords_row_value E T S box tc :
  box <> [] -> len box = dim_num_ S -> length tc = length box ->
  get_next_tile_coords_row E T S (domain_of box) tc
  = Ok (rev (settle E T (rev box) (bump E T (rev tc)))).
Proof.
  intros Hne Hn Hl. unfold get_next_tile_coords_row.
  destruct (exists_last (l := tc)) as (pre & x & ->).
  { intros ->. destruct box; [contradiction|discriminate Hl]. }
  rewrite length_app in Hl. simpl in Hl.
  assert (Hi : dim_num_ S - 1 = len pre) by (unfold len in *; lia).
  rewrite Hi, at_middle. cbn [bind]. rewrite put_middle. cbn [bind].
  unfold len. rewrite Nat2Z.id.
  rewrite <- (app_nil_r box) at 1.
  rewrite (next_row_loop_settle E T (length pre) box [] pre _ []) by lia.
  rewrite app_nil_r, rev_app_distr. reflexivity.
Qed.

(** *** The step on numbers *)

Lemma wrap_signed_range w z : 0 < w -> in_range w (wrap_signed w z).
Proof.
  intros Hw. unfold wrap_signed, in_range.
  assert (H2 : 2 ^ w = 2 * 2 ^ (w - 1)).
  { replace w with (Z.succ (w - 1)) at 1 by lia. apply Z.pow_succ_r. lia. }
  pose proof (Z.mod_pos_bound (z + 2 ^ (w - 1)) (2 ^ w) ltac:(lia)). lia.
Qed.

Lemma fits_between T lo hi z :
  is_integral T = true -> fits T lo -> fits T hi -> lo <= z <= hi -> fits T z.
Proof.
  unfold fits. intros HT Hlo Hhi Hz.
  destruct T; try discriminate HT; cbn [wrapT] in *.
  - pose proof (wrap_signed_range 32 lo ltac:(lia)) as [A _].
    pose proof (wrap_signed_range 32 hi ltac:(lia)) as [_ B].
    rewrite Hlo in A. rewrite Hhi in B.
    apply wrap_signed_id; [lia|]. split; lia.
  - pose proof (wrap_signed_range 64 lo ltac:(lia)) as [A _].
    pose proof (wrap_signed_range 64 hi ltac:(lia)) as [_ B].
    rewrite Hlo in A. rewrite Hhi in B.
    apply wrap_signed_id; [lia|]. split; lia.
Qed.

Lemma incr_integral E T x :
  is_integral T = true -> fits T (x + 1) -> addT E T x (litT E T 1) = x + 1.
Proof.
  intros HT Hf. unfold addT, litT. rewrite HT.
  assert (H1 : wrapT T 1 = 1) by (destruct T; try discriminate HT; reflexivity).
  rewrite H1. exact Hf.
Qed.

Lemma gtT_integral T a b : is_integral T = true -> gtT T a b = (b <? a).
Proof. intros HT. destruct T; try discriminate HT; reflexivity. Qed.

Lemma tiles_cons b r : tiles (b :: r) = (snd b - fst b + 1) * tiles r.
Proof. reflexivity. Qed.

Lemma tiles_pos box :
  Forall (fun b => fst b <= snd b) box -> 0 < tiles box.
Proof.
  intros H. unfold tiles. apply cells_pos.
  apply Forall_map. eapply Forall_impl; [|exact H]. cbv beta. intros; lia.
Qed.
Lemma semi_box_length box c : semi_box box c -> length c = length box.
Proof.
  revert c. induction box as [|b r IH]; intros [|x c] H; simpl in H;
    try contradiction.
  destruct r as [|b' r'].
  - destruct H as [-> _]. reflexivity.
  - destruct H as [_ H]. simpl. f_equal. apply IH, H.
Qed.

Lemma semi_rank_nonneg box c :
  Forall (fun b => fst b <= snd b) box -> semi_box box c -> 0 <= rank box c.
Proof.
  intros G. revert c. induction G as [|b r Hb G IH]; intros [|x c] H;
    simpl in H; try contradiction.
  cbn [rank]. destruct r as [|b' r'].
  - destruct H as [-> H]. simpl. lia.
  - destruct H as [Hx H]. specialize (IH c H). nia.
Qed.

Lemma in_box_rank box c :
  Forall (fun b => fst b <= snd b) box -> in_box box c ->
  0 <= rank box c < tiles box.
Proof.
  intros G H. induction H as [|b x r c Hx H IH].
  - unfold tiles, cells. simpl. lia.
  - inversion G as [|? ? Hb G']; subst. specialize (IH G').
    cbn [rank]. rewrite tiles_cons. nia.
Qed.

Lemma in_box_semi_box box c : box <> [] -> in_box box c -> semi_box box c.
Proof.
  intros Hne H. induction H as [|b x r c Hx H IH]; [contradiction|].
  cbn [semi_box]. destruct r as [|b' r'].
  - inversion H; subst. split; [reflexivity|lia].
  - split; [exact Hx|]. apply IH. discriminate.
Qed.

Lemma semi_in_box box c :
  Forall (fun b => fst b <= snd b) box ->
  semi_box box c -> rank box c < tiles box -> in_box box c.
Proof.
  intros G. revert c. induction G as [|b r Hb G IH]; intros [|x c] H Hr;
    simpl in H; try contradiction.
  cbn [rank] in Hr. rewrite tiles_cons in Hr.
  destruct r as [|b' r'].
  - destruct H as [-> H]. unfold tiles, cells in Hr. simpl in Hr.
    constructor; [lia|constructor].
  - destruct H as [Hx H].
    pose proof (semi_rank_nonneg _ _ G H) as Hn.
    constructor; [exact Hx|]. apply IH; [exact H|].
    pose proof (tiles_pos _ G). nia.
Qed.

Lemma rank_inj box c1 c2 :
  Forall (fun b => fst b <= snd b) box ->
  semi_box box c1 -> semi_box box c2 -> rank box c1 = rank box c2 -> c1 = c2.
Proof.
  intros G. revert c1 c2.
  induction G as [|b r Hb G IH]; intros [|x1 c1] [|x2 c2] H1 H2 Hr;
    simpl in H1, H2; try contradiction.
  cbn [rank] in Hr. destruct r as [|b' r'].
  - destruct H1 as [-> H1], H2 as [-> H2]. simpl in Hr. f_equal. lia.
  - destruct H1 as [Hx1 H1], H2 as [Hx2 H2].
    assert (Hrr : rank (b' :: r') c1 = rank (b' :: r') c2) by nia.
    f_equal; [nia|]. apply IH; assumption.
Qed.

(** A vector of the walk whose number is not below the number of tiles
    has its last coordinate one above the upper bound. *)
Lemma semi_rank_top box c :
  Forall (fun b => fst b <= snd b) box ->
  semi_box box c -> tiles box <= rank box c ->
  last c 0 = snd (last box (0, 0)) + 1.
Proof.
  intros G. revert c. induction G as [|b r Hb G IH]; intros [|x c] H Hr;
    simpl in H; try contradiction.
  cbn [rank] in Hr. rewrite tiles_cons in Hr.
  destruct r as [|b' r'].
  - destruct H as [-> H]. unfold tiles, cells in Hr. simpl in Hr. simpl. lia.
  - destruct H as [Hx H].
    assert (Hc : c <> []).
    { intros ->. simpl in H. exact H. }
    destruct c as [|y c]; [contradiction|].
    change (last (x :: y :: c) 0) with (last (y :: c) 0).
    change (last (b :: b' :: r') (0, 0)) with (last (b' :: r') (0, 0)).
    apply IH; [exact H|].
    pose proof (tiles_pos _ G). nia.
Qed.

Lemma rank_lows box : rank box (map fst box) = 0.
Proof.
  induction box as [|b r IH]; [reflexivity|].
  cbn [map rank]. rewrite IH. lia.
Qed.

Lemma semi_box_lows box :
  box <> [] -> Forall (fun b => fst b <= snd b) box -> semi_box box (map fst box).
Proof.
  intros Hne G. apply in_box_semi_box; [exact Hne|].
  clear Hne. induction G as [|b r Hb G IH]; constructor; [lia|exact IH].
Qed.

Lemma settle_cons2 E T b b' r x y c :
  settle E T (b :: b' :: r) (x :: y :: c)
  = if gtT T x (snd b)
    then fst b :: settle E T (b' :: r) (addT E T y (litT E T 1) :: c)
    else x :: y :: c.
Proof. reflexivity. Qed.

Lemma rank_cons b r x c :
  rank (b :: r) (x :: c) = (x - fst b) + (snd b - fst b + 1) * rank r c.
Proof. reflexivity. Qed.

Lemma semi_box_cons2 b b' r x c :
  semi_box (b :: b' :: r) (x :: c)
  <-> fst b <= x <= snd b /\ semi_box (b' :: r) c.
Proof. reflexivity. Qed.

(** One step of the walk: the next number. *)
Lemma step_rank E T box :
  is_integral T = true ->
  Forall (fun b => fst b <= snd b /\ fits T (fst b) /\ fits T (snd b + 1)) box ->
  forall c,
    semi_box box c -> rank box c < tiles box ->
    semi_box box (settle E T box (bump E T c)) /\
    rank box (settle E T box (bump E T c)) = rank box c + 1.
Proof.
  intros HT G. induction G as [|b r (Hb & Hlo & Hhi) G IH]; intros [|x c] H Hr;
    simpl in H; try contradiction.
  assert (G' : Forall (fun b => fst b <= snd b) r).
  { eapply Forall_impl; [|exact G]. cbv beta. intros a Ha. tauto. }
  rewrite rank_cons, tiles_cons in Hr.
  destruct r as [|b' r'].
  - destruct H as [-> H]. unfold tiles, cells in Hr. simpl in Hr.
    cbn [bump settle].
    rewrite incr_integral by
      (try assumption; apply (fits_between T (fst b) (snd b + 1)); try assumption; lia).
    cbn [semi_box rank]. split; [split; [reflexivity|lia]|lia].
  - destruct H as [Hx H].
    pose proof (semi_rank_nonneg _ _ G' H) as Hn.
    pose proof (tiles_pos _ G') as Hp.
    destruct c as [|y c]; [simpl in H; contradiction|].
    cbn [bump]. rewrite settle_cons2.
    rewrite (incr_integral E T x) by
      (try assumption; apply (fits_between T (fst b) (snd b + 1)); try assumption; lia).
    rewrite gtT_integral by assumption.
    destruct (Z.ltb_spec (snd b) (x + 1)) as [Hgt|Hle].
    + assert (Hrr : rank (b' :: r') (y :: c) < tiles (b' :: r')) by nia.
      destruct (IH (y :: c) H Hrr) as [Hs Hk].
      cbn [bump] in Hs, Hk.
      split.
      * apply semi_box_cons2. split; [lia|exact Hs].
      * rewrite !rank_cons. rewrite rank_cons in Hk. rewrite Hk.
        rewrite rank_cons in Hrr. nia.
    + split.
      * apply semi_box_cons2. split; [lia|exact H].
      * rewrite !rank_cons. lia.
Qed.
(** *** The walk *)

Lemma walk_ranks (next : list Z -> res (list Z)) (Inv : list Z -> Prop)
      (rk : list Z -> Z) (N : Z) :
  (forall tc, Inv tc -> rk tc < N ->
              exists tc', next tc = Ok tc' /\ Inv tc' /\ rk tc' = rk tc + 1) ->
  forall k tc,
    Inv tc -> rk tc + Z.of_nat k <= N ->
    exists visited final,
      walk next k tc = Ok (visited ++ [final]) /\
      Forall Inv visited /\
      map rk visited = map (fun j => rk tc + Z.of_nat j) (seq 0 k) /\
      Inv final /\ rk final = rk tc + Z.of_nat k.
Proof.
  intros Hstep. induction k as [|k IH]; intros tc HI Hk.
  - exists [], tc. cbn [walk app seq map]. repeat split; auto. lia.
  - destruct (Hstep tc HI ltac:(lia)) as (tc' & Hn & HI' & Hr).
    destruct (IH tc' HI' ltac:(lia)) as (visited & final & Hw & HF & Hm & HIf & Hrf).
    exists (tc :: visited), final.
    cbn [walk]. rewrite Hn. cbn [bind]. rewrite Hw. cbn [bind].
    split; [reflexivity|]. split; [constructor; assumption|].
    split; [|split; [exact HIf|lia]].
    cbn [seq map]. f_equal; [lia|].
    rewrite Hm, <- seq_shift, map_map. apply map_ext. intros j. lia.
Qed.

Lemma NoDup_ranks r k : NoDup (map (fun j => r + Z.of_nat j) (seq 0 k)).
Proof.
  apply NoDup_map_NoDup_ForallPairs; [|apply seq_NoDup].
  intros a b _ _ H. lia.
Qed.

Lemma walk_enumerates (next : list Z -> res (list Z)) (Inv P : list Z -> Prop)
      (rk : list Z -> Z) (N : Z) (start : list Z) :
  (forall tc, Inv tc -> rk tc < N ->
              exists tc', next tc = Ok tc' /\ Inv tc' /\ rk tc' = rk tc + 1) ->
  (forall c1 c2, Inv c1 -> Inv c2 -> rk c1 = rk c2 -> c1 = c2) ->
  (forall c, P c <-> Inv c /\ 0 <= rk c < N) ->
  Inv start -> rk start = 0 -> 0 <= N ->
  exists visited final,
    walk next (Z.to_nat N) start = Ok (visited ++ [final]) /\
    NoDup visited /\ (forall c, In c visited <-> P c) /\
    Inv final /\ rk final = N.
Proof.
  intros Hstep Hinj HP HI H0 HN.
  destruct (walk_ranks next Inv rk N Hstep (Z.to_nat N) start HI ltac:(lia))
    as (visited & final & Hw & HF & Hm & HIf & Hrf).
  exists visited, final. split; [exact Hw|].
  rewrite H0 in Hm.
  split; [|split; [|split; [exact HIf|lia]]].
  - apply (NoDup_map_inv rk). rewrite Hm. apply NoDup_ranks.
  - intros c. rewrite HP. split.
    + intros Hc. split; [rewrite Forall_forall in HF; apply HF, Hc|].
      apply (in_map rk) in Hc. rewrite Hm in Hc.
      apply in_map_iff in Hc as (j & Hj & Hin). apply in_seq in Hin. lia.
    + intros [Hc Hr].
      assert (Hin : In (rk c) (map rk visited)).
      { rewrite Hm. apply in_map_iff. exists (Z.to_nat (rk c)).
        split; [lia|]. apply in_seq. lia. }
      apply in_map_iff in Hin as (v & Hv & Hin).
      rewrite Forall_forall in HF.
      rewrite <- (Hinj v c (HF v Hin) Hc Hv). exact Hin.
Qed.

Lemma in_box_rev box c : in_box box c <-> in_box (rev box) (rev c).
Proof.
  assert (G : forall b d, in_box b d -> in_box (rev b) (rev d)).
  { induction 1 as [|b x r c' Hx _ IH]; [constructor|].
    simpl. apply Forall2_app; [exact IH|]. repeat constructor; lia. }
  split; [apply G|]. intros H. apply G in H. rewrite !rev_involutive in H. exact H.
Qed.

Lemma tiles_rev box : tiles (rev box) = tiles box.
Proof. unfold tiles. rewrite map_rev. apply cells_rev. Qed.

Lemma bounds_ordered T box :
  Forall (fun b => fst b <= snd b /\ fits T (fst b) /\ fits T (snd b + 1)) box ->
  Forall (fun b => fst b <= snd b) box.
Proof. apply Forall_impl. intros a Ha. tauto. Qed.


(* ================================================================= *)
(** * Further properties *)

(** ** Lookup of attributes *)

(** The search loop of [attribute_id] over the names at [i], [i+1], ... *)
Lemma attribute_search (l : list string) (a : string) :
  forall n i,
    0 <= i -> (Z.to_nat i + n <= length l)%nat ->
    exists r,
      for_break_from i n
        (fun i (found : option Z) =>
           b <- at_ l i ;;
           if String.eqb b a then Ok (Some i, true) else Ok (found, false))
        None = Ok r /\
      match r with
      | Some j => i <= j < i + Z.of_nat n /\ at_ l j = Ok a /\
                  forall k b, i <= k < j -> at_ l k = Ok b -> b <> a
      | None => forall k b, i <= k < i + Z.of_nat n -> at_ l k = Ok b -> b <> a
      end.
Proof.
  induction n as [|n IH]; intros i Hi Hn.
  - exists None. split; [reflexivity|]. intros k b Hk. lia.
  - cbn [for_break_from].
    destruct (at_in_range l i) as (b & Hb); [unfold len; lia|].
    rewrite Hb. cbn [bind].
    destruct (String.eqb_spec b a) as [->|Hne].
    + exists (Some i). split; [reflexivity|].
      split; [lia|]. split; [exact Hb|]. intros k b Hk. lia.
    + destruct (IH (i + 1) ltac:(lia) ltac:(lia)) as (r & Hr & Hp).
      exists r. cbn [bind]. split; [exact Hr|].
      destruct r as [j|].
      * destruct Hp as (Hj & Hat & Hbefore). split; [lia|]. split; [exact Hat|].
        intros k c Hk Hc. destruct (Z.eq_dec k i) as [->|Hki].
        -- rewrite Hb in Hc. inversion Hc; subst. exact Hne.
        -- apply (Hbefore k); [lia|exact Hc].
      * intros k c Hk Hc. destruct (Z.eq_dec k i) as [->|Hki].
        -- rewrite Hb in Hc. inversion Hc; subst. exact Hne.
        -- apply (Hp k); [lia|exact Hc].
Qed.

Lemma at_In {A : Type} (l : list A) i a : at_ l i = Ok a -> In a l.
Proof.
  intros H. apply at_Ok_inv in H as [_ H]. eapply nth_error_In, H.
Qed.

Lemma In_at {A : Type} (l : list A) a :
  In a l -> exists i, 0 <= i < len l /\ at_ l i = Ok a.
Proof.
  intros H. apply In_nth_error in H as (n & Hn).
  exists (Z.of_nat n). split; [|apply at_nth, Hn].
  assert (n < length l)%nat by (apply nth_error_Some; congruence).
  unfold len. lia.
Qed.

Lemma at_app_left {A : Type} (l1 l2 : list A) i :
  i < len l1 -> at_ (l1 ++ l2) i = at_ l1 i.
Proof.
  intros Hi. unfold at_. destruct (Z.ltb_spec i 0); [reflexivity|].
  rewrite nth_error_app1 by (unfold len in Hi; lia). reflexivity.
Qed.

(** What [attribute_id] returns, for a schema whose attribute names end
    with the coordinates name. *)
Lemma attribute_id_cases E ERR S names a :
  attributes_ S = names ++ [TILEDB_COORDS_NAME E] ->
  len names = attribute_num_ S ->
  (a = TILEDB_COORDS_NAME E /\ attribute_id E ERR S a = Ok (attribute_num_ S)) \/
  (a <> TILEDB_COORDS_NAME E /\
   exists j, attribute_id E ERR S a = Ok j /\
             0 <= j < attribute_num_ S /\ at_ names j = Ok a /\
             forall k b, 0 <= k < j -> at_ names k = Ok b -> b <> a) \/
  (a <> TILEDB_COORDS_NAME E /\ ~ In a names /\ attribute_id E ERR S a = Ok ERR).
Proof.
  intros Hs Hn. unfold attribute_id.
  destruct (String.eqb_spec a (TILEDB_COORDS_NAME E)) as [->|Hne]; [left; auto|].
  right.
  destruct (attribute_search (attributes_ S) a (Z.to_nat (attribute_num_ S)) 0)
    as (r & Hr & Hp).
  { lia. }
  { rewrite Hs, length_app. unfold len in Hn. simpl. lia. }
  rewrite Hr. cbn [bind].
  assert (Hlt : forall k, k < 0 + Z.of_nat (Z.to_nat (attribute_num_ S)) ->
                          at_ (attributes_ S) k = at_ names k).
  { intros k Hk. rewrite Hs. apply at_app_left. unfold len in *. lia. }
  destruct r as [j|].
  - left. split; [exact Hne|]. exists j. destruct Hp as (Hj & Hat & Hbefore).
    split; [reflexivity|]. split; [lia|].
    split; [rewrite <- Hlt by lia; exact Hat|].
    intros k b Hk Hb. apply (Hbefore k); [lia|]. rewrite Hlt by lia. exact Hb.
  - right. split; [exact Hne|]. split; [|reflexivity].
    intros Hin. apply In_at in Hin as (k & Hk & Hat).
    apply (Hp k a); [lia| |reflexivity].
    rewrite Hlt by lia. exact Hat.
Qed.

(** What [attribute_id] returns, for a name of the schema and for any
    other name. *)
Lemma attribute_id_lookup
        (E : Env) (ERR : Z) (S : ArraySchema) (names : list string) (a : string) :
  attributes_ S = names ++ [TILEDB_COORDS_NAME E] ->
  len names = attribute_num_ S ->
  (In a (attributes_ S) ->
   exists i, attribute_id E ERR S a = Ok i /\
             0 <= i <= attribute_num_ S /\ attribute S i = Ok a) /\
  (~ In a (attributes_ S) -> attribute_id E ERR S a = Ok ERR).
Proof.
  intros Hs Hn.
  pose proof (len_nonneg names) as Hn0.
  destruct (attribute_id_cases E ERR S names a Hs Hn)
    as [[-> H]|[(Hne & j & H & Hj & Hat & _)|(Hne & Hnot & H)]].
  - split.
    + intros _. exists (attribute_num_ S). split; [exact H|]. split; [lia|].
      unfold attribute.
      replace ((0 <=? attribute_num_ S) && (attribute_num_ S <=? attribute_num_ S))
        with true by (symmetry; apply andb_true_iff; split; apply Z.leb_le; lia).
      cbn [assert bind]. rewrite Hs, <- Hn. apply at_middle.
    + intros Hnot. exfalso. apply Hnot. rewrite Hs. apply in_or_app. right. left.
      reflexivity.
  - split.
    + intros _. exists j. split; [exact H|]. split; [lia|].
      unfold attribute.
      replace ((0 <=? j) && (j <=? attribute_num_ S))
        with true by (symmetry; apply andb_true_iff; split; apply Z.leb_le; lia).
      cbn [assert bind]. rewrite Hs, at_app_left by lia. exact Hat.
    + intros Hnot. exfalso. apply Hnot. rewrite Hs. apply in_or_app. left.
      eapply at_In, Hat.
  - split.
    + intros Hin. exfalso. rewrite Hs in Hin. apply in_app_or in Hin as [Hin|Hin].
      * contradiction.
      * destruct Hin as [Hin|[]]. congruence.
    + intros _. exact H.
Qed.

(** X1: on a schema whose attribute names are followed by the coordinates
    name, [attribute_id] of a name among them returns an id at which
    [attribute] gives the name back; and for any other name it returns
    [TILEDB_AS_ERR]. *)
Theorem attribute_id_finds_the_name
        (E : Env) (ERR : Z) (S : ArraySchema) (names : list string) (a : string) :
  attributes_ S = names ++ [TILEDB_COORDS_NAME E] ->
  len names = attribute_num_ S ->
  (In a (attributes_ S) ->
   exists i, attribute_id E ERR S a = Ok i /\
             0 <= i <= attribute_num_ S /\ attribute S i = Ok a) /\
  (~ In a (attributes_ S) -> attribute_id E ERR S a = Ok ERR).
Proof.
  intros Hs Hn. split.
  - intros Hin. apply (attribute_id_lookup E ERR S names a Hs Hn). exact Hin.
  - intros Hout. apply (attribute_id_lookup E ERR S names a Hs Hn). exact Hout.
Qed.

Lemma attribute_id_finds_the_name_witness :
  (In "v"%string (attributes_ S1_schema) ->
   exists i, attribute_id spec_env (-1) S1_schema "v" = Ok i /\
             0 <= i <= attribute_num_ S1_schema /\
             attribute S1_schema i = Ok "v"%string) /\
  (~ In "v"%string (attributes_ S1_schema) ->
   attribute_id spec_env (-1) S1_schema "v" = Ok (-1)).
Proof.
  apply (@attribute_id_finds_the_name spec_env (-1) S1_schema ["v"%string] "v"%string).
  - reflexivity.
  - reflexivity.
Defined.

Lemma at_NoDup {A : Type} (l : list A) i j a :
  NoDup l -> at_ l i = Ok a -> at_ l j = Ok a -> i = j.
Proof.
  intros Hnd Hi Hj.
  apply at_Ok_inv in Hi as [Hi0 Hi]. apply at_Ok_inv in Hj as [Hj0 Hj].
  rewrite NoDup_nth_error in Hnd.
  assert (Z.to_nat i = Z.to_nat j).
  { apply Hnd; [unfold len in Hi0; lia|congruence]. }
  lia.
Qed.

Lemma attribute_Ok_inv S i a :
  attribute S i = Ok a -> 0 <= i <= attribute_num_ S /\ at_ (attributes_ S) i = Ok a.
Proof.
  unfold attribute. intros H.
  destruct ((0 <=? i) && (i <=? attribute_num_ S)) eqn:Hb; [|discriminate H].
  apply andb_true_iff in Hb as [H1 H2]. apply Z.leb_le in H1, H2.
  split; [lia|exact H].
Qed.

(** X2: when the attribute names of the schema are pairwise different,
    [attribute_id] is the inverse of [attribute]: the id of the name at
    position [i] is [i]. *)
Theorem attribute_id_of_attribute
        (E : Env) (ERR : Z) (S : ArraySchema) (names : list string)
        (i : Z) (a : string) :
  attributes_ S = names ++ [TILEDB_COORDS_NAME E] ->
  len names = attribute_num_ S ->
  NoDup (attributes_ S) ->
  attribute S i = Ok a ->
  attribute_id E ERR S a = Ok i.
Proof.
  intros Hs Hn Hnd Ha.
  apply attribute_Ok_inv in Ha as [Hi Ha].
  destruct (attribute_id_cases E ERR S names a Hs Hn)
    as [[-> H]|[(Hne & j & H & Hj & Hat & _)|(Hne & Hnot & H)]].
  - rewrite H. f_equal. apply (at_NoDup (attributes_ S) _ _ (TILEDB_COORDS_NAME E));
      try assumption.
    rewrite Hs, <- Hn. apply at_middle.
  - rewrite H. f_equal. apply (at_NoDup (attributes_ S) _ _ a); try assumption.
    rewrite Hs, at_app_left by lia. exact Hat.
  - exfalso. apply at_In in Ha. rewrite Hs in Ha.
    apply in_app_or in Ha as [Ha|[Ha|[]]]; [contradiction|congruence].
Qed.

Lemma attribute_id_of_attribute_witness :
  attribute_id spec_env (-1) S4_schema "w" = Ok 1.
Proof.
  apply (@attribute_id_of_attribute spec_env (-1) S4_schema
           ["v"%string; "w"%string] 1 "w"%string).
  - reflexivity.
  - reflexivity.
  - repeat constructor; simpl; intuition discriminate.
  - reflexivity.
Defined.

(** The loop of [get_attribute_ids], name by name. *)
Lemma get_attribute_ids_fold E ERR S l :
  len l <= INT_MAX ->
  get_attribute_ids E ERR S l
  = fold_res (fun a ids =>
                id <- attribute_id E ERR S a ;;
                if id =? ERR then Err else Ok (ids ++ [id])) l [].
Proof.
  intros Hl. unfold get_attribute_ids.
  pose proof (len_nonneg l) as H0.
  rewrite to_int_small by (unfold in_int, in_range, INT_MAX in *; lia).
  rewrite (for_loop_fold l _
             (fun a ids =>
                id <- attribute_id E ERR S a ;;
                if id =? ERR then Err else Ok (ids ++ [id]))).
  - unfold len. rewrite Nat2Z.id, firstn_all. reflexivity.
  - intros i a st Hi. rewrite (at_nth _ _ _ Hi). reflexivity.
  - lia.
Qed.

(** X3: with an error value that is no id (negative) and a schema whose
    attribute names are followed by the coordinates name,
    [get_attribute_ids] returns the ids of the given names, each of which
    [attribute] maps back to its name, when all the names are attribute
    names of the schema; and it returns an error as soon as one is not. *)
Theorem get_attribute_ids_all_or_error
        (E : Env) (ERR : Z) (S : ArraySchema) (names l : list string) :
  attributes_ S = names ++ [TILEDB_COORDS_NAME E] ->
  len names = attribute_num_ S ->
  ERR < 0 -> len l <= INT_MAX ->
  (Forall (fun a => In a (attributes_ S)) l ->
   exists ids, get_attribute_ids E ERR S l = Ok ids /\
               Forall2 (fun a i => attribute S i = Ok a) l ids) /\
  (~ Forall (fun a => In a (attributes_ S)) l ->
   get_attribute_ids E ERR S l = Err).
Proof.
  intros Hs Hn Herr Hl. rewrite get_attribute_ids_fold by exact Hl. clear Hl.
  assert (G : forall acc,
             (Forall (fun a => In a (attributes_ S)) l ->
              exists ids,
                fold_res (fun a ids =>
                            id <- attribute_id E ERR S a ;;
                            if id =? ERR then Err else Ok (ids ++ [id])) l acc
                = Ok (acc ++ ids) /\
                Forall2 (fun a i => attribute S i = Ok a) l ids) /\
             (~ Forall (fun a => In a (attributes_ S)) l ->
              fold_res (fun a ids =>
                          id <- attribute_id E ERR S a ;;
                          if id =? ERR then Err else Ok (ids ++ [id])) l acc
              = Err)).
  { induction l as [|a l IH]; intros acc.
    - split.
      + intros _. exists []. rewrite app_nil_r. split; [reflexivity|constructor].
      + intros H. exfalso. apply H. constructor.
    - cbn [fold_res].
      destruct (attribute_id_lookup E ERR S names a Hs Hn) as [Hin Hout].
      destruct (in_dec string_dec a (attributes_ S)) as [Ha|Ha].
      + destruct (Hin Ha) as (i & Hi & Hr & Hat). rewrite Hi. cbn [bind].
        destruct (Z.eqb_spec i ERR) as [->|_]; [lia|]. cbn [bind].
        destruct (IH (acc ++ [i])) as [IH1 IH2]. split.
        * intros HF. inversion HF as [|? ? _ HF']; subst.
          destruct (IH1 HF') as (ids & Hf & H2).
          exists (i :: ids). rewrite Hf, <- app_assoc. split; [reflexivity|].
          constructor; assumption.
        * intros HF. apply IH2. intros HF'. apply HF. constructor; assumption.
      + rewrite (Hout Ha). cbn [bind]. rewrite Z.eqb_refl. split.
        * intros HF. inversion HF; subst. contradiction.
        * intros _. reflexivity. }
  exact (G []).
Qed.

Lemma get_attribute_ids_all_or_error_witness :
  (Forall (fun a => In a (attributes_ S4_schema)) ["w"%string; "__coords"%string] ->
   exists ids,
     get_attribute_ids spec_env (-1) S4_schema ["w"%string; "__coords"%string] = Ok ids /\
     Forall2 (fun a i => attribute S4_schema i = Ok a)
       ["w"%string; "__coords"%string] ids) /\
  (~ Forall (fun a => In a (attributes_ S4_schema)) ["w"%string; "__coords"%string] ->
   get_attribute_ids spec_env (-1) S4_schema ["w"%string; "__coords"%string] = Err).
Proof.
  apply (@get_attribute_ids_all_or_error spec_env (-1) S4_schema
           ["v"%string; "w"%string] ["w"%string; "__coords"%string]).
  - reflexivity.
  - reflexivity.
  - lia.
  - vm_compute. discriminate.
Defined.

(* ================================================================= *)
(** ** The length of the buffers [deserialize] accepts *)

Lemma follows_bind {A B : Type} (P : A -> Prop) (P2 : B -> Prop)
      (m' m : res A) (k' k : A -> res B) :
  follows P m' m -> (forall a, P a -> follows P2 (k' a) (k a)) ->
  follows P2 (bind m' k') (bind m k).
Proof.
  intros Hm Hk b Hb. apply bind_Ok_inv in Hb as (a & Ha & Hb).
  destruct (Hm a Ha) as [->|[-> HP]]; [left; reflexivity|].
  cbn [bind]. apply (Hk a HP b Hb).
Qed.

Lemma follows_same {A : Type} (m : res A) : follows (fun _ => True) m m.
Proof. intros a Ha. right. auto. Qed.

Lemma follows_loop {St : Type} (Inv : St -> Prop)
      (body' body : Z -> St -> res St) :
  (forall i st, Inv st -> follows Inv (body' i st) (body i st)) ->
  forall n i st,
    Inv st ->
    follows Inv (for_loop_from i n body' st) (for_loop_from i n body st).
Proof.
  intros Hb. induction n as [|n IH]; intros i st HI.
  - intros a Ha. right. simpl in *. inversion Ha; subst. auto.
  - cbn [for_loop_from]. eapply follows_bind; [apply Hb, HI|].
    intros a Ha. apply IH, Ha.
Qed.

Lemma firstn_skipn_agree {A : Type} (b b' : list A) L o n :
  firstn L b = firstn L b' -> (o + n <= L)%nat ->
  firstn n (skipn o b) = firstn n (skipn o b').
Proof.
  intros H Hle.
  assert (G : forall l : list A,
             firstn n (skipn o l) = firstn n (skipn o (firstn L l))).
  { intros l. rewrite skipn_firstn_comm, firstn_firstn.
    f_equal. lia. }
  rewrite (G b), (G b'), H. reflexivity.
Qed.

Section Lengths.

Variables b b' : list byte.
Let L := Z.min (len b) (len b').
Hypothesis agree : firstn (Z.to_nat L) b = firstn (Z.to_nat L) b'.
Hypothesis small : len b < 2 ^ 63.

Lemma get_follows strict n o :
  0 <= o <= L -> n < 2 ^ 63 ->
  follows (fun p => 0 <= snd p <= L) (get b' strict n o) (get b strict n o).
Proof.
  intros Ho Hn [bs o2] H. unfold get in *.
  apply bind_Ok_inv in H as ([] & Ha & H).
  destruct (Z.ltb_spec n 0) as [Hneg|Hpos]; [discriminate H|].
  inversion H; subst bs o2; clear H.
  assert (Hw : to_size_t (o + n) = o + n).
  { apply to_size_t_small. unfold L in Ho. lia. }
  rewrite Hw in *.
  assert (Hin : o + n <= len b).
  { unfold assert in Ha. destruct strict.
    - destruct (Z.ltb_spec (o + n) (len b)); [lia|discriminate Ha].
    - destruct (Z.leb_spec (o + n) (len b)); [lia|discriminate Ha]. }
  destruct (if strict then o + n <? len b' else o + n <=? len b') eqn:Hb';
    [|left; reflexivity].
  right. cbn [assert bind].
  assert (Hin' : o + n <= len b').
  { destruct strict.
    - apply Z.ltb_lt in Hb'. lia.
    - apply Z.leb_le in Hb'. lia. }
  split; [|cbn [snd]; unfold L; lia].
  f_equal. f_equal. symmetry.
  apply (firstn_skipn_agree b b' (Z.to_nat L)); [exact agree|].
  unfold L. lia.
Qed.

Lemma to_int_lt z : to_int z < 2 ^ 63.
Proof.
  pose proof (wrap_signed_range 32 z ltac:(lia)) as [_ H]. unfold to_int.
  simpl in H. lia.
Qed.

Lemma get_string_follows o :
  0 <= o <= L ->
  follows (fun p => 0 <= snd p <= L) (get_string b' o) (get_string b o).
Proof.
  intros Ho. unfold get_string.
  eapply follows_bind; [apply get_follows; [exact Ho|lia]|].
  intros [bs o1] Ho1. cbn [snd] in Ho1. cbv beta iota.
  destruct (to_int (le_value bs) <? 0); [intros a Ha; discriminate Ha|].
  eapply follows_bind; [apply get_follows; [exact Ho1|apply to_int_lt]|].
  intros [bs2 o2] Ho2. cbv beta iota.
  intros a Ha. right. inversion Ha; subst. split; [reflexivity|exact Ho2].
Qed.

Lemma follows_ret {A : Type} (P : A -> Prop) (a : A) :
  P a -> follows P (Ok a) (Ok a).
Proof. intros HP x Hx. inversion Hx; subst. right. auto. Qed.

Lemma follows_pure {A B : Type} (P2 : B -> Prop) (m : res A) (k' k : A -> res B) :
  (forall a, follows P2 (k' a) (k a)) -> follows P2 (bind m k') (bind m k).
Proof.
  intros Hk. eapply follows_bind; [apply follows_same|]. intros a _. apply Hk.
Qed.

Ltac read_step Ho H :=
  eapply follows_bind;
  [ first [ apply get_string_follows; exact Ho
          | apply get_follows; [exact Ho | first [lia | apply to_int_lt]] ]
  | let bs := fresh "bs" in let o := fresh "o" in
    intros [bs o] H; cbn [snd] in H; cbv beta iota zeta ].

(** A buffer that [deserialize] accepts and another one that agrees with
    it as far as both go, of another length. *)
Lemma deserialize_follows E S0 :
  len b <> len b' ->
  follows (fun _ => False) (deserialize E b' S0) (deserialize E b S0).
Proof.
  intros Hlen. unfold deserialize. cbv zeta.
  assert (Ho : 0 <= 0 <= L).
  { unfold L. pose proof (len_nonneg b). pose proof (len_nonneg b'). lia. }
  read_step Ho H0. clear Ho.
  read_step H0 H1. read_step H1 H2. read_step H2 H3. read_step H3 H4.
  read_step H4 H5. read_step H5 H6. read_step H6 H7.
  apply follows_pure. intros _.
  (* attributes *)
  eapply follows_bind.
  { unfold for_loop. apply (follows_loop (fun p => 0 <= snd p <= L)).
    - intros i [attrs o'] Hi. cbn [snd] in Hi.
      eapply follows_bind; [apply get_string_follows; exact Hi|].
      intros [a o''] Ha. cbv beta iota. apply follows_ret. exact Ha.
    - exact H7. }
  intros [attributes o8] H8. cbn [snd] in H8. cbv beta iota zeta.
  read_step H8 H9.
  apply follows_pure. intros _.
  (* dimensions *)
  eapply follows_bind.
  { unfold for_loop. apply (follows_loop (fun p => 0 <= snd p <= L)).
    - intros i [dims o'] Hi. cbn [snd] in Hi.
      eapply follows_bind; [apply get_string_follows; exact Hi|].
      intros [a o''] Ha. cbv beta iota. apply follows_ret. exact Ha.
    - exact H9. }
  intros [dimensions o10] H10. cbn [snd] in H10. cbv beta iota zeta.
  (* domain, tile extents *)
  read_step H10 H11. read_step H11 H12. read_step H12 H13.
  eapply follows_bind with (P := fun p => 0 <= snd p <= L).
  { match goal with |- context [if ?c then _ else _] => destruct c end.
    - apply follows_ret. exact H13.
    - read_step H13 H14. apply follows_ret. exact H14. }
  intros [S1 o14] H14. cbn [snd] in H14. cbv beta iota zeta.
  apply follows_pure. intros types.
  apply follows_pure. intros type_sizes.
  (* types *)
  eapply follows_bind.
  { unfold for_loop. apply (follows_loop (fun p => 0 <= snd p <= L)).
    - intros i [[tys szs] o'] Hi. cbn [snd] in Hi.
      read_step Hi H15.
      match goal with |- context [match ?c with _ => _ end] => destruct c end.
      + apply follows_pure. intros tys'. apply follows_pure. intros szs'.
        apply follows_ret. exact H15.
      + apply follows_ret. exact H15.
    - exact H14. }
  intros [[types' sizes'] o15] H15. cbn [snd] in H15. cbv beta iota zeta.
  apply follows_pure. intros val_num.
  (* val_num *)
  eapply follows_bind.
  { unfold for_loop. apply (follows_loop (fun p => 0 <= snd p <= L)).
    - intros i [S2 o'] Hi. cbn [snd] in Hi.
      read_step Hi H16. apply follows_pure. intros vn.
      apply follows_ret. exact H16.
    - exact H15. }
  intros [S2 o16] H16. cbn [snd] in H16. cbv beta iota zeta.
  (* compression *)
  eapply follows_bind.
  { unfold for_loop. apply (follows_loop (fun p => 0 <= snd p <= L)).
    - intros i [S3 o'] Hi. cbn [snd] in Hi.
      read_step Hi H17. apply follows_ret. exact H17.
    - exact H16. }
  intros [S3 o17] H17. cbn [snd] in H17. cbv beta iota zeta.
  (* the final assertion *)
  intros a Ha. left.
  apply bind_Ok_inv in Ha as ([] & Hassert & _).
  unfold assert in Hassert.
  destruct (Z.eqb_spec o17 (len b)) as [He|]; [|discriminate Hassert].
  destruct (Z.eqb_spec o17 (len b')) as [He'|Hne]; [|reflexivity].
  exfalso. apply Hlen. congruence.
Qed.

End Lengths.
(** X4: when [deserialize] accepts a buffer, it stops at a failed
    assertion on every buffer of another length that agrees with it as
    far as both go: on every proper prefix of the buffer, and on the
    buffer followed by more bytes. *)
Theorem deserialize_accepts_one_length
        (E : Env) (b b' : list byte) (S0 S : ArraySchema) :
  firstn (Z.to_nat (Z.min (len b) (len b'))) b
  = firstn (Z.to_nat (Z.min (len b) (len b'))) b' ->
  len b < 2 ^ 63 ->
  len b <> len b' ->
  deserialize E b S0 = Ok S ->
  deserialize E b' S0 = Fail.
Proof.
  intros Hagree Hsmall Hlen H.
  destruct (deserialize_follows b b' Hagree Hsmall E S0 Hlen S H) as [Hf|[_ []]].
  exact Hf.
Qed.

Lemma deserialize_accepts_one_length_witness :
  deserialize spec_env (S1_bytes ++ [x00]) ArraySchema_new = Fail.
Proof.
  apply (@deserialize_accepts_one_length
           spec_env S1_bytes (S1_bytes ++ [x00]) ArraySchema_new S1_schema).
  - vm_compute. reflexivity.
  - vm_compute. reflexivity.
  - vm_compute. discriminate.
  - vm_compute. reflexivity.
Defined.

(* ================================================================= *)
(** ** What [init] accepts *)

Lemma set_types_attribute_dense E types i S S' :
  set_types_attribute E types i S = Ok S' -> dense_ S' = dense_ S.
Proof.
  unfold set_types_attribute. intros H.
  apply bind_Ok_inv in H as (tv & _ & H).
  destruct (strtok_all tv) as [|ty rest]; [discriminate H|].
  apply bind_Ok_inv in H as (S1 & H1 & H).
  destruct (type_of_name ty); [|discriminate H].
  inversion H; subst S'; clear H. cbn.
  destruct rest as [|tok rest']; [inversion H1; reflexivity|].
  apply bind_Ok_inv in H1 as (S2 & H1 & H2).
  destruct rest'; [|discriminate H2]. inversion H2; subst S2; clear H2.
  destruct (String.eqb tok "var"); [inversion H1; reflexivity|].
  destruct (negb (is_positive_integer E tok)); [discriminate H1|].
  apply bind_Ok_inv in H1 as (num & _ & H1). inversion H1; reflexivity.
Qed.

Lemma set_types_dense E types S S' :
  set_types E types S = Ok S' -> dense_ S' = dense_ S.
Proof.
  unfold set_types. intros H. destruct types as [types|]; [|discriminate H].
  apply bind_Ok_inv in H as (S1 & H1 & H).
  apply (for_loop_preserves (fun s => dense_ s = dense_ S)) in H1;
    [| intros j s s' Hs Hb; rewrite <- Hs; eapply set_types_attribute_dense, Hb
     | reflexivity ].
  apply bind_Ok_inv in H as (ty & _ & H).
  apply bind_Ok_inv in H as (S2 & H2 & H).
  apply bind_Ok_inv in H as (tsz & _ & H).
  apply bind_Ok_inv in H as (csz & _ & H).
  inversion H; subst S'; clear H. cbn.
  destruct (String.eqb ty "char:var").
  - apply bind_Ok_inv in H2 as (d & _ & H2). inversion H2; subst S2. exact H1.
  - destruct (dense_ (with_key_value_ false S1) &&
              (String.eqb ty "float32" || String.eqb ty "float64"));
      [discriminate H2|].
    destruct (String.eqb ty "int32"); [inversion H2; subst S2; exact H1|].
    destruct (String.eqb ty "int64"); [inversion H2; subst S2; exact H1|].
    destruct (String.eqb ty "float32"); [inversion H2; subst S2; exact H1|].
    destruct (String.eqb ty "float64"); [inversion H2; subst S2; exact H1|].
    discriminate H2.
Qed.

Lemma order_token (o : string) :
  (if String.eqb o "row-major" then true
   else if String.eqb o "column-major" then true
   else String.eqb o "hilbert") = true ->
  o = "row-major"%string \/ o = "column-major"%string \/ o = "hilbert"%string.
Proof.
  destruct (String.eqb_spec o "row-major"); [auto|].
  destruct (String.eqb_spec o "column-major"); [auto|].
  destruct (String.eqb_spec o "hilbert"); [auto|discriminate].
Qed.

(** X5: [init] returns with success only when the attributes, the
    dimensions, the types and the domain are given, the numbers of
    attributes and dimensions are positive, a dense array comes with tile
    extents, and the orders, when given, are one of the three known
    tokens. *)
Theorem init_requires_its_inputs
        (E : Env) (c : C_API.ArraySchemaC) (S0 S : ArraySchema) :
  init E c S0 = Ok S ->
  C_API.attributes_ c <> None /\ 0 < C_API.attribute_num_ c /\
  C_API.dimensions_ c <> None /\ 0 < C_API.dim_num_ c /\
  C_API.types_ c <> None /\ C_API.domain_ c <> None /\
  (C_API.dense_ c <> 0 -> C_API.tile_extents_ c <> None) /\
  (forall o, C_API.cell_order_ c = Some o ->
             o = "row-major"%string \/ o = "column-major"%string \/
             o = "hilbert"%string) /\
  (forall o, C_API.tile_order_ c = Some o ->
             o = "row-major"%string \/ o = "column-major"%string \/
             o = "hilbert"%string).
Proof.
  intros H.
  apply init_steps in H as (S2 & S4 & S5 & S8 & S9 & S10 & S11 & S12
      & H2 & H4 & H5 & H8 & H9 & H10 & H11 & H12 & _).
  split; [intros Hx; rewrite Hx in H2; discriminate H2|].
  split; [apply set_attributes_shape in H2 as [Hn _]; exact Hn|].
  split; [intros Hx; rewrite Hx in H4; discriminate H4|].
  split; [apply set_dimensions_shape in H4 as [Hn _]; exact Hn|].
  split; [intros Hx; rewrite Hx in H8; discriminate H8|].
  split; [intros Hx; rewrite Hx in H12; discriminate H12|].
  split.
  - intros Hd Hx. rewrite Hx in H9. unfold set_tile_extents in H9.
    rewrite (set_types_dense _ _ _ _ H8) in H9. unfold set_dense in H9.
    cbn in H9. destruct (Z.eqb_spec (C_API.dense_ c) 0); [contradiction|].
    discriminate H9.
  - split.
    + intros o Ho. rewrite Ho in H10. unfold set_cell_order in H10.
      apply order_token.
      destruct (String.eqb o "row-major"); [reflexivity|].
      destruct (String.eqb o "column-major"); [reflexivity|].
      destruct (String.eqb o "hilbert"); [reflexivity|discriminate H10].
    + intros o Ho. rewrite Ho in H11. unfold set_tile_order in H11.
      apply order_token.
      destruct (String.eqb o "row-major"); [reflexivity|].
      destruct (String.eqb o "column-major"); [reflexivity|].
      destruct (String.eqb o "hilbert"); [reflexivity|discriminate H11].
Qed.

Lemma init_requires_its_inputs_witness :
  C_API.attributes_ S4_input <> None /\ 0 < C_API.attribute_num_ S4_input /\
  C_API.dimensions_ S4_input <> None /\ 0 < C_API.dim_num_ S4_input /\
  C_API.types_ S4_input <> None /\ C_API.domain_ S4_input <> None /\
  (C_API.dense_ S4_input <> 0 -> C_API.tile_extents_ S4_input <> None) /\
  (forall o, C_API.cell_order_ S4_input = Some o ->
             o = "row-major"%string \/ o = "column-major"%string \/
             o = "hilbert"%string) /\
  (forall o, C_API.tile_order_ S4_input = Some o ->
             o = "row-major"%string \/ o = "column-major"%string \/
             o = "hilbert"%string).
Proof.
  apply (@init_requires_its_inputs spec_env S4_input ArraySchema_new S4_schema).
  vm_compute. reflexivity.
Defined.

(* ================================================================= *)
(** ** The schema [init] builds *)

Lemma finalize_steps E S S' :
  finalize E S = Ok S' ->
  exists S1 S2 S3,
    compute_cell_num_per_tile S = Ok S1 /\
    compute_tile_sizes E S1 = Ok S2 /\
    compute_tile_domain E S2 = Ok S3 /\
    init_hilbert_curve E S3 = Ok S' /\
    S1 = with_cell_num_per_tile_ (cell_num_per_tile_ S') S /\
    S2 = with_tile_sizes_ (tile_sizes_ S') S1 /\
    S3 = with_tile_domain_ (tile_domain_ S') S2.
Proof.
  unfold finalize. intros H.
  apply bind_Ok_inv in H as (S1 & H1 & H).
  apply bind_Ok_inv in H as (S2 & H2 & H).
  apply bind_Ok_inv in H as (S3 & H3 & H).
  exists S1, S2, S3. repeat (split; [assumption|]).
  pose proof (compute_cell_num_per_tile_shape _ _ H1) as E1.
  pose proof (compute_tile_sizes_shape _ _ _ H2) as E2.
  pose proof (compute_tile_domain_shape _ _ _ H3) as E3.
  pose proof (init_hilbert_curve_shape _ _ _ H) as E4.
  assert (Htd : tile_domain_ S' = tile_domain_ S3) by (rewrite E4; reflexivity).
  assert (Hts : tile_sizes_ S' = tile_sizes_ S2)
    by (rewrite E4, E3; reflexivity).
  assert (Hc : cell_num_per_tile_ S' = cell_num_per_tile_ S1)
    by (rewrite E4, E3, E2; reflexivity).
  rewrite Htd, Hts, Hc. auto.
Qed.

(** The state [init] has reached after [set_types], and what the later
    steps change. *)
Lemma init_tail E c S0 S :
  init E c S0 = Ok S ->
  exists S8 S9 S10 S11 S12,
    dense_ S8 = negb (C_API.dense_ c =? 0) /\
    set_tile_extents (C_API.tile_extents_ c) S8 = Ok S9 /\
    set_cell_order E (C_API.cell_order_ c) S9 = Ok S10 /\
    set_tile_order E (C_API.tile_order_ c) S10 = Ok S11 /\
    set_domain (C_API.domain_ c) S11 = Ok S12 /\
    finalize E S12 = Ok S /\
    S9 = with_tile_extents_ (tile_extents_ S9) S8 /\
    S10 = with_cell_order_ (cell_order_ S10) S9 /\
    S11 = with_tile_order_ (tile_order_ S11) S10 /\
    S12 = with_domain_ (domain_ S12) S11 /\
    S = with_hilbert_curve_ (hilbert_curve_ S)
          (with_hilbert_bits_ (hilbert_bits_ S)
             (with_coords_for_hilbert_ (coords_for_hilbert_ S)
                (with_tile_domain_ (tile_domain_ S)
                   (with_tile_sizes_ (tile_sizes_ S)
                      (with_cell_num_per_tile_ (cell_num_per_tile_ S) S12))))).
Proof.
  intros H.
  apply init_steps in H as (S2 & S4 & S5 & S8 & S9 & S10 & S11 & S12
      & H2 & H4 & H5 & H8 & H9 & H10 & H11 & H12 & Hfin).
  exists S8, S9, S10, S11, S12.
  split; [rewrite (set_types_dense _ _ _ _ H8); reflexivity|].
  repeat (split; [assumption|]).
  split; [apply set_tile_extents_shape in H9; exact H9|].
  split; [apply set_cell_order_shape in H10; exact H10|].
  split; [apply set_tile_order_shape in H11; exact H11|].
  split; [apply set_domain_shape in H12; exact H12|].
  apply finalize_shape in Hfin. exact Hfin.
Qed.

Lemma init_dense_tiles
      (E : Env) (c : C_API.ArraySchemaC) (S0 S : ArraySchema) :
  init E c S0 = Ok S ->
  dense_ S = true ->
  tile_extents_ S <> None /\
  (coords_type S = Ok (Some T_int) \/ coords_type S = Ok (Some T_int64_t)).
Proof.
  intros H Hd.
  destruct (init_tail E c S0 S H)
    as (S8 & S9 & S10 & S11 & S12 & Hd8 & H9 & H10 & H11 & H12 & Hfin
        & HS9 & HS10 & HS11 & HS12 & HS).
  assert (Hd12 : dense_ S12 = true).
  { rewrite HS in Hd. exact Hd. }
  assert (Hdense8 : dense_ S8 = true).
  { rewrite HS12, HS11, HS10, HS9 in Hd12. exact Hd12. }
  split.
  - assert (Hte : tile_extents_ S = tile_extents_ S9).
    { rewrite HS; members. rewrite HS12; members. rewrite HS11; members.
      rewrite HS10; members. reflexivity. }
    rewrite Hte. unfold set_tile_extents in H9.
    destruct (C_API.tile_extents_ c) as [te|].
    + apply bind_Ok_inv in H9 as (n & _ & H9).
      apply bind_Ok_inv in H9 as (bs & _ & H9). inversion H9; subst S9.
      discriminate.
    + rewrite Hdense8 in H9. discriminate H9.
  - destruct (finalize_steps E S12 S Hfin) as (S1 & _ & _ & H1 & _).
    unfold compute_cell_num_per_tile in H1. rewrite Hd12 in H1.
    apply bind_Ok_inv in H1 as (t & Ht & H1).
    assert (Hty : types_ S = types_ S12) by (rewrite HS; reflexivity).
    assert (Han : attribute_num_ S = attribute_num_ S12) by (rewrite HS; reflexivity).
    unfold coords_type, type. rewrite Hty, Han.
    assert (Hn : 0 <= attribute_num_ S12) by (apply at_Ok_inv in Ht; lia).
    destruct (Z.ltb_spec (attribute_num_ S12) 0); [lia|].
    destruct (Z.ltb_spec (attribute_num_ S12) (attribute_num_ S12)); [lia|].
    cbn [orb]. rewrite Ht.
    destruct t as [[| | | |]|]; try discriminate H1; auto.
Qed.

(** X6: a dense schema that [init] has built has tile extents, and its
    coordinates are of type [int] or [int64_t]. *)
Theorem dense_schema_has_integer_tiles
        (E : Env) (c : C_API.ArraySchemaC) (S0 S : ArraySchema) :
  init E c S0 = Ok S ->
  dense_ S = true ->
  tile_extents_ S <> None /\
  (coords_type S = Ok (Some T_int) \/ coords_type S = Ok (Some T_int64_t)).
Proof.
  intros H Hd. apply (init_dense_tiles E c S0 S H Hd).
Qed.

Lemma dense_schema_has_integer_tiles_witness :
  tile_extents_ S1_schema <> None /\
  (coords_type S1_schema = Ok (Some T_int) \/
   coords_type S1_schema = Ok (Some T_int64_t)).
Proof.
  apply (@dense_schema_has_integer_tiles spec_env S1_input ArraySchema_new S1_schema).
  - vm_compute. reflexivity.
  - reflexivity.
Defined.

Lemma split_elems_length w n bs : length (split_elems w n bs) = n.
Proof.
  revert bs. induction n as [|n IH]; intros bs; simpl; [reflexivity|].
  rewrite IH. reflexivity.
Qed.

Lemma elems_length T bs : length (elems T bs) = (length bs / Z.to_nat (sizeof T))%nat.
Proof.
  unfold elems. rewrite length_map, split_elems_length. reflexivity.
Qed.

Lemma cast_length T bs n :
  len bs = n * sizeof T -> 0 <= n -> len (cast T (Some bs)) = n.
Proof.
  intros H Hn. unfold cast, len in *. rewrite elems_length.
  pose proof (sizeof_bounds T) as Hs.
  assert (Hl : length bs = (Z.to_nat n * Z.to_nat (sizeof T))%nat) by lia.
  rewrite Hl, Nat.div_mul by lia. lia.
Qed.

(** [compute_cell_num_per_tile<T>] when the product of the extents fits
    [int64_t]. *)
Lemma compute_cell_num_per_tile_T_value T S es :
  tile_extents_ S <> None ->
  cast T (tile_extents_ S) = es -> len es = dim_num_ S ->
  Forall (fun e => 0 < e) es -> cells es < 2 ^ 63 ->
  compute_cell_num_per_tile_T T S = Ok (with_cell_num_per_tile_ (cells es) S).
Proof.
  intros Hte Hes Hn Hp Hc. unfold compute_cell_num_per_tile_T.
  destruct (tile_extents_ S) as [bs|] eqn:Hx; [|contradiction].
  rewrite Hes.
  rewrite (for_loop_fold es _
             (fun e s =>
                Ok (with_cell_num_per_tile_ (to_int64 (cell_num_per_tile_ s * e)) s))).
  2:{ intros i a st Hi. rewrite (at_nth _ _ _ Hi). reflexivity. }
  2:{ pose proof (len_nonneg es). lia. }
  rewrite <- Hn. unfold len. rewrite Nat2Z.id, firstn_all.
  assert (G : forall p,
             0 < p -> p * cells es < 2 ^ 63 ->
             fold_res (fun e s =>
                         Ok (with_cell_num_per_tile_
                               (to_int64 (cell_num_per_tile_ s * e)) s))
                      es (with_cell_num_per_tile_ p S)
             = Ok (with_cell_num_per_tile_ (p * cells es) S)).
  { clear Hn Hes Hc. induction Hp as [|e es He Hes IH]; intros p Hp Hb.
    - simpl. unfold cells. simpl. rewrite Z.mul_1_r. reflexivity.
    - rewrite cells_cons in Hb. pose proof (cells_pos es Hes) as Hpos.
      cbn [fold_res bind]. members.
      unfold to_int64. rewrite wrap_signed_id by (unfold in_range; nia).
      change (with_cell_num_per_tile_ (p * e) (with_cell_num_per_tile_ p S))
        with (with_cell_num_per_tile_ (p * e) S).
      rewrite IH by nia. rewrite cells_cons. f_equal. f_equal. lia. }
  rewrite G by lia. f_equal. f_equal. lia.
Qed.

(** X7: in a schema that [init] has built on a fresh object, the number
    of cells per tile is the capacity when the schema is sparse without
    tile extents, the -1 of the constructor when it is sparse with tile
    extents, and the product of the tile extents when it is dense (the
    extents positive, their product within [int64_t]). *)
Theorem cell_num_per_tile_after_init
        (E : Env) (c : C_API.ArraySchemaC) (S : ArraySchema) :
  Env_ok E -> init E c ArraySchema_new = Ok S -> typed S ->
  (dense_ S = false -> tile_extents_ S = None ->
   cell_num_per_tile S = capacity_ S) /\
  (dense_ S = false -> tile_extents_ S <> None -> cell_num_per_tile S = -1) /\
  (dense_ S = true ->
   forall T es,
     coords_type S = Ok (Some T) -> cast T (tile_extents_ S) = es ->
     Forall (fun e => 0 < e) es -> cells es < 2 ^ 63 ->
     cell_num_per_tile S = cells es).
Proof.
  intros HE Hi HT.
  destruct (init_prefinal HE Hi HT) as (S0 & P & Hfin & _ & _).
  destruct (finalize_steps E S0 S Hfin) as (S1 & _ & _ & H1 & _ & _ & _ & HS1 & _).
  pose proof (finalize_shape _ _ _ Hfin) as HS.
  assert (Hd : dense_ S = dense_ S0) by (rewrite HS; reflexivity).
  assert (Hte : tile_extents_ S = tile_extents_ S0) by (rewrite HS; reflexivity).
  assert (Hcap : capacity_ S = capacity_ S0) by (rewrite HS; reflexivity).
  assert (Hc : cell_num_per_tile S = cell_num_per_tile_ S1)
    by (rewrite HS1; reflexivity).
  clear HS1.
  destruct (pf_fresh _ _ P) as (Hfresh & _).
  unfold compute_cell_num_per_tile in H1.
  split; [|split].
  - intros Hdense Hnone. rewrite Hd in Hdense. rewrite Hte in Hnone.
    rewrite Hdense, Hnone in H1. inversion H1; subst S1.
    rewrite Hc, Hcap. reflexivity.
  - intros Hdense Hsome. rewrite Hd in Hdense. rewrite Hte in Hsome.
    rewrite Hdense in H1.
    destruct (tile_extents_ S0); [|contradiction].
    inversion H1; subst S1. rewrite Hc. exact Hfresh.
  - intros Hdense T es Hct Hes Hpos Hcells.
    rewrite Hd in Hdense. rewrite Hdense in H1.
    apply bind_Ok_inv in H1 as (t & Ht & H1).
    destruct (pf_types _ _ P)
      as (ts & ct & Hty & Hts & Hnc & _ & _ & Hext).
    pose proof (pf_attribute_num _ _ P) as Han.
    pose proof (pf_dim_num _ _ P) as Hdn.
    assert (Hct0 : at_ (types_ S0) (attribute_num_ S0) = Ok (Some ct)).
    { rewrite Hty, map_app, <- Hts. unfold len. rewrite <- (length_map Some ts).
      apply at_middle. }
    rewrite Hct0 in Ht. inversion Ht; subst t; clear Ht.
    assert (HTct : T = ct).
    { unfold coords_type, type in Hct. rewrite HS in Hct. members_in Hct.
      destruct (Z.ltb_spec (attribute_num_ S0) 0); [lia|].
      destruct (Z.ltb_spec (attribute_num_ S0) (attribute_num_ S0)); [lia|].
      cbn [orb] in Hct. rewrite Hct0 in Hct. congruence. }
    subst ct. rewrite Hte in Hes.
    assert (Hsome : tile_extents_ S0 <> None).
    { intros Hx. destruct (init_dense_tiles E c ArraySchema_new S Hi) as [Hne _].
      - rewrite Hd. exact Hdense.
      - apply Hne. rewrite Hte. exact Hx. }
    assert (Hlen : len es = dim_num_ S0).
    { destruct Hext as [Hx|(e & Hx & Hl)]; [contradiction|].
      rewrite <- Hes, Hx. apply cast_length; [exact Hl|lia]. }
    rewrite Hc.
    destruct T; try discriminate H1.
    + rewrite (compute_cell_num_per_tile_T_value T_int S0 es) in H1 by assumption.
      inversion H1; subst S1. reflexivity.
    + rewrite (compute_cell_num_per_tile_T_value T_int64_t S0 es) in H1 by assumption.
      inversion H1; subst S1. reflexivity.
Qed.

Lemma cell_num_per_tile_after_init_witness :
  (dense_ S1_schema = false -> tile_extents_ S1_schema = None ->
   cell_num_per_tile S1_schema = capacity_ S1_schema) /\
  (dense_ S1_schema = false -> tile_extents_ S1_schema <> None ->
   cell_num_per_tile S1_schema = -1) /\
  (dense_ S1_schema = true ->
   forall T es,
     coords_type S1_schema = Ok (Some T) ->
     cast T (tile_extents_ S1_schema) = es ->
     Forall (fun e => 0 < e) es -> cells es < 2 ^ 63 ->
     cell_num_per_tile S1_schema = cells es).
Proof.
  apply (@cell_num_per_tile_after_init spec_env S1_input S1_schema).
  - exact spec_env_ok.
  - vm_compute. reflexivity.
  - unfold typed, in_int, in_int64, in_range. simpl.
    repeat split; try lia. repeat constructor; lia.
Defined.

(* ================================================================= *)
(** ** Positions of the cells of a tile *)

Lemma row_inj es :
  Forall (fun e => 0 < e) es ->
  forall c1 c2,
    inside es c1 -> inside es c2 ->
    dot c1 (suffix_products (tl es)) = dot c2 (suffix_products (tl es)) ->
    c1 = c2.
Proof.
  induction 1 as [|e es He Hes IH]; intros c1 c2 H1 H2 Hd.
  - inversion H1; inversion H2; subst. reflexivity.
  - inversion H1 as [|? a ? r1 Ha Hr1]; inversion H2 as [|? b ? r2 Hb Hr2]; subst.
    cbn [tl] in Hd. rewrite (dot_step a r1 es Hr1), (dot_step b r2 es Hr2) in Hd.
    pose proof (dot_suffix_bound es r1 Hes Hr1) as B1.
    pose proof (dot_suffix_bound es r2 Hes Hr2) as B2.
    assert (Hab : a = b) by nia. subst b.
    f_equal. apply IH; try assumption. lia.
Qed.

Lemma row_surj es :
  Forall (fun e => 0 < e) es ->
  forall p, 0 <= p < cells es ->
            exists c, inside es c /\ dot c (suffix_products (tl es)) = p.
Proof.
  induction 1 as [|e es He Hes IH]; intros p Hp.
  - exists []. split; [constructor|]. unfold cells in Hp. simpl in *. lia.
  - rewrite cells_cons in Hp. pose proof (cells_pos es Hes) as Hw.
    pose proof (Z.div_mod p (cells es) ltac:(lia)) as Hdm.
    pose proof (Z.mod_pos_bound p (cells es) Hw) as Hm.
    destruct (IH (p mod cells es) Hm) as (cs & Hin & Hdot).
    exists (p / cells es :: cs). split.
    + constructor; [|exact Hin]. split.
      * apply Z.div_pos; lia.
      * apply Z.div_lt_upper_bound; lia.
    + cbn [tl]. rewrite (dot_step _ cs es Hin), Hdot. lia.
Qed.

(** X8: with positive tile extents of an integer type whose product fits
    [int64_t], and row-major or column-major cell order, [get_cell_pos]
    maps the cells of a tile one to one onto the positions from 0 to the
    number of cells, excluded. *)
Theorem cell_positions_fill_the_tile
        (E : Env) (T : Datatype) (S : ArraySchema) (es : list Z) :
  distinct_cell_orders E ->
  is_integral T = true ->
  cast T (tile_extents_ S) = es -> len es = dim_num_ S ->
  Forall (fun e => 0 < e) es -> cells es < 2 ^ 63 ->
  cell_order_ S = TILEDB_AS_CO_ROW_MAJOR E \/
  cell_order_ S = TILEDB_AS_CO_COLUMN_MAJOR E ->
  (forall c, inside es c ->
             exists p, get_cell_pos E T S c = Ok p /\ 0 <= p < cells es) /\
  (forall c1 c2 p,
      inside es c1 -> inside es c2 ->
      get_cell_pos E T S c1 = Ok p -> get_cell_pos E T S c2 = Ok p -> c1 = c2) /\
  (forall p, 0 <= p < cells es ->
             exists c, inside es c /\ get_cell_pos E T S c = Ok p).
Proof.
  intros (Hrc & _ & _) HT Hes Hn Hp Hc Hord.
  assert (Hpr : Forall (fun e => 0 < e) (rev es)) by (apply Forall_rev, Hp).
  unfold get_cell_pos.
  destruct (Z.eqb_spec (cell_order_ S) (TILEDB_AS_CO_ROW_MAJOR E)) as [Hr|Hr].
  - split; [|split].
    + intros c Hin. rewrite (get_cell_pos_row_value E T S es c) by assumption.
      eexists. split; [reflexivity|]. apply dot_suffix_bound; assumption.
    + intros c1 c2 p H1 H2.
      rewrite (get_cell_pos_row_value E T S es c1),
        (get_cell_pos_row_value E T S es c2) by assumption.
      intros E1 E2. apply (row_inj es Hp); try assumption. congruence.
    + intros p Hpb. destruct (row_surj es Hp p Hpb) as (c & Hin & Hd).
      exists c. split; [exact Hin|].
      rewrite (get_cell_pos_row_value E T S es c) by assumption. congruence.
  - assert (Hcol : cell_order_ S = TILEDB_AS_CO_COLUMN_MAJOR E) by tauto.
    rewrite Hcol, Z.eqb_refl.
    split; [|split].
    + intros c Hin. rewrite (get_cell_pos_col_value E T S es c) by assumption.
      eexists. split; [reflexivity|]. rewrite <- (cells_rev es).
      apply dot_suffix_bound; [exact Hpr|apply inside_rev, Hin].
    + intros c1 c2 p H1 H2.
      rewrite (get_cell_pos_col_value E T S es c1),
        (get_cell_pos_col_value E T S es c2) by assumption.
      intros E1 E2.
      assert (Hrev : rev c1 = rev c2).
      { apply (row_inj (rev es) Hpr); try (apply inside_rev; assumption).
        congruence. }
      rewrite <- (rev_involutive c1), Hrev. apply rev_involutive.
    + intros p Hpb. rewrite <- (cells_rev es) in Hpb.
      destruct (row_surj (rev es) Hpr p Hpb) as (c & Hin & Hd).
      apply inside_rev in Hin. rewrite rev_involutive in Hin.
      exists (rev c). split; [exact Hin|].
      rewrite (get_cell_pos_col_value E T S es (rev c)) by assumption.
      rewrite rev_involutive. congruence.
Qed.

Lemma cell_positions_fill_the_tile_witness :
  (forall c, inside [5; 5] c ->
             exists p, get_cell_pos spec_env T_int64_t S1_schema c = Ok p /\
                       0 <= p < cells [5; 5]) /\
  (forall c1 c2 p,
      inside [5; 5] c1 -> inside [5; 5] c2 ->
      get_cell_pos spec_env T_int64_t S1_schema c1 = Ok p ->
      get_cell_pos spec_env T_int64_t S1_schema c2 = Ok p -> c1 = c2) /\
  (forall p, 0 <= p < cells [5; 5] ->
             exists c, inside [5; 5] c /\
                       get_cell_pos spec_env T_int64_t S1_schema c = Ok p).
Proof.
  apply (@cell_positions_fill_the_tile spec_env T_int64_t S1_schema [5; 5]).
  - repeat split; discriminate.
  - reflexivity.
  - vm_compute. reflexivity.
  - reflexivity.
  - repeat constructor.
  - vm_compute. reflexivity.
  - left. reflexivity.
Defined.

(* ================================================================= *)
(** ** The domain [init] accepts *)

Lemma check_domain_ordered T S S' :
  check_domain T S = Ok S' ->
  forall i, 0 <= i < dim_num_ S ->
    exists lo hi,
      at_ (cast T (domain_ S)) (2 * i) = Ok lo /\
      at_ (cast T (domain_ S)) (2 * i + 1) = Ok hi /\
      gtT T lo hi = false.
Proof.
  unfold check_domain. intros H.
  apply bind_Ok_inv in H as ([] & H & _).
  set (P := fun k (_ : unit) =>
              forall i, 0 <= i < k ->
                exists lo hi,
                  at_ (cast T (domain_ S)) (2 * i) = Ok lo /\
                  at_ (cast T (domain_ S)) (2 * i + 1) = Ok hi /\
                  gtT T lo hi = false).
  assert (HP : P (Z.of_nat (Z.to_nat (dim_num_ S))) tt).
  { eapply (for_loop_inv P); [| |exact H].
    - intros j [] [] Hj HP Hb i Hi.
      apply bind_Ok_inv in Hb as (lo & Hlo & Hb).
      apply bind_Ok_inv in Hb as (hi & Hhi & Hb).
      destruct (gtT T lo hi) eqn:Hg; [discriminate Hb|].
      destruct (Z.eq_dec i j) as [->|Hne].
      + exists lo, hi. auto.
      + apply HP. lia.
    - intros i Hi. lia. }
  intros i Hi. apply HP. lia.
Qed.

Lemma type_at S i t :
  type S i = Ok (Some t) -> at_ (types_ S) i = Ok (Some t).
Proof.
  unfold type. destruct ((i <? 0) || (attribute_num_ S <? i)); [discriminate|].
  auto.
Qed.

(** X9: in a schema that [init] has built, no lower bound of the domain
    is greater than its upper bound, in the order of the coordinates
    type; for an integer type the lower bound is at most the upper one. *)
Theorem domain_bounds_are_ordered
        (E : Env) (c : C_API.ArraySchemaC) (S0 S : ArraySchema) (T : Datatype) :
  init E c S0 = Ok S ->
  coords_type S = Ok (Some T) ->
  forall i, 0 <= i < dim_num_ S ->
    exists lo hi,
      at_ (cast T (domain_ S)) (2 * i) = Ok lo /\
      at_ (cast T (domain_ S)) (2 * i + 1) = Ok hi /\
      gtT T lo hi = false /\
      (is_integral T = true -> lo <= hi).
Proof.
  intros H Hct i Hi.
  destruct (init_tail E c S0 S H)
    as (S8 & S9 & S10 & S11 & S12 & _ & _ & _ & _ & H12 & _
        & _ & _ & _ & HS12 & HS).
  assert (Hdom : domain_ S = domain_ S12) by (rewrite HS; reflexivity).
  assert (Hdn : dim_num_ S = dim_num_ S12) by (rewrite HS; reflexivity).
  assert (Hty : types_ S = types_ S12) by (rewrite HS; reflexivity).
  assert (Han : attribute_num_ S = attribute_num_ S12) by (rewrite HS; reflexivity).
  apply type_at in Hct. rewrite Hty, Han in Hct.
  unfold set_domain in H12.
  destruct (C_API.domain_ c) as [dom|]; [|discriminate H12].
  apply bind_Ok_inv in H12 as (n & _ & H12).
  apply bind_Ok_inv in H12 as (bs & _ & H12).
  apply bind_Ok_inv in H12 as (t & Ht & H12).
  assert (Hchk : check_domain T (with_domain_ (Some bs) S11) = Ok S12 /\ t = Some T).
  { assert (Hs : forall T', check_domain T' (with_domain_ (Some bs) S11) = Ok S12 ->
                            S12 = with_domain_ (Some bs) S11)
      by (intros T'; apply check_domain_shape).
    destruct t as [[| | | |]|]; try discriminate H12;
      pose proof (Hs _ H12) as Hx; rewrite Hx in Hct; rewrite Hct in Ht;
        inversion Ht; subst; auto. }
  destruct Hchk as [Hchk _].
  pose proof (check_domain_shape _ _ _ Hchk) as Hx.
  destruct (check_domain_ordered T _ _ Hchk i) as (lo & hi & Hlo & Hhi & Hg).
  { rewrite Hdn, Hx in Hi. exact Hi. }
  rewrite Hdom, Hx. exists lo, hi. repeat split; try assumption.
  intros HT. rewrite gtT_integral in Hg by exact HT. apply Z.ltb_ge in Hg. exact Hg.
Qed.

Lemma domain_bounds_are_ordered_witness :
  0 <= 1 < dim_num_ S4_schema /\
  exists lo hi,
    at_ (cast T_int (domain_ S4_schema)) (2 * 1) = Ok lo /\
    at_ (cast T_int (domain_ S4_schema)) (2 * 1 + 1) = Ok hi /\
    gtT T_int lo hi = false /\
    (is_integral T_int = true -> lo <= hi).
Proof.
  assert (H : 0 <= 1 < dim_num_ S4_schema) by (simpl; lia).
  split; [exact H|].
  apply (@domain_bounds_are_ordered spec_env S4_input ArraySchema_new S4_schema T_int).
  - vm_compute. reflexivity.
  - vm_compute. reflexivity.
  - exact H.
Defined.

(* ================================================================= *)
(** ** The bytes [serialize] writes *)



(* ================================================================= *)
(** ** The sizes a schema keeps *)

Lemma fill_at {A : Type} (f : Z -> res A) n l i :
  0 <= n -> fill n f = Ok l -> 0 <= i < n ->
  exists a, at_ l i = Ok a /\ f i = Ok a.
Proof.
  intros Hn H Hi. destruct (fill_spec _ _ _ Hn H) as [Hlen Hat].
  destruct (at_in_range l i ltac:(lia)) as (a & Ha).
  exists a. split; [exact Ha|]. apply Hat, Ha.
Qed.

(** X11: in a schema that [init] has built, the sizes kept for the
    attributes and the coordinates are the ones the [compute] members
    give: the cell size and the type size of each, and the tile size,
    which is the number of cells per tile times the cell size, or times
    the size of an offset for variable-sized cells. *)
Theorem kept_sizes_are_the_computed_ones
        (E : Env) (c : C_API.ArraySchemaC) (S : ArraySchema) (i : Z) :
  Env_ok E -> init E c ArraySchema_new = Ok S -> typed S ->
  0 <= i <= attribute_num_ S ->
  exists cs ts,
    cell_size S i = Ok cs /\ compute_cell_size E S i = Ok cs /\
    at_ (type_sizes_ S) i = Ok ts /\ compute_type_size S i = Ok ts /\
    at_ (tile_sizes_ S) i
    = Ok (to_size_t (cell_num_per_tile S *
                     (if cs =? to_size_t (TILEDB_AS_VAR_SIZE E)
                      then TILEDB_CELL_VAR_OFFSET_SIZE E else cs))).
Proof.
  intros HE Hi HT Hr.
  destruct (init_prefinal HE Hi HT) as (S0 & P & Hfin & _ & _).
  destruct (finalize_steps E S0 S Hfin)
    as (S1 & S2 & S3 & _ & H2 & _ & _ & HS1 & HS2 & _).
  pose proof (finalize_shape _ _ _ Hfin) as HS.
  assert (Han : attribute_num_ S = attribute_num_ S0) by (rewrite HS; reflexivity).
  rewrite Han in Hr.
  pose proof (pf_attribute_num _ _ P) as Hn0.
  assert (Hn1 : 0 <= attribute_num_ S0 + 1) by lia.
  assert (Hi1 : 0 <= i < attribute_num_ S0 + 1) by lia.
  destruct (fill_at _ _ _ i Hn1 (pf_cell_sizes _ _ P) Hi1)
    as (cs & Hcs & Hcomp).
  destruct (pf_types _ _ P) as (tl & ct & Hty & Htl & _ & Htsz & _).
  assert (Hfill : fill (attribute_num_ S0 + 1) (compute_type_size S0)
                  = Ok (type_sizes_ S0)).
  { rewrite Htsz. apply compute_type_size_types; [exact Hty|].
    rewrite len_app, Htl. reflexivity. }
  destruct (fill_at _ _ _ i Hn1 Hfill Hi1) as (ts & Hts & Htcomp).
  exists cs, ts.
  assert (Hcell : cell_sizes_ S = cell_sizes_ S0) by (rewrite HS; reflexivity).
  assert (Htys : type_sizes_ S = type_sizes_ S0) by (rewrite HS; reflexivity).
  split; [unfold cell_size; rewrite Hcell; exact Hcs|].
  split; [rewrite HS; exact Hcomp|].
  split; [rewrite Htys; exact Hts|].
  split; [rewrite HS; exact Htcomp|].
  unfold compute_tile_sizes in H2.
  apply bind_Ok_inv in H2 as (sizes & Hsz & H2).
  assert (Hsizes : tile_sizes_ S = sizes).
  { inversion H2 as [Hx]. rewrite HS2 in Hx.
    apply (f_equal tile_sizes_) in Hx. exact (eq_sym Hx). }
  assert (Han1 : attribute_num_ S1 = attribute_num_ S0) by (rewrite HS1; reflexivity).
  rewrite Han1 in Hsz.
  destruct (fill_at _ _ _ i Hn1 Hsz Hi1) as (sz & Hsz1 & Hsz2).
  rewrite Hsizes, Hsz1. f_equal.
  unfold var_size, cell_size in Hsz2.
  assert (Hcell1 : cell_sizes_ S1 = cell_sizes_ S0) by (rewrite HS1; reflexivity).
  assert (Hcn : cell_num_per_tile_ S1 = cell_num_per_tile S)
    by (rewrite HS1; reflexivity).
  rewrite Hcell1, Hcs, Hcn in Hsz2. cbn [bind] in Hsz2.
  destruct (cs =? to_size_t (TILEDB_AS_VAR_SIZE E)); cbn [bind] in Hsz2;
    inversion Hsz2; reflexivity.
Qed.

Lemma kept_sizes_are_the_computed_ones_witness :
  exists cs ts,
    cell_size S4_schema 0 = Ok cs /\ compute_cell_size spec_env S4_schema 0 = Ok cs /\
    at_ (type_sizes_ S4_schema) 0 = Ok ts /\ compute_type_size S4_schema 0 = Ok ts /\
    at_ (tile_sizes_ S4_schema) 0
    = Ok (to_size_t (cell_num_per_tile S4_schema *
                     (if cs =? to_size_t (TILEDB_AS_VAR_SIZE spec_env)
                      then TILEDB_CELL_VAR_OFFSET_SIZE spec_env else cs))).
Proof.
  apply (@kept_sizes_are_the_computed_ones spec_env S4_input S4_schema 0).
  - exact spec_env_ok.
  - vm_compute. reflexivity.
  - unfold typed, in_int, in_int64, in_range. simpl.
    repeat split; try lia. repeat constructor; lia.
  - simpl. lia.
Defined.

(* ================================================================= *)
(** ** Variable-sized attributes *)

(** Equal as [size_t], two numbers of 64 bits with a sign are equal. *)
Lemma to_size_t_inj a b :
  in_int64 a -> in_int64 b -> to_size_t a = to_size_t b -> a = b.
Proof.
  unfold in_int64, in_range, to_size_t, wrap_unsigned. intros Ha Hb H.
  change (64 - 1) with 63 in *.
  pose proof (Z.div_mod a (2 ^ 64) ltac:(lia)) as Da.
  pose proof (Z.div_mod b (2 ^ 64) ltac:(lia)) as Db.
  rewrite H in Da.
  assert (a - b = 2 ^ 64 * (a / 2 ^ 64 - b / 2 ^ 64)) by lia.
  assert (2 ^ 63 + 2 ^ 63 = 2 ^ 64) by reflexivity.
  nia.
Qed.

(** What [set_types] leaves in [var_attribute_num_]: one more for every
    token of an attribute that says [var]. *)
Lemma set_types_var_count E types S S' :
  Env_ok E ->
  set_types E types S = Ok S' ->
  exists l vs,
    types = Some l /\
    var_attribute_num_ S'
    = fold_left (fun k t => if declares_var t then to_int (k + 1) else k)
                (firstn (Z.to_nat (attribute_num_ S)) l) 0 /\
    val_num_ S' = val_num_ S ++ vs /\
    attribute_num_ S' = attribute_num_ S /\
    Forall2 (fun t v => declares_var t = true -> v = TILEDB_AS_VAR_SIZE E)
            (firstn (Z.to_nat (attribute_num_ S)) l) vs.
Proof.
  intros HE. unfold set_types. intros H.
  destruct types as [types|]; [|discriminate H].
  apply bind_Ok_inv in H as (S1 & H1 & H).
  apply (set_types_loop_shape _ _ _ _ _ HE) in H1
    as (ts & vs & HS1 & _ & _ & Hlink).
  apply bind_Ok_inv in H as (ty & _ & H).
  apply bind_Ok_inv in H as (S2 & H2 & H).
  apply bind_Ok_inv in H as (tsz & _ & H).
  apply bind_Ok_inv in H as (csz & _ & H).
  inversion H; subst S'; clear H. members.
  assert (Hv : var_attribute_num_ S2 = var_attribute_num_ S1 /\
               val_num_ S2 = val_num_ S1 /\
               attribute_num_ S2 = attribute_num_ S1).
  { destruct (String.eqb ty "char:var").
    - apply bind_Ok_inv in H2 as (d & _ & H2). inversion H2; repeat split.
    - destruct (dense_ (with_key_value_ false S1) &&
                (String.eqb ty "float32" || String.eqb ty "float64"));
        [discriminate H2|].
      destruct (String.eqb ty "int32"); [inversion H2; repeat split|].
      destruct (String.eqb ty "int64"); [inversion H2; repeat split|].
      destruct (String.eqb ty "float32"); [inversion H2; repeat split|].
      destruct (String.eqb ty "float64"); [inversion H2; repeat split|].
      discriminate H2. }
  destruct Hv as (Hv1 & Hv2 & Hv3).
  exists types, vs. split; [reflexivity|].
  rewrite Hv1, Hv2, Hv3, HS1. members. repeat split. exact Hlink.
Qed.

(** Below [INT_MAX] the count does not wrap. *)
Lemma count_declared_filter l k :
  0 <= k -> k + len l <= INT_MAX ->
  fold_left (fun k t => if declares_var t then to_int (k + 1) else k) l k
  = k + len (filter declares_var l).
Proof.
  revert k. induction l as [|t l IH]; intros k Hk Hb.
  - cbn. unfold len. simpl. lia.
  - rewrite len_cons in Hb. pose proof (len_nonneg l).
    cbn [fold_left filter]. destruct (declares_var t).
    + rewrite to_int_small by (unfold in_int, in_range, INT_MAX in *; lia).
      rewrite IH by lia. rewrite len_cons. lia.
    + apply IH; lia.
Qed.

Lemma declared_are_marked E (l : list string) (vs : list Z) :
  Forall2 (fun t v => declares_var t = true -> v = TILEDB_AS_VAR_SIZE E) l vs ->
  len (filter declares_var l)
  <= Z.of_nat (count_occ Z.eq_dec vs (TILEDB_AS_VAR_SIZE E)).
Proof.
  induction 1 as [|t v l vs Htv _ IH]; [cbn; lia|].
  cbn [filter count_occ]. destruct (declares_var t).
  - rewrite (Htv eq_refl).
    destruct (Z.eq_dec (TILEDB_AS_VAR_SIZE E) (TILEDB_AS_VAR_SIZE E)); [|contradiction].
    rewrite len_cons. lia.
  - destruct (Z.eq_dec v (TILEDB_AS_VAR_SIZE E)); lia.
Qed.

(** The count of variable-sized attributes that [init] leaves. *)
Lemma init_var_count E c S :
  Env_ok E -> init E c ArraySchema_new = Ok S -> typed S ->
  exists types,
    C_API.types_ c = Some types /\
    var_attribute_num_ S
    = len (filter declares_var (firstn (Z.to_nat (attribute_num_ S)) types)) /\
    var_attribute_num_ S
    <= Z.of_nat (count_occ Z.eq_dec (val_num_ S) (TILEDB_AS_VAR_SIZE E)).
Proof.
  intros HE H HT.
  apply init_steps in H as (S2 & S4 & S5 & S8 & S9 & S10 & S11 & S12
      & H2 & H4 & H5 & H8 & H9 & H10 & H11 & H12 & Hfin).
  apply set_attributes_shape in H2 as (Hn & names & HS2 & _).
  unfold set_array_name in HS2.
  apply set_dimensions_shape in H4 as (_ & dnames & HS4 & _).
  rewrite set_capacity_shape in HS4.
  apply set_compression_shape in H5 as (cmp & HS5 & _);
    [|rewrite HS4, HS2; members; lia].
  unfold set_dense in H8. rewrite set_consolidation_step_shape in H8.
  apply (set_types_var_count E _ _ _ HE) in H8
    as (types & vs & Hty & Hva & Hvs & Ha8 & Hlink).
  apply set_tile_extents_shape in H9. apply set_cell_order_shape in H10.
  apply set_tile_order_shape in H11. apply set_domain_shape in H12.
  apply finalize_shape in Hfin.
  assert (Hv : var_attribute_num_ S = var_attribute_num_ S8 /\
               attribute_num_ S = attribute_num_ S8 /\
               val_num_ S = val_num_ S8).
  { rewrite Hfin; members. rewrite H12; members. rewrite H11; members.
    rewrite H10; members. rewrite H9; members. repeat split. }
  destruct Hv as (Hv1 & Hv2 & Hv3).
  revert Hva Hvs Ha8 Hlink. members. rewrite HS5, HS4, HS2. members.
  change (val_num_ ArraySchema_new) with (@nil Z). cbn [app].
  intros Hva Hvs Ha8 Hlink.
  exists types. split; [exact Hty|].
  rewrite Hv1, Hv2, Hv3, Ha8, Hva, Hvs.
  rewrite count_declared_filter.
  - split; [lia|]. rewrite Z.add_0_l. apply declared_are_marked, Hlink.
  - lia.
  - destruct HT as (Han & _). rewrite Hv2, Ha8 in Han.
    pose proof (length_firstn (Z.to_nat (C_API.attribute_num_ c)) types) as Hl.
    unfold len. unfold in_int, in_range, INT_MAX in *. lia.
Qed.

(** X12: in a schema that [init] has built, with the mark of variable
    size an odd [int] (it is -1), [var_size] holds of an attribute exactly
    when its number of values is the mark; it does not hold of the
    coordinates.  [var_attribute_num_] is the number of attributes whose
    type token says [var]; it is at most the number of attributes of
    which [var_size] holds, and can be less: a number of values written
    in digits is cut to an [int], and can come out as the mark. *)
Theorem var_size_tells_the_variable_attributes
        (E : Env) (c : C_API.ArraySchemaC) (S : ArraySchema) :
  Env_ok E -> in_int (TILEDB_AS_VAR_SIZE E) -> Z.odd (TILEDB_AS_VAR_SIZE E) = true ->
  init E c ArraySchema_new = Ok S -> typed S ->
  (forall i, 0 <= i < attribute_num_ S ->
             exists v, at_ (val_num_ S) i = Ok v /\
                       var_size E S i = Ok (v =? TILEDB_AS_VAR_SIZE E)) /\
  var_size E S (attribute_num_ S) = Ok false /\
  (exists types,
      C_API.types_ c = Some types /\
      var_attribute_num_ S
      = len (filter declares_var (firstn (Z.to_nat (attribute_num_ S)) types))) /\
  var_attribute_num_ S
  <= Z.of_nat (count_occ Z.eq_dec (val_num_ S) (TILEDB_AS_VAR_SIZE E)).
Proof.
  intros HE Hvar Hodd Hi HT.
  pose proof (var_size_negative HE) as Hneg.
  destruct (init_var_count E c S HE Hi HT) as (types & Htypes & Hcount & Hle).
  destruct (init_prefinal HE Hi HT) as (S0 & P & Hfin & HT0 & _).
  pose proof (finalize_shape _ _ _ Hfin) as HS.
  assert (Han : attribute_num_ S = attribute_num_ S0) by (rewrite HS; reflexivity).
  assert (Hvn : val_num_ S = val_num_ S0) by (rewrite HS; reflexivity).
  assert (Hcell : cell_sizes_ S = cell_sizes_ S0) by (rewrite HS; reflexivity).
  pose proof (pf_attribute_num _ _ P) as Hn0.
  pose proof (pf_val_num _ _ P) as Hlen.
  destruct (pf_types _ _ P) as (tl & ct & Hty & Htl & Hct & _).
  assert (Hn1 : 0 <= attribute_num_ S0 + 1) by lia.
  split; [|split; [|split; [exists types; split; assumption|exact Hle]]];
    rewrite Han; try rewrite Hvn.
  - intros i Hr.
    destruct (at_in_range (val_num_ S0) i ltac:(lia)) as (v & Hv).
    exists v. split; [exact Hv|].
    assert (Hi1 : 0 <= i < attribute_num_ S0 + 1) by lia.
    destruct (fill_at _ _ _ i Hn1 (pf_cell_sizes _ _ P) Hi1) as (cs & Hcs & Hcomp).
    unfold var_size. rewrite Hcell, Hcs. cbn [bind]. f_equal.
    unfold compute_cell_size in Hcomp.
    replace ((0 <=? i) && (i <=? attribute_num_ S0)) with true in Hcomp
      by (symmetry; apply andb_true_iff; split; apply Z.leb_le; lia).
    cbn [assert bind] in Hcomp.
    destruct (Z.ltb_spec i (attribute_num_ S0)); [|lia].
    rewrite Hv in Hcomp. cbn [bind] in Hcomp.
    destruct (Z.eqb_spec v (TILEDB_AS_VAR_SIZE E)) as [Hv1|Hv1].
    + inversion Hcomp; subst cs. apply Z.eqb_refl.
    + apply bind_Ok_inv in Hcomp as (t & _ & Hcomp).
      destruct t as [ty|]; [|discriminate Hcomp].
      inversion Hcomp; subst cs.
      assert (Hin : In v (val_num_ S0)) by (eapply at_In, Hv).
      destruct HT0 as (_ & _ & _ & _ & Hvals).
      rewrite Forall_forall in Hvals. pose proof (Hvals v Hin) as Hx.
      apply Z.eqb_neq. intros Heq.
      apply to_size_t_inj in Heq.
      * destruct ty; cbn [sizeof] in Heq.
        -- lia.
        -- rewrite <- Heq in Hodd. rewrite Z.odd_mul in Hodd.
           rewrite andb_false_r in Hodd. discriminate Hodd.
        -- rewrite <- Heq in Hodd. rewrite Z.odd_mul in Hodd.
           rewrite andb_false_r in Hodd. discriminate Hodd.
        -- rewrite <- Heq in Hodd. rewrite Z.odd_mul in Hodd.
           rewrite andb_false_r in Hodd. discriminate Hodd.
        -- rewrite <- Heq in Hodd. rewrite Z.odd_mul in Hodd.
           rewrite andb_false_r in Hodd. discriminate Hodd.
      * pose proof (sizeof_bounds ty).
        unfold in_int64, in_int, in_range in *. nia.
      * unfold in_int64, in_int, in_range in *. lia.
  - destruct HT0 as (_ & Hdim & _). pose proof (pf_dim_num _ _ P) as Hd0.
    pose proof (coords_size_value E S0 tl ct Hty Htl Hn0 Hct (pf_cell_sizes _ _ P)) as Hc.
    unfold coords_size in Hc. unfold var_size. rewrite Hcell, Hc. cbn [bind].
    f_equal. apply Z.eqb_neq. pose proof (sizeof_bounds ct) as Hs.
    unfold in_int, in_range in Hdim.
    assert (Hbig : 2 ^ 63 <= to_size_t (TILEDB_AS_VAR_SIZE E)).
    { unfold to_size_t, wrap_unsigned, in_int, in_range in *.
      rewrite <- (Z.mod_add _ 1) by lia.
      rewrite Z.mod_small by lia. lia. }
    rewrite to_size_t_small by nia. nia.
Qed.

Lemma var_size_tells_the_variable_attributes_witness :
  (forall i, 0 <= i < attribute_num_ S4_schema ->
             exists v, at_ (val_num_ S4_schema) i = Ok v /\
                       var_size spec_env S4_schema i
                       = Ok (v =? TILEDB_AS_VAR_SIZE spec_env)) /\
  var_size spec_env S4_schema (attribute_num_ S4_schema) = Ok false /\
  (exists types,
      C_API.types_ S4_input = Some types /\
      var_attribute_num_ S4_schema
      = len (filter declares_var
                    (firstn (Z.to_nat (attribute_num_ S4_schema)) types))) /\
  var_attribute_num_ S4_schema
  <= Z.of_nat (count_occ Z.eq_dec (val_num_ S4_schema) (TILEDB_AS_VAR_SIZE spec_env)).
Proof.
  apply (@var_size_tells_the_variable_attributes spec_env S4_input S4_schema).
  - exact spec_env_ok.
  - unfold in_int, in_range. simpl. lia.
  - reflexivity.
  - vm_compute. reflexivity.
  - unfold typed, in_int, in_int64, in_range. simpl.
    repeat split; try lia. repeat constructor; lia.
Defined.

(** ** Positions of the tiles *)

Lemma cut_nth T box es i q :
  cut T box es -> nth_error (tile_counts box es) i = Some q ->
  exists b e,
    nth_error box i = Some b /\ nth_error es i = Some e /\
    q = Z.quot (snd b - fst b + 1) e /\
    fits T (snd b - fst b) /\ fits T (snd b - fst b + 1) /\
    0 < e <= snd b - fst b + 1.
Proof.
  intros H. revert i. unfold tile_counts.
  induction H as [|b e box es Hbe _ IH]; intros [|i] Hq; simpl in Hq;
    try discriminate.
  - inversion Hq; subst. exists b, e. simpl. tauto.
  - apply IH in Hq. exact Hq.
Qed.

Lemma cut_length T box es : cut T box es -> length (tile_counts box es) = length es.
Proof.
  unfold tile_counts. induction 1; simpl; [reflexivity|]. f_equal. assumption.
Qed.

Lemma cut_box_length T box es : cut T box es -> length box = length es.
Proof. induction 1; simpl; [reflexivity|]. f_equal. assumption. Qed.

Lemma quot_bounds a e : 0 < e <= a -> 0 < Z.quot a e <= a.
Proof.
  intros H. rewrite Z.quot_div_nonneg by lia. split.
  - apply Z.div_str_pos. lia.
  - apply Z.div_le_upper_bound; nia.
Qed.

Lemma cut_counts_pos T box es :
  cut T box es -> Forall (fun q => 0 < q) (tile_counts box es).
Proof.
  unfold tile_counts. induction 1 as [|b e box es (_ & _ & He) _ IH]; simpl;
    constructor; [|exact IH].
  simpl. apply quot_bounds. exact He.
Qed.

(** The number of tiles along a dimension, when nothing wraps. *)
Lemma tiles_along_value E T box es i q :
  is_integral T = true -> cut T box es ->
  nth_error (tile_counts box es) i = Some q ->
  tiles_along E T (domain_of box) es (Z.of_nat i) = Ok q /\
  int64_of_T E T q = q.
Proof.
  intros HT Hcut Hq.
  destruct (cut_nth _ _ _ _ _ Hcut Hq) as (b & e & Hb & He & -> & F1 & F2 & Hr).
  destruct (at_domain_of box i b Hb) as [Hlo Hhi].
  unfold tiles_along. rewrite Hhi, Hlo, (at_nth _ _ _ He). cbn [bind].
  unfold int64_of_T. rewrite HT. split; [|reflexivity].
  assert (Hs : subT E T (snd b) (fst b) = snd b - fst b)
    by (unfold subT; rewrite HT; exact F1).
  rewrite Hs, (incr_integral E T _ HT F2).
  unfold divT. rewrite HT.
  destruct (Z.eqb_spec e 0); [lia|].
  pose proof (quot_bounds (snd b - fst b + 1) e Hr) as Hb'.
  assert (F0 : fits T 0)
    by (unfold fits; destruct T; try discriminate HT; reflexivity).
  assert (Hw : wrapT T (Z.quot (snd b - fst b + 1) e) = Z.quot (snd b - fst b + 1) e).
  { apply (fits_between T 0 (snd b - fst b + 1)); try assumption. lia. }
  rewrite Hw, Z.eqb_refl. reflexivity.
Qed.

(** The value of [get_tile_pos_row]. *)
Lemma get_tile_pos_row_value E T S box es tc :
  is_integral T = true ->
  cast T (domain_ S) = domain_of box -> cast T (tile_extents_ S) = es ->
  len es = dim_num_ S -> cut T box es ->
  cells (tile_counts box es) < 2 ^ 63 -> inside (tile_counts box es) tc ->
  get_tile_pos_row E T S tc
  = Ok (dot tc (suffix_products (tl (tile_counts box es)))).
Proof.
  intros HT Hdom Hes Hn Hcut Hc Hin. unfold get_tile_pos_row.
  rewrite Hdom, Hes.
  pose proof (cut_length _ _ _ Hcut) as Hlen.
  pose proof (cut_counts_pos _ _ _ Hcut) as Hp.
  pose proof (fun i a => tiles_along_value E T box es i a HT Hcut) as Hstep.
  remember (tile_counts box es) as qs eqn:Hqs. clear Hqs Hcut.
  rewrite (for_down_fold (tl qs) _ push_offset).
  2:{ intros i a st Hi. unfold push_offset.
      assert (Ha : nth_error qs (Datatypes.S i) = Some a).
      { destruct qs; [destruct i; discriminate Hi|exact Hi]. }
      destruct (Hstep _ a Ha) as [Hq Hq64].
      replace (Z.of_nat i + 1) with (Z.of_nat (Datatypes.S i)) by lia.
      rewrite Hq. cbn [bind]. rewrite Hq64. reflexivity. }
  2:{ unfold len in Hn. destruct qs; simpl in *; lia. }
  replace (Z.to_nat (dim_num_ S - 1)) with (length (tl qs))
    by (unfold len in Hn; destruct qs; simpl in *; lia).
  rewrite firstn_all.
  pose proof (cells_tl_le qs Hp) as Hle.
  rewrite (push_offsets (tl qs) (Forall_tl _ _ Hp)) by lia.
  cbn [bind]. rewrite rev_involutive.
  pose proof (dot_suffix_bound qs tc Hp Hin) as B.
  apply position_dot; try assumption.
  - unfold len in *. rewrite (inside_length qs tc Hin). lia.
  - unfold len. rewrite suffix_products_length, (inside_length qs tc Hin).
    destruct qs; simpl; lia.
  - apply (inside_nonneg qs), Hin.
  - eapply Forall_nonneg_of_bound, suffix_products_bound, Forall_tl, Hp.
  - lia.
Qed.

(** The value of [get_tile_pos_col]. *)
Lemma get_tile_pos_col_value E T S box es tc :
  is_integral T = true ->
  cast T (domain_ S) = domain_of box -> cast T (tile_extents_ S) = es ->
  len es = dim_num_ S -> cut T box es ->
  cells (tile_counts box es) < 2 ^ 63 -> inside (tile_counts box es) tc ->
  get_tile_pos_col E T S tc
  = Ok (dot (rev tc) (suffix_products (tl (rev (tile_counts box es))))).
Proof.
  intros HT Hdom Hes Hn Hcut Hc Hin. unfold get_tile_pos_col.
  rewrite Hdom, Hes.
  pose proof (cut_length _ _ _ Hcut) as Hlen.
  pose proof (cut_counts_pos _ _ _ Hcut) as Hp.
  pose proof (fun i a => tiles_along_value E T box es i a HT Hcut) as Hstep.
  remember (tile_counts box es) as qs eqn:Hqs. clear Hqs Hcut.
  change 1 with (0 + 1) at 1. rewrite for_loop_from_shift.
  rewrite for_loop_from_fold with (l := qs) (step := push_offset) (i := 0%nat).
  3:{ unfold len in Hn. lia. }
  2:{ intros i a st Hi. unfold push_offset.
      replace (Z.of_nat i + 1 - 1) with (Z.of_nat i) by lia.
      destruct (Hstep _ a Hi) as [Hq Hq64].
      rewrite Hq. cbn [bind]. rewrite Hq64. reflexivity. }
  cbn [skipn].
  replace (Z.to_nat (dim_num_ S - 1)) with (pred (length qs))
    by (unfold len in Hn; lia).
  rewrite <- removelast_firstn_len, removelast_rev_tl.
  assert (Hpr : Forall (fun e => 0 < e) (rev qs)) by (apply Forall_rev, Hp).
  pose proof (cells_tl_le (rev qs) Hpr) as Hle. rewrite cells_rev in Hle.
  rewrite (push_offsets (tl (rev qs)) (Forall_tl _ _ Hpr)) by lia.
  cbn [bind].
  pose proof (dot_suffix_bound (rev qs) (rev tc) Hpr (inside_rev _ _ Hin)) as B.
  rewrite cells_rev in B.
  assert (Hd : dot tc (rev (suffix_products (tl (rev qs))))
               = dot (rev tc) (suffix_products (tl (rev qs)))).
  { clear B Hle Hstep Hlen Hc. destruct Hin as [|q c qs tc Hc0 Hin]; [reflexivity|].
    rewrite <- (rev_involutive (c :: tc)) at 1. apply dot_rev.
    rewrite suffix_products_length, length_rev.
    pose proof (inside_length qs tc Hin) as Hl.
    cbn [rev]. destruct (rev qs ++ [q]) eqn:Hr.
    - apply (f_equal (@length Z)) in Hr. rewrite length_app in Hr. simpl in Hr. lia.
    - apply (f_equal (@length Z)) in Hr.
      rewrite length_app, length_rev in Hr. simpl in *. lia. }
  rewrite <- Hd.
  apply position_dot; try assumption.
  - unfold len in *. rewrite (inside_length qs tc Hin). lia.
  - unfold len. rewrite length_rev, suffix_products_length, (inside_length qs tc Hin).
    destruct (rev qs) eqn:Hr; apply (f_equal (@length Z)) in Hr;
      rewrite length_rev in Hr; simpl in *; lia.
  - apply (inside_nonneg qs), Hin.
  - apply Forall_rev.
    eapply Forall_nonneg_of_bound, suffix_products_bound, Forall_tl, Hpr.
  - rewrite Hd. lia.
Qed.

Lemma tile_num_fold l :
  Forall (fun q => 0 < q) l ->
  forall r, 0 < r -> r * cells l < 2 ^ 63 ->
  fold_res (fun q ret => Ok (to_int64 (ret * q))) l r = Ok (r * cells l).
Proof.
  induction 1 as [|q l Hq Hl IH]; intros r Hr Hb.
  - simpl. f_equal. unfold cells. simpl. lia.
  - rewrite cells_cons in *. pose proof (cells_pos l Hl) as Hp.
    cbn [fold_res bind]. unfold to_int64.
    rewrite wrap_signed_id by (try lia; unfold in_range; nia).
    rewrite IH by nia. f_equal. lia.
Qed.

(** The value of [tile_num<T>]. *)
Lemma tile_num_T_value E T S box es :
  is_integral T = true ->
  cast T (domain_ S) = domain_of box -> cast T (tile_extents_ S) = es ->
  len es = dim_num_ S -> cut T box es ->
  cells (tile_counts box es) < 2 ^ 63 ->
  tile_num_T E T S = Ok (cells (tile_counts box es)).
Proof.
  intros HT Hdom Hes Hn Hcut Hc. unfold tile_num_T. rewrite Hdom, Hes.
  pose proof (cut_length _ _ _ Hcut) as Hlen.
  rewrite (for_loop_fold (tile_counts box es) _
             (fun q ret => Ok (to_int64 (ret * q)))).
  2:{ intros i a st Hi.
      destruct (tiles_along_value E T box es i a HT Hcut Hi) as [Hq Hq64].
      rewrite Hq. cbn [bind]. rewrite Hq64. reflexivity. }
  2:{ unfold len in *. lia. }
  rewrite firstn_all2 by (unfold len in *; lia).
  rewrite tile_num_fold; [f_equal; lia|apply (cut_counts_pos T), Hcut|lia|lia].
Qed.

Lemma numbers_row (pos : list Z -> res Z) qs :
  Forall (fun q => 0 < q) qs ->
  (forall c, inside qs c -> pos c = Ok (dot c (suffix_products (tl qs)))) ->
  numbers pos qs (cells qs).
Proof.
  intros Hp Hv. split; [|split].
  - intros c Hin. rewrite (Hv c Hin). eexists. split; [reflexivity|].
    apply dot_suffix_bound; assumption.
  - intros c1 c2 p H1 H2. rewrite (Hv c1 H1), (Hv c2 H2). intros E1 E2.
    apply (row_inj qs Hp); try assumption. congruence.
  - intros p Hpb. destruct (row_surj qs Hp p Hpb) as (c & Hin & Hd).
    exists c. split; [exact Hin|]. rewrite (Hv c Hin). congruence.
Qed.

Lemma numbers_col (pos : list Z -> res Z) qs :
  Forall (fun q => 0 < q) qs ->
  (forall c, inside qs c ->
             pos c = Ok (dot (rev c) (suffix_products (tl (rev qs))))) ->
  numbers pos qs (cells qs).
Proof.
  intros Hp Hv.
  assert (Hpr : Forall (fun e => 0 < e) (rev qs)) by (apply Forall_rev, Hp).
  split; [|split].
  - intros c Hin. rewrite (Hv c Hin). eexists. split; [reflexivity|].
    rewrite <- (cells_rev qs).
    apply dot_suffix_bound; [exact Hpr|apply inside_rev, Hin].
  - intros c1 c2 p H1 H2. rewrite (Hv c1 H1), (Hv c2 H2). intros E1 E2.
    assert (Hrev : rev c1 = rev c2).
    { apply (row_inj (rev qs) Hpr); try (apply inside_rev; assumption).
      congruence. }
    rewrite <- (rev_involutive c1), Hrev. apply rev_involutive.
  - intros p Hpb. rewrite <- (cells_rev qs) in Hpb.
    destruct (row_surj (rev qs) Hpr p Hpb) as (c & Hin & Hd).
    apply inside_rev in Hin. rewrite rev_involutive in Hin.
    exists (rev c). split; [exact Hin|].
    rewrite (Hv (rev c) Hin), rev_involutive. congruence.
Qed.

(** X13: when the tile extents of an integer type cut every range of the
    domain into at least one whole tile and nothing leaves the integer
    types, [tile_num] returns the product of the numbers of whole tiles
    along the dimensions, and [get_tile_pos_row] and [get_tile_pos_col]
    each map the tile coordinates of that grid one to one onto the
    positions from 0 to [tile_num], excluded. *)
Theorem tile_positions_fill_the_grid
        (E : Env) (T : Datatype) (S : ArraySchema)
        (box : list (Z * Z)) (es : list Z) :
  is_integral T = true ->
  at_ (types_ S) (attribute_num_ S) = Ok (Some T) ->
  cast T (domain_ S) = domain_of box -> cast T (tile_extents_ S) = es ->
  len es = dim_num_ S -> cut T box es ->
  cells (tile_counts box es) < 2 ^ 63 ->
  tile_num E S = Ok (cells (tile_counts box es)) /\
  numbers (get_tile_pos_row E T S) (tile_counts box es)
          (cells (tile_counts box es)) /\
  numbers (get_tile_pos_col E T S) (tile_counts box es)
          (cells (tile_counts box es)).
Proof.
  intros HT Hty Hdom Hes Hn Hcut Hc.
  pose proof (cut_counts_pos _ _ _ Hcut) as Hp.
  split; [|split].
  - unfold tile_num. rewrite Hty. cbn [bind].
    destruct T; try discriminate HT; apply tile_num_T_value; assumption.
  - apply numbers_row; [exact Hp|]. intros c Hin.
    apply get_tile_pos_row_value; assumption.
  - apply numbers_col; [exact Hp|]. intros c Hin.
    apply get_tile_pos_col_value; assumption.
Qed.

Lemma tile_positions_fill_the_grid_witness :
  tile_num spec_env S1_schema = Ok 4 /\
  numbers (get_tile_pos_row spec_env T_int64_t S1_schema) [2; 2] 4 /\
  numbers (get_tile_pos_col spec_env T_int64_t S1_schema) [2; 2] 4.
Proof.
  apply (@tile_positions_fill_the_grid spec_env T_int64_t S1_schema
           [(0, 9); (0, 9)] [5; 5]).
  - reflexivity.
  - vm_compute. reflexivity.
  - vm_compute. reflexivity.
  - vm_compute. reflexivity.
  - reflexivity.
  - repeat constructor; vm_compute; congruence.
  - vm_compute. reflexivity.
Defined.

(** ** The tile domain *)

Lemma split_elems_store w vs :
  split_elems w (length vs) (flat_map (le_bytes w) vs) = map (le_bytes w) vs.
Proof.
  induction vs as [|v vs IH]; [reflexivity|].
  cbn [length split_elems flat_map map].
  rewrite firstn_app, skipn_app, le_bytes_length, Nat.sub_diag.
  rewrite firstn_all2, skipn_all2 by (rewrite le_bytes_length; lia).
  cbn [firstn skipn app]. rewrite app_nil_r, IH. reflexivity.
Qed.

Lemma store_length T vs :
  length (store T vs) = (length vs * Z.to_nat (sizeof T))%nat.
Proof.
  unfold store. induction vs as [|v vs IH]; [reflexivity|].
  cbn [flat_map length]. rewrite length_app, le_bytes_length, IH. lia.
Qed.

Lemma fits_in_range T z :
  is_integral T = true -> fits T z -> wrapT T (z mod 256 ^ sizeof T) = z.
Proof.
  unfold fits. intros HT H. destruct T; try discriminate HT; cbn [wrapT sizeof] in *.
  - pose proof (wrap_signed_range 32 z ltac:(lia)) as R. rewrite H in R.
    exact (wrap_signed_mod 32 z ltac:(lia) R).
  - pose proof (wrap_signed_range 64 z ltac:(lia)) as R. rewrite H in R.
    exact (wrap_signed_mod 64 z ltac:(lia) R).
Qed.

(** Values of an integer type read back from the bytes that hold them. *)
Lemma cast_store T vs :
  is_integral T = true -> Forall (fits T) vs -> cast T (Some (store T vs)) = vs.
Proof.
  intros HT Hf. unfold cast, elems. rewrite store_length.
  pose proof (sizeof_bounds T) as Hs.
  rewrite Nat.div_mul by lia. unfold store. rewrite split_elems_store, map_map.
  induction Hf as [|v vs Hv _ IH]; [reflexivity|].
  cbn [map]. rewrite IH. f_equal.
  rewrite le_value_le_bytes, Z2Nat.id by lia. apply fits_in_range; assumption.
Qed.

Lemma ceil_bounds a e :
  0 < e <= a ->
  Z.quot a e <= - (- a / e) <= a /\
  (Z.quot a e = - (- a / e) <-> a mod e = 0).
Proof.
  intros H. rewrite Z.quot_div_nonneg by lia.
  pose proof (Z.div_mod a e ltac:(lia)) as D1.
  pose proof (Z.mod_pos_bound a e ltac:(lia)) as M1.
  pose proof (Z.div_mod (- a) e ltac:(lia)) as D2.
  pose proof (Z.mod_pos_bound (- a) e ltac:(lia)) as M2.
  assert (Hq : 0 < a / e) by (apply Z.div_str_pos; lia).
  split; [split|split]; try nia.
Qed.

Lemma fold_push {A B : Type} (f : A -> list B) l :
  forall td, fold_res (fun a td => Ok (td ++ f a)) l td = Ok (td ++ flat_map f l).
Proof.
  induction l as [|a l IH]; intros td; cbn [fold_res flat_map bind].
  - rewrite app_nil_r. reflexivity.
  - rewrite IH, app_assoc. reflexivity.
Qed.

(** The upper end [compute_tile_domain<T>] stores for a dimension. *)
Lemma tile_top_value E T b e :
  is_integral T = true ->
  fits T (snd b - fst b) -> fits T (snd b - fst b + 1) ->
  0 < e <= snd b - fst b + 1 -> snd b - fst b + 1 < 2 ^ 53 ->
  wrapT T (ceil_quot E T (wrapT T (wrapT T (snd b - fst b) + 1)) e - 1)
  = - (- (snd b - fst b + 1) / e) - 1.
Proof.
  intros HT F1 F2 He Hs. unfold fits in F1, F2. rewrite F1, F2.
  unfold ceil_quot.
  replace ((0 <? e) && (e <? 2 ^ 53) && (- 2 ^ 53 <? snd b - fst b + 1)
           && (snd b - fst b + 1 <? 2 ^ 53)) with true.
  2:{ symmetry. repeat (apply andb_true_iff; split); apply Z.ltb_lt; lia. }
  destruct (ceil_bounds _ _ He) as [[B1 B2] _].
  pose proof (quot_bounds _ _ He) as Q.
  assert (F0 : fits T 0)
    by (unfold fits; destruct T; try discriminate HT; reflexivity).
  apply (fits_between T 0 (snd b - fst b + 1)); try assumption. lia.
Qed.

Lemma tile_grid_length box es : length (tile_grid box es) = length (combine box es).
Proof. unfold tile_grid. apply length_map. Qed.

(** The loop of [compute_tile_domain<T>]. *)
Lemma tile_domain_loop E T S box es :
  is_integral T = true ->
  cast T (domain_ S) = domain_of box -> cast T (tile_extents_ S) = es ->
  len es = dim_num_ S -> cut T box es ->
  Forall (fun b => snd b - fst b + 1 < 2 ^ 53) box ->
  for_loop (dim_num_ S)
    (fun i td =>
       lo <- at_ (cast T (domain_ S)) (2 * i) ;;
       hi <- at_ (cast T (domain_ S)) (2 * i + 1) ;;
       e <- at_ (cast T (tile_extents_ S)) i ;;
       Ok (td ++ [0; if is_integral T
                     then wrapT T (ceil_quot E T (wrapT T (wrapT T (hi - lo) + 1)) e - 1)
                     else fp_tile_hi E T lo hi e]))
    []
  = Ok (domain_of (tile_grid box es)).
Proof.
  intros HT Hdom Hes Hn Hcut Hsmall. rewrite Hdom, Hes, HT.
  pose proof (cut_box_length _ _ _ Hcut) as Hbl.
  rewrite (for_loop_fold (combine box es) _
             (fun be td =>
                Ok (td ++ [0; wrapT T (ceil_quot E T
                                         (wrapT T (wrapT T (snd (fst be) - fst (fst be)) + 1))
                                         (snd be) - 1)]))).
  2:{ intros i [b e] st Hi. apply at_combine in Hi as [Hb He].
      apply at_Ok_inv in Hb as [_ Hb]. rewrite Nat2Z.id in Hb.
      destruct (at_domain_of box i b Hb) as [Hlo Hhi].
      rewrite Hlo, Hhi, He. reflexivity. }
  2:{ unfold len in *. rewrite length_combine. lia. }
  rewrite firstn_all2 by (unfold len in *; rewrite length_combine; lia).
  rewrite fold_push. cbn [app]. f_equal. clear Hbl Hn Hdom Hes.
  unfold tile_grid, domain_of.
  induction Hcut as [|b e box es (F1 & F2 & He) _ IH]; [reflexivity|].
  inversion Hsmall as [|? ? Hs Hsmall']; subst.
  cbn [combine flat_map map fst snd app]. rewrite IH by assumption.
  rewrite (tile_top_value E T b e) by assumption. reflexivity.
Qed.

Lemma grid_counts T box es :
  cut T box es ->
  0 < cells (tile_counts box es) <= tiles (tile_grid box es) /\
  (cells (tile_counts box es) = tiles (tile_grid box es) <->
   Forall2 (fun b e => (snd b - fst b + 1) mod e = 0) box es).
Proof.
  unfold tile_counts, tile_grid, tiles.
  induction 1 as [|b e box es (_ & _ & He) _ IH].
  - cbn. split; [lia|]. split; [constructor|reflexivity].
  - cbn [combine map fst snd]. rewrite !cells_cons.
    destruct IH as [IH1 IH2].
    destruct (ceil_bounds _ _ He) as [[B1 B2] B3].
    pose proof (quot_bounds _ _ He) as Q.
    set (q := Z.quot (snd b - fst b + 1) e) in *.
    set (c := - (- (snd b - fst b + 1) / e)) in *.
    replace (c - 1 - 0 + 1) with c by lia.
    split; [nia|]. split.
    + intros Heq. assert (q = c) by nia.
      constructor; [apply B3; assumption|]. apply IH2. nia.
    + intros HF. inversion HF; subst.
      apply B3 in H2. apply IH2 in H4. rewrite H2, H4. reflexivity.
Qed.

(** X14: in a schema that [init] has built with tile extents of an
    integer type that cut every range of the domain into at least one
    whole tile, with ranges shorter than 2^53 and fewer than 2^63 whole
    tiles, the tile domain numbers the tiles along each dimension from 0
    and counts the last, partial tile; [tile_num], which counts whole
    tiles only, returns no more than the number of tiles of the tile
    domain, and returns that number exactly when every extent divides
    the length of its range. *)
Theorem tile_domain_counts_partial_tiles
        (E : Env) (T : Datatype) (c : C_API.ArraySchemaC) (S0 S : ArraySchema)
        (box : list (Z * Z)) (es : list Z) :
  is_integral T = true ->
  init E c S0 = Ok S ->
  at_ (types_ S) (attribute_num_ S) = Ok (Some T) ->
  cast T (domain_ S) = domain_of box -> cast T (tile_extents_ S) = es ->
  len es = dim_num_ S -> 0 < dim_num_ S -> cut T box es ->
  Forall (fun b => snd b - fst b + 1 < 2 ^ 53) box ->
  cells (tile_counts box es) < 2 ^ 63 ->
  cast T (tile_domain_ S) = domain_of (tile_grid box es) /\
  (exists n, tile_num E S = Ok n /\ 0 < n <= tiles (tile_grid box es) /\
             (n = tiles (tile_grid box es) <->
              Forall2 (fun b e => (snd b - fst b + 1) mod e = 0) box es)).
Proof.
  intros HT Hi Hty Hdom Hes Hn Hd Hcut Hsmall Hc.
  destruct (grid_counts T box es Hcut) as [G1 G2].
  split.
  - apply init_tail in Hi
      as (S8 & S9 & S10 & S11 & S12 & _ & _ & _ & _ & _ & Hfin & _ & _ & _ & _ & HS).
    apply finalize_steps in Hfin
      as (S1 & S2 & S3 & _ & _ & H3 & _ & E1 & E2 & E3).
    assert (Hdom2 : domain_ S2 = domain_ S) by (rewrite E2, E1, HS; reflexivity).
    assert (Hext2 : tile_extents_ S2 = tile_extents_ S)
      by (rewrite E2, E1, HS; reflexivity).
    assert (Hty2 : types_ S2 = types_ S) by (rewrite E2, E1, HS; reflexivity).
    assert (Han2 : attribute_num_ S2 = attribute_num_ S)
      by (rewrite E2, E1, HS; reflexivity).
    assert (Hdn2 : dim_num_ S2 = dim_num_ S) by (rewrite E2, E1, HS; reflexivity).
    assert (Htd : tile_domain_ S3 = tile_domain_ S) by (rewrite E3; reflexivity).
    assert (H3T : compute_tile_domain_T E T S2 = Ok S3).
    { unfold compute_tile_domain in H3. rewrite Hty2, Han2, Hty in H3.
      cbn [bind] in H3. destruct T; try discriminate HT; exact H3. }
    unfold compute_tile_domain_T in H3T.
    destruct (tile_extents_ S2) as [bs|] eqn:Hx.
    2:{ rewrite <- Hext2 in Hes. cbn [cast] in Hes. subst es.
        unfold len in Hn. simpl in Hn. lia. }
    apply bind_Ok_inv in H3T as (u & _ & H3T).
    rewrite <- Hx in H3T.
    rewrite (tile_domain_loop E T S2 box es) in H3T;
      try assumption; try congruence.
    cbn [bind] in H3T. inversion H3T as [H3']. rewrite <- Htd, <- H3'.
    cbn. apply cast_store; [exact HT|].
    clear - HT Hcut Hsmall. unfold tile_grid, domain_of.
    assert (F0 : fits T 0)
      by (unfold fits; destruct T; try discriminate HT; reflexivity).
    induction Hcut as [|b e box es (F1 & F2 & He) _ IH]; [constructor|].
    inversion Hsmall as [|? ? Hs Hsmall']; subst.
    cbn [combine flat_map map fst snd app].
    constructor; [exact F0|]. constructor; [|apply IH; assumption].
    destruct (ceil_bounds _ _ He) as [[B1 B2] _].
    pose proof (quot_bounds _ _ He) as Q.
    apply (fits_between T 0 (snd b - fst b + 1)); try assumption. lia.
  - exists (cells (tile_counts box es)). split; [|split; assumption].
    unfold tile_num. rewrite Hty. cbn [bind].
    destruct T; try discriminate HT; apply (tile_num_T_value E _ S box es); assumption.
Qed.

Lemma tile_domain_counts_partial_tiles_witness :
  cast T_int64_t (tile_domain_ P_schema)
  = domain_of (tile_grid [(0, 9); (0, 9)] [4; 5]) /\
  (exists n, tile_num spec_env P_schema = Ok n /\
             0 < n <= tiles (tile_grid [(0, 9); (0, 9)] [4; 5]) /\
             (n = tiles (tile_grid [(0, 9); (0, 9)] [4; 5]) <->
              Forall2 (fun b e => (snd b - fst b + 1) mod e = 0)
                      [(0, 9); (0, 9)] [4; 5])).
Proof.
  apply (@tile_domain_counts_partial_tiles spec_env T_int64_t P_input
           ArraySchema_new P_schema [(0, 9); (0, 9)] [4; 5]).
  - reflexivity.
  - vm_compute. reflexivity.
  - vm_compute. reflexivity.
  - vm_compute. reflexivity.
  - vm_compute. reflexivity.
  - reflexivity.
  - reflexivity.
  - repeat constructor; vm_compute; congruence.
  - repeat constructor.
  - vm_compute. reflexivity.
Defined.

(** ** The overlap of a range with a bounding rectangle *)

Lemma for_break_from_fold {A St : Type} (l : list A)
      (body : Z -> St -> res (St * bool)) (step : A -> St -> res (St * bool)) :
  (forall i a st, nth_error l i = Some a -> body (Z.of_nat i) st = step a st) ->
  forall k i st,
    (i + k <= length l)%nat ->
    for_break_from (Z.of_nat i) k body st
    = fold_break step (firstn k (skipn i l)) st.
Proof.
  intros Hb k. induction k as [|k IH]; intros i st Hk; [reflexivity|].
  destruct (nth_error l i) as [a|] eqn:Ha.
  2:{ apply nth_error_None in Ha. lia. }
  rewrite (skipn_nth_error _ _ _ Ha).
  cbn [for_break_from firstn fold_break]. rewrite (Hb _ _ _ Ha).
  destruct (step a st) as [[s b]| | |]; cbn [bind]; try reflexivity.
  destruct b; [reflexivity|].
  replace (Z.of_nat i + 1) with (Z.of_nat (Datatypes.S i)) by lia.
  apply IH. lia.
Qed.

Lemma for_break_down_fold {A St : Type} (l : list A)
      (body : Z -> St -> res (St * bool)) (step : A -> St -> res (St * bool)) :
  (forall i a st, nth_error l i = Some a -> body (Z.of_nat i) st = step a st) ->
  forall k st,
    (k <= length l)%nat ->
    for_break_down k body st = fold_break step (rev (firstn k l)) st.
Proof.
  intros Hb k. induction k as [|k IH]; intros st Hk; [reflexivity|].
  destruct (nth_error l k) as [a|] eqn:Ha.
  2:{ apply nth_error_None in Ha. lia. }
  rewrite (firstn_succ_nth _ _ _ Ha), rev_app_distr.
  cbn [for_break_down rev app fold_break]. rewrite (Hb _ _ _ Ha).
  destruct (step a st) as [[s b]| | |]; cbn [bind]; try reflexivity.
  destruct b; [reflexivity|]. apply IH. lia.
Qed.

Lemma fold_break_test {A St : Type} (t : A -> bool) (brk : St) l :
  forall st,
    fold_break (fun a st => Ok (if t a then (brk, true) else (st, false))) l st
    = Ok (if existsb t l then brk else st).
Proof.
  induction l as [|a l IH]; intros st; [reflexivity|].
  cbn [fold_break existsb bind]. destruct (t a); [reflexivity|].
  cbn [orb]. apply IH.
Qed.

Lemma domain_of_length box : length (domain_of box) = (2 * length box)%nat.
Proof.
  unfold domain_of. induction box as [|b box IH]; [reflexivity|].
  cbn [flat_map length app]. rewrite IH. lia.
Qed.

Lemma domain_of_app b1 b2 : domain_of (b1 ++ b2) = domain_of b1 ++ domain_of b2.
Proof. unfold domain_of. apply flat_map_app. Qed.

Lemma maxT_integral T a b : is_integral T = true -> maxT T a b = Z.max a b.
Proof.
  intros HT. unfold maxT, ltT. rewrite gtT_integral by exact HT.
  destruct (Z.ltb_spec a b); lia.
Qed.

Lemma minT_integral T a b : is_integral T = true -> minT T a b = Z.min a b.
Proof.
  intros HT. unfold minT, ltT. rewrite gtT_integral by exact HT.
  destruct (Z.ltb_spec b a); lia.
Qed.

Lemma neT_integral T a b : is_integral T = true -> neT T a b = negb (a =? b).
Proof. intros HT. destruct T; try discriminate HT; reflexivity. Qed.

(** What the members read of the three arrays at dimension [i]. *)
Lemma shared_reads m q i b r :
  nth_error (combine m q) i = Some (b, r) ->
  at_ (domain_of m) (2 * Z.of_nat i) = Ok (fst b) /\
  at_ (domain_of m) (2 * Z.of_nat i + 1) = Ok (snd b) /\
  at_ (domain_of q) (2 * Z.of_nat i) = Ok (fst r) /\
  at_ (domain_of q) (2 * Z.of_nat i + 1) = Ok (snd r) /\
  at_ (domain_of (shared m q)) (2 * Z.of_nat i) = Ok (Z.max (fst b) (fst r)) /\
  at_ (domain_of (shared m q)) (2 * Z.of_nat i + 1) = Ok (Z.min (snd b) (snd r)).
Proof.
  intros H.
  assert (Hs : nth_error (shared m q) i
               = Some (Z.max (fst b) (fst r), Z.min (snd b) (snd r))).
  { unfold shared. rewrite nth_error_map, H. reflexivity. }
  apply at_combine in H as [Hb Hr].
  apply at_Ok_inv in Hb as [_ Hb]. apply at_Ok_inv in Hr as [_ Hr].
  rewrite Nat2Z.id in Hb, Hr.
  destruct (at_domain_of m i b Hb) as [B1 B2].
  destruct (at_domain_of q i r Hr) as [R1 R2].
  destruct (at_domain_of _ i _ Hs) as [S1 S2].
  repeat split; assumption.
Qed.

(** The first loop of [compute_mbr_range_overlap]. *)
Lemma shared_loop T m q :
  is_integral T = true -> length m = length q ->
  forall k i rest,
    (i + k = length m)%nat -> length rest = (2 * k)%nat ->
    for_loop_from (Z.of_nat i) k
      (fun i overlap_range =>
         m0 <- at_ (domain_of m) (2 * i) ;;
         r0 <- at_ (domain_of q) (2 * i) ;;
         overlap_range <- put_ overlap_range (2 * i) (maxT T m0 r0) ;;
         m1 <- at_ (domain_of m) (2 * i + 1) ;;
         r1 <- at_ (domain_of q) (2 * i + 1) ;;
         put_ overlap_range (2 * i + 1) (minT T m1 r1))
      (domain_of (firstn i (shared m q)) ++ rest)
    = Ok (domain_of (shared m q)).
Proof.
  intros HT Hl.
  assert (Hls : length (shared m q) = length m).
  { unfold shared. rewrite length_map, length_combine. lia. }
  induction k as [|k IH]; intros i rest Hik Hrest.
  - destruct rest; [|discriminate Hrest].
    cbn [for_loop_from]. rewrite app_nil_r, firstn_all2 by lia. reflexivity.
  - destruct rest as [|x [|y rest]]; try (simpl in Hrest; lia).
    destruct (nth_error (combine m q) i) as [[b r]|] eqn:Hi.
    2:{ apply nth_error_None in Hi. rewrite length_combine in Hi. lia. }
    destruct (shared_reads m q i b r Hi) as (B1 & B2 & R1 & R2 & _ & _).
    assert (Hs : nth_error (shared m q) i
                 = Some (Z.max (fst b) (fst r), Z.min (snd b) (snd r))).
    { unfold shared. rewrite nth_error_map, Hi. reflexivity. }
    cbn [for_loop_from]. rewrite B1, R1, B2, R2. cbn [bind].
    rewrite maxT_integral, minT_integral by exact HT.
    assert (Hpre : len (domain_of (firstn i (shared m q))) = 2 * Z.of_nat i).
    { unfold len. rewrite domain_of_length, length_firstn. lia. }
    rewrite put_at by (symmetry; exact Hpre). cbn [bind].
    replace (domain_of (firstn i (shared m q))
             ++ Z.max (fst b) (fst r) :: y :: rest)
      with ((domain_of (firstn i (shared m q)) ++ [Z.max (fst b) (fst r)])
            ++ y :: rest) by (rewrite <- app_assoc; reflexivity).
    rewrite put_at by (rewrite len_app, Hpre; reflexivity).
    cbn [bind].
    replace (Z.of_nat i + 1) with (Z.of_nat (Datatypes.S i)) by lia.
    replace ((domain_of (firstn i (shared m q)) ++ [Z.max (fst b) (fst r)])
             ++ Z.min (snd b) (snd r) :: rest)
      with (domain_of (firstn (Datatypes.S i) (shared m q)) ++ rest).
    + apply IH; [lia|simpl in Hrest; lia].
    + rewrite (firstn_succ_nth _ _ _ Hs), domain_of_app.
      rewrite <- !app_assoc. reflexivity.
Qed.

Lemma apart_turn T m q i b r (st : Z) :
  is_integral T = true ->
  nth_error (combine m q) i = Some (b, r) ->
  (o0 <- at_ (domain_of (shared m q)) (2 * Z.of_nat i) ;;
   m1 <- at_ (domain_of m) (2 * Z.of_nat i + 1) ;;
   if gtT T o0 m1 then Ok (0, true)
   else
     o1 <- at_ (domain_of (shared m q)) (2 * Z.of_nat i + 1) ;;
     m0 <- at_ (domain_of m) (2 * Z.of_nat i) ;;
     if ltT T o1 m0 then Ok (0, true) else Ok (st, false))
  = Ok (if apart_at (b, r) then (0, true) else (st, false)).
Proof.
  intros HT Hi.
  destruct (shared_reads m q i b r Hi) as (B1 & B2 & _ & _ & S1 & S2).
  rewrite S1, B2. cbn [bind]. unfold apart_at, ltT. cbn [fst snd].
  rewrite !gtT_integral by exact HT.
  destruct (snd b <? Z.max (fst b) (fst r)); [reflexivity|].
  rewrite S2, B1. cbn [bind orb]. rewrite gtT_integral by exact HT.
  destruct (Z.min (snd b) (snd r) <? fst b); reflexivity.
Qed.

Lemma differ_turn T m q i b r (st : Z) :
  is_integral T = true ->
  nth_error (combine m q) i = Some (b, r) ->
  (m0 <- at_ (domain_of m) (2 * Z.of_nat i) ;;
   m1 <- at_ (domain_of m) (2 * Z.of_nat i + 1) ;;
   d <- differs T (domain_of (shared m q)) (Z.of_nat i) m0 m1 ;;
   if d then Ok (2, true) else Ok (st, false))
  = Ok (if differ_at (b, r) then (2, true) else (st, false)).
Proof.
  intros HT Hi.
  destruct (shared_reads m q i b r Hi) as (B1 & B2 & _ & _ & S1 & S2).
  rewrite B1, B2. cbn [bind]. unfold differs. rewrite S1. cbn [bind].
  unfold differ_at. cbn [fst snd]. rewrite !neT_integral by exact HT.
  destruct (Z.max (fst b) (fst r) =? fst b); cbn [negb orb bind];
    [|reflexivity].
  rewrite S2. cbn [bind]. rewrite ?neT_integral by exact HT.
  destruct (Z.min (snd b) (snd r) =? snd b); reflexivity.
Qed.

Lemma existsb_combine (t : (Z * Z) * (Z * Z) -> bool)
      (W : Z * Z -> Prop) (P : Z * Z -> Z * Z -> Prop) :
  (forall b r, W b -> (t (b, r) = false <-> P b r)) ->
  forall m q,
    length m = length q -> Forall W m ->
    (existsb t (combine m q) = false <-> Forall2 P m q).
Proof.
  intros Ht. induction m as [|b m IH]; intros [|r q] Hl HW;
    try discriminate Hl.
  - simpl. split; [constructor|reflexivity].
  - inversion HW as [|? ? Hb HW']; subst. cbn [combine existsb].
    rewrite orb_false_iff, (Ht b r Hb), (IH q) by (simpl in Hl; auto; lia).
    split.
    + intros [H1 H2]. constructor; assumption.
    + intros H. inversion H; subst. split; assumption.
Qed.

Lemma combine_tl {A B : Type} (m : list A) (q : list B) :
  tl (combine m q) = combine (tl m) (tl q).
Proof. destruct m, q; try reflexivity. simpl. destruct m; reflexivity. Qed.

Lemma combine_removelast {A B : Type} (m : list A) :
  forall (q : list B),
    length m = length q ->
    removelast (combine m q) = combine (removelast m) (removelast q).
Proof.
  induction m as [|a m IH]; intros [|b q] Hl; try discriminate Hl;
    [reflexivity|].
  destruct m as [|a' m], q as [|b' q]; try discriminate Hl; [reflexivity|].
  change (removelast (combine (a :: a' :: m) (b :: b' :: q)))
    with ((a, b) :: removelast (combine (a' :: m) (b' :: q))).
  rewrite IH by (simpl in *; lia). reflexivity.
Qed.

Lemma existsb_rev {A : Type} (t : A -> bool) l : existsb t (rev l) = existsb t l.
Proof.
  induction l as [|a l IH]; [reflexivity|].
  cbn [rev]. rewrite existsb_app, IH. cbn [existsb].
  destruct (t a), (existsb t l); reflexivity.
Qed.

Lemma Forall_tl_wf {A : Type} (P : A -> Prop) l : Forall P l -> Forall P (tl l).
Proof. intros H. destruct H; [constructor|assumption]. Qed.

Lemma Forall_removelast {A : Type} (P : A -> Prop) l :
  Forall P l -> Forall P (removelast l).
Proof.
  induction 1 as [|a l Ha Hl IH]; [constructor|].
  destruct l; [constructor|]. cbn [removelast] in *.
  constructor; assumption.
Qed.

Lemma within_touch m q :
  Forall (fun b => fst b <= snd b) m -> within m q -> touch m q.
Proof.
  intros HW H. induction H as [|b r m q [H1 H2] _ IH]; [constructor|].
  inversion HW; subst. constructor; [lia|]. apply IH. assumption.
Qed.



(** ** A second [init] on the same object *)

Lemma set_types_attribute_names E types i S S' :
  set_types_attribute E types i S = Ok S' -> attributes_ S' = attributes_ S.
Proof.
  unfold set_types_attribute. intros H.
  apply bind_Ok_inv in H as (tv & _ & H).
  destruct (strtok_all tv) as [|ty rest]; [discriminate H|].
  apply bind_Ok_inv in H as (S1 & H1 & H).
  destruct (type_of_name ty); [|discriminate H].
  inversion H; subst S'; clear H. cbn.
  destruct rest as [|tok rest']; [inversion H1; reflexivity|].
  apply bind_Ok_inv in H1 as (S2 & H1 & H2).
  destruct rest'; [|discriminate H2]. inversion H2; subst S2; clear H2.
  destruct (String.eqb tok "var"); [inversion H1; reflexivity|].
  destruct (negb (is_positive_integer E tok)); [discriminate H1|].
  apply bind_Ok_inv in H1 as (num & _ & H1). inversion H1; reflexivity.
Qed.

Lemma set_types_names E types S S' :
  set_types E types S = Ok S' -> attributes_ S' = attributes_ S.
Proof.
  unfold set_types. intros H. destruct types as [types|]; [|discriminate H].
  apply bind_Ok_inv in H as (S1 & H1 & H).
  apply (for_loop_preserves (fun s => attributes_ s = attributes_ S)) in H1;
    [| intros j s s' Hs Hb; rewrite <- Hs; eapply set_types_attribute_names, Hb
     | reflexivity ].
  apply bind_Ok_inv in H as (ty & _ & H).
  apply bind_Ok_inv in H as (S2 & H2 & H).
  apply bind_Ok_inv in H as (tsz & _ & H).
  apply bind_Ok_inv in H as (csz & _ & H).
  inversion H; subst S'; clear H. cbn.
  destruct (String.eqb ty "char:var").
  - apply bind_Ok_inv in H2 as (d & _ & H2). inversion H2; subst S2. exact H1.
  - destruct (dense_ (with_key_value_ false S1) &&
              (String.eqb ty "float32" || String.eqb ty "float64"));
      [discriminate H2|].
    destruct (String.eqb ty "int32"); [inversion H2; subst S2; exact H1|].
    destruct (String.eqb ty "int64"); [inversion H2; subst S2; exact H1|].
    destruct (String.eqb ty "float32"); [inversion H2; subst S2; exact H1|].
    destruct (String.eqb ty "float64"); [inversion H2; subst S2; exact H1|].
    discriminate H2.
Qed.

Lemma set_compression_names E compression S S' :
  set_compression E compression S = Ok S' -> attributes_ S' = attributes_ S.
Proof.
  unfold set_compression. intros H. destruct compression as [l|].
  - apply (for_loop_preserves (fun s => attributes_ s = attributes_ S)) in H;
      [exact H| |reflexivity].
    intros j s s' Hs Hb. apply bind_Ok_inv in Hb as (x & _ & Hb).
    destruct (String.eqb x "NONE"); [inversion Hb; subst; exact Hs|].
    destruct (String.eqb x "GZIP"); [inversion Hb; subst; exact Hs|].
    discriminate Hb.
  - apply (for_loop_preserves (fun s => attributes_ s = attributes_ S)) in H;
      [exact H| |reflexivity].
    intros j s s' Hs Hb. inversion Hb; subst; exact Hs.
Qed.

Lemma at_outcome {A : Type} (l : list A) i :
  (exists a, at_ l i = Ok a) \/ at_ l i = Undef.
Proof.
  unfold at_. destruct (i <? 0); [right; reflexivity|].
  destruct (nth_error l (Z.to_nat i)); [left; eauto|right; reflexivity].
Qed.

(** The loops that collect names read past the end of a short array and
    do nothing else than return. *)
Lemma collect_outcome {A : Type} (l : list A) (get : ArraySchema -> list A)
      (set : list A -> ArraySchema -> ArraySchema) :
  forall k i S,
    ((exists S', for_loop_from i k
                   (fun i s => a <- at_ l i ;; Ok (set (get s ++ [a]) s)) S = Ok S') \/
     for_loop_from i k
       (fun i s => a <- at_ l i ;; Ok (set (get s ++ [a]) s)) S = Undef) /\
    (0 <= i -> i + Z.of_nat k <= len l ->
     exists S', for_loop_from i k
                  (fun i s => a <- at_ l i ;; Ok (set (get s ++ [a]) s)) S = Ok S').
Proof.
  induction k as [|k IH]; intros i S.
  - split; [left|intros _ _]; exists S; reflexivity.
  - cbn [for_loop_from]. split.
    + destruct (at_outcome l i) as [(a & Ha)|Ha]; rewrite Ha; cbn [bind].
      * apply IH.
      * right. reflexivity.
    + intros Hi Hl. destruct (at_in_range l i ltac:(lia)) as (a & Ha).
      rewrite Ha. cbn [bind]. apply IH; lia.
Qed.

(** The names a schema built by [init] holds end with that of the
    coordinates. *)
Lemma init_names E c S0 S :
  init E c S0 = Ok S -> In (TILEDB_COORDS_NAME E) (attributes_ S).
Proof.
  intros H.
  pose proof (init_tail _ _ _ _ H)
    as (T8 & T9 & T10 & T11 & T12 & _ & _ & _ & _ & _ & _ & E9 & E10 & E11 & E12 & ES).
  apply init_steps in H as (S2 & S4 & S5 & S8 & S9 & S10 & S11 & S12
      & H2 & H4 & H5 & H8 & H9 & H10 & H11 & H12 & Hfin).
  apply set_attributes_shape in H2 as (Hn & names & HS2 & _).
  assert (I2 : In (TILEDB_COORDS_NAME E) (attributes_ S2)).
  { rewrite HS2. members. rewrite !in_app_iff. right. right. left. reflexivity. }
  apply set_dimensions_shape in H4 as (_ & dnames & HS4 & _).
  rewrite set_capacity_shape in HS4.
  apply set_compression_names in H5. apply set_types_names in H8.
  unfold set_dense in H8. rewrite set_consolidation_step_shape in H8.
  members_in H8.
  apply set_tile_extents_shape in H9. apply set_cell_order_shape in H10.
  apply set_tile_order_shape in H11. apply set_domain_shape in H12.
  apply finalize_shape in Hfin.
  assert (Hv : attributes_ S = attributes_ S8).
  { rewrite Hfin; members. rewrite H12; members. rewrite H11; members.
    rewrite H10; members. rewrite H9; members. reflexivity. }
  rewrite Hv, H8, H5, HS4. members. exact I2.
Qed.

(** X16: when [has_duplicates] finds every repeated name, [init] on an
    object that [init] has already built never returns a schema: the
    names of the first call are still there, so that the name of the
    coordinates comes twice; it returns the error code whenever the
    description holds the names it announces. *)
Theorem init_twice_is_refused
        (E : Env) (c c' : C_API.ArraySchemaC) (S0 S : ArraySchema) :
  finds_duplicates E ->
  init E c S0 = Ok S ->
  (forall S', init E c' S <> Ok S') /\
  (match C_API.attributes_ c' with
   | Some l => C_API.attribute_num_ c' <= len l
   | None => True
   end -> init E c' S = Err).
Proof.
  intros Hdup Hi. pose proof (init_names _ _ _ _ Hi) as Hin.
  assert (Hset : forall r,
             set_attributes E (C_API.attributes_ c') (C_API.attribute_num_ c')
               (set_array_name E (C_API.array_name_ c') S) = r ->
             (forall S', r <> Ok S') /\
             (match C_API.attributes_ c' with
              | Some l => C_API.attribute_num_ c' <= len l
              | None => True
              end -> r = Err)).
  { unfold set_attributes. destruct (C_API.attributes_ c') as [l|].
    2:{ intros r <-. split; [discriminate|reflexivity]. }
    destruct (Z.leb_spec (C_API.attribute_num_ c') 0) as [Hle|Hgt].
    { intros r <-. split; [discriminate|reflexivity]. }
    destruct (for_loop (C_API.attribute_num_ c')
                (fun i S' => a <- at_ l i ;;
                             Ok (with_attributes_ (attributes_ S' ++ [a]) S'))
                (set_array_name E (C_API.array_name_ c') S)) as [S1| | |] eqn:Hloop.
    - apply (collect_loop l attributes_ with_attributes_) in Hloop;
        [| reflexivity | reflexivity | apply with_attributes_same ].
      destruct Hloop as (names & -> & _ & _). cbn [bind]. members.
      rewrite Hdup.
      + intros r <-. split; [discriminate|reflexivity].
      + unfold set_array_name. members. intros Hnd.
        apply in_split in Hin as (l1 & l2 & Hl). rewrite Hl in Hnd.
        rewrite <- !app_assoc in Hnd. apply NoDup_remove_2 in Hnd.
        apply Hnd. rewrite !in_app_iff. right. right. right. left. reflexivity.
    - intros r <-. cbn [bind]. split; [discriminate|reflexivity].
    - exfalso. unfold for_loop in Hloop.
      destruct (collect_outcome l attributes_ with_attributes_
                  (Z.to_nat (C_API.attribute_num_ c')) 0
                  (set_array_name E (C_API.array_name_ c') S))
        as [[(S1 & H1)|H1] _]; congruence.
    - intros r <-. cbn [bind]. split; [discriminate|]. intros Hlen. exfalso.
      unfold for_loop in Hloop.
      destruct (collect_outcome l attributes_ with_attributes_
                  (Z.to_nat (C_API.attribute_num_ c')) 0
                  (set_array_name E (C_API.array_name_ c') S))
        as [_ H1].
      destruct H1 as (S1 & H1); [lia|lia|congruence]. }
  unfold init.
  destruct (Hset _ eq_refl) as [Hno Herr]. split.
  - intros S' H. apply bind_Ok_inv in H as (S2 & H2 & _). exact (Hno _ H2).
  - intros Hl. rewrite (Herr Hl). reflexivity.
Qed.

Lemma has_duplicates_spec_finds l : ~ NoDup l -> has_duplicates_spec l = true.
Proof.
  induction l as [|a l IH]; intros H.
  - exfalso. apply H. constructor.
  - cbn [has_duplicates_spec].
    destruct (existsb (String.eqb a) l) eqn:Hex; [reflexivity|].
    cbn [orb]. apply IH. intros Hnd. apply H. constructor; [|exact Hnd].
    intros Hin. assert (Ht : existsb (String.eqb a) l = true).
    { apply existsb_exists. exists a. split; [exact Hin|apply String.eqb_refl]. }
    congruence.
Qed.

Lemma init_twice_is_refused_witness :
  (forall S', init spec_env S4_input S1_schema <> Ok S') /\
  (match C_API.attributes_ S4_input with
   | Some l => C_API.attribute_num_ S4_input <= len l
   | None => True
   end -> init spec_env S4_input S1_schema = Err).
Proof.
  apply (@init_twice_is_refused spec_env S1_input S4_input
           ArraySchema_new S1_schema).
  - exact has_duplicates_spec_finds.
  - vm_compute. reflexivity.
Defined.

(** ** Key-value schemas *)

Lemma set_dimensions_names E dimensions dim_num S S' :
  set_dimensions E dimensions dim_num S = Ok S' ->
  exists l,
    dimensions = Some l /\
    S' = with_dim_num_ dim_num
           (with_dimensions_ (dimensions_ S ++ firstn (Z.to_nat dim_num) l) S).
Proof.
  unfold set_dimensions. intros H.
  destruct dimensions as [l|]; [|discriminate].
  destruct (Z.leb_spec dim_num 0); [discriminate|].
  apply bind_Ok_inv in H as (S1 & H1 & H).
  destruct (has_duplicates E _); [discriminate|].
  destruct (intersect E _ _); [discriminate|].
  inversion H; subst S'; clear H.
  apply (collect_loop l dimensions_ with_dimensions_) in H1;
    [| reflexivity | reflexivity | apply with_dimensions_same ].
  destruct H1 as (names & -> & _ & ->).
  exists l. split; reflexivity.
Qed.

(** What [set_types] makes of the type of the coordinates. *)
Lemma set_types_key_value E types S S' :
  Env_ok E -> types_ S = [] -> 0 <= attribute_num_ S ->
  set_types E types S = Ok S' ->
  exists l t,
    types = Some l /\ at_ l (attribute_num_ S) = Ok t /\
    key_value_ S' = String.eqb t "char:var" /\
    attribute_num_ S' = attribute_num_ S /\
    (key_value_ S' = true ->
     dim_num_ S' = 4 /\
     (exists d, at_ (dimensions_ S) 0 = Ok d /\
                dimensions_ S' = key_value_dimensions d) /\
     at_ (types_ S') (attribute_num_ S') = Ok (Some T_int) /\
     coords_size S' = Ok 16) /\
    (key_value_ S' = false ->
     dim_num_ S' = dim_num_ S /\ dimensions_ S' = dimensions_ S).
Proof.
  intros HE Hty Hn H. unfold set_types in H.
  destruct types as [l|]; [|discriminate H].
  apply bind_Ok_inv in H as (S1 & H1 & H).
  apply (set_types_loop_shape _ _ _ _ _ HE) in H1 as (ts & vs & HS1 & Hts & Hvs & _).
  members_in Hts. members_in Hvs. revert HS1. members. rewrite Hty. cbn [app].
  intros HS1.
  assert (Han1 : attribute_num_ S1 = attribute_num_ S) by (rewrite HS1; reflexivity).
  assert (Hty1 : types_ S1 = map Some ts) by (rewrite HS1; reflexivity).
  assert (Hdn1 : dim_num_ S1 = dim_num_ S) by (rewrite HS1; reflexivity).
  assert (Hdm1 : dimensions_ S1 = dimensions_ S) by (rewrite HS1; reflexivity).
  assert (Hlen : len (map Some ts) = attribute_num_ S)
    by (unfold len; rewrite length_map; lia).
  apply bind_Ok_inv in H as (t & Ht & H). rewrite Han1 in Ht.
  apply bind_Ok_inv in H as (S2 & H2 & H).
  apply bind_Ok_inv in H as (tsz & _ & H).
  apply bind_Ok_inv in H as (csz & Hcs & H).
  inversion H; subst S'; clear H. members.
  exists l, t. split; [reflexivity|]. split; [exact Ht|].
  destruct (String.eqb t "char:var") eqn:Hkv.
  - apply bind_Ok_inv in H2 as (d & Hd & H2). inversion H2; subst S2; clear H2.
    revert Hcs. members. rewrite Hty1, Han1. intros Hcs.
    split; [reflexivity|]. split; [reflexivity|]. split; [|discriminate].
    intros _. split; [reflexivity|].
    split; [exists d; split; [rewrite <- Hdm1; exact Hd|reflexivity]|].
    split; [rewrite <- Hlen; apply at_app_last|].
    assert (Hn1 : 0 <= attribute_num_ S + 1) by lia.
    assert (Hi1 : 0 <= attribute_num_ S < attribute_num_ S + 1) by lia.
    destruct (fill_at _ _ _ (attribute_num_ S) Hn1 Hcs Hi1) as (a & Ha & Hc).
    unfold coords_size. members. rewrite Han1, Ha. rewrite <- Hc.
    unfold compute_cell_size. members. rewrite Han1.
    replace ((0 <=? attribute_num_ S) && (attribute_num_ S <=? attribute_num_ S))
      with true by (symmetry; apply andb_true_iff; split; apply Z.leb_le; lia).
    rewrite Z.ltb_irrefl. cbn [assert bind].
    rewrite <- Hlen at 1. rewrite at_app_last. reflexivity.
  - assert (HS2 : key_value_ S2 = false /\ attribute_num_ S2 = attribute_num_ S /\
                  dim_num_ S2 = dim_num_ S /\ dimensions_ S2 = dimensions_ S).
    { destruct (dense_ (with_key_value_ false S1) &&
                (String.eqb t "float32" || String.eqb t "float64"));
        [discriminate H2|].
      destruct (String.eqb t "int32"); [inversion H2; subst S2; auto|].
      destruct (String.eqb t "int64"); [inversion H2; subst S2; auto|].
      destruct (String.eqb t "float32"); [inversion H2; subst S2; auto|].
      destruct (String.eqb t "float64"); [inversion H2; subst S2; auto|].
      discriminate H2. }
    destruct HS2 as (K & A & D & M).
    split; [exact K|]. split; [exact A|]. split; [rewrite K; discriminate|].
    intros _. split; assumption.
Qed.

(** X17: a schema that [init] builds is a key-value schema exactly when
    the type given for the coordinates is "char:var"; it then has four
    dimensions of type [int], named after the first dimension given with
    the suffixes _1 to _4, and coordinates of 16 bytes, whatever number of
    dimensions the description announces; otherwise it has the
    dimensions of the description. *)
Theorem key_value_schema_has_four_dimensions
        (E : Env) (c : C_API.ArraySchemaC) (S : ArraySchema) :
  Env_ok E -> init E c ArraySchema_new = Ok S ->
  exists dims types t,
    C_API.dimensions_ c = Some dims /\ C_API.types_ c = Some types /\
    at_ types (C_API.attribute_num_ c) = Ok t /\
    key_value_ S = String.eqb t "char:var" /\
    (key_value_ S = true ->
     dim_num_ S = 4 /\
     (exists d, at_ dims 0 = Ok d /\ dimensions_ S = key_value_dimensions d) /\
     at_ (types_ S) (attribute_num_ S) = Ok (Some T_int) /\
     coords_size S = Ok 16) /\
    (key_value_ S = false ->
     dim_num_ S = C_API.dim_num_ c /\
     dimensions_ S = firstn (Z.to_nat (C_API.dim_num_ c)) dims).
Proof.
  intros HE H.
  apply init_steps in H as (S2 & S4 & S5 & S8 & S9 & S10 & S11 & S12
      & H2 & H4 & H5 & H8 & H9 & H10 & H11 & H12 & Hfin).
  apply set_attributes_shape in H2 as (Hn & names & HS2 & _).
  unfold set_array_name in HS2.
  pose proof (set_dimensions_shape _ _ _ _ _ H4) as (Hdn & _).
  apply set_dimensions_names in H4 as (dims & Hdims & HS4).
  rewrite set_capacity_shape in HS4.
  apply set_compression_shape in H5 as (cmp & HS5 & _);
    [|rewrite HS4, HS2; members; lia].
  unfold set_dense in H8. rewrite set_consolidation_step_shape in H8.
  apply (set_types_key_value _ _ _ _ HE) in H8
    as (types & t & Hty & Ht & Hkv & Han & Hyes & Hno);
    [| rewrite HS5, HS4, HS2; reflexivity
     | rewrite HS5, HS4, HS2; members; lia ].
  revert Ht Han Hyes Hno. members. rewrite HS5, HS4, HS2. members.
  cbn [app]. intros Ht Han Hyes Hno.
  apply set_tile_extents_shape in H9. apply set_cell_order_shape in H10.
  apply set_tile_order_shape in H11. apply set_domain_shape in H12.
  apply finalize_shape in Hfin.
  assert (HS : S = with_hilbert_curve_ (hilbert_curve_ S)
                     (with_hilbert_bits_ (hilbert_bits_ S)
                        (with_coords_for_hilbert_ (coords_for_hilbert_ S)
                           (with_tile_domain_ (tile_domain_ S)
                              (with_tile_sizes_ (tile_sizes_ S)
                                 (with_cell_num_per_tile_ (cell_num_per_tile_ S)
                                    (with_domain_ (domain_ S12)
                                       (with_tile_order_ (tile_order_ S11)
                                          (with_cell_order_ (cell_order_ S10)
                                             (with_tile_extents_ (tile_extents_ S9)
                                                S8)))))))))).
  { rewrite Hfin at 1. rewrite H12 at 1. rewrite H11 at 1. rewrite H10 at 1.
    rewrite H9 at 1. reflexivity. }
  assert (K : key_value_ S = key_value_ S8) by (rewrite HS; reflexivity).
  assert (D : dim_num_ S = dim_num_ S8) by (rewrite HS; reflexivity).
  assert (M : dimensions_ S = dimensions_ S8) by (rewrite HS; reflexivity).
  assert (Ty : types_ S = types_ S8) by (rewrite HS; reflexivity).
  assert (A : attribute_num_ S = attribute_num_ S8) by (rewrite HS; reflexivity).
  assert (C : coords_size S = coords_size S8) by (rewrite HS; reflexivity).
  exists dims, types, t. rewrite K, D, M, Ty, A, C.
  change (dimensions_ ArraySchema_new) with (@nil string) in Hyes, Hno.
  cbn [app] in Hyes, Hno.
  repeat (split; [assumption|]). split; [|exact Hno].
  intros Hk. destruct (Hyes Hk) as (H4 & (d & Hd & Hm) & Hrest).
  split; [exact H4|]. split; [|exact Hrest].
  exists d. split; [|exact Hm].
  apply at_Ok_inv in Hd as [_ Hd]. apply (at_nth dims 0%nat).
  pose proof (nth_error_firstn (Z.to_nat (C_API.dim_num_ c)) dims (Z.to_nat 0)) as Hf.
  rewrite Hd in Hf. destruct (Z.to_nat 0 <? Z.to_nat (C_API.dim_num_ c))%nat;
    [symmetry; exact Hf|discriminate Hf].
Qed.

Lemma key_value_schema_has_four_dimensions_witness :
  exists dims types t,
    C_API.dimensions_ KV_input = Some dims /\
    C_API.types_ KV_input = Some types /\
    at_ types (C_API.attribute_num_ KV_input) = Ok t /\
    key_value_ KV_schema = String.eqb t "char:var" /\
    (key_value_ KV_schema = true ->
     dim_num_ KV_schema = 4 /\
     (exists d, at_ dims 0 = Ok d /\
                dimensions_ KV_schema = key_value_dimensions d) /\
     at_ (types_ KV_schema) (attribute_num_ KV_schema) = Ok (Some T_int) /\
     coords_size KV_schema = Ok 16) /\
    (key_value_ KV_schema = false ->
     dim_num_ KV_schema = C_API.dim_num_ KV_input /\
     dimensions_ KV_schema
     = firstn (Z.to_nat (C_API.dim_num_ KV_input)) dims).
Proof.
  apply (@key_value_schema_has_four_dimensions spec_env KV_input KV_schema).
  - exact spec_env_ok.
  - vm_compute. reflexivity.
Defined.

(** ** The walk and the positions of the tiles *)

Lemma rank_app_last box b c x :
  length c = length box ->
  rank (box ++ [b]) (c ++ [x]) = rank box c + tiles box * (x - fst b).
Proof.
  revert c. induction box as [|b0 box IH]; intros [|x0 c] Hl;
    try discriminate Hl.
  - cbn [app rank]. unfold tiles, cells. cbn [map fold_right]. lia.
  - cbn [app]. rewrite !rank_cons, tiles_cons.
    rewrite IH by (simpl in Hl; lia). lia.
Qed.

Lemma tiles_grid qs : tiles (map (fun q => (0, q - 1)) qs) = cells qs.
Proof.
  unfold tiles. rewrite map_map. cbn [fst snd]. f_equal.
  rewrite <- (map_id qs) at 2. apply map_ext. intros q. lia.
Qed.

(** The number of a tile in the walk is the sum the position loop
    computes. *)
Lemma rank_dot qs :
  forall c, length c = length qs ->
            rank (rev (map (fun q => (0, q - 1)) qs)) (rev c)
            = dot c (suffix_products (tl qs)).
Proof.
  induction qs as [|q qs IH]; intros [|x c] Hl; try discriminate Hl;
    [reflexivity|].
  cbn [map rev tl]. rewrite rank_app_last
    by (rewrite !length_rev, length_map; simpl in Hl; lia).
  rewrite IH by (simpl in Hl; lia).
  rewrite tiles_rev, tiles_grid. cbn [fst].
  destruct qs as [|q' qs'].
  - destruct c; [|discriminate Hl]. unfold cells.
    cbn [dot suffix_products tl fold_right]. lia.
  - cbn [suffix_products dot tl]. rewrite suffix_products_hd, cells_cons. lia.
Qed.

Lemma grid_exact T box es :
  cut T box es ->
  Forall2 (fun b e => (snd b - fst b + 1) mod e = 0) box es ->
  tile_grid box es = map (fun q => (0, q - 1)) (tile_counts box es).
Proof.
  unfold tile_grid, tile_counts.
  induction 1 as [|b e box es (_ & _ & He) _ IH]; intros HD; [reflexivity|].
  inversion HD as [|? ? ? ? Hm HD']; subst.
  cbn [combine map fst snd]. rewrite IH by assumption.
  destruct (ceil_bounds _ _ He) as [_ B]. apply B in Hm. rewrite Hm.
  reflexivity.
Qed.

Lemma grid_good T qs :
  is_integral T = true -> qs <> [] ->
  Forall (fun q => 0 < q /\ fits T q) qs ->
  good_box T (map (fun q => (0, q - 1)) qs).
Proof.
  intros HT Hne HF. split.
  - destruct qs; [contradiction|discriminate].
  - apply Forall_map. eapply Forall_impl; [|exact HF].
    cbv beta. intros q [Hq Hf]. cbn [fst snd].
    replace (q - 1 + 1) with q by lia.
    split; [lia|]. split; [|exact Hf].
    unfold fits. destruct T; try discriminate HT; reflexivity.
Qed.

Lemma cut_counts_fit T box es :
  is_integral T = true -> cut T box es ->
  Forall (fun q => 0 < q /\ fits T q) (tile_counts box es).
Proof.
  intros HT. unfold tile_counts.
  induction 1 as [|b e box es (_ & F2 & He) _ IH]; simpl;
    constructor; [|exact IH].
  pose proof (quot_bounds _ _ He) as Q. cbn [fst snd]. split; [lia|].
  assert (F0 : fits T 0)
    by (unfold fits; destruct T; try discriminate HT; reflexivity).
  apply (fits_between T 0 (snd b - fst b + 1)); try assumption. lia.
Qed.

Lemma in_box_grid qs c :
  in_box (map (fun q => (0, q - 1)) qs) c -> inside qs c.
Proof.
  unfold in_box, inside. revert c.
  induction qs as [|q qs IH]; intros c H; inversion H; subst; constructor.
  - cbn [fst snd] in *. lia.
  - apply IH. assumption.
Qed.

(** The positions of the tiles a walk goes through, given the member
    that steps, the number it raises by one and the member that tells
    the position. *)
Lemma walk_positions (next : list Z -> res (list Z)) (pos : list Z -> res Z)
      (Inv : list Z -> Prop) (rk : list Z -> Z) (N : Z) (start : list Z) :
  (forall tc, Inv tc -> rk tc < N ->
              exists tc', next tc = Ok tc' /\ Inv tc' /\ rk tc' = rk tc + 1) ->
  (forall tc, Inv tc -> 0 <= rk tc < N -> pos tc = Ok (rk tc)) ->
  Inv start -> rk start = 0 -> 0 <= N ->
  exists visited final,
    walk next (Z.to_nat N) start = Ok (visited ++ [final]) /\
    map pos visited = map (fun j => Ok (Z.of_nat j)) (seq 0 (Z.to_nat N)).
Proof.
  intros Hstep Hpos HI H0 HN.
  destruct (walk_ranks next Inv rk N Hstep (Z.to_nat N) start HI ltac:(lia))
    as (visited & final & Hw & HF & Hm & _ & _).
  exists visited, final. split; [exact Hw|].
  rewrite H0 in Hm.
  assert (Hm' : map rk visited = map Z.of_nat (seq 0 (Z.to_nat N)))
    by (rewrite Hm; apply map_ext; intros; lia).
  rewrite <- (map_map Z.of_nat (@Ok Z)), <- Hm', map_map.
  apply map_ext_in. intros v Hv. apply Hpos.
  - rewrite Forall_forall in HF. apply HF, Hv.
  - apply (in_map rk) in Hv. rewrite Hm in Hv.
    apply in_map_iff in Hv as (j & Hj & Hin). apply in_seq in Hin. lia.
Qed.

(** X18: when the tile extents of an integer type divide the length of
    every range of the domain and nothing leaves the integer types, the
    calls of [get_next_tile_coords] over the tile grid, from the first
    tile, go through the tiles in the order of their positions: the
    [k]-th tile reached has position [k] by [get_tile_pos_row] under
    row-major tile order and by [get_tile_pos_col] under column-major
    tile order. *)
Theorem tile_walk_follows_the_positions
        (E : Env) (T : Datatype) (S : ArraySchema)
        (box : list (Z * Z)) (es : list Z) :
  distinct_tile_orders E -> is_integral T = true ->
  cast T (domain_ S) = domain_of box -> cast T (tile_extents_ S) = es ->
  len es = dim_num_ S -> 0 < dim_num_ S -> cut T box es ->
  Forall2 (fun b e => (snd b - fst b + 1) mod e = 0) box es ->
  cells (tile_counts box es) < 2 ^ 63 ->
  (tile_order_ S = TILEDB_AS_TO_ROW_MAJOR E ->
   exists visited final,
     tile_walk E T S (domain_of (tile_grid box es))
       (Z.to_nat (cells (tile_counts box es))) (map fst (tile_grid box es))
     = Ok (visited ++ [final]) /\
     map (get_tile_pos_row E T S) visited
     = map (fun j => Ok (Z.of_nat j))
           (seq 0 (Z.to_nat (cells (tile_counts box es))))) /\
  (tile_order_ S = TILEDB_AS_TO_COLUMN_MAJOR E ->
   exists visited final,
     tile_walk E T S (domain_of (tile_grid box es))
       (Z.to_nat (cells (tile_counts box es))) (map fst (tile_grid box es))
     = Ok (visited ++ [final]) /\
     map (get_tile_pos_col E T S) visited
     = map (fun j => Ok (Z.of_nat j))
           (seq 0 (Z.to_nat (cells (tile_counts box es))))).
Proof.
  intros (Hrc & _ & _) HT Hdom Hes Hn Hd Hcut Hdiv Hc.
  pose proof (cut_length _ _ _ Hcut) as Hlen.
  pose proof (cut_counts_pos _ _ _ Hcut) as Hp.
  pose proof (cut_counts_fit _ _ _ HT Hcut) as Hfit.
  pose proof (fun c => get_tile_pos_row_value E T S box es c HT Hdom Hes Hn Hcut Hc)
    as Hrow.
  pose proof (fun c => get_tile_pos_col_value E T S box es c HT Hdom Hes Hn Hcut Hc)
    as Hcol.
  rewrite (grid_exact T box es Hcut Hdiv).
  remember (tile_counts box es) as qs eqn:Hqs. clear Hqs Hcut Hdiv.
  set (grid := map (fun q => (0, q - 1)) qs).
  assert (Hne : qs <> []).
  { intros ->. unfold len in Hn. simpl in Hlen. lia. }
  destruct (grid_good T qs HT Hne Hfit) as [Hgne G]. fold grid in Hgne, G.
  pose proof (bounds_ordered T grid G) as G0.
  assert (Hgl : len grid = dim_num_ S).
  { unfold grid, len in *. rewrite length_map. lia. }
  assert (HN : tiles grid = cells qs) by apply tiles_grid.
  pose proof (cells_pos qs Hp) as HNpos.
  unfold tile_walk. split.
  - intros Hr.
    assert (Hner : rev grid <> []).
    { intros H. apply (f_equal (@rev (Z * Z))) in H.
      rewrite rev_involutive in H. contradiction. }
    assert (Gr : Forall (fun b => fst b <= snd b /\ fits T (fst b) /\
                                  fits T (snd b + 1)) (rev grid))
      by (apply Forall_rev, G).
    pose proof (bounds_ordered T (rev grid) Gr) as Gr0.
    apply (walk_positions _ _ (fun c => semi_box (rev grid) (rev c))
             (fun c => rank (rev grid) (rev c))).
    + intros tc HI Hrk. unfold get_next_tile_coords.
      rewrite Hr, Z.eqb_refl.
      rewrite (get_next_tile_coords_row_value E T S grid tc Hgne Hgl).
      2:{ apply semi_box_length in HI. rewrite !length_rev in HI. exact HI. }
      eexists. split; [reflexivity|]. rewrite rev_involutive.
      apply step_rank; try assumption. rewrite tiles_rev, HN. exact Hrk.
    + intros tc HI Hrk.
      assert (Hin : in_box grid tc).
      { apply in_box_rev. apply semi_in_box; try assumption.
        rewrite tiles_rev, HN. lia. }
      apply in_box_grid in Hin. rewrite (Hrow tc Hin). f_equal.
      symmetry. apply rank_dot. apply (inside_length qs tc Hin).
    + rewrite <- map_rev. apply semi_box_lows; assumption.
    + rewrite <- map_rev. apply rank_lows.
    + lia.
  - intros Hcm.
    apply (walk_positions _ _ (semi_box grid) (rank grid)).
    + intros tc HI Hrk. unfold get_next_tile_coords.
      destruct (Z.eqb_spec (tile_order_ S) (TILEDB_AS_TO_ROW_MAJOR E));
        [congruence|].
      rewrite Hcm, Z.eqb_refl.
      rewrite (get_next_tile_coords_col_value E T S grid tc Hgne Hgl).
      2:{ apply semi_box_length in HI. exact HI. }
      eexists. split; [reflexivity|].
      apply step_rank; try assumption. rewrite HN. exact Hrk.
    + intros tc HI Hrk.
      assert (Hin : in_box grid tc).
      { apply semi_in_box; try assumption. rewrite HN. lia. }
      apply in_box_grid in Hin. rewrite (Hcol tc Hin). f_equal.
      pose proof (rank_dot (rev qs) (rev tc)) as Hrd.
      rewrite <- map_rev, !rev_involutive in Hrd. symmetry. apply Hrd.
      rewrite !length_rev. apply (inside_length qs tc Hin).
    + apply semi_box_lows; assumption.
    + apply rank_lows.
    + lia.
Qed.

Lemma tile_walk_follows_the_positions_witness :
  (tile_order_ S1_schema = TILEDB_AS_TO_ROW_MAJOR spec_env ->
   exists visited final,
     tile_walk spec_env T_int64_t S1_schema
       (domain_of (tile_grid [(0, 9); (0, 9)] [5; 5]))
       (Z.to_nat (cells (tile_counts [(0, 9); (0, 9)] [5; 5])))
       (map fst (tile_grid [(0, 9); (0, 9)] [5; 5]))
     = Ok (visited ++ [final]) /\
     map (get_tile_pos_row spec_env T_int64_t S1_schema) visited
     = map (fun j => Ok (Z.of_nat j))
           (seq 0 (Z.to_nat (cells (tile_counts [(0, 9); (0, 9)] [5; 5]))))) /\
  (tile_order_ S1_schema = TILEDB_AS_TO_COLUMN_MAJOR spec_env ->
   exists visited final,
     tile_walk spec_env T_int64_t S1_schema
       (domain_of (tile_grid [(0, 9); (0, 9)] [5; 5]))
       (Z.to_nat (cells (tile_counts [(0, 9); (0, 9)] [5; 5])))
       (map fst (tile_grid [(0, 9); (0, 9)] [5; 5]))
     = Ok (visited ++ [final]) /\
     map (get_tile_pos_col spec_env T_int64_t S1_schema) visited
     = map (fun j => Ok (Z.of_nat j))
           (seq 0 (Z.to_nat (cells (tile_counts [(0, 9); (0, 9)] [5; 5]))))).
Proof.
  apply (@tile_walk_follows_the_positions spec_env T_int64_t S1_schema
           [(0, 9); (0, 9)] [5; 5]).
  - repeat split; discriminate.
  - reflexivity.
  - vm_compute. reflexivity.
  - vm_compute. reflexivity.
  - reflexivity.
  - reflexivity.
  - repeat constructor; vm_compute; congruence.
  - repeat constructor.
  - vm_compute. reflexivity.
Defined.

(** ** The Hilbert curve *)

Lemma longest_fold T box :
  Forall (fun b => fits T (snd b - fst b) /\ fits T (snd b - fst b + 1)) box ->
  forall m,
    fold_res (fun b m =>
                Ok (if m <? wrapT T (wrapT T (snd b - fst b) + 1)
                    then wrapT T (wrapT T (snd b - fst b) + 1) else m))
             box m
    = Ok (fold_left (fun m b => Z.max m (snd b - fst b + 1)) box m).
Proof.
  induction 1 as [|b box [F1 F2] _ IH]; intros m; [reflexivity|].
  cbn [fold_res bind fold_left]. unfold fits in F1, F2. rewrite F1, F2, IH.
  f_equal. f_equal. destruct (Z.ltb_spec m (snd b - fst b + 1)); lia.
Qed.

(** The loop of [compute_hilbert_bits<T>] for an integer type. *)
Lemma compute_hilbert_bits_value E T S S' box :
  is_integral T = true ->
  cast T (domain_ S) = domain_of box -> len box = dim_num_ S ->
  Forall (fun b => fits T (snd b - fst b) /\ fits T (snd b - fst b + 1)) box ->
  compute_hilbert_bits E T S = Ok S' ->
  hilbert_bits_ S' = Some (fp_ceil_log2 E T (longest_range box)).
Proof.
  intros HT Hdom Hn HF H. unfold compute_hilbert_bits in H.
  rewrite HT, Hdom in H.
  rewrite (for_loop_fold box _
             (fun b m =>
                Ok (if m <? wrapT T (wrapT T (snd b - fst b) + 1)
                    then wrapT T (wrapT T (snd b - fst b) + 1) else m))) in H.
  2:{ intros i b st Hi. destruct (at_domain_of box i b Hi) as [Hlo Hhi].
      rewrite Hlo, Hhi. reflexivity. }
  2:{ unfold len in *. lia. }
  rewrite firstn_all2 in H by (unfold len in *; lia).
  rewrite (longest_fold T box HF) in H. cbn [bind] in H.
  inversion H; subst S'. reflexivity.
Qed.

(** X19: a schema that [init] has built on a fresh object has a Hilbert
    curve, with its bits and its coordinates buffer, exactly when its cell
    order is the Hilbert order; the curve is made for the number of
    dimensions of the schema and, for coordinates of an integer type
    whose range lengths are values of the type, from the greatest range
    length of the domain. *)
Theorem hilbert_curve_goes_with_hilbert_order
        (E : Env) (c : C_API.ArraySchemaC) (S : ArraySchema) :
  Env_ok E -> init E c ArraySchema_new = Ok S -> typed S ->
  (cell_order_ S <> TILEDB_AS_CO_HILBERT E ->
   hilbert_curve_ S = None /\ hilbert_bits_ S = None /\
   coords_for_hilbert_ S = None) /\
  (cell_order_ S = TILEDB_AS_CO_HILBERT E ->
   exists bits,
     hilbert_bits_ S = Some bits /\
     hilbert_curve_ S = Some (bits, dim_num_ S) /\
     coords_for_hilbert_ S = Some (dim_num_ S) /\
     forall T box,
       is_integral T = true -> coords_type S = Ok (Some T) ->
       cast T (domain_ S) = domain_of box -> len box = dim_num_ S ->
       Forall (fun b => fits T (snd b - fst b) /\ fits T (snd b - fst b + 1))
              box ->
       bits = fp_ceil_log2 E T (longest_range box)).
Proof.
  intros HE Hi HT.
  destruct (init_prefinal HE Hi HT) as (S0 & P & Hfin & _ & _).
  destruct (finalize_steps E S0 S Hfin)
    as (S1 & S2 & S3 & _ & _ & _ & H4 & HS1 & HS2 & HS3).
  pose proof (finalize_shape _ _ _ Hfin) as HS.
  destruct (pf_fresh _ _ P) as (_ & Hcf & Hhb & Hhc & _).
  assert (Hco : cell_order_ S3 = cell_order_ S)
    by (rewrite HS3, HS2, HS1, HS; reflexivity).
  assert (Hcf3 : coords_for_hilbert_ S3 = None)
    by (rewrite HS3, HS2, HS1; exact Hcf).
  assert (Hhb3 : hilbert_bits_ S3 = None) by (rewrite HS3, HS2, HS1; exact Hhb).
  assert (Hhc3 : hilbert_curve_ S3 = None) by (rewrite HS3, HS2, HS1; exact Hhc).
  assert (Hdn : dim_num_ S3 = dim_num_ S)
    by (rewrite HS3, HS2, HS1, HS; reflexivity).
  assert (Hty : types_ S3 = types_ S)
    by (rewrite HS3, HS2, HS1, HS; reflexivity).
  assert (Han : attribute_num_ S3 = attribute_num_ S)
    by (rewrite HS3, HS2, HS1, HS; reflexivity).
  assert (Hdm : domain_ S3 = domain_ S)
    by (rewrite HS3, HS2, HS1, HS; reflexivity).
  unfold init_hilbert_curve in H4. rewrite Hco, Hcf3 in H4.
  destruct (Z.eqb_spec (cell_order_ S) (TILEDB_AS_CO_HILBERT E)) as [Hh|Hh];
    cbn [negb] in H4.
  - split; [intros Hx; contradiction|]. intros _.
    apply bind_Ok_inv in H4 as (t & Ht & H4). members_in Ht.
    apply bind_Ok_inv in H4 as (S5 & H5 & H4).
    destruct (hilbert_bits_ S5) as [bits|] eqn:Hb; [|discriminate H4].
    inversion H4; subst S; clear H4. members.
    set (S4 := with_coords_for_hilbert_ (Some (dim_num_ S3)) S3) in *.
    assert (H5' : S5 = with_hilbert_bits_ (hilbert_bits_ S5) S4).
    { destruct t as [[| | | |]|];
        try (apply compute_hilbert_bits_shape in H5; exact H5);
        inversion H5; subst S5; symmetry; apply with_hilbert_bits_same. }
    exists bits. split; [exact Hb|].
    split; [rewrite H5'; reflexivity|].
    split; [rewrite H5'; reflexivity|].
    intros T box HTi Hct Hdom Hlen HF.
    revert Hct Hdom Hlen Hty Han Hdm Hdn. members. rewrite H5'. members.
    unfold S4. members. intros Hct Hdom Hlen Hty Han Hdm Hdn.
    unfold coords_type, type in Hct. members_in Hct.
    assert (Ht' : at_ (types_ S3) (attribute_num_ S3) = Ok (Some T)).
    { destruct ((attribute_num_ S3 <? 0) || (attribute_num_ S3 <? attribute_num_ S3));
        [discriminate Hct|exact Hct]. }
    rewrite Ht' in Ht. inversion Ht; subst t.
    assert (Hv : hilbert_bits_ S5 = Some (fp_ceil_log2 E T (longest_range box))).
    { destruct T; try discriminate HTi;
        apply (compute_hilbert_bits_value E _ S4 S5 box); assumption. }
    congruence.
  - split; [|intros Hx; contradiction]. intros _.
    inversion H4; subst S. auto.
Qed.

Lemma hilbert_curve_goes_with_hilbert_order_witness :
  (cell_order_ S4_schema <> TILEDB_AS_CO_HILBERT spec_env ->
   hilbert_curve_ S4_schema = None /\ hilbert_bits_ S4_schema = None /\
   coords_for_hilbert_ S4_schema = None) /\
  (cell_order_ S4_schema = TILEDB_AS_CO_HILBERT spec_env ->
   exists bits,
     hilbert_bits_ S4_schema = Some bits /\
     hilbert_curve_ S4_schema = Some (bits, dim_num_ S4_schema) /\
     coords_for_hilbert_ S4_schema = Some (dim_num_ S4_schema) /\
     forall T box,
       is_integral T = true -> coords_type S4_schema = Ok (Some T) ->
       cast T (domain_ S4_schema) = domain_of box ->
       len box = dim_num_ S4_schema ->
       Forall (fun b => fits T (snd b - fst b) /\ fits T (snd b - fst b + 1))
              box ->
       bits = fp_ceil_log2 spec_env T (longest_range box)).
Proof.
  apply (@hilbert_curve_goes_with_hilbert_order spec_env S4_input S4_schema).
  - exact spec_env_ok.
  - vm_compute. reflexivity.
  - unfold typed, in_int, in_int64, in_range. simpl.
    repeat split; try lia. repeat constructor; lia.
Defined.

(** ** Slabs of a tile *)

Lemma suffix_products_last l n :
  suffix_products (l ++ [n])
  = map (fun x => x * n) (suffix_products l) ++ [1].
Proof.
  induction l as [|a l IH]; [reflexivity|].
  cbn [app suffix_products map]. rewrite IH.
  destruct (suffix_products l) as [|x r] eqn:Hs.
  - pose proof (suffix_products_length l) as Hl. rewrite Hs in Hl.
    discriminate Hl.
  - cbn [map app hd]. f_equal. lia.
Qed.

Lemma dot_scale cs os n : dot cs (map (fun x => x * n) os) = n * dot cs os.
Proof.
  revert os. induction cs as [|c cs IH]; intros [|o os]; cbn [map dot]; try lia.
  rewrite IH. lia.
Qed.

(** The position of a cell whose fastest coordinate is [k], in a tile
    whose fastest extent is [n]. *)
Lemma slab_dot es n pre k :
  length pre = length es ->
  dot (pre ++ [k]) (suffix_products (tl (es ++ [n])))
  = dot pre (suffix_products (tl es)) * n + k.
Proof.
  intros Hl. destruct es as [|e es].
  - destruct pre; [|discriminate Hl]. cbn. lia.
  - cbn [app tl]. rewrite suffix_products_last.
    rewrite dot_app
      by (rewrite length_map, suffix_products_length; simpl in Hl; lia).
    rewrite dot_scale. cbn [dot]. lia.
Qed.

Lemma inside_last es n pre k :
  inside (es ++ [n]) (pre ++ [k]) -> length pre = length es /\ 0 <= k < n.
Proof.
  intros H. pose proof (inside_length _ _ H) as Hl.
  rewrite !length_app in Hl. simpl in Hl.
  split; [lia|].
  unfold inside in H. apply Forall2_app_inv_l in H as (c1 & c2 & H1 & H2 & Heq).
  inversion H2 as [|? x ? r Hx Hr]; subst. inversion Hr; subst.
  pose proof (Forall2_length H1) as Hl1.
  apply app_inj_tail_iff in Heq as [_ ->]. exact Hx.
Qed.

(** X20: with positive tile extents of an integer type whose product fits
    [int64_t], the cells of a tile that differ in the fastest coordinate
    only (the last under row-major cell order, the first under
    column-major cell order) hold a run of consecutive positions whose
    length is what [cell_num_in_tile_slab] returns, and which starts at a
    multiple of that length. *)
Theorem tile_slab_is_a_run_of_positions
        (E : Env) (T : Datatype) (S : ArraySchema) (es : list Z) :
  distinct_cell_orders E -> is_integral T = true ->
  cast T (tile_extents_ S) = es -> len es = dim_num_ S -> 0 < dim_num_ S ->
  Forall (fun e => 0 < e) es -> cells es < 2 ^ 63 ->
  (cell_order_ S = TILEDB_AS_CO_ROW_MAJOR E ->
   exists n,
     cell_num_in_tile_slab E T S = Ok n /\
     forall pre, exists base,
       forall k, inside es (pre ++ [k]) ->
                 0 <= k < n /\
                 get_cell_pos E T S (pre ++ [k]) = Ok (base * n + k)) /\
  (cell_order_ S = TILEDB_AS_CO_COLUMN_MAJOR E ->
   exists n,
     cell_num_in_tile_slab E T S = Ok n /\
     forall rest, exists base,
       forall k, inside es (k :: rest) ->
                 0 <= k < n /\
                 get_cell_pos E T S (k :: rest) = Ok (base * n + k)).
Proof.
  intros (Hrc & _ & _) HT Hes Hn Hd Hp Hc.
  unfold cell_num_in_tile_slab, get_cell_pos. split.
  - intros Hr. rewrite Hr, Z.eqb_refl.
    destruct (exists_last (l := es)) as (es' & n & Hsplit).
    { intros ->. unfold len in Hn. simpl in Hn. lia. }
    exists n. split.
    + unfold cell_num_in_tile_slab_row. rewrite Hes, Hsplit.
      replace (dim_num_ S - 1) with (len es')
        by (rewrite <- Hn, Hsplit, len_app, len_cons, len_nil; lia).
      apply at_app_last.
    + intros pre. exists (dot pre (suffix_products (tl es'))).
      intros k Hin.
      rewrite (get_cell_pos_row_value E T S es _ HT Hes Hn Hp Hc Hin).
      rewrite Hsplit in Hin |- *.
      destruct (inside_last _ _ _ _ Hin) as [Hl Hk].
      split; [exact Hk|]. f_equal. apply slab_dot. exact Hl.
  - intros Hcm.
    destruct (Z.eqb_spec (cell_order_ S) (TILEDB_AS_CO_ROW_MAJOR E)) as [Hx|Hx];
      [congruence|].
    rewrite Hcm, Z.eqb_refl.
    destruct es as [|n es'].
    { unfold len in Hn. simpl in Hn. lia. }
    exists n. split.
    + unfold cell_num_in_tile_slab_col. rewrite Hes. reflexivity.
    + intros rest. exists (dot (rev rest) (suffix_products (tl (rev es')))).
      intros k Hin.
      rewrite (get_cell_pos_col_value E T S (n :: es') _ HT Hes Hn Hp Hc Hin).
      inversion Hin as [|? ? ? ? Hk Hrest]; subst.
      split; [exact Hk|]. f_equal. cbn [rev]. apply slab_dot.
      rewrite !length_rev. apply (inside_length _ _ Hrest).
Qed.

Lemma tile_slab_is_a_run_of_positions_witness :
  (cell_order_ S1_schema = TILEDB_AS_CO_ROW_MAJOR spec_env ->
   exists n,
     cell_num_in_tile_slab spec_env T_int64_t S1_schema = Ok n /\
     forall pre, exists base,
       forall k, inside [5; 5] (pre ++ [k]) ->
                 0 <= k < n /\
                 get_cell_pos spec_env T_int64_t S1_schema (pre ++ [k])
                 = Ok (base * n + k)) /\
  (cell_order_ S1_schema = TILEDB_AS_CO_COLUMN_MAJOR spec_env ->
   exists n,
     cell_num_in_tile_slab spec_env T_int64_t S1_schema = Ok n /\
     forall rest, exists base,
       forall k, inside [5; 5] (k :: rest) ->
                 0 <= k < n /\
                 get_cell_pos spec_env T_int64_t S1_schema (k :: rest)
                 = Ok (base * n + k)).
Proof.
  apply (@tile_slab_is_a_run_of_positions spec_env T_int64_t S1_schema [5; 5]).
  - repeat split; discriminate.
  - reflexivity.
  - vm_compute. reflexivity.
  - reflexivity.
  - reflexivity.
  - repeat constructor.
  - vm_compute. reflexivity.
Defined.

(** ** The overlap of a range with a tile *)

(** A loop that stores a pair of values per dimension in an array of
    twice as many entries. *)
Lemma pairs_loop (body : Z -> list Z -> res (list Z)) (M : list (Z * Z)) :
  (forall i p o,
      nth_error M i = Some p ->
      body (Z.of_nat i) o
      = (o1 <- put_ o (2 * Z.of_nat i) (fst p) ;;
         put_ o1 (2 * Z.of_nat i + 1) (snd p))) ->
  forall k i rest,
    (i + k = length M)%nat -> length rest = (2 * k)%nat ->
    for_loop_from (Z.of_nat i) k body (domain_of (firstn i M) ++ rest)
    = Ok (domain_of M).
Proof.
  intros Hbody. induction k as [|k IH]; intros i rest Hik Hrest.
  - destruct rest; [|discriminate Hrest].
    cbn [for_loop_from]. rewrite app_nil_r, firstn_all2 by lia. reflexivity.
  - destruct rest as [|x [|y rest]]; try (simpl in Hrest; lia).
    destruct (nth_error M i) as [p|] eqn:Hi.
    2:{ apply nth_error_None in Hi. lia. }
    cbn [for_loop_from]. rewrite (Hbody i p _ Hi).
    assert (Hpre : len (domain_of (firstn i M)) = 2 * Z.of_nat i).
    { unfold len. rewrite domain_of_length, length_firstn. lia. }
    rewrite put_at by (symmetry; exact Hpre). cbn [bind].
    replace (domain_of (firstn i M) ++ fst p :: y :: rest)
      with ((domain_of (firstn i M) ++ [fst p]) ++ y :: rest)
      by (rewrite <- app_assoc; reflexivity).
    rewrite put_at by (rewrite len_app, Hpre; reflexivity).
    cbn [bind].
    replace (Z.of_nat i + 1) with (Z.of_nat (Datatypes.S i)) by lia.
    replace ((domain_of (firstn i M) ++ [fst p]) ++ snd p :: rest)
      with (domain_of (firstn (Datatypes.S i) M) ++ rest).
    + apply IH; [lia|simpl in Hrest; lia].
    + rewrite (firstn_succ_nth _ _ _ Hi), domain_of_app.
      rewrite <- !app_assoc. reflexivity.
Qed.

Lemma along_reads (ds : list along) i a :
  nth_error ds i = Some a ->
  at_ (domain_of (map dom ds)) (2 * Z.of_nat i) = Ok (fst (dom a)) /\
  at_ (map ext ds) (Z.of_nat i) = Ok (ext a) /\
  at_ (map tcoord ds) (Z.of_nat i) = Ok (tcoord a) /\
  at_ (domain_of (map rng ds)) (2 * Z.of_nat i) = Ok (fst (rng a)) /\
  at_ (domain_of (map rng ds)) (2 * Z.of_nat i + 1) = Ok (snd (rng a)) /\
  at_ (domain_of (map tile_along ds)) (2 * Z.of_nat i) = Ok (fst (tile_along a)) /\
  at_ (domain_of (map tile_along ds)) (2 * Z.of_nat i + 1)
  = Ok (snd (tile_along a)) /\
  at_ (domain_of (map inner ds)) (2 * Z.of_nat i) = Ok (fst (inner a)) /\
  at_ (domain_of (map inner ds)) (2 * Z.of_nat i + 1) = Ok (snd (inner a)).
Proof.
  intros H.
  assert (Hm : forall {B : Type} (f : along -> B),
             nth_error (map f ds) i = Some (f a))
    by (intros B f; rewrite nth_error_map, H; reflexivity).
  destruct (at_domain_of _ i _ (Hm _ dom)) as [D1 _].
  destruct (at_domain_of _ i _ (Hm _ rng)) as [R1 R2].
  destruct (at_domain_of _ i _ (Hm _ tile_along)) as [T1 T2].
  destruct (at_domain_of _ i _ (Hm _ inner)) as [I1 I2].
  pose proof (at_nth _ _ _ (Hm _ ext)) as E1.
  pose proof (at_nth _ _ _ (Hm _ tcoord)) as C1.
  repeat split; assumption.
Qed.

Lemma lit_integral E T k : is_integral T = true -> fits T k -> litT E T k = k.
Proof. intros HT H. unfold litT. rewrite HT. exact H. Qed.

Lemma fits_small T k : is_integral T = true -> - 128 <= k <= 127 -> fits T k.
Proof.
  intros HT H. unfold fits.
  destruct T; try discriminate HT; cbn [wrapT];
    apply wrap_signed_id; try lia; unfold in_range; lia.
Qed.

(** The tile [compute_tile_range_overlap] computes along a dimension. *)
Lemma tile_along_value E T a :
  is_integral T = true -> exact_along T a ->
  addT E T (fst (dom a)) (mulT E T (tcoord a) (ext a)) = fst (tile_along a) /\
  subT E T (addT E T (fst (tile_along a)) (ext a)) (litT E T 1)
  = snd (tile_along a).
Proof.
  intros HT (He & F1 & F2 & F3 & F4 & F5 & F6 & F7).
  unfold addT, mulT, subT. rewrite HT.
  rewrite (lit_integral E T 1 HT (fits_small T 1 HT ltac:(lia))).
  unfold fits in *. cbn [tile_along fst snd] in *.
  rewrite F1, F2. split; [reflexivity|]. rewrite F3. exact F4.
Qed.

Lemma inner_value E T a :
  is_integral T = true -> exact_along T a ->
  subT E T (maxT T (fst (tile_along a)) (fst (rng a))) (fst (tile_along a))
  = fst (inner a) /\
  subT E T (minT T (snd (tile_along a)) (snd (rng a))) (fst (tile_along a))
  = snd (inner a).
Proof.
  intros HT (He & F1 & F2 & F3 & F4 & F5 & F6 & F7).
  unfold subT. rewrite HT, maxT_integral, minT_integral by exact HT.
  split; [exact F6|exact F7].
Qed.

Lemma flat_map_of_map {A B C : Type} (g : A -> B) (f : B -> list C) l :
  flat_map f (map g l) = flat_map (fun a => f (g a)) l.
Proof.
  induction l as [|a l IH]; [reflexivity|]. cbn [map flat_map]. rewrite IH.
  reflexivity.
Qed.

Lemma existsb_of_map {A B : Type} (g : A -> B) (t : B -> bool) l :
  existsb t (map g l) = existsb (fun a => t (g a)) l.
Proof.
  induction l as [|a l IH]; [reflexivity|]. cbn [map existsb]. rewrite IH.
  reflexivity.
Qed.

Lemma combine_of_map {A B C : Type} (f : A -> B) (h : A -> C) l :
  combine (map f l) (map h l) = map (fun a => (f a, h a)) l.
Proof.
  induction l as [|a l IH]; [reflexivity|]. cbn [map combine]. rewrite IH.
  reflexivity.
Qed.

Lemma map_of_tl {A B : Type} (f : A -> B) l : map f (tl l) = tl (map f l).
Proof. destruct l; reflexivity. Qed.

Lemma map_of_removelast {A B : Type} (f : A -> B) l :
  map f (removelast l) = removelast (map f l).
Proof.
  induction l as [|a l IH]; [reflexivity|].
  destruct l as [|b l]; [reflexivity|].
  change (removelast (a :: b :: l)) with (a :: removelast (b :: l)).
  cbn [map]. cbn [map] in IH. rewrite IH. reflexivity.
Qed.

Lemma apart_touch m q :
  length m = length q -> Forall (fun b => fst b <= snd b) m ->
  (existsb apart_at (combine m q) = false <-> touch m q).
Proof.
  intros Hl HW.
  apply (existsb_combine apart_at (fun b => fst b <= snd b)); try assumption.
  intros b r Hb. unfold apart_at. cbn [fst snd]. rewrite orb_false_iff.
  rewrite !Z.ltb_ge. lia.
Qed.

Lemma differ_within m q :
  length m = length q ->
  (existsb differ_at (combine m q) = false <-> within m q).
Proof.
  intros Hl.
  apply (existsb_combine differ_at (fun _ => True)); try assumption.
  - intros b r _. unfold differ_at. cbn [fst snd]. rewrite orb_false_iff.
    rewrite !negb_false_iff, !Z.eqb_eq. lia.
  - apply Forall_forall. intros; exact I.
Qed.

(** The first loop of [compute_tile_range_overlap]. *)
Lemma tile_range_loop E T ds n :
  is_integral T = true -> Forall (exact_along T) ds -> len ds = n ->
  for_loop n
    (fun i tile_range =>
       lo <- at_ (domain_of (map dom ds)) (2 * i) ;;
       c <- at_ (map tcoord ds) i ;;
       e <- at_ (map ext ds) i ;;
       Ok (tile_range ++ [addT E T lo (mulT E T c e);
                          subT E T (addT E T (addT E T lo (mulT E T c e)) e)
                               (litT E T 1)]))
    []
  = Ok (domain_of (map tile_along ds)).
Proof.
  intros HT HF Hn.
  rewrite (for_loop_fold ds _
             (fun a tr => Ok (tr ++ [fst (tile_along a); snd (tile_along a)]))).
  2:{ intros i a st Hi.
      destruct (along_reads ds i a Hi) as (D1 & E1 & C1 & _).
      rewrite D1, C1, E1. cbn [bind].
      rewrite Forall_forall in HF.
      destruct (tile_along_value E T a HT (HF a (nth_error_In _ _ Hi))) as [V1 V2].
      rewrite V1, V2. reflexivity. }
  2:{ unfold len in *. lia. }
  rewrite firstn_all2 by (unfold len in *; lia).
  rewrite fold_push. cbn [app]. unfold domain_of. rewrite flat_map_of_map.
  reflexivity.
Qed.

(** The second loop of [compute_tile_range_overlap]. *)
Lemma inner_loop E T ds n o :
  is_integral T = true -> Forall (exact_along T) ds ->
  len ds = n -> len o = 2 * n ->
  for_loop n
    (fun i overlap_range =>
       t0 <- at_ (domain_of (map tile_along ds)) (2 * i) ;;
       r0 <- at_ (domain_of (map rng ds)) (2 * i) ;;
       overlap_range <- put_ overlap_range (2 * i) (subT E T (maxT T t0 r0) t0) ;;
       t1 <- at_ (domain_of (map tile_along ds)) (2 * i + 1) ;;
       r1 <- at_ (domain_of (map rng ds)) (2 * i + 1) ;;
       put_ overlap_range (2 * i + 1) (subT E T (minT T t1 r1) t0))
    o
  = Ok (domain_of (map inner ds)).
Proof.
  intros HT HF Hn Ho. unfold for_loop.
  apply (pairs_loop _ (map inner ds)) with (i := 0%nat) (rest := o).
  - intros i p o' Hi. rewrite nth_error_map in Hi.
    destruct (nth_error ds i) as [a|] eqn:Ha; [|discriminate Hi].
    inversion Hi; subst p; clear Hi.
    destruct (along_reads ds i a Ha) as (_ & _ & _ & R1 & R2 & T1 & T2 & _).
    rewrite Forall_forall in HF.
    destruct (inner_value E T a HT (HF a (nth_error_In _ _ Ha))) as [V1 V2].
    rewrite T1, R1. cbn [bind]. rewrite V1.
    destruct (put_ o' (2 * Z.of_nat i) (fst (inner a))); cbn [bind];
      try reflexivity.
    rewrite T2, R2. cbn [bind]. rewrite V2. reflexivity.
  - rewrite length_map. unfold len in *. lia.
  - unfold len in *. lia.
Qed.

Lemma apart_tile_turn E T ds i a (st : Z) :
  is_integral T = true -> exact_along T a -> nth_error ds i = Some a ->
  (o0 <- at_ (domain_of (map inner ds)) (2 * Z.of_nat i) ;;
   e <- at_ (map ext ds) (Z.of_nat i) ;;
   if geT T o0 e then Ok (0, true)
   else
     o1 <- at_ (domain_of (map inner ds)) (2 * Z.of_nat i + 1) ;;
     if ltT T o1 (litT E T 0) then Ok (0, true) else Ok (st, false))
  = Ok (if apart_at (tile_along a, rng a) then (0, true) else (st, false)).
Proof.
  intros HT (He & _) Hi.
  destruct (along_reads ds i a Hi) as (_ & E1 & _ & _ & _ & _ & _ & I1 & I2).
  rewrite I1, E1. cbn [bind]. rewrite I2. cbn [bind]. unfold geT, ltT.
  rewrite !gtT_integral by exact HT.
  rewrite (lit_integral E T 0 HT (fits_small T 0 HT ltac:(lia))).
  assert (Heq : eqT T (fst (inner a)) (ext a) = (fst (inner a) =? ext a))
    by (destruct T; try discriminate HT; reflexivity).
  rewrite Heq. unfold apart_at, inner, tile_along. cbn [fst snd].
  set (t0 := fst (dom a) + tcoord a * ext a).
  destruct (Z.ltb_spec (ext a) (Z.max t0 (fst (rng a)) - t0));
    destruct (Z.eqb_spec (Z.max t0 (fst (rng a)) - t0) (ext a));
    destruct (Z.ltb_spec (t0 + ext a - 1) (Z.max t0 (fst (rng a))));
    destruct (Z.ltb_spec (Z.min (t0 + ext a - 1) (snd (rng a)) - t0) 0);
    destruct (Z.ltb_spec (Z.min (t0 + ext a - 1) (snd (rng a))) t0);
    cbn [orb]; try reflexivity; lia.
Qed.

Lemma differ_tile_turn E T ds i a (st : Z) :
  is_integral T = true -> exact_along T a -> nth_error ds i = Some a ->
  (e <- at_ (map ext ds) (Z.of_nat i) ;;
   d <- differs T (domain_of (map inner ds)) (Z.of_nat i)
          (litT E T 0) (subT E T e (litT E T 1)) ;;
   if d then Ok (2, true) else Ok (st, false))
  = Ok (if differ_at (tile_along a, rng a) then (2, true) else (st, false)).
Proof.
  intros HT (He & _ & _ & _ & _ & F5 & _) Hi.
  destruct (along_reads ds i a Hi) as (_ & E1 & _ & _ & _ & _ & _ & I1 & I2).
  rewrite E1. cbn [bind]. unfold differs. rewrite I1. cbn [bind].
  rewrite I2. cbn [bind].
  rewrite (lit_integral E T 0 HT (fits_small T 0 HT ltac:(lia))).
  rewrite (lit_integral E T 1 HT (fits_small T 1 HT ltac:(lia))).
  assert (Hs : subT E T (ext a) 1 = ext a - 1)
    by (unfold subT; rewrite HT; exact F5).
  rewrite Hs, !neT_integral by exact HT.
  unfold differ_at, inner, tile_along. cbn [fst snd].
  set (t0 := fst (dom a) + tcoord a * ext a).
  destruct (Z.eqb_spec (Z.max t0 (fst (rng a)) - t0) 0);
    destruct (Z.eqb_spec (Z.max t0 (fst (rng a))) t0);
    destruct (Z.eqb_spec (Z.min (t0 + ext a - 1) (snd (rng a)) - t0) (ext a - 1));
    destruct (Z.eqb_spec (Z.min (t0 + ext a - 1) (snd (rng a))) (t0 + ext a - 1));
    cbn [negb orb bind]; try reflexivity; lia.
Qed.



(** ** Compression *)

Lemma set_types_attribute_compression E types i S S' :
  set_types_attribute E types i S = Ok S' -> compression_ S' = compression_ S.
Proof.
  unfold set_types_attribute. intros H.
  apply bind_Ok_inv in H as (tv & _ & H).
  destruct (strtok_all tv) as [|ty rest]; [discriminate H|].
  apply bind_Ok_inv in H as (S1 & H1 & H).
  destruct (type_of_name ty); [|discriminate H].
  inversion H; subst S'; clear H. cbn.
  destruct rest as [|tok rest']; [inversion H1; reflexivity|].
  apply bind_Ok_inv in H1 as (S2 & H1 & H2).
  destruct rest'; [|discriminate H2]. inversion H2; subst S2; clear H2.
  destruct (String.eqb tok "var"); [inversion H1; reflexivity|].
  destruct (negb (is_positive_integer E tok)); [discriminate H1|].
  apply bind_Ok_inv in H1 as (num & _ & H1). inversion H1; reflexivity.
Qed.

Lemma set_types_compression E types S S' :
  set_types E types S = Ok S' -> compression_ S' = compression_ S.
Proof.
  unfold set_types. intros H. destruct types as [types|]; [|discriminate H].
  apply bind_Ok_inv in H as (S1 & H1 & H).
  apply (for_loop_preserves (fun s => compression_ s = compression_ S)) in H1;
    [| intros j s s' Hs Hb; rewrite <- Hs;
       eapply set_types_attribute_compression, Hb
     | reflexivity ].
  apply bind_Ok_inv in H as (ty & _ & H).
  apply bind_Ok_inv in H as (S2 & H2 & H).
  apply bind_Ok_inv in H as (tsz & _ & H).
  apply bind_Ok_inv in H as (csz & _ & H).
  inversion H; subst S'; clear H. cbn.
  destruct (String.eqb ty "char:var").
  - apply bind_Ok_inv in H2 as (d & _ & H2). inversion H2; subst S2. exact H1.
  - destruct (dense_ (with_key_value_ false S1) &&
              (String.eqb ty "float32" || String.eqb ty "float64"));
      [discriminate H2|].
    destruct (String.eqb ty "int32"); [inversion H2; subst S2; exact H1|].
    destruct (String.eqb ty "int64"); [inversion H2; subst S2; exact H1|].
    destruct (String.eqb ty "float32"); [inversion H2; subst S2; exact H1|].
    destruct (String.eqb ty "float64"); [inversion H2; subst S2; exact H1|].
    discriminate H2.
Qed.

Lemma at_app_old {A : Type} (l : list A) x i a :
  at_ l i = Ok a -> at_ (l ++ [x]) i = Ok a.
Proof.
  intros H. apply at_Ok_inv in H as [Hi H].
  rewrite <- (Z2Nat.id i) by lia. apply at_nth.
  rewrite nth_error_app1 by (unfold len in Hi; lia). exact H.
Qed.

(** The codes [set_compression] appends, one per token. *)
Lemma set_compression_value E compression S S' :
  compression_ S = [] -> 0 <= attribute_num_ S ->
  set_compression E compression S = Ok S' ->
  attribute_num_ S' = attribute_num_ S /\
  forall i, 0 <= i <= attribute_num_ S ->
    match compression with
    | None => at_ (compression_ S') i = Ok (TILEDB_AS_CMP_NONE E)
    | Some l =>
        exists tok,
          at_ l i = Ok tok /\
          ((tok = "NONE"%string /\
            at_ (compression_ S') i = Ok (TILEDB_AS_CMP_NONE E)) \/
           (tok = "GZIP"%string /\
            at_ (compression_ S') i = Ok (TILEDB_AS_CMP_GZIP E)))
    end.
Proof.
  intros Hnil Hn H.
  set (P := fun (j : Z) (s : ArraySchema) =>
              attribute_num_ s = attribute_num_ S /\
              len (compression_ s) = j /\
              forall i, 0 <= i < j ->
                match compression with
                | None => at_ (compression_ s) i = Ok (TILEDB_AS_CMP_NONE E)
                | Some l =>
                    exists tok,
                      at_ l i = Ok tok /\
                      ((tok = "NONE"%string /\
                        at_ (compression_ s) i = Ok (TILEDB_AS_CMP_NONE E)) \/
                       (tok = "GZIP"%string /\
                        at_ (compression_ s) i = Ok (TILEDB_AS_CMP_GZIP E)))
                end).
  assert (HP : P (Z.of_nat (Z.to_nat (attribute_num_ S + 1))) S').
  { unfold set_compression in H. destruct compression as [l|].
    - eapply (for_loop_inv P); [| |exact H].
      + intros j s s' Hj (Ha & Hl & Hall) Hb.
        apply bind_Ok_inv in Hb as (tok & Htok & Hb).
        assert (Hstep : forall v,
                   (tok = "NONE"%string /\ v = TILEDB_AS_CMP_NONE E) \/
                   (tok = "GZIP"%string /\ v = TILEDB_AS_CMP_GZIP E) ->
                   P (j + 1) (with_compression_ (compression_ s ++ [v]) s)).
        { intros v Hv. split; [exact Ha|]. members. split.
          - rewrite len_app, len_cons, len_nil. lia.
          - intros i Hi. destruct (Z.eq_dec i j) as [->|Hne].
            + exists tok. split; [exact Htok|].
              rewrite <- Hl, at_app_last.
              destruct Hv as [[-> ->]|[-> ->]]; [left|right]; auto.
            + destruct (Hall i ltac:(lia)) as (t & Ht & Hc).
              exists t. split; [exact Ht|].
              destruct Hc as [[-> Hc]|[-> Hc]]; [left|right];
                (split; [reflexivity|apply at_app_old; exact Hc]). }
        destruct (String.eqb_spec tok "NONE").
        * inversion Hb; subst s'. apply Hstep. left. auto.
        * destruct (String.eqb_spec tok "GZIP"); [|discriminate Hb].
          inversion Hb; subst s'. apply Hstep. right. auto.
      + split; [reflexivity|]. split; [rewrite Hnil; reflexivity|].
        intros i Hi. lia.
    - eapply (for_loop_inv P); [| |exact H].
      + intros j s s' Hj (Ha & Hl & Hall) Hb.
        inversion Hb; subst s'. split; [exact Ha|]. members. split.
        * rewrite len_app, len_cons, len_nil. lia.
        * intros i Hi. destruct (Z.eq_dec i j) as [->|Hne].
          -- rewrite <- Hl. apply at_app_last.
          -- apply at_app_old. apply Hall. lia.
      + split; [reflexivity|]. split; [rewrite Hnil; reflexivity|].
        intros i Hi. lia. }
  destruct HP as (Ha & _ & Hall). split; [exact Ha|].
  intros i Hi. apply Hall. lia.
Qed.

(** X22: in a schema that [init] has built on a fresh object,
    [compression] gives for every attribute and for the coordinates the
    code of the token the description holds at that place, "NONE" or
    "GZIP"; and the code of no compression for all of them when the
    description holds no tokens. *)
Theorem compression_follows_the_tokens
        (E : Env) (c : C_API.ArraySchemaC) (S : ArraySchema) (i : Z) :
  Env_ok E -> init E c ArraySchema_new = Ok S ->
  0 <= i <= attribute_num_ S ->
  match C_API.compression_ c with
  | None => compression S i = Ok (TILEDB_AS_CMP_NONE E)
  | Some l =>
      exists tok,
        at_ l i = Ok tok /\
        ((tok = "NONE"%string /\ compression S i = Ok (TILEDB_AS_CMP_NONE E)) \/
         (tok = "GZIP"%string /\ compression S i = Ok (TILEDB_AS_CMP_GZIP E)))
  end.
Proof.
  intros HE H Hi.
  apply init_steps in H as (S2 & S4 & S5 & S8 & S9 & S10 & S11 & S12
      & H2 & H4 & H5 & H8 & H9 & H10 & H11 & H12 & Hfin).
  apply set_attributes_shape in H2 as (Hn & names & HS2 & _).
  unfold set_array_name in HS2.
  apply set_dimensions_shape in H4 as (_ & dnames & HS4 & _).
  rewrite set_capacity_shape in HS4.
  assert (Hn4 : 0 <= attribute_num_ S4) by (rewrite HS4, HS2; members; lia).
  pose proof (set_compression_shape _ _ _ _ Hn4 H5) as (cmp & HS5 & _).
  apply set_compression_value in H5 as (Han5 & Hval);
    [| rewrite HS4, HS2; reflexivity | rewrite HS4, HS2; members; lia ].
  pose proof (set_types_compression _ _ _ _ H8) as Hc8.
  unfold set_dense in Hc8, H8. rewrite set_consolidation_step_shape in Hc8, H8.
  members_in Hc8.
  apply (set_types_key_value _ _ _ _ HE) in H8 as (_ & _ & _ & _ & _ & Han8 & _);
    [| rewrite HS5, HS4, HS2; reflexivity
     | rewrite HS5, HS4, HS2; members; lia ].
  members_in Han8.
  apply set_tile_extents_shape in H9. apply set_cell_order_shape in H10.
  apply set_tile_order_shape in H11. apply set_domain_shape in H12.
  apply finalize_shape in Hfin.
  assert (Hcs : compression_ S = compression_ S5).
  { rewrite <- Hc8. rewrite Hfin; members. rewrite H12; members.
    rewrite H11; members. rewrite H10; members. rewrite H9; members.
    reflexivity. }
  assert (Han : attribute_num_ S = attribute_num_ S4).
  { rewrite <- Han5, <- Han8. rewrite Hfin; members. rewrite H12; members.
    rewrite H11; members. rewrite H10; members. rewrite H9; members.
    reflexivity. }
  unfold compression. rewrite Hcs.
  replace ((0 <=? i) && (i <=? attribute_num_ S)) with true
    by (symmetry; apply andb_true_iff; split; apply Z.leb_le; lia).
  cbn [assert bind]. apply Hval. rewrite <- Han. exact Hi.
Qed.

Lemma compression_follows_the_tokens_witness :
  match C_API.compression_ S1_input with
  | None => compression S1_schema 1 = Ok (TILEDB_AS_CMP_NONE spec_env)
  | Some l =>
      exists tok,
        at_ l 1 = Ok tok /\
        ((tok = "NONE"%string /\
          compression S1_schema 1 = Ok (TILEDB_AS_CMP_NONE spec_env)) \/
         (tok = "GZIP"%string /\
          compression S1_schema 1 = Ok (TILEDB_AS_CMP_GZIP spec_env)))
  end.
Proof.
  apply (@compression_follows_the_tokens spec_env S1_input S1_schema 1).
  - exact spec_env_ok.
  - vm_compute. reflexivity.
  - simpl. lia.
Defined.

(* ================================================================= *)
(** ** The derived fields and the members they do not read *)


Lemma res_rel_Ok {A : Type} (R : A -> A -> Prop) (m m' : res A) a :
  res_rel R m m' -> m = Ok a -> exists a', m' = Ok a' /\ R a a'.
Proof.
  intros H ->. destruct m'; simpl in H; try contradiction. eauto.
Qed.

Lemma compute_cell_num_per_tile_retouch v k S :
  res_rel (fun s s' => s' = retouch v k s)
          (compute_cell_num_per_tile S) (compute_cell_num_per_tile (retouch v k S)).
Proof.
  assert (HT : forall T,
             res_rel (fun s s' => s' = retouch v k s)
                     (compute_cell_num_per_tile_T T S)
                     (compute_cell_num_per_tile_T T (retouch v k S))).
  { intros T. unfold compute_cell_num_per_tile_T.
    change (tile_extents_ (retouch v k S)) with (tile_extents_ S).
    change (dim_num_ (retouch v k S)) with (dim_num_ S).
    destruct (tile_extents_ S); [|reflexivity].
    unfold for_loop.
    apply (for_loop_from_rel (fun _ s s' => s' = retouch v k s)); [|reflexivity].
    intros j s s' _ ->.
    destruct (at_ _ j); simpl; auto. }
  unfold compute_cell_num_per_tile.
  change (dense_ (retouch v k S)) with (dense_ S).
  change (types_ (retouch v k S)) with (types_ S).
  change (attribute_num_ (retouch v k S)) with (attribute_num_ S).
  change (tile_extents_ (retouch v k S)) with (tile_extents_ S).
  change (capacity_ (retouch v k S)) with (capacity_ S).
  destruct (dense_ S).
  - destruct (at_ (types_ S) (attribute_num_ S)) as [[[]|]| | |]; simpl; auto;
      apply HT.
  - destruct (tile_extents_ S); reflexivity.
Qed.

Lemma compute_tile_sizes_retouch E v k S :
  res_rel (fun s s' => s' = retouch v k s)
          (compute_tile_sizes E S) (compute_tile_sizes E (retouch v k S)).
Proof.
  unfold compute_tile_sizes.
  change (fill (attribute_num_ (retouch v k S) + 1)
               (fun i => v0 <- var_size E (retouch v k S) i ;;
                         if v0
                         then Ok (to_size_t (cell_num_per_tile_ (retouch v k S)
                                             * TILEDB_CELL_VAR_OFFSET_SIZE E))
                         else c <- cell_size (retouch v k S) i ;;
                              Ok (to_size_t (cell_num_per_tile_ (retouch v k S) * c))))
    with (fill (attribute_num_ S + 1)
               (fun i => v0 <- var_size E S i ;;
                         if v0
                         then Ok (to_size_t (cell_num_per_tile_ S
                                             * TILEDB_CELL_VAR_OFFSET_SIZE E))
                         else c <- cell_size S i ;;
                              Ok (to_size_t (cell_num_per_tile_ S * c)))).
  destruct (fill _ _); simpl; auto.
Qed.

Lemma compute_tile_domain_retouch E v k S :
  res_rel (fun s s' => s' = retouch v k s)
          (compute_tile_domain E S) (compute_tile_domain E (retouch v k S)).
Proof.
  assert (HT : forall T,
             res_rel (fun s s' => s' = retouch v k s)
                     (compute_tile_domain_T E T S)
                     (compute_tile_domain_T E T (retouch v k S))).
  { intros T. unfold compute_tile_domain_T.
    change (tile_extents_ (retouch v k S)) with (tile_extents_ S).
    change (tile_domain_ (retouch v k S)) with (tile_domain_ S).
    change (domain_ (retouch v k S)) with (domain_ S).
    change (dim_num_ (retouch v k S)) with (dim_num_ S).
    destruct (tile_extents_ S); [|reflexivity].
    destruct (assert _); simpl; auto.
    destruct (for_loop _ _ _); simpl; auto. }
  unfold compute_tile_domain.
  change (types_ (retouch v k S)) with (types_ S).
  change (attribute_num_ (retouch v k S)) with (attribute_num_ S).
  destruct (at_ (types_ S) (attribute_num_ S)) as [[[]|]| | |]; simpl; auto;
    apply HT.
Qed.

Lemma init_hilbert_curve_retouch E v k S :
  res_rel (fun s s' => s' = retouch v k s)
          (init_hilbert_curve E S) (init_hilbert_curve E (retouch v k S)).
Proof.
  assert (HT : forall T S,
             res_rel (fun s s' => s' = retouch v k s)
                     (compute_hilbert_bits E T S)
                     (compute_hilbert_bits E T (retouch v k S))).
  { intros T S1. unfold compute_hilbert_bits.
    change (domain_ (retouch v k S1)) with (domain_ S1).
    change (dim_num_ (retouch v k S1)) with (dim_num_ S1).
    destruct (is_integral T); destruct (for_loop _ _ _); simpl; auto. }
  unfold init_hilbert_curve.
  change (cell_order_ (retouch v k S)) with (cell_order_ S).
  change (coords_for_hilbert_ (retouch v k S)) with (coords_for_hilbert_ S).
  destruct (negb _); [reflexivity|].
  cbv zeta.
  set (S1 := match coords_for_hilbert_ S with
             | Some _ => S
             | None => with_coords_for_hilbert_ (Some (dim_num_ S)) S
             end).
  assert (H1 : match coords_for_hilbert_ S with
               | Some _ => retouch v k S
               | None => with_coords_for_hilbert_ (Some (dim_num_ (retouch v k S)))
                           (retouch v k S)
               end = retouch v k S1).
  { unfold S1. destruct (coords_for_hilbert_ S); reflexivity. }
  rewrite H1.
  change (types_ (retouch v k S1)) with (types_ S1).
  change (attribute_num_ (retouch v k S1)) with (attribute_num_ S1).
  destruct (at_ (types_ S1) (attribute_num_ S1)) as [ct| | |]; simpl; auto.
  eapply res_rel_bind with (R := fun s s' => s' = retouch v k s).
  - destruct ct as [[]|]; try apply HT; reflexivity.
  - intros s s' ->.
    change (hilbert_bits_ (retouch v k s)) with (hilbert_bits_ s).
    destruct (hilbert_bits_ s); simpl; auto.
Qed.

(** The derived fields depend neither on the tile order nor on the count
    of variable-sized attributes. *)
Lemma finalize_retouch E v k S S' :
  finalize E S = Ok S' -> finalize E (retouch v k S) = Ok (retouch v k S').
Proof.
  intros H.
  assert (R : res_rel (fun s s' => s' = retouch v k s)
                      (finalize E S) (finalize E (retouch v k S))).
  { unfold finalize.
    eapply res_rel_bind; [apply compute_cell_num_per_tile_retouch|].
    intros s1 ? ->.
    eapply res_rel_bind; [apply compute_tile_sizes_retouch|].
    intros s2 ? ->.
    eapply res_rel_bind; [apply compute_tile_domain_retouch|].
    intros s3 ? ->.
    apply init_hilbert_curve_retouch. }
  destruct (res_rel_Ok _ _ _ _ R H) as (a' & Ha & ->). exact Ha.
Qed.

(* ================================================================= *)
(** ** The round trip *)

Lemma with_var_attribute_num_retouch k S :
  with_var_attribute_num_ k S = retouch (tile_order_ S) k S.
Proof. destruct S; reflexivity. Qed.

(** What [deserialize] makes of the bytes of a schema that [init] has
    built: the schema, with its variable-sized attributes counted anew. *)
Lemma init_round_trip E c S :
  Env_ok E -> init E c ArraySchema_new = Ok S -> typed S -> sizes_fit S ->
  exists buffer,
    serialize E S = Ok buffer /\
    deserialize E buffer ArraySchema_new
    = Ok (with_var_attribute_num_ (count_var E (val_num_ S)) S).
Proof.
  intros HE Hi HT HF.
  destruct (init_codec E c S HE Hi HT HF) as (S0 & Hfin & _ & _ & _ & Hs & _ & Hd).
  exists (layout E S0). split; [exact Hs|].
  rewrite Hd, with_var_attribute_num_retouch.
  rewrite (finalize_retouch _ _ _ _ _ Hfin).
  pose proof (finalize_shape _ _ _ Hfin) as HS.
  replace (tile_order_ S0) with (tile_order_ S) by (rewrite HS; reflexivity).
  rewrite <- with_var_attribute_num_retouch. reflexivity.
Qed.

(** C1, where the code departs from it: [init] accepts the type token
    [int32:4294967295], stores the number of values cut to an [int], which
    is -1, the mark of variable size, and counts no variable-sized
    attribute; [deserialize] finds the mark in the serialized schema and
    counts one.  The schema read back is not the schema written. *)
Theorem round_trip_changes_the_variable_count :
  exists buffer S',
    init spec_env wrapped_input ArraySchema_new = Ok wrapped_schema /\
    val_num_ wrapped_schema = [TILEDB_AS_VAR_SIZE spec_env] /\
    var_attribute_num_ wrapped_schema = 0 /\
    serialize spec_env wrapped_schema = Ok buffer /\
    deserialize spec_env buffer ArraySchema_new = Ok S' /\
    var_attribute_num_ S' = 1 /\
    S' <> wrapped_schema.
Proof.
  destruct (serialize spec_env wrapped_schema) as [buffer| | |] eqn:Hs;
    try (vm_compute in Hs; discriminate Hs).
  destruct (deserialize spec_env buffer ArraySchema_new) as [S'| | |] eqn:Hd;
    try (vm_compute in Hs; inversion Hs; subst buffer;
         vm_compute in Hd; discriminate Hd).
  exists buffer, S'.
  assert (Hv : var_attribute_num_ S' = 1).
  { vm_compute in Hs. inversion Hs; subst buffer.
    vm_compute in Hd. inversion Hd; subst S'. reflexivity. }
  split; [vm_compute; reflexivity|].
  split; [reflexivity|]. split; [reflexivity|].
  split; [reflexivity|]. split; [exact Hd|]. split; [exact Hv|].
  intros Heq. rewrite Heq in Hv. discriminate Hv.
Qed.

(** X23: a schema that [init] has built on a fresh object, whose members
    of integer type hold values of their type and whose sizes fit the
    [int] fields of the format, serializes to a buffer that [deserialize]
    reads back, on a fresh object, into the same schema with
    [var_attribute_num_] counted anew from [val_num_]: every other member,
    primary and derived, is the one of the schema; serializing the result
    gives the same buffer again; and the result is the schema itself when
    its [var_attribute_num_] is the number of marks in [val_num_]. *)
Theorem round_trip_recounts_the_variable_attributes
        (E : Env) (c : C_API.ArraySchemaC) (S : ArraySchema) :
  Env_ok E -> init E c ArraySchema_new = Ok S -> typed S -> sizes_fit S ->
  exists buffer S',
    serialize E S = Ok buffer /\
    deserialize E buffer ArraySchema_new = Ok S' /\
    S' = with_var_attribute_num_ (count_var E (val_num_ S)) S /\
    serialize E S' = Ok buffer /\
    (var_attribute_num_ S = count_var E (val_num_ S) -> S' = S).
Proof.
  intros HE Hi HT HF.
  destruct (init_round_trip E c S HE Hi HT HF) as (buffer & Hs & Hd).
  exists buffer, (with_var_attribute_num_ (count_var E (val_num_ S)) S).
  split; [exact Hs|]. split; [exact Hd|]. split; [reflexivity|].
  split; [exact Hs|].
  intros <-. apply with_var_attribute_num_same.
Qed.

Lemma round_trip_recounts_the_variable_attributes_witness :
  exists buffer S',
    serialize spec_env S4_schema = Ok buffer /\
    deserialize spec_env buffer ArraySchema_new = Ok S' /\
    S' = with_var_attribute_num_ (count_var spec_env (val_num_ S4_schema)) S4_schema /\
    serialize spec_env S' = Ok buffer /\
    (var_attribute_num_ S4_schema = count_var spec_env (val_num_ S4_schema) ->
     S' = S4_schema).
Proof.
  apply (@round_trip_recounts_the_variable_attributes spec_env S4_input S4_schema).
  - exact spec_env_ok.
  - vm_compute. reflexivity.
  - unfold typed, in_int, in_int64, in_range. simpl.
    repeat split; try lia. repeat constructor; lia.
  - unfold sizes_fit. simpl.
    split; [vm_compute; discriminate|].
    split; [repeat constructor; vm_compute; discriminate|].
    split; [repeat constructor; vm_compute; discriminate|].
    vm_compute; discriminate.
Defined.

(* ================================================================= *)
(** ** Malformed buffers *)

Lemma le_bytes_char (y : byte) : le_bytes 1 (to_char (to_char (Z_of_byte y))) = [y].
Proof. destruct y; reflexivity. Qed.

Lemma in_char_to_char z : in_char (to_char z).
Proof. apply wrap_signed_range. lia. Qed.

(** The bytes of a schema up to the tile order, and after it. *)
Lemma layout_tile_order E S :
  exists b1 b2,
    len b1 = size (array_name_ S) + 6 /\
    forall v, layout E (with_tile_order_ v S) = b1 ++ le_bytes 1 (to_char v) ++ b2.
Proof.
  exists (layout_string (array_name_ S) ++ bytes_of_bool (dense_ S)
          ++ bytes_of_bool (key_value_ S)).
  eexists. split.
  - rewrite !len_app, len_layout_string, !len_bytes_of_bool. lia.
  - intros v. unfold layout. members. rewrite <- !app_assoc. reflexivity.
Qed.

Lemma with_tile_order_same S : with_tile_order_ (tile_order_ S) S = S.
Proof. destruct S; reflexivity. Qed.

Lemma prefinal_tile_order E v S :
  in_char v -> prefinal E S -> prefinal E (with_tile_order_ v S).
Proof.
  intros Hv [P1 P2 P3 P4 P5 P6 P7 [P8 P8'] P9 P10].
  constructor; try assumption. split; assumption.
Qed.

(** Every value of the tile order byte in the bytes of a schema that
    [init] has built. *)
Lemma any_tile_order_is_read E c S :
  Env_ok E -> init E c ArraySchema_new = Ok S -> typed S -> sizes_fit S ->
  exists b1 x b2,
    serialize E S = Ok (b1 ++ x :: b2) /\
    len b1 = size (array_name_ S) + 6 /\
    forall y : byte,
      deserialize E (b1 ++ y :: b2) ArraySchema_new
      = Ok (with_tile_order_ (to_char (Z_of_byte y))
              (with_var_attribute_num_ (count_var E (val_num_ S)) S)).
Proof.
  intros HE Hi HT HF.
  destruct (init_codec E c S HE Hi HT HF)
    as (S0 & Hfin & P & HT0 & HF0 & Hs & _ & _).
  destruct (layout_tile_order E S0) as (b1 & b2 & Hb1 & Hlay).
  pose proof (finalize_shape _ _ _ Hfin) as HS.
  exists b1, (byte_of_Z (to_char (tile_order_ S0))), b2.
  split; [|split].
  - rewrite Hs. f_equal. rewrite <- (with_tile_order_same S0) at 1.
    rewrite Hlay. reflexivity.
  - rewrite Hb1. rewrite HS. reflexivity.
  - intros y.
    pose proof (in_char_to_char (Z_of_byte y)) as Hv.
    pose proof (prefinal_tile_order E _ S0 Hv P) as P'.
    pose proof (deserialize_prefinal HE P' HT0 HF0) as Hd.
    rewrite Hlay, le_bytes_char in Hd. cbn [app] in Hd.
    rewrite Hd.
    change (with_var_attribute_num_
              (count_var E (val_num_ (with_tile_order_ (to_char (Z_of_byte y)) S0)))
              (with_tile_order_ (to_char (Z_of_byte y)) S0))
      with (retouch (to_char (Z_of_byte y)) (count_var E (val_num_ S0)) S0).
    rewrite (finalize_retouch _ _ _ _ _ Hfin).
    replace (val_num_ S0) with (val_num_ S) by (rewrite HS; reflexivity).
    reflexivity.
Qed.

(** C5, amended: [deserialize] has no error return.  Whatever the buffer
    and the state of the object, it does not return TILEDB_AS_ERR: it
    returns success, or it stops at a failed assertion or in undefined
    behaviour.  When it accepts a buffer of less than 2^63 bytes, it stops
    at a failed assertion on every proper prefix of the buffer.  And in
    the bytes of a schema that [init] has built, the byte of the tile
    order, which follows the name and the two flags, can be replaced by
    any byte: [deserialize] returns with success the schema with that
    byte as its tile order (and, as on the bytes themselves, with its
    variable-sized attributes counted anew). *)
Theorem deserialize_never_returns_an_error (E : Env) :
  (forall (array_schema_bin : list byte) (S : ArraySchema),
      deserialize E array_schema_bin S <> Err) /\
  (forall (array_schema_bin : list byte) (S0 S : ArraySchema) (n : Z),
      deserialize E array_schema_bin S0 = Ok S ->
      len array_schema_bin < 2 ^ 63 ->
      0 <= n < len array_schema_bin ->
      deserialize E (firstn (Z.to_nat n) array_schema_bin) S0 = Fail) /\
  (forall (c : C_API.ArraySchemaC) (S : ArraySchema),
      Env_ok E -> init E c ArraySchema_new = Ok S -> typed S -> sizes_fit S ->
      exists b1 x b2,
        serialize E S = Ok (b1 ++ x :: b2) /\
        len b1 = size (array_name_ S) + 6 /\
        forall y : byte,
          deserialize E (b1 ++ y :: b2) ArraySchema_new
          = Ok (with_tile_order_ (to_char (Z_of_byte y))
                  (with_var_attribute_num_ (count_var E (val_num_ S)) S))).
Proof.
  split; [|split].
  - intros b S. apply deserialize_not_Err.
  - intros b S0 S n H Hsmall Hn.
    assert (Hl : len (firstn (Z.to_nat n) b) = n)
      by (unfold len in *; rewrite length_firstn; lia).
    assert (Hagree :
              firstn (Z.to_nat (Z.min (len b) (len (firstn (Z.to_nat n) b)))) b
              = firstn (Z.to_nat (Z.min (len b) (len (firstn (Z.to_nat n) b))))
                       (firstn (Z.to_nat n) b)).
    { rewrite Hl, Z.min_r by lia. rewrite firstn_firstn, Nat.min_id. reflexivity. }
    destruct (deserialize_follows b (firstn (Z.to_nat n) b) Hagree Hsmall E S0
                ltac:(lia) S H) as [Hf|[_ []]].
    exact Hf.
  - intros c S HE Hi HT HF. exact (any_tile_order_is_read E c S HE Hi HT HF).
Qed.

Lemma deserialize_never_returns_an_error_witness :
  deserialize spec_env S1_bytes_truncated ArraySchema_new = Fail /\
  exists b1 x b2,
    serialize spec_env S1_schema = Ok (b1 ++ x :: b2) /\
    len b1 = size (array_name_ S1_schema) + 6 /\
    forall y : byte,
      deserialize spec_env (b1 ++ y :: b2) ArraySchema_new
      = Ok (with_tile_order_ (to_char (Z_of_byte y))
              (with_var_attribute_num_
                 (count_var spec_env (val_num_ S1_schema)) S1_schema)).
Proof.
  destruct (deserialize_never_returns_an_error spec_env) as (_ & Hcut & Hany).
  split.
  - change S1_bytes_truncated with (firstn (Z.to_nat 50) S1_bytes).
    apply (Hcut S1_bytes ArraySchema_new S1_schema 50).
    + vm_compute. reflexivity.
    + vm_compute. reflexivity.
    + vm_compute. split; [discriminate|reflexivity].
  - apply (Hany S1_input S1_schema).
    + exact spec_env_ok.
    + vm_compute. reflexivity.
    + unfold typed, in_int, in_int64, in_range. simpl.
      repeat split; try lia. repeat constructor; lia.
    + unfold sizes_fit. simpl.
      split; [vm_compute; discriminate|].
      split; [repeat constructor; vm_compute; discriminate|].
      split; [repeat constructor; vm_compute; discriminate|].
      vm_compute; discriminate.
Defined.
